(** * wifi-mesh: Hub and Relay audio relay core

    A shallow embedding of the two firmware images of the repository:
    the Hub ([src/src/main.cpp]) and the Relay
    ([src/esp32_b_project/src/main.cpp]).  Machine integers are [Z] with the
    wrap-around written out, bytes are [Z] in [0, 256), C arrays are lists
    updated in place, and every C function that mutates file-scope state is a
    function from the state record to the new state record (and to whatever it
    hands to the radio or to the peripheral characteristic). *)

From Stdlib Require Import ZArith Lia Bool String.
From stdpp Require Import base tactics option list list_numbers.

Local Open Scope Z_scope.

(** ** Machine integers and memory primitives *)

Definition byte := Z.

Definition to_u8 (x : Z) : Z := x mod 256.
Definition to_u16 (x : Z) : Z := x mod 65536.
Definition to_u32 (x : Z) : Z := x mod 4294967296.

(** Two's-complement reading of the low 16 / 32 bits ([int16_t], [int]). *)
Definition to_i16 (x : Z) : Z :=
  let u := x mod 65536 in if u <? 32768 then u else u - 65536.
Definition to_i32 (x : Z) : Z :=
  let u := x mod 4294967296 in if u <? 2147483648 then u else u - 4294967296.

(** [memcpy(dst, src, n)]: the first [n] bytes of [dst] are replaced by the
    first [n] bytes of [src]; the rest of [dst] keeps what it held. *)
Definition memcpy (dst src : list byte) (n : nat) : list byte :=
  take n src ++ drop n dst.

(** [memcpy(dst + off, src, n)]. *)
Definition memcpy_at (dst : list byte) (off : nat) (src : list byte) (n : nat)
  : list byte :=
  take off dst ++ take n src ++ drop (off + n) dst.

(** [memmove(dst, dst + off, n)]: the source range is read before anything is
    written. *)
Definition memmove_front (dst : list byte) (off n : nat) : list byte :=
  take n (drop off dst) ++ drop n dst.

(** [memset(dst + off, v, n)]. *)
Definition memset_at (dst : list byte) (off : nat) (v : byte) (n : nat)
  : list byte :=
  take off dst ++ replicate n v ++ drop (off + n) dst.

(** ** RingQueue: the lock-free single-producer / single-consumer queue

    [bleInPushFromISR] of the Hub and [notifyQueuePushFromISR] of the Relay
    are the same code up to the ring mask, the size of the slot's byte array
    and the extra [isPcm8] tag of the Relay's slot; the section is
    parametrised by these three.  [pop] is the Hub's [bleInPop], whose item
    has no tag.  The Relay's [notifyQueuePop] differs from it in what it
    hands out: it copies [length] and [data] and leaves the caller's
    [isPcm8] alone; it is [Relay.Consumer.notifyQueuePop] below. *)

Module RingQueue.
Section Ring.
Context {Tag : Type}.
(** log2 of the number of slots: the mask is [Z.ones RING_BITS]. *)
Variable RING_BITS : Z.
Definition RING_SIZE : Z := 2 ^ RING_BITS.
Definition RING_MASK : Z := Z.ones RING_BITS.

Record Item := mkItem {
  length : Z;            (* uint16_t length *)
  data : list byte;      (* uint8_t data[DATA_SIZE] *)
  tag : Tag              (* uint8_t isPcm8 (Relay only) *)
}.

Record Queue := mkQueue {
  head : Z;              (* volatile uint16_t head *)
  tail : Z;              (* volatile uint16_t tail *)
  slots : list Item      (* Item queue[RING_SIZE] *)
}.

Definition slot_index (i : Z) : nat := Z.to_nat (Z.land i RING_MASK).

Definition write_slot (len : Z) (buf : list byte) (t : Tag) (slot : Item) : Item :=
  {| length := len;
     data := memcpy (data slot) buf (Z.to_nat len);
     tag := t |}.

(** [PushFromISR(buf, len, tag)]: returns the flag and the queue. *)
Definition push (q : Queue) (buf : list byte) (len : Z) (t : Tag)
  : bool * Queue :=
  let len := if 256 <? len then 256 else len in
  let nextHead := to_u16 (Z.land (head q + 1) RING_MASK) in
  if nextHead =? tail q then (false, q)
  else
    (true,
     {| head := nextHead;
        tail := tail q;
        slots := alter (write_slot len buf t) (slot_index (head q)) (slots q) |}).

(** [Pop(out)]: [out] is the caller's item, overwritten on success. *)
Definition pop (q : Queue) (out : Item) : bool * Queue * Item :=
  let tl := tail q in
  let hd := head q in
  if tl =? hd then (false, q, out)
  else
    match slots q !! slot_index tl with
    | Some slot =>
        (true,
         {| head := head q;
            tail := to_u16 (Z.land (tl + 1) RING_MASK);
            slots := slots q |},
         {| length := length slot;
            data := memcpy (data out) (data slot) (Z.to_nat (length slot));
            tag := tag slot |})
    | None => (false, q, out)
    end.

(** The bytes an item carries: the first [length] bytes of its array. *)
Definition payload (it : Item) : list byte := take (Z.to_nat (length it)) (data it).

(** What the producer asked to store, after the 256-byte clip of [push]. *)
Definition clip_len (len : Z) : Z := if 256 <? len then 256 else len.
Definition clipped (buf : list byte) (len : Z) : list byte :=
  take (Z.to_nat (clip_len len)) buf.

(** N pushes, in order; the flags come back with the queue. *)
Fixpoint push_all (q : Queue) (items : list (list byte * Z * Tag))
  : list bool * Queue :=
  match items with
  | [] => ([], q)
  | (buf, len, t) :: rest =>
      let '(ok, q1) := push q buf len t in
      let '(oks, q2) := push_all q1 rest in
      (ok :: oks, q2)
  end.

(** M pops, in order; each result is the flag and the item popped. The
    consumer reuses one [out] item across calls, as the drain loops do. *)
Fixpoint pop_n (q : Queue) (out : Item) (m : nat)
  : list (bool * Item) * Queue :=
  match m with
  | O => ([], q)
  | S m' =>
      let '(ok, q1, out1) := pop q out in
      let '(rs, q2) := pop_n q1 out1 m' in
      ((ok, out1) :: rs, q2)
  end.

(** Number of stored items and the stored items from oldest to newest. *)
Definition count (q : Queue) : Z := (head q - tail q) mod RING_SIZE.

Fixpoint walk (sl : list Item) (n : nat) (t : Z) : list Item :=
  match n with
  | O => []
  | S n' =>
      match sl !! Z.to_nat t with
      | Some it => it :: walk sl n' ((t + 1) mod RING_SIZE)
      | None => []
      end
  end.

Definition contents (q : Queue) : list Item :=
  walk (slots q) (Z.to_nat (count q)) (tail q).

(** The shape every queue built by the firmware has. *)
Record wf (q : Queue) : Prop := mkWf {
  wf_head : 0 <= head q < RING_SIZE;
  wf_tail : 0 <= tail q < RING_SIZE;
  wf_slots : Z.of_nat (List.length (slots q)) = RING_SIZE
}.

(** What a consumer sees of an item, and what a producer's call stores. *)
Definition seen (it : Item) : Z * list byte * Tag := (length it, payload it, tag it).
Definition stored (p : list byte * Z * Tag) : Z * list byte * Tag :=
  let '(buf, len, t) := p in (clip_len len, clipped buf len, t).

(** The producer reads [len] bytes of [buf]: they have to be there. *)
Definition readable (p : list byte * Z * Tag) : Prop :=
  let '(buf, len, _) := p in 0 <= len <= Z.of_nat (List.length buf).

(** The items the successful pops returned, in order. *)
Definition popped (rs : list (bool * Item)) : list (Z * list byte * Tag) :=
  map (fun r => seen (snd r)) (filter (fun r => fst r = true) rs).

(** The FIFO property for a queue of capacity [cap], started at [q0]:
    [N <= cap] pushes are all accepted, and [M <= cap] pops after them hand
    back the first [min M N] items pushed, in order. *)
Definition fifo (q0 : Queue) (cap : nat) : Prop :=
  forall (items : list (list byte * Z * Tag)) (m : nat) (out : Item),
    Forall readable items ->
    (List.length items <= cap)%nat -> (m <= cap)%nat ->
    fst (push_all q0 items) = replicate (List.length items) true
    /\ popped (fst (pop_n (snd (push_all q0 items)) out m))
       = map stored (take (Nat.min m (List.length items)) items).

(** Producer and consumer calls in any order: one call is a push of
    [(buf, len, tag)] or a pop; what the caller observes is the flag and, for
    a successful pop, the item handed out. *)
Inductive Op :=
| OpPush (buf : list byte) (len : Z) (t : Tag)
| OpPop.

Definition op_readable (op : Op) : Prop :=
  match op with
  | OpPush buf len t => readable (buf, len, t)
  | OpPop => True
  end.

Fixpoint run_ops (q : Queue) (out : Item) (ops : list Op)
  : list (bool * option (Z * list byte * Tag)) :=
  match ops with
  | [] => []
  | OpPush buf len t :: rest =>
      let '(ok, q1) := push q buf len t in
      (ok, None) :: run_ops q1 out rest
  | OpPop :: rest =>
      let '(ok, q1, out1) := pop q out in
      (ok, if ok then Some (seen out1) else None) :: run_ops q1 out1 rest
  end.

(** The same calls on a list that holds at most [cap] items, oldest first. *)
Fixpoint bounded_fifo (cap : nat) (held : list (Z * list byte * Tag)) (ops : list Op)
  : list (bool * option (Z * list byte * Tag)) :=
  match ops with
  | [] => []
  | OpPush buf len t :: rest =>
      if (List.length held <? cap)%nat
      then (true, None) :: bounded_fifo cap (held ++ [stored (buf, len, t)]) rest
      else (false, None) :: bounded_fifo cap held rest
  | OpPop :: rest =>
      match held with
      | [] => (false, None) :: bounded_fifo cap [] rest
      | it :: held' => (true, Some it) :: bounded_fifo cap held' rest
      end
  end.

End Ring.
End RingQueue.

(** ** Text formatting used by the frame encoder *)

(** Decimal digits of a non-negative number, least significant first; ten
    digits are enough for every 32-bit value. *)
Fixpoint digits_rev (fuel : nat) (n : Z) : list byte :=
  match fuel with
  | O => []
  | S f => (48 + n mod 10) :: (if n <? 10 then [] else digits_rev f (n / 10))
  end.

Definition decimal (n : Z) : list byte := rev (digits_rev 10 n).

(** [%d] of [snprintf] applied to a 32-bit argument: the argument is read as
    a signed [int]. *)
Definition fmt_d (x : Z) : list byte :=
  let v := to_i32 x in
  if v <? 0 then 45 :: decimal (- v) else decimal v.

Definition COLON : byte := 58.
Definition CHAR_P : byte := 80.

(** ** The Hub ([src/src/main.cpp]) *)

Module Hub.

Definition AUDIO_BUFFER_SIZE : Z := 1024.
Definition MAX_MESH_DEVICES : nat := 4.
Definition DEVICE_TIMEOUT : Z := 30000.
Definition AUDIO_CHUNK_SIZE : Z := 200.
Definition AUDIO_SAMPLE_RATE : Z := 16000.
Definition AUDIO_BITS_PER_SAMPLE : Z := 16.
(** The radio's per-datagram ceiling and [sizeof(messageBuffer)]. *)
Definition ESPNOW_MAX : Z := 250.
Definition MESSAGE_BUFFER_SIZE : Z := 300.

(** [uint8_t mac[6]]; [memcmp(a, b, 6) == 0] is equality of the six bytes. *)
Definition mac_addr : Type := byte * byte * byte * byte * byte * byte.

Record MeshDevice := mkDevice {
  mac : mac_addr;
  deviceName : string;
  deviceType : string;
  lastSeen : Z;            (* unsigned long, milliseconds of uptime *)
  isActive : bool;
  isCoordinator : bool;
  audioQuality : Z
}.

Definition set_lastSeen (now : Z) (d : MeshDevice) : MeshDevice :=
  mkDevice (mac d) (deviceName d) (deviceType d) now (isActive d)
           (isCoordinator d) (audioQuality d).

Definition set_ready (now : Z) (d : MeshDevice) : MeshDevice :=
  mkDevice (mac d) (deviceName d) (deviceType d) now true
           (isCoordinator d) (audioQuality d).

(** The file-scope variables the modelled functions read and write.
    [meshDeviceCount] is an [int] that stays within
    [0 .. MAX_MESH_DEVICES]; [audioBufferIndex] and
    [audioSequenceNumber] are [int]s. *)
Record State := mkState {
  meshDevices : list MeshDevice;      (* MeshDevice meshDevices[4] *)
  meshDeviceCount : nat;
  meshNetworkActive : bool;
  isAudioStreaming : bool;
  deviceConnected : bool;
  pAudioCharacteristic : bool;        (* != nullptr *)
  audioBuffer : list byte;            (* uint8_t audioBuffer[1024] *)
  audioBufferIndex : Z;
  audioSequenceNumber : Z
}.

Definition set_registry (devs : list MeshDevice) (n : nat) (st : State) : State :=
  mkState devs n (meshNetworkActive st) (isAudioStreaming st)
          (deviceConnected st) (pAudioCharacteristic st) (audioBuffer st)
          (audioBufferIndex st) (audioSequenceNumber st).

Definition set_buffer (buf : list byte) (idx : Z) (st : State) : State :=
  mkState (meshDevices st) (meshDeviceCount st) (meshNetworkActive st)
          (isAudioStreaming st) (deviceConnected st) (pAudioCharacteristic st)
          buf idx (audioSequenceNumber st).

Definition set_sequence (seq : Z) (st : State) : State :=
  mkState (meshDevices st) (meshDeviceCount st) (meshNetworkActive st)
          (isAudioStreaming st) (deviceConnected st) (pAudioCharacteristic st)
          (audioBuffer st) (audioBufferIndex st) seq.

Definition set_streaming (b : bool) (st : State) : State :=
  mkState (meshDevices st) (meshDeviceCount st) (meshNetworkActive st)
          b (deviceConnected st) (pAudioCharacteristic st)
          (audioBuffer st) (audioBufferIndex st) (audioSequenceNumber st).

(** The entries the registry holds: the first [meshDeviceCount] slots. *)
Definition live (st : State) : list MeshDevice :=
  take (meshDeviceCount st) (meshDevices st).

(** The search loop shared by the registry functions:
    [for (i = 0; i < meshDeviceCount; i++) if (memcmp(..) == 0) ..]. *)
Definition find_device (st : State) (m : mac_addr) : option (nat * MeshDevice) :=
  list_find (fun d => mac d = m) (live st).

(** What the node hands to the outside world. *)
Inductive esp_err := ESP_OK | ESP_ERR_ESPNOW_ARG | ESP_ERR_ESPNOW_NOT_FOUND | ESP_FAIL.

Inductive Output :=
| EspNowSend (dst : mac_addr) (msg : list byte)
| MeshAck (dst : mac_addr) (status : string) (timestamp : Z) (mesh_device_count : nat)
| AudioAck (dst : mac_addr) (timestamp : Z)
| BleNotify (value : list byte).

(** *** Registry *)

(** [peer_added] is what [esp_now_add_peer] answered ([== ESP_OK]). *)
Definition addDeviceToMesh (st : State) (m : mac_addr) (name type : string)
    (now : Z) (peer_added : bool) : bool * State :=
  match find_device st m with
  | Some (i, d) =>
      (true,
       set_registry (<[i := set_lastSeen now d]> (meshDevices st))
                    (meshDeviceCount st) st)
  | None =>
      if (meshDeviceCount st <? MAX_MESH_DEVICES)%nat then
        let fresh := mkDevice m name type now false false 100 in
        let devs := <[meshDeviceCount st := fresh]> (meshDevices st) in
        if peer_added
        then (true, set_registry devs (S (meshDeviceCount st)) st)
        else (false, set_registry devs (meshDeviceCount st) st)
      else (false, st)
  end.

(** [for (j = i; j < meshDeviceCount - 1; j++) meshDevices[j] = meshDevices[j + 1];]
    with [n] iterations left. *)
Fixpoint shift_left (devs : list MeshDevice) (j n : nat) : list MeshDevice :=
  match n with
  | O => devs
  | S n' =>
      match devs !! S j with
      | Some d => shift_left (<[j := d]> devs) (S j) n'
      | None => devs
      end
  end.

Definition removeDeviceFromMesh (st : State) (m : mac_addr) : bool * State :=
  match find_device st m with
  | Some (i, _) =>
      (true,
       set_registry (shift_left (meshDevices st) i (meshDeviceCount st - 1 - i))
                    (meshDeviceCount st - 1) st)
  | None => (false, st)
  end.

(** The body of the [mesh_ready] branch and of [updateDeviceHeartbeat]: the
    first entry with this address is stamped and marked active. *)
Definition updateDeviceHeartbeat (st : State) (m : mac_addr) (now : Z) : State :=
  match find_device st m with
  | Some (i, d) =>
      set_registry (<[i := set_ready now d]> (meshDevices st))
                   (meshDeviceCount st) st
  | None => st
  end.

(** [(currentTime - lastSeen) > DEVICE_TIMEOUT] on [unsigned long]. *)
Definition timed_out (now : Z) (d : MeshDevice) : bool :=
  isActive d && (DEVICE_TIMEOUT <? to_u32 (now - lastSeen d)).

(** The loop of [cleanupInactiveDevices] from index [i]; after a removal
    the index is decremented and then incremented by the loop, so the same
    index is looked at again.  [None]: the fuel ran out. *)
Fixpoint cleanup_loop (fuel : nat) (i : nat) (now : Z) (st : State) : option State :=
  match fuel with
  | O => None
  | S fuel' =>
      if (i <? meshDeviceCount st)%nat then
        if (MAX_MESH_DEVICES <=? i)%nat then Some st
        else
          match meshDevices st !! i with
          | Some d =>
              if timed_out now d then
                match removeDeviceFromMesh st (mac d) with
                | (true, st') => cleanup_loop fuel' i now st'
                | (false, st') => cleanup_loop fuel' (S i) now st'
                end
              else cleanup_loop fuel' (S i) now st
          | None => Some st
          end
      else Some st
  end.

Definition cleanupInactiveDevices (st : State) (now : Z) : option State :=
  if negb (meshNetworkActive st) then Some st
  else cleanup_loop (S (meshDeviceCount st)) 0 now st.

(** The send loop that [sendMeshHeartbeat], [broadcastMeshStatus] and
    [relayAudioToMesh] each spell out: every active (and [eligible]) entry
    is checked with [esp_now_get_peer] and sent [msg]; an entry the
    transport does not know, or whose send fails with [ARG] / [NOT_FOUND],
    is removed and the index is decremented whatever the removal answered.
    [get_peer k], [send k] and [msg k] are the transport's answers and the
    serialised document in the [k]-th iteration; [guard] is the extra
    [if (i >= MAX_MESH_DEVICES) break;] of [relayAudioToMesh]. *)
Fixpoint send_loop (fuel : nat) (i k : nat) (guard : bool)
    (eligible : MeshDevice -> bool)
    (get_peer : nat -> bool) (send : nat -> esp_err) (msg : nat -> list byte)
    (st : State) : option (list Output * State) :=
  match fuel with
  | O => None
  | S fuel' =>
      if (i <? meshDeviceCount st)%nat then
        if guard && (MAX_MESH_DEVICES <=? i)%nat then Some ([], st)
        else
        match meshDevices st !! i with
        | Some d =>
            if isActive d && eligible d then
              if get_peer k then
                let out := EspNowSend (mac d) (msg k) in
                match send k with
                | ESP_ERR_ESPNOW_ARG | ESP_ERR_ESPNOW_NOT_FOUND =>
                    let st' := snd (removeDeviceFromMesh st (mac d)) in
                    '(outs, st'') ← send_loop fuel' i (S k) guard eligible get_peer send msg st';
                    Some (out :: outs, st'')
                | _ =>
                    '(outs, st'') ← send_loop fuel' (S i) (S k) guard eligible get_peer send msg st;
                    Some (out :: outs, st'')
                end
              else
                let st' := snd (removeDeviceFromMesh st (mac d)) in
                send_loop fuel' i (S k) guard eligible get_peer send msg st'
            else send_loop fuel' (S i) (S k) guard eligible get_peer send msg st
        | None => Some ([], st)
        end
      else Some ([], st)
  end.

(** The serialised document is produced by the JSON library; it is cut to
    the first 250 bytes before it is sent. *)
Definition sendMeshHeartbeat (st : State) (doc : list byte)
    (get_peer : nat -> bool) (send : nat -> esp_err) : option (list Output * State) :=
  if (meshDeviceCount st =? 0)%nat then Some ([], st)
  else send_loop (S (meshDeviceCount st)) 0 0 false (fun _ => true) get_peer send
                 (fun _ => take 250 doc) st.

Definition broadcastMeshStatus (st : State) (doc : list byte)
    (get_peer : nat -> bool) (send : nat -> esp_err) : option (list Output * State) :=
  if (meshDeviceCount st =? 0)%nat then Some ([], st)
  else send_loop (S (meshDeviceCount st)) 0 0 false (fun _ => true) get_peer send
                 (fun _ => take 250 doc) st.

(** [relayAudioToMesh(sourceMac, data, len)]: [doc k] is the relay document
    built from [data] in iteration [k]; the source itself is skipped. *)
Definition relayAudioToMesh (st : State) (sourceMac : option mac_addr)
    (len : Z) (doc : nat -> list byte)
    (get_peer : nat -> bool) (send : nat -> esp_err) : option (list Output * State) :=
  if negb (meshNetworkActive st) || (len <=? 0) then Some ([], st)
  else
    send_loop (S (meshDeviceCount st)) 0 0 true
      (fun d => match sourceMac with
                | None => true
                | Some s => negb (bool_decide (mac d = s))
                end)
      get_peer send doc st.

(** The addresses in the registry, and the shape the registry keeps. *)
Definition macs (st : State) : list mac_addr := mac <$> live st.

Record reg_ok (st : State) : Prop := mkRegOk {
  reg_length : length (meshDevices st) = MAX_MESH_DEVICES;
  reg_count : (meshDeviceCount st <= MAX_MESH_DEVICES)%nat;
  reg_nodup : NoDup (macs st)
}.

(** *** Frame encoder of the chunk sender *)

(** The text [snprintf] formats for
    ["P:%d:%d:%d:%d:%d:%d:%d:%d"]. *)
Definition compact_header (seq chunk total time rate bits minv maxv : Z) : list byte :=
  [CHAR_P; COLON] ++ fmt_d seq ++ [COLON] ++ fmt_d chunk ++ [COLON] ++
  fmt_d total ++ [COLON] ++ fmt_d time ++ [COLON] ++ fmt_d rate ++ [COLON] ++
  fmt_d bits ++ [COLON] ++ fmt_d minv ++ [COLON] ++ fmt_d maxv.

(** [compressAudioData]: a plain copy of [inputLength] bytes. *)
Definition compressAudioData (input : list byte) (inputLength : Z) : list byte * Z :=
  if inputLength <=? 0 then ([], 0)
  else (take (Z.to_nat inputLength) input, inputLength).

(** [calculateAudioStats]: the neutral placeholders. *)
Definition calculateAudioStats (data : list byte) (len : Z) (minVal maxVal : Z) : Z * Z :=
  if len <=? 0 then (minVal, maxVal) else (128, 128).

(** Lines 1040-1067 of [sendAudioChunks]: [text] is what [snprintf] was
    asked to print (its return value is the full length, the buffer keeps at
    most 299 characters and the terminator), [raw] is [rawBuffer] cut to
    [rawSize].  [Some frame]: the [messageLen] bytes handed to
    [esp_now_send]; [None]: the chunk is skipped. *)
Definition frame_message (text raw : list byte) : option (list byte) :=
  let rawSize := Z.of_nat (length raw) in
  let messageLen := Z.of_nat (length text) in
  let written := take 299 text in
  let messageBuffer :=
    written ++ replicate (Z.to_nat MESSAGE_BUFFER_SIZE - length written) 0 in
  let '(messageBuffer, messageLen) :=
    if messageLen + rawSize + 1 <? MESSAGE_BUFFER_SIZE then
      (memcpy_at (<[Z.to_nat messageLen := COLON]> messageBuffer)
                 (Z.to_nat (messageLen + 1)) raw (Z.to_nat rawSize),
       messageLen + 1 + rawSize)
    else (messageBuffer, messageLen) in
  if ESPNOW_MAX <? messageLen then
    let maxAudioData := ESPNOW_MAX - messageLen + rawSize in
    if 0 <? maxAudioData then
      let messageLen := messageLen - rawSize + maxAudioData in
      Some (take (Z.to_nat messageLen)
                 (memcpy_at messageBuffer (Z.to_nat (messageLen - maxAudioData))
                            raw (Z.to_nat maxAudioData)))
    else None
  else Some (take (Z.to_nat messageLen) messageBuffer).

(** The fan-out of one frame: [for (i..) if (meshDevices[i].isActive) esp_now_send(..)]. *)
Definition fan_out (st : State) (frame : list byte) : list Output :=
  if (0 <? meshDeviceCount st)%nat then
    flat_map (fun d => if isActive d then [EspNowSend (mac d) frame] else [])
             (live st)
  else [].

(** The chunk loop of [sendAudioChunks] with [n] chunks to go; [millis c] is
    the clock read while chunk [c] is formatted. *)
Fixpoint chunk_loop (n : nat) (chunk chunksToSend : Z) (millis : Z -> Z)
    (st : State) : list Output * State :=
  match n with
  | O => ([], st)
  | S n' =>
      let startIndex := chunk * AUDIO_CHUNK_SIZE in
      let '(rawBuffer, rawSize) :=
        compressAudioData (drop (Z.to_nat startIndex) (audioBuffer st)) AUDIO_CHUNK_SIZE in
      let '(minVal, maxVal) :=
        calculateAudioStats (drop (Z.to_nat startIndex) (audioBuffer st)) AUDIO_CHUNK_SIZE 0 0 in
      let text :=
        compact_header (audioSequenceNumber st) chunk chunksToSend (millis chunk)
                       AUDIO_SAMPLE_RATE AUDIO_BITS_PER_SAMPLE minVal maxVal in
      let st1 := set_sequence (to_i32 (audioSequenceNumber st + 1)) st in
      match frame_message text (take (Z.to_nat rawSize) rawBuffer) with
      | None => chunk_loop n' (chunk + 1) chunksToSend millis st1
      | Some frame =>
          let ble :=
            if deviceConnected st && pAudioCharacteristic st
            then [BleNotify (take (Z.to_nat rawSize) rawBuffer)] else [] in
          let '(outs, st2) := chunk_loop n' (chunk + 1) chunksToSend millis st1 in
          (fan_out st frame ++ ble ++ outs, st2)
      end
  end.

(** The compaction that ends [sendAudioChunks]. *)
Definition compact_buffer (chunksToSend : Z) (st : State) : State :=
  let remainingData := Z.rem (audioBufferIndex st) AUDIO_CHUNK_SIZE in
  if 0 <? remainingData then
    let moved :=
      memmove_front (audioBuffer st) (Z.to_nat (chunksToSend * AUDIO_CHUNK_SIZE))
                    (Z.to_nat remainingData) in
    set_buffer (memset_at moved (Z.to_nat remainingData) 0
                          (Z.to_nat (AUDIO_BUFFER_SIZE - remainingData)))
               remainingData st
  else
    set_buffer (memset_at (audioBuffer st) 0 0 (Z.to_nat AUDIO_BUFFER_SIZE)) 0 st.

Definition sendAudioChunks (millis : Z -> Z) (st : State) : list Output * State :=
  if (meshDeviceCount st =? 0)%nat && negb (deviceConnected st) then
    ([], set_buffer (memset_at (audioBuffer st) 0 0 (Z.to_nat AUDIO_BUFFER_SIZE)) 0 st)
  else
    let chunksToSend := Z.quot (audioBufferIndex st) AUDIO_CHUNK_SIZE in
    let '(outs, st1) := chunk_loop (Z.to_nat chunksToSend) 0 chunksToSend millis st in
    (outs, compact_buffer chunksToSend st1).

(** *** Accumulator *)

Definition startAudioStream (st : State) : State :=
  if negb (isAudioStreaming st) then
    set_buffer (audioBuffer st) 0 (set_sequence 0 (set_streaming true st))
  else st.

Definition stopAudioStream (st : State) : State :=
  if isAudioStreaming st then
    set_buffer (memset_at (audioBuffer st) 0 0 (Z.to_nat AUDIO_BUFFER_SIZE)) 0
               (set_sequence 0 (set_streaming false st))
  else st.

(** The [clear_buffer] console command. *)
Definition clear_buffer (st : State) : State :=
  set_buffer (memset_at (audioBuffer st) 0 0 (Z.to_nat AUDIO_BUFFER_SIZE)) 0
             (set_sequence 0 st).

(** [addAudioData] up to and including [audioBufferIndex += length]:
    the forced flush, the eviction of the oldest bytes and the append.
    [None]: the C code would call [memmove] with a negative count or copy
    past the end of [audioBuffer]. *)
Definition addAudioData_append (st : State) (data : list byte) (length : Z)
    (millis : Z -> Z) : option (list Output * State) :=
  let '(outs, st1) :=
    if AUDIO_BUFFER_SIZE <? audioBufferIndex st + length then
      if AUDIO_CHUNK_SIZE <=? audioBufferIndex st
      then sendAudioChunks millis st else ([], st)
    else ([], st) in
  st2 ←
    (if (AUDIO_BUFFER_SIZE <? audioBufferIndex st + length)
        && (AUDIO_BUFFER_SIZE <? audioBufferIndex st1 + length) then
       let overflow := (audioBufferIndex st1 + length) - AUDIO_BUFFER_SIZE in
       if audioBufferIndex st1 - overflow <? 0 then None
       else
         Some (set_buffer
                 (memmove_front (audioBuffer st1) (Z.to_nat overflow)
                                (Z.to_nat (audioBufferIndex st1 - overflow)))
                 (audioBufferIndex st1 - overflow) st1)
     else Some st1);
  if AUDIO_BUFFER_SIZE <? audioBufferIndex st2 + length then None
  else
    Some (outs,
          set_buffer (memcpy_at (audioBuffer st2) (Z.to_nat (audioBufferIndex st2))
                                data (Z.to_nat length))
                     (audioBufferIndex st2 + length) st2).

Definition addAudioData (st : State) (data : list byte) (length : Z)
    (millis1 millis2 : Z -> Z) : option (list Output * State) :=
  if negb (isAudioStreaming st) then Some ([], st)
  else if length <=? 0 then Some ([], st)
  else
    '(outs1, st1) ← addAudioData_append st data length millis1;
    if AUDIO_CHUNK_SIZE <=? audioBufferIndex st1 then
      let '(outs2, st2) := sendAudioChunks millis2 st1 in
      Some (outs1 ++ outs2, st2)
    else Some (outs1, st1).

(** The bytes the accumulator holds: the first [audioBufferIndex] bytes. *)
Definition pending (st : State) : list byte :=
  take (Z.to_nat (audioBufferIndex st)) (audioBuffer st).

(** *** Radio receive callback *)

(** The [type] of a control document that parsed. *)
Inductive MeshMessage :=
| mesh_join (device_name device_type : string)
| mesh_ready
| audio_data
| mesh_heartbeat
| mesh_leave
| audio_ack
| other_type.

(** [OnDataRecv(mac, data, len)]; [msg = None] when the document does not
    parse.  The remaining arguments are what the environment answers during
    the call. *)
Definition OnDataRecv (st : State) (m : mac_addr) (msg : option MeshMessage)
    (len : Z) (now : Z) (peer_added : bool) (doc : nat -> list byte)
    (get_peer : nat -> bool) (send : nat -> esp_err)
    : option (list Output * State) :=
  match msg with
  | None => Some ([], st)
  | Some (mesh_join name type) =>
      let '(ok, st1) := addDeviceToMesh st m name type now peer_added in
      Some ([MeshAck m (if ok then "joined" else "failed")%string now
                     (meshDeviceCount st1)], st1)
  | Some mesh_ready => Some ([], updateDeviceHeartbeat st m now)
  | Some audio_data =>
      '(outs, st1) ← relayAudioToMesh st (Some m) len doc get_peer send;
      Some (outs ++ [AudioAck m now], st1)
  | Some mesh_heartbeat => Some ([], updateDeviceHeartbeat st m now)
  | Some mesh_leave => Some ([], snd (removeDeviceFromMesh st m))
  | Some audio_ack => Some ([], st)
  | Some other_type => Some ([], st)
  end.

(** *** The Hub as a transition system

    One event is one call the firmware makes from [loop], from the sender
    task, from the console, or from a radio / peripheral callback. *)
Inductive Event :=
| EvRecv (m : mac_addr) (msg : option MeshMessage) (len now : Z)
         (peer_added : bool) (doc : nat -> list byte)
         (get_peer : nat -> bool) (send : nat -> esp_err)
| EvSweep (now : Z)
| EvHeartbeat (doc : list byte) (get_peer : nat -> bool) (send : nat -> esp_err)
| EvStatus (doc : list byte) (get_peer : nat -> bool) (send : nat -> esp_err)
| EvAudio (data : list byte) (length : Z) (millis1 millis2 : Z -> Z)
| EvSenderTask (millis : Z -> Z)
| EvStart
| EvStop
| EvClear
| EvBle (connected : bool).

Definition step (st : State) (ev : Event) : option (list Output * State) :=
  match ev with
  | EvRecv m msg len now peer_added doc get_peer send =>
      OnDataRecv st m msg len now peer_added doc get_peer send
  | EvSweep now =>
      if meshNetworkActive st
      then st' ← cleanupInactiveDevices st now; Some ([], st')
      else Some ([], st)
  | EvHeartbeat doc get_peer send =>
      if meshNetworkActive st then sendMeshHeartbeat st doc get_peer send
      else Some ([], st)
  | EvStatus doc get_peer send =>
      if meshNetworkActive st then broadcastMeshStatus st doc get_peer send
      else Some ([], st)
  | EvAudio data length millis1 millis2 => addAudioData st data length millis1 millis2
  | EvSenderTask millis =>
      if isAudioStreaming st
         && (deviceConnected st || (0 <? meshDeviceCount st)%nat)
      then Some (sendAudioChunks millis st)
      else Some ([], st)
  | EvStart => Some ([], startAudioStream st)
  | EvStop => Some ([], stopAudioStream st)
  | EvClear => Some ([], clear_buffer st)
  | EvBle connected =>
      Some ([], mkState (meshDevices st) (meshDeviceCount st) (meshNetworkActive st)
                        (isAudioStreaming st) connected (pAudioCharacteristic st)
                        (audioBuffer st) (audioBufferIndex st) (audioSequenceNumber st))
  end.

Fixpoint run (st : State) (evs : list Event) : option (list Output * State) :=
  match evs with
  | [] => Some ([], st)
  | ev :: rest =>
      '(outs1, st1) ← step st ev;
      '(outs2, st2) ← run st1 rest;
      Some (outs1 ++ outs2, st2)
  end.

(** The Hub's instance of the ring queue: sixteen slots of 256 bytes, no tag. *)
Definition IncomingBleItem : Type := @RingQueue.Item unit.
Definition BleInQueue : Type := @RingQueue.Queue unit.
Definition BLE_IN_BITS : Z := 4.

Definition bleInPushFromISR (q : BleInQueue) (buf : list byte) (len : Z)
  : bool * BleInQueue :=
  RingQueue.push BLE_IN_BITS q buf len tt.

Definition bleInPop (q : BleInQueue) (out : IncomingBleItem)
  : bool * BleInQueue * IncomingBleItem :=
  RingQueue.pop BLE_IN_BITS q out.

(** The queue as the program starts: indices zero, arrays zero-filled. *)
Definition bleInQueue_init : BleInQueue :=
  RingQueue.mkQueue 0 0
    (replicate 16 (RingQueue.mkItem 0 (replicate 256 0) tt)).

(** *** The phone's writes and the drain block of [loop] *)

Definition BEEP : list byte := [66; 69; 69; 80].

(** [MyCallbacks::onWrite] with [rxValue] the value written: the state, the
    queue and the [pendingBeep] flag it leaves.  [rfind("BEEP", 0) == 0]
    holds when the value starts with these four bytes.  ([setup] attaches
    [MyCharacteristicCallbacks] to the characteristic, not this class.) *)
Definition MyCallbacks_onWrite (st : State) (q : BleInQueue) (pendingBeep : bool)
    (rxValue : list byte) : State * BleInQueue * bool :=
  if 0 <? Z.of_nat (length rxValue) then
    if bool_decide (take 4 rxValue = BEEP) then (st, q, true)
    else
      let st1 := if negb (isAudioStreaming st) then startAudioStream st else st in
      (st1,
       snd (bleInPushFromISR q rxValue (to_u16 (Z.of_nat (length rxValue)))),
       pendingBeep)
  else (st, q, pendingBeep).

(** The loop [while (processed < 8 && bleInPop(item)) { addAudioData(item.data,
    item.length); processed++; }] with [n] iterations left; [millis processed]
    are the clocks of that call of [addAudioData]. *)
Fixpoint drain_loop (n processed : nat) (q : BleInQueue) (item : IncomingBleItem)
    (st : State) (millis : nat -> (Z -> Z) * (Z -> Z))
  : option (list Output * BleInQueue * IncomingBleItem * State) :=
  match n with
  | O => Some ([], q, item, st)
  | S n' =>
      let '(ok, q1, item1) := bleInPop q item in
      if ok then
        '(outs1, st1) ← addAudioData st (RingQueue.data item1) (RingQueue.length item1)
                          (fst (millis processed)) (snd (millis processed));
        '(outs2, q2, item2, st2) ← drain_loop n' (S processed) q1 item1 st1 millis;
        Some (outs1 ++ outs2, q2, item2, st2)
      else Some ([], q1, item1, st)
  end.

Definition loop_drain (q : BleInQueue) (item : IncomingBleItem) (st : State)
    (millis : nat -> (Z -> Z) * (Z -> Z))
  : option (list Output * BleInQueue * IncomingBleItem * State) :=
  drain_loop 8 0 q item st millis.

(** *** The u-law encoder *)

(** The loop [while (pcm_val > ((33 << (seg + 1)) - 33)) seg++;] from [seg];
    [None]: not finished after [fuel] tests of the condition. *)
Fixpoint ulaw_seg (fuel : nat) (pcm_val seg : Z) : option Z :=
  match fuel with
  | O => None
  | S fuel' =>
      if Z.shiftl 33 (seg + 1) - 33 <? pcm_val
      then ulaw_seg fuel' pcm_val (to_i16 (seg + 1))
      else Some seg
  end.

(** [linearToUlaw(pcm_val)]. *)
Definition linearToUlaw (fuel : nat) (pcm_val : Z) : option Z :=
  let pcm_val := to_i16 (Z.shiftr pcm_val 2) in
  let '(pcm_val, mask) :=
    if pcm_val <? 0 then (to_i16 (- pcm_val), 127) else (pcm_val, 255) in
  let pcm_val := if 8158 <? pcm_val then 8158 else pcm_val in
  let pcm_val := to_i16 (pcm_val + 133) in
  seg ← ulaw_seg fuel pcm_val 0;
  let uval :=
    to_u8 (Z.lor (Z.shiftl seg 4)
                 (Z.shiftr (pcm_val - (Z.shiftl 33 seg - 33)) (seg + 1))) in
  Some (to_u8 (Z.lxor uval mask)).

(** *** The [send_ping] console command *)

(** [handleTestCommand] on [send_ping:<text>], [text] the bytes after the
    prefix; [pingSeq] is the [static] counter, returned as the call leaves
    it.  [snprintf(header, 32, "P:%lu:", ..)] stores at most 31 characters
    and the terminator and returns the length of the whole text. *)
Definition send_ping (st : State) (pingSeq : Z) (text : list byte)
  : list Output * Z :=
  if Z.of_nat (length text) =? 0 then ([], pingSeq)
  else
    let printed := [CHAR_P; COLON] ++ decimal pingSeq ++ [COLON] in
    let header := take 31 printed ++ replicate (32 - length (take 31 printed)) 0 in
    let headerLen := Z.of_nat (length printed) in
    let pingSeq' := to_u32 (pingSeq + 1) in
    if headerLen + Z.of_nat (length text) <? 128 then
      let msg := take (Z.to_nat headerLen) header ++ text in
      (flat_map (fun d => if isActive d then [EspNowSend (mac d) msg] else [])
                (live st),
       pingSeq')
    else ([], pingSeq').

End Hub.


(** ** The Relay ([src/esp32_b_project/src/main.cpp]) *)

Module Relay.

(** The Relay's instance of the ring queue: 64 slots of 512 bytes, tagged
    with [isPcm8]. *)
Definition NotifyItem : Type := @RingQueue.Item Z.
Definition NotifyQueue : Type := @RingQueue.Queue Z.
Definition NOTIFY_RING_BITS : Z := 6.

Definition isPcm8 (it : NotifyItem) : Z := RingQueue.tag it.

Definition notifyQueuePushFromISR (q : NotifyQueue) (buf : list byte) (len : Z)
    (pcm8 : Z) : bool * NotifyQueue :=
  RingQueue.push NOTIFY_RING_BITS q buf len pcm8.

Definition notifyQueue_init : NotifyQueue :=
  RingQueue.mkQueue 0 0
    (replicate 64 (RingQueue.mkItem 0 (replicate 512 0) 0)).

(** *** Compact header decoder *)

(** The [while (idx < len && field < 8)] loop over the bytes from [idx] on.
    The flag is [false] when the loop returned [false] itself. *)
Fixpoint header_loop (rest : list byte) (idx : Z) (field : nat) (current : Z)
    (values : list Z) : bool * Z * nat * list Z :=
  match rest with
  | [] => (true, idx, field, values)
  | c :: rest' =>
      if (field <? 8)%nat then
        if c =? COLON then
          header_loop rest' (idx + 1) (S field) 0 (<[field := current]> values)
        else if (48 <=? c) && (c <=? 57) then
          header_loop rest' (idx + 1) field (to_i32 (current * 10 + (c - 48))) values
        else (false, idx + 1, field, values)
      else (true, idx, field, values)
  end.

(** [parseCompactAudioHeader(data, len, values, dataStart)] with
    [len = length data]: the result, the [values] array and [dataStart] as
    the call leaves them. *)
Definition parseCompactAudioHeader (data : list byte) (values : list Z)
    (dataStart : Z) : bool * list Z * Z :=
  let len := Z.of_nat (length data) in
  match data with
  | c0 :: c1 :: rest =>
      if (len <? 5) || negb (c0 =? CHAR_P) || negb (c1 =? COLON)
      then (false, values, dataStart)
      else
        let '(ok, idx, field, values') := header_loop rest 2 0 0 values in
        if ok then
          if (field =? 8)%nat then (idx <? len, values', idx)
          else (false, values', dataStart)
        else (false, values', dataStart)
  | _ => (false, values, dataStart)
  end.

(** *** Notify coalescer *)

(** [int16_t s16 = ((int)s8 - 128) << 8;] *)
Definition upsample (s8 : byte) : Z := to_i16 (Z.shiftl (s8 - 128) 8).

(** The conversion loop
    [for (i = 0; i < item.length && outLen + 2 <= sizeof(pcm16); i++)]
    with [n] samples to go: the bytes written to [pcm16], low byte first. *)
Fixpoint pcm8_loop (samples : list byte) (n : nat) (outLen : Z) : list byte :=
  match n, samples with
  | S n', s8 :: rest =>
      if outLen + 2 <=? 512 then
        let s16 := upsample s8 in
        to_u8 (Z.land s16 255) :: to_u8 (Z.land (Z.shiftr s16 8) 255)
          :: pcm8_loop rest n' (outLen + 2)
      else []
  | _, _ => []
  end.

Definition pcm8_to_pcm16 (item : NotifyItem) : list byte :=
  pcm8_loop (RingQueue.data item) (Z.to_nat (RingQueue.length item)) 0.

(** The 16-bit sample stored little-endian in two bytes. *)
Definition sample_of (lo hi : byte) : Z := to_i16 (lo + 256 * hi).

Record Coalescer := mkCoalescer {
  coalesceBuf : list byte;
  coalesceLen : Z
}.

(** [copy = min(n, sizeof(coalesceBuf) - coalesceLen); memcpy(..); coalesceLen += copy;] *)
Definition coalesce_append (size : Z) (c : Coalescer) (src : list byte) (n : Z)
  : Coalescer :=
  let copy := Z.min n (size - coalesceLen c) in
  {| coalesceBuf :=
       memcpy_at (coalesceBuf c) (Z.to_nat (coalesceLen c)) src (Z.to_nat copy);
     coalesceLen := coalesceLen c + copy |}.

(** Ingestion of one popped item in [bleNotifyTask] (buffer of 1536 bytes). *)
Definition bleNotifyTask_ingest (c : Coalescer) (item : NotifyItem) : Coalescer :=
  if negb (isPcm8 item =? 0) then
    let pcm16 := pcm8_to_pcm16 item in
    coalesce_append 1536 c pcm16 (Z.of_nat (length pcm16))
  else
    coalesce_append 1536 c (RingQueue.data item) (RingQueue.length item).

(** Ingestion of one popped item in the flush code of [loop] (buffer of 4096
    bytes) and of [setup] (1536 bytes): [size] is the buffer's size. *)
Definition loop_ingest_sized (size : Z) (c : Coalescer) (item : NotifyItem) : Coalescer :=
  if negb (isPcm8 item =? 0) then
    let pcm16 := pcm8_to_pcm16 item in
    coalesce_append size c pcm16 (Z.of_nat (length pcm16))
  else
    let silence := replicate 240 128 in
    coalesce_append size c silence 240.

Definition loop_ingest : Coalescer -> NotifyItem -> Coalescer := loop_ingest_sized 4096.
Definition setup_ingest : Coalescer -> NotifyItem -> Coalescer := loop_ingest_sized 1536.

(** The notification loop: [toSend] bytes from the front of the buffer in
    pieces of at most 160 bytes, [n] pieces at most. *)
Fixpoint notify_loop (n : nat) (buf : list byte) (sent toSend : Z) : list (list byte) :=
  match n with
  | O => []
  | S n' =>
      if sent <? toSend then
        let chunk := Z.min 160 (toSend - sent) in
        take (Z.to_nat chunk) (drop (Z.to_nat sent) buf)
          :: notify_loop n' buf (sent + chunk) toSend
      else []
  end.

(** The flush that follows ingestion: up to [cap] bytes are notified and the
    remainder is moved to the front. *)
Definition flush (cap : Z) (c : Coalescer) : list (list byte) * Coalescer :=
  let toSend := Z.min (coalesceLen c) cap in
  let remain := coalesceLen c - toSend in
  (notify_loop (Z.to_nat toSend) (coalesceBuf c) 0 toSend,
   {| coalesceBuf :=
        if 0 <? remain
        then memmove_front (coalesceBuf c) (Z.to_nat toSend) (Z.to_nat remain)
        else coalesceBuf c;
      coalesceLen := remain |}).

(** *** Pass-through decoder *)

(** [decompressOptimizedAudio(compressedData, compressedLen, output, outputMax)]
    with both pointers valid: the array [output] as the call leaves it and
    the returned length. *)
Definition decompressOptimizedAudio (compressedData : list byte) (compressedLen : Z)
    (output : list byte) (outputMax : Z) : list byte * Z :=
  if (compressedLen <=? 0) || (outputMax <=? 0) then (output, 0)
  else
    let copyLen := if compressedLen <? outputMax then compressedLen else outputMax in
    (memcpy output compressedData (Z.to_nat copyLen), copyLen).

(** *** Node state and radio receive callback *)

Definition mac_addr : Type := byte * byte * byte * byte * byte * byte.

(** The file-scope variables the receive callback and the mesh part of
    [loop] read and write; [reconnectAttempts] is the [static int] of
    [loop]. *)
Record State := mkState {
  notifyQueue : NotifyQueue;
  bleDeviceConnected : bool;
  pAudioCharacteristic : bool;      (* != NULL *)
  packetsReceived : Z;              (* unsigned long *)
  bytesReceived : Z;                (* unsigned long *)
  esp32_a_mac : mac_addr;
  isMeshConnected : bool;
  esp32_a_connected : bool;
  lastMeshHeartbeat : Z;            (* unsigned long *)
  lastMeshJoinAttempt : Z;          (* unsigned long *)
  reconnectAttempts : Z
}.

Definition set_queue (q : NotifyQueue) (st : State) : State :=
  mkState q (bleDeviceConnected st) (pAudioCharacteristic st) (packetsReceived st)
          (bytesReceived st) (esp32_a_mac st) (isMeshConnected st)
          (esp32_a_connected st) (lastMeshHeartbeat st) (lastMeshJoinAttempt st)
          (reconnectAttempts st).

(** [packetsReceived++; bytesReceived += n;] *)
Definition count_packet (n : Z) (st : State) : State :=
  mkState (notifyQueue st) (bleDeviceConnected st) (pAudioCharacteristic st)
          (to_u32 (packetsReceived st + 1)) (to_u32 (bytesReceived st + n))
          (esp32_a_mac st) (isMeshConnected st) (esp32_a_connected st)
          (lastMeshHeartbeat st) (lastMeshJoinAttempt st) (reconnectAttempts st).

Definition set_coordinator (m : mac_addr) (st : State) : State :=
  mkState (notifyQueue st) (bleDeviceConnected st) (pAudioCharacteristic st)
          (packetsReceived st) (bytesReceived st) m (isMeshConnected st)
          (esp32_a_connected st) (lastMeshHeartbeat st) (lastMeshJoinAttempt st)
          (reconnectAttempts st).

Definition set_connected (b : bool) (st : State) : State :=
  mkState (notifyQueue st) (bleDeviceConnected st) (pAudioCharacteristic st)
          (packetsReceived st) (bytesReceived st) (esp32_a_mac st) b b
          (lastMeshHeartbeat st) (lastMeshJoinAttempt st) (reconnectAttempts st).

Definition set_lastMeshHeartbeat (now : Z) (st : State) : State :=
  mkState (notifyQueue st) (bleDeviceConnected st) (pAudioCharacteristic st)
          (packetsReceived st) (bytesReceived st) (esp32_a_mac st) (isMeshConnected st)
          (esp32_a_connected st) now (lastMeshJoinAttempt st) (reconnectAttempts st).

Definition set_lastMeshJoinAttempt (now : Z) (st : State) : State :=
  mkState (notifyQueue st) (bleDeviceConnected st) (pAudioCharacteristic st)
          (packetsReceived st) (bytesReceived st) (esp32_a_mac st) (isMeshConnected st)
          (esp32_a_connected st) (lastMeshHeartbeat st) now (reconnectAttempts st).

Definition set_reconnectAttempts (n : Z) (st : State) : State :=
  mkState (notifyQueue st) (bleDeviceConnected st) (pAudioCharacteristic st)
          (packetsReceived st) (bytesReceived st) (esp32_a_mac st) (isMeshConnected st)
          (esp32_a_connected st) (lastMeshHeartbeat st) (lastMeshJoinAttempt st) n.

(** What the node hands to the radio: the document's fields that matter. *)
Inductive Output :=
| AudioChunkAck (dst : mac_addr) (sequence chunk : Z) (status : string) (timestamp : Z)
| AudioAck (dst : mac_addr) (timestamp : Z)
| ReadyConfirmation (dst : mac_addr) (timestamp : Z)
| JoinRequest (dst : mac_addr) (timestamp : Z).

Definition CHAR_W : byte := 87.
Definition CHAR_M : byte := 77.
Definition CHAR_R : byte := 82.

(** How the callback leaves the binary formats: the datagram was one of
    them and has been dealt with, or it goes on to the JSON parser. *)
Inductive Dispatch :=
| Handled (outs : list Output) (st : State)
| Json.

(** Lines 778-865 of [OnDataRecv(mac, data, len)] with [len = length data].
    [values] and [processed] are the two local arrays as the stack holds
    them on entry, [now] is the clock read by [sendAudioAck]. *)
Definition OnDataRecv_frames (st : State) (data : list byte) (values : list Z)
    (processed : list byte) (now : Z) : Dispatch :=
  let len := Z.of_nat (length data) in
  let at_ (i : nat) := nth i data 0 in
  if (2 <? len) && (at_ 0%nat =? CHAR_P) && (at_ 1%nat =? COLON) then
    match parseCompactAudioHeader data values 0 with
    | (true, values', dataStart) =>
        if (0 <? dataStart) && (dataStart <? len) then
          let rawSize := len - dataStart in
          let '(processed1, processedLen) :=
            decompressOptimizedAudio (drop (Z.to_nat dataStart) data) rawSize
                                     processed 256 in
          let '(processed2, processedLen2) :=
            if (processedLen <=? 0) || (256 <? processedLen)
            then (memcpy processed1 (replicate 240 128) 240, 240)
            else (processed1, processedLen) in
          let q :=
            if bleDeviceConnected st
            then snd (notifyQueuePushFromISR (notifyQueue st) processed2
                                             (to_u16 processedLen2) 0)
            else notifyQueue st in
          Handled [AudioChunkAck (esp32_a_mac st) (nth 0 values' 0) (nth 1 values' 0)
                                 "received" now]
                  (count_packet rawSize (set_queue q st))
        else Handled [] st
    | (false, _, _) => Handled [] st
    end
  else if (7 <=? len) && (at_ 0%nat =? CHAR_W) && (at_ 1%nat =? CHAR_M) then
    let type := at_ 2%nat in
    let plen := to_u16 (Z.lor (at_ 5%nat) (Z.shiftl (at_ 6%nat) 8)) in
    if (7 + plen <=? len) && (type =? 0) && (0 <? plen) then
      Handled []
        (count_packet plen
           (set_queue (snd (notifyQueuePushFromISR (notifyQueue st) (drop 7 data) plen 1))
                      st))
    else Handled [] st
  else if (2 <? len) && (at_ 0%nat =? CHAR_R) && (at_ 1%nat =? COLON) then
    let payload := len - 2 in
    if 0 <? payload then
      Handled []
        (count_packet payload
           (set_queue (snd (notifyQueuePushFromISR (notifyQueue st) (drop 2 data)
                                                   (to_u16 payload) 1))
                      st))
    else Handled [] st
  else if (2 <? len) && (at_ 0%nat =? CHAR_P) && (at_ 1%nat =? COLON) then
    Handled [] st
  else Json.

(** The [type] of a control document that parsed.  The branches for
    [test_audio] and [audio_chunk] work on Arduino [String]s and are not part
    of this model. *)
Inductive MeshMessage :=
| mesh_ack (status : string)
| mesh_heartbeat
| mesh_status
| audio_data
| test_ack
| other_type.

(** Lines 867-1047 of [OnDataRecv] for these documents; [msg = None] when
    the document does not parse, [peer_added] is what [esp_now_add_peer]
    answered. *)
Definition OnDataRecv_json (st : State) (m : mac_addr) (msg : option MeshMessage)
    (len now : Z) (peer_added : bool) : list Output * State :=
  match msg with
  | Some (mesh_ack status) =>
      if String.eqb status "joined" then
        let st1 := set_coordinator m st in
        if peer_added
        then ([ReadyConfirmation (esp32_a_mac st1) now], set_connected true st1)
        else ([], st1)
      else ([], st)
  | Some mesh_heartbeat => ([], set_lastMeshHeartbeat now st)
  | Some audio_data => ([AudioAck m now], count_packet len st)
  | Some mesh_status | Some test_ack | Some other_type | None => ([], st)
  end.

(** *** Joining and the mesh part of [loop] *)

Definition potentialCoordinators : list mac_addr :=
  [(16, 0, 59, 72, 156, 60); (16, 0, 59, 72, 26, 104); (255, 255, 255, 255, 255, 255)].

(** The attempts of [startScanningForESP32A] from attempt [attempt] on:
    [add_peer a] and [send a] are what [esp_now_add_peer] and [esp_now_send]
    answered in attempt [a] ([== ESP_OK]), [millis a] the clock read after a
    successful send, [timestamp] the clock read when the join document was
    built. *)
Fixpoint scan_loop (coordinators : list mac_addr) (attempt : nat)
    (add_peer send : nat -> bool) (millis : nat -> Z) (timestamp : Z) (st : State)
  : list Output * State :=
  match coordinators with
  | [] => ([], st)
  | c :: rest =>
      if add_peer attempt then
        let st1 :=
          if send attempt then
            let st' := set_lastMeshJoinAttempt (millis attempt) st in
            if (attempt <? 2)%nat then set_coordinator c st' else st'
          else st in
        let '(outs, st2) := scan_loop rest (S attempt) add_peer send millis timestamp st1 in
        (JoinRequest c timestamp :: outs, st2)
      else scan_loop rest (S attempt) add_peer send millis timestamp st
  end.

Definition startScanningForESP32A (st : State) (add_peer send : nat -> bool)
    (millis : nat -> Z) (timestamp : Z) : list Output * State :=
  scan_loop potentialCoordinators 0 add_peer send millis timestamp st.

Definition MAX_RECONNECT_ATTEMPTS : Z := 10.
Definition DEVICE_TIMEOUT : Z := 30000.

(** Lines 1079-1121 of [loop]: the reconnection attempt and the heartbeat
    watchdog.  [currentTime] is the clock read by the block that runs. *)
Definition loop_mesh (st : State) (currentTime : Z) (add_peer send : nat -> bool)
    (millis : nat -> Z) (timestamp : Z) : list Output * State :=
  let '(outs, st1) :=
    if negb (isMeshConnected st) || negb (esp32_a_connected st) then
      if 15000 <? to_u32 (currentTime - lastMeshJoinAttempt st) then
        if reconnectAttempts st <? MAX_RECONNECT_ATTEMPTS then
          startScanningForESP32A
            (set_reconnectAttempts (to_i32 (reconnectAttempts st + 1))
               (set_lastMeshJoinAttempt currentTime st))
            add_peer send millis timestamp
        else ([], st)
      else ([], st)
    else ([], st) in
  if isMeshConnected st1 && esp32_a_connected st1 then
    if DEVICE_TIMEOUT <? to_u32 (currentTime - lastMeshHeartbeat st1)
    then (outs, set_connected false st1)
    else (outs, st1)
  else (outs, st1).

(** *** Statistics of a received chunk *)

(** The loop [sum += d[i]; if (d[i] < minVal) ..; if (d[i] > maxVal) ..]
    over the first [n] bytes. *)
Fixpoint stats_loop (d : list byte) (n : nat) (sum minVal maxVal : Z) : Z * Z * Z :=
  match n, d with
  | S n', x :: rest =>
      stats_loop rest n' (to_u32 (sum + x))
                 (if x <? minVal then x else minVal)
                 (if maxVal <? x then x else maxVal)
  | _, _ => (sum, minVal, maxVal)
  end.

(** [processReceivedAudioData(audioData, length, ..)]: the statistics it
    prints ([minVal], [maxVal], [avgVal]) and the state it leaves.  [None]:
    the division [sum / length] is by zero. *)
Definition processReceivedAudioData (st : State) (audioData : list byte) (length : Z)
  : option (Z * Z * Z * State) :=
  let '(sum, minVal, maxVal) := stats_loop audioData (Z.to_nat length) 0 255 0 in
  if to_u32 length =? 0 then None
  else
    let avgVal := to_u8 (sum / to_u32 length) in
    let st1 := count_packet length st in
    let st2 :=
      if bleDeviceConnected st && pAudioCharacteristic st
      then set_queue (snd (notifyQueuePushFromISR (notifyQueue st1) audioData
                                                  (to_u16 length) 0)) st1
      else st1 in
    Some (minVal, maxVal, avgVal, st2).

(** *** The consumers of the notify queue, with the item they pop into

    [RingQueue.pop] hands the slot's tag out together with its bytes.  The
    Relay's [notifyQueuePop] copies [length] and [data] only: the [isPcm8] a
    consumer reads after the call is the one its own item held before it,
    and the three consumers declare that item without initialising it.  The
    definitions of this module pop that way.  [item] is the item as the
    stack holds it when [loop] or [setup] declare it, once, before their
    loop; [locals i] is the item as the stack holds it in iteration [i] of
    [bleNotifyTask], which declares it inside its loop. *)
Module Consumer.

Definition notifyQueuePop (q : NotifyQueue) (out : NotifyItem)
  : bool * NotifyQueue * NotifyItem :=
  let tl := RingQueue.tail q in
  let hd := RingQueue.head q in
  if tl =? hd then (false, q, out)
  else
    match RingQueue.slots q !! RingQueue.slot_index NOTIFY_RING_BITS tl with
    | Some slot =>
        (true,
         RingQueue.mkQueue (RingQueue.head q)
           (to_u16 (Z.land (tl + 1) (RingQueue.RING_MASK NOTIFY_RING_BITS)))
           (RingQueue.slots q),
         RingQueue.mkItem (RingQueue.length slot)
           (memcpy (RingQueue.data out) (RingQueue.data slot)
                   (Z.to_nat (RingQueue.length slot)))
           (RingQueue.tag out))
    | None => (false, q, out)
    end.

(** The drain loop of [loop] and [setup]: at most [n] items are popped into
    the one [item] and ingested. *)
Fixpoint drain (ingest : Coalescer -> NotifyItem -> Coalescer) (n : nat)
    (q : NotifyQueue) (item : NotifyItem) (c : Coalescer)
  : NotifyQueue * NotifyItem * Coalescer :=
  match n with
  | O => (q, item, c)
  | S n' =>
      match notifyQueuePop q item with
      | (true, q1, item1) => drain ingest n' q1 item1 (ingest c item1)
      | (false, q1, item1) => (q1, item1, c)
      end
  end.

(** The flush block of [loop]; [bleDeviceConnected] stands for
    [bleDeviceConnected && pAudioCharacteristic] and [due] for
    [nowMs >= nextFlushMs]. *)
Definition loop_flush (bleDeviceConnected due : bool) (q : NotifyQueue)
    (item : NotifyItem) (c : Coalescer)
  : list (list byte) * NotifyQueue * Coalescer :=
  if bleDeviceConnected then
    let '(q1, _, c1) := drain loop_ingest 32 q item c in
    if (200 <=? coalesceLen c1) || due then
      let '(sent, c2) := flush 1440 c1 in (sent, q1, c2)
    else ([], q1, c1)
  else ([], q, c).

(** The flush block that ends [setup].  It runs once, so its [static]s are
    as initialised: the buffer zeroed, [coalesceLen = 0] and
    [nextFlushMs = 0]; [nowMs] is the clock it reads. *)
Definition setup_flush (bleDeviceConnected : bool) (nowMs : Z) (q : NotifyQueue)
    (item : NotifyItem) : list (list byte) * NotifyQueue * Coalescer :=
  let c := {| coalesceBuf := replicate 1536 0; coalesceLen := 0 |} in
  if bleDeviceConnected then
    let '(q1, _, c1) := drain setup_ingest 6 q item c in
    let nextFlushMs := to_u32 (nowMs + 25) in
    if (200 <=? coalesceLen c1) || (nextFlushMs <=? nowMs) then
      let '(sent, c2) := flush 1280 c1 in (sent, q1, c2)
    else ([], q1, c1)
  else ([], q, c).

(** The ingest loop of [bleNotifyTask] from iteration [i] on, [n] iterations
    at most. *)
Fixpoint task_drain (n i : nat) (q : NotifyQueue) (locals : nat -> NotifyItem)
    (c : Coalescer) : NotifyQueue * Coalescer :=
  match n with
  | O => (q, c)
  | S n' =>
      match notifyQueuePop q (locals i) with
      | (true, q1, item1) => task_drain n' (S i) q1 locals (bleNotifyTask_ingest c item1)
      | (false, q1, _) => (q1, c)
      end
  end.

(** One cycle of [bleNotifyTask]; [bleDeviceConnected] stands for
    [bleDeviceConnected && pAudioCharacteristic]. *)
Definition bleNotifyTask_cycle (bleDeviceConnected : bool) (q : NotifyQueue)
    (locals : nat -> NotifyItem) (c : Coalescer)
  : list (list byte) * NotifyQueue * Coalescer :=
  let '(q1, c1) := task_drain 8 0 q locals c in
  if bleDeviceConnected && (200 <=? coalesceLen c1) then
    let '(sent, c2) := flush 1280 c1 in (sent, q1, c2)
  else ([], q1, c1).

(** M pops, in order, into the one item the consumer keeps. *)
Fixpoint pop_n (q : NotifyQueue) (out : NotifyItem) (m : nat)
  : list (bool * NotifyItem) * NotifyQueue :=
  match m with
  | O => ([], q)
  | S m' =>
      let '(ok, q1, out1) := notifyQueuePop q out in
      let '(rs, q2) := pop_n q1 out1 m' in
      ((ok, out1) :: rs, q2)
  end.

(** Producer and consumer calls on the Relay's queue in any order, as
    [RingQueue.run_ops] has them for the Hub's. *)
Fixpoint run_ops (q : NotifyQueue) (out : NotifyItem) (ops : list (@RingQueue.Op Z))
  : list (bool * option (Z * list byte * Z)) :=
  match ops with
  | [] => []
  | RingQueue.OpPush buf len t :: rest =>
      let '(ok, q1) := notifyQueuePushFromISR q buf len t in
      (ok, None) :: run_ops q1 out rest
  | RingQueue.OpPop :: rest =>
      let '(ok, q1, out1) := notifyQueuePop q out in
      (ok, if ok then Some (RingQueue.seen out1) else None) :: run_ops q1 out1 rest
  end.

End Consumer.

End Relay.


(** * Properties *)

(** ** Ring queue *)

Section RingFacts.
Context {Tag : Type}.
Variable bits : Z.
Hypothesis bits_range : 0 <= bits <= 16.

Local Abbreviation SIZE := (RingQueue.RING_SIZE bits).
Local Abbreviation Queue := (@RingQueue.Queue Tag).
Local Abbreviation Item := (@RingQueue.Item Tag).

Lemma ring_size_pos : 0 < SIZE.
Proof. unfold RingQueue.RING_SIZE. apply Z.pow_pos_nonneg; lia. Qed.

Lemma ring_size_u16 : SIZE <= 65536.
Proof.
  unfold RingQueue.RING_SIZE. change 65536 with (2 ^ 16).
  apply Z.pow_le_mono_r; lia.
Qed.

Lemma land_ring_mask x : Z.land x (RingQueue.RING_MASK bits) = x mod SIZE.
Proof. unfold RingQueue.RING_MASK, RingQueue.RING_SIZE. apply Z.land_ones. lia. Qed.

Lemma mod_ring_below x : - SIZE <= x < 0 -> x mod SIZE = x + SIZE.
Proof.
  intros H. rewrite <- (Z.mod_add x 1 SIZE) by lia.
  rewrite Z.mul_1_l. apply Z.mod_small. lia.
Qed.

Lemma mod_ring_above x : SIZE <= x < 2 * SIZE -> x mod SIZE = x - SIZE.
Proof.
  intros H. replace x with (x - SIZE + 1 * SIZE) at 1 by lia.
  rewrite Z.mod_add by lia. apply Z.mod_small. lia.
Qed.

(** The successor of an index, and the distance between two indices. *)
Lemma ring_succ x :
  0 <= x < SIZE -> (x + 1) mod SIZE = if x + 1 =? SIZE then 0 else x + 1.
Proof.
  intros H. destruct (Z.eqb_spec (x + 1) SIZE) as [E|E].
  - rewrite E. apply Z.mod_same. lia.
  - apply Z.mod_small. lia.
Qed.

Lemma ring_dist a b :
  0 <= a < SIZE -> 0 <= b < SIZE ->
  (a - b) mod SIZE = if a <? b then a - b + SIZE else a - b.
Proof.
  intros Ha Hb. destruct (Z.ltb_spec a b).
  - apply mod_ring_below. lia.
  - apply Z.mod_small. lia.
Qed.

Lemma to_u16_ring x : 0 <= x < SIZE -> to_u16 x = x.
Proof.
  intros H. unfold to_u16. apply Z.mod_small.
  pose proof ring_size_u16. lia.
Qed.

Lemma next_index x : to_u16 (Z.land (x + 1) (RingQueue.RING_MASK bits)) = (x + 1) mod SIZE.
Proof.
  rewrite land_ring_mask. apply to_u16_ring. apply Z.mod_pos_bound, ring_size_pos.
Qed.

Lemma slot_index_wf x : 0 <= x < SIZE -> RingQueue.slot_index bits x = Z.to_nat x.
Proof.
  intros H. unfold RingQueue.slot_index. rewrite land_ring_mask.
  now rewrite Z.mod_small.
Qed.

(** *** [push] and [pop], one call *)

Lemma push_unfold (q : Queue) buf len t :
  RingQueue.wf bits q ->
  RingQueue.push bits q buf len t =
    if (RingQueue.head q + 1) mod SIZE =? RingQueue.tail q then (false, q)
    else (true,
          RingQueue.mkQueue ((RingQueue.head q + 1) mod SIZE) (RingQueue.tail q)
            (alter (RingQueue.write_slot (RingQueue.clip_len len) buf t)
                   (Z.to_nat (RingQueue.head q)) (RingQueue.slots q))).
Proof.
  intros [Hh Ht Hs]. unfold RingQueue.push.
  rewrite next_index, slot_index_wf by assumption. reflexivity.
Qed.

Lemma pop_unfold (q : Queue) (out : Item) :
  RingQueue.wf bits q ->
  RingQueue.pop bits q out =
    if RingQueue.tail q =? RingQueue.head q then (false, q, out)
    else
      match RingQueue.slots q !! Z.to_nat (RingQueue.tail q) with
      | Some slot =>
          (true,
           RingQueue.mkQueue (RingQueue.head q) ((RingQueue.tail q + 1) mod SIZE)
                             (RingQueue.slots q),
           RingQueue.mkItem (RingQueue.length slot)
             (memcpy (RingQueue.data out) (RingQueue.data slot)
                     (Z.to_nat (RingQueue.length slot)))
             (RingQueue.tag slot))
      | None => (false, q, out)
      end.
Proof.
  intros [Hh Ht Hs]. unfold RingQueue.pop.
  rewrite next_index, slot_index_wf by assumption. reflexivity.
Qed.

Lemma count_range (q : Queue) : 0 <= RingQueue.count bits q < SIZE.
Proof. apply Z.mod_pos_bound, ring_size_pos. Qed.

Lemma count_empty (q : Queue) :
  RingQueue.wf bits q -> (RingQueue.count bits q = 0 <-> RingQueue.tail q = RingQueue.head q).
Proof.
  intros [Hh Ht Hs]. unfold RingQueue.count. rewrite ring_dist by assumption.
  destruct (Z.ltb_spec (RingQueue.head q) (RingQueue.tail q)); lia.
Qed.

Lemma count_full (q : Queue) :
  RingQueue.wf bits q ->
  (RingQueue.count bits q = SIZE - 1 <-> (RingQueue.head q + 1) mod SIZE = RingQueue.tail q).
Proof.
  intros [Hh Ht Hs]. unfold RingQueue.count.
  rewrite ring_dist, ring_succ by assumption.
  destruct (Z.ltb_spec (RingQueue.head q) (RingQueue.tail q));
    destruct (Z.eqb_spec (RingQueue.head q + 1) SIZE); lia.
Qed.

(** *** The stored items *)

Lemma walk_alter (sl : list Item) f j n t :
  0 <= t < SIZE -> 0 <= j < SIZE ->
  Z.of_nat n <= (j - t) mod SIZE ->
  RingQueue.walk bits (alter f (Z.to_nat j) sl) n t = RingQueue.walk bits sl n t.
Proof.
  revert t. induction n as [|n IH]; intros t Ht Hj Hd; [reflexivity|].
  cbn [RingQueue.walk].
  rewrite ring_dist in Hd by assumption.
  rewrite list_lookup_alter_ne.
  2:{ destruct (Z.ltb_spec j t); lia. }
  destruct (sl !! Z.to_nat t); [|reflexivity].
  f_equal. apply IH; [apply Z.mod_pos_bound, ring_size_pos | assumption |].
  rewrite ring_succ by assumption.
  destruct (Z.eqb_spec (t + 1) SIZE).
  - rewrite ring_dist by lia. destruct (Z.ltb_spec j t), (Z.ltb_spec j 0); lia.
  - rewrite ring_dist by lia. destruct (Z.ltb_spec j t), (Z.ltb_spec j (t + 1)); lia.
Qed.

Lemma walk_S (sl : list Item) n t :
  RingQueue.walk bits sl (S n) t
  = match sl !! Z.to_nat t with
    | Some it => it :: RingQueue.walk bits sl n ((t + 1) mod SIZE)
    | None => []
    end.
Proof. reflexivity. Qed.

Lemma walk_snoc (sl : list Item) n t :
  Z.of_nat (length sl) = SIZE -> 0 <= t < SIZE ->
  RingQueue.walk bits sl (S n) t
  = RingQueue.walk bits sl n t
    ++ match sl !! Z.to_nat ((t + Z.of_nat n) mod SIZE) with
       | Some it => [it] | None => []
       end.
Proof.
  intros Hs. revert t. induction n as [|n IH]; intros t Ht.
  - cbn [RingQueue.walk]. rewrite Z.add_0_r, Z.mod_small by assumption.
    destruct (sl !! Z.to_nat t); reflexivity.
  - destruct (lookup_lt_is_Some_2 sl (Z.to_nat t)) as [it Hit]; [lia|].
    rewrite (walk_S sl (S n) t), (walk_S sl n t), Hit.
    rewrite IH by (apply Z.mod_pos_bound, ring_size_pos).
    rewrite <- app_comm_cons. rewrite Zplus_mod_idemp_l.
    replace (t + 1 + Z.of_nat n) with (t + Z.of_nat (S n)) by lia. reflexivity.
Qed.

Lemma payload_write_slot (old : Item) buf len t :
  0 <= len <= Z.of_nat (length buf) ->
  RingQueue.seen (RingQueue.write_slot (RingQueue.clip_len len) buf t old)
  = RingQueue.stored (buf, len, t).
Proof.
  intros H. unfold RingQueue.seen, RingQueue.stored, RingQueue.payload,
    RingQueue.clipped, RingQueue.write_slot, memcpy. cbn.
  rewrite take_app_le.
  - rewrite take_take, Nat.min_id. reflexivity.
  - rewrite length_take. unfold RingQueue.clip_len.
    destruct (256 <? len) eqn:E; lia.
Qed.

(** A slot a producer filled carries at least [length] bytes. *)
Definition filled (it : Item) : Prop :=
  (Z.to_nat (RingQueue.length it) <= length (RingQueue.data it))%nat.

Lemma filled_write_slot (old : Item) buf len t :
  0 <= len <= Z.of_nat (length buf) ->
  filled (RingQueue.write_slot (RingQueue.clip_len len) buf t old).
Proof.
  intros H. unfold filled, RingQueue.write_slot, memcpy. cbn.
  rewrite length_app, length_take. unfold RingQueue.clip_len.
  destruct (256 <? len) eqn:E; lia.
Qed.

Lemma seen_pop_item (slot out : Item) :
  filled slot ->
  RingQueue.seen
    (RingQueue.mkItem (RingQueue.length slot)
       (memcpy (RingQueue.data out) (RingQueue.data slot)
               (Z.to_nat (RingQueue.length slot)))
       (RingQueue.tag slot))
  = RingQueue.seen slot.
Proof.
  intros H. unfold RingQueue.seen, RingQueue.payload, memcpy. cbn.
  rewrite take_app_le by (rewrite length_take; unfold filled in H; lia).
  rewrite take_take, Nat.min_id. reflexivity.
Qed.

(** A successful push appends the stored item; nothing older changes. *)
Lemma push_contents (q : Queue) buf len t :
  RingQueue.wf bits q ->
  RingQueue.count bits q < SIZE - 1 ->
  exists q' old,
    RingQueue.push bits q buf len t = (true, q')
    /\ RingQueue.wf bits q'
    /\ RingQueue.count bits q' = RingQueue.count bits q + 1
    /\ RingQueue.contents bits q'
       = RingQueue.contents bits q
         ++ [RingQueue.write_slot (RingQueue.clip_len len) buf t old].
Proof.
  intros Hwf Hc. pose proof Hwf as [Hh Ht Hs].
  pose proof (count_full q Hwf) as Hfull.
  pose proof ring_size_pos as Hpos.
  destruct (lookup_lt_is_Some_2 (RingQueue.slots q) (Z.to_nat (RingQueue.head q)))
    as [old Hold]; [lia|].
  eexists _, old.
  rewrite push_unfold by assumption.
  destruct (Z.eqb_spec ((RingQueue.head q + 1) mod SIZE) (RingQueue.tail q)) as [E|E].
  { apply Hfull in E. lia. }
  assert (Hcnt : RingQueue.count bits
            (RingQueue.mkQueue ((RingQueue.head q + 1) mod SIZE) (RingQueue.tail q)
               (alter (RingQueue.write_slot (RingQueue.clip_len len) buf t)
                      (Z.to_nat (RingQueue.head q)) (RingQueue.slots q)))
          = RingQueue.count bits q + 1).
  { unfold RingQueue.count in *. cbn [RingQueue.head RingQueue.tail].
    rewrite ring_succ in * by assumption.
    rewrite ring_dist in Hc by assumption.
    destruct (Z.eqb_spec (RingQueue.head q + 1) SIZE);
      rewrite !ring_dist by lia;
      destruct (Z.ltb_spec (RingQueue.head q) (RingQueue.tail q));
      repeat match goal with |- context [?a <? ?b] => destruct (Z.ltb_spec a b) end;
      lia. }
  split; [reflexivity|]. split.
  { constructor; cbn; [apply Z.mod_pos_bound; lia | assumption |].
    rewrite length_alter. assumption. }
  split; [exact Hcnt|].
  - unfold RingQueue.contents. rewrite Hcnt. cbn [RingQueue.slots RingQueue.tail].
    replace (Z.to_nat (RingQueue.count bits q + 1))
      with (S (Z.to_nat (RingQueue.count bits q)))
      by (pose proof (count_range q); lia).
    rewrite walk_snoc by (rewrite ?length_alter; assumption).
    rewrite walk_alter; [| assumption | assumption |].
    2:{ rewrite Z2Nat.id by (pose proof (count_range q); lia).
        unfold RingQueue.count. lia. }
    f_equal.
    replace ((RingQueue.tail q + Z.of_nat (Z.to_nat (RingQueue.count bits q))) mod SIZE)
      with (RingQueue.head q).
    + rewrite list_lookup_alter_eq, Hold. reflexivity.
    + rewrite Z2Nat.id by (pose proof (count_range q); lia).
      unfold RingQueue.count. rewrite Zplus_mod_idemp_r.
      replace (RingQueue.tail q + (RingQueue.head q - RingQueue.tail q))
        with (RingQueue.head q) by lia.
      symmetry. apply Z.mod_small. assumption.
Qed.

(** A push on a full queue is refused and changes nothing. *)
Lemma push_full (q : Queue) buf len t :
  RingQueue.wf bits q ->
  RingQueue.count bits q = SIZE - 1 ->
  RingQueue.push bits q buf len t = (false, q).
Proof.
  intros Hwf Hc. rewrite push_unfold by assumption.
  apply (count_full q Hwf) in Hc. rewrite Hc, Z.eqb_refl. reflexivity.
Qed.

(** A pop on an empty queue is refused and changes nothing. *)
Lemma pop_empty (q : Queue) (out : Item) :
  RingQueue.tail q = RingQueue.head q ->
  RingQueue.pop bits q out = (false, q, out).
Proof. intros E. unfold RingQueue.pop. rewrite E, Z.eqb_refl. reflexivity. Qed.

(** A pop on a non-empty queue hands out the oldest item. *)
Lemma pop_contents (q : Queue) (out : Item) :
  RingQueue.wf bits q ->
  0 < RingQueue.count bits q ->
  exists q' it rest,
    RingQueue.contents bits q = it :: rest
    /\ RingQueue.pop bits q out
       = (true, q',
          RingQueue.mkItem (RingQueue.length it)
            (memcpy (RingQueue.data out) (RingQueue.data it)
                    (Z.to_nat (RingQueue.length it)))
            (RingQueue.tag it))
    /\ RingQueue.wf bits q'
    /\ RingQueue.count bits q' = RingQueue.count bits q - 1
    /\ RingQueue.contents bits q' = rest.
Proof.
  intros Hwf Hc. pose proof Hwf as [Hh Ht Hs].
  pose proof ring_size_pos as Hpos.
  destruct (lookup_lt_is_Some_2 (RingQueue.slots q) (Z.to_nat (RingQueue.tail q)))
    as [it Hit]; [lia|].
  assert (Hne : RingQueue.tail q <> RingQueue.head q).
  { intros E. apply (count_empty q Hwf) in E. lia. }
  assert (Hcnt : RingQueue.count bits
            (RingQueue.mkQueue (RingQueue.head q) ((RingQueue.tail q + 1) mod SIZE)
               (RingQueue.slots q))
          = RingQueue.count bits q - 1).
  { unfold RingQueue.count in *. cbn [RingQueue.head RingQueue.tail].
    rewrite ring_succ by assumption.
    rewrite ring_dist in Hc by assumption.
    destruct (Z.eqb_spec (RingQueue.tail q + 1) SIZE);
      rewrite !ring_dist by lia;
      destruct (Z.ltb_spec (RingQueue.head q) (RingQueue.tail q));
      repeat match goal with |- context [?a <? ?b] => destruct (Z.ltb_spec a b) end;
      lia. }
  eexists _, it, _. rewrite pop_unfold by assumption.
  destruct (Z.eqb_spec (RingQueue.tail q) (RingQueue.head q)); [contradiction|].
  rewrite Hit. split; [|split; [reflexivity|]].
  - unfold RingQueue.contents.
    replace (Z.to_nat (RingQueue.count bits q))
      with (S (Z.to_nat (RingQueue.count bits q - 1))) by lia.
    rewrite walk_S, Hit. reflexivity.
  - split.
    { constructor; cbn; [assumption | apply Z.mod_pos_bound; lia | assumption]. }
    split; [exact Hcnt|].
    unfold RingQueue.contents. rewrite Hcnt. reflexivity.
Qed.

Lemma walk_length (sl : list Item) n t :
  Z.of_nat (length sl) = SIZE -> 0 <= t < SIZE ->
  length (RingQueue.walk bits sl n t) = n.
Proof.
  intros Hs. revert t. induction n as [|n IH]; intros t Ht; [reflexivity|].
  rewrite walk_S.
  destruct (lookup_lt_is_Some_2 sl (Z.to_nat t)) as [it Hit]; [lia|].
  rewrite Hit. cbn. f_equal. apply IH, Z.mod_pos_bound, ring_size_pos.
Qed.

Lemma contents_length (q : Queue) :
  RingQueue.wf bits q ->
  Z.of_nat (length (RingQueue.contents bits q)) = RingQueue.count bits q.
Proof.
  intros [Hh Ht Hs]. unfold RingQueue.contents.
  rewrite walk_length by assumption.
  pose proof (count_range q). lia.
Qed.

(** *** Sequences of pushes and of pops *)

Lemma push_all_spec (items : list (list byte * Z * Tag)) : forall (q : Queue),
  RingQueue.wf bits q ->
  Forall RingQueue.readable items ->
  Forall filled (RingQueue.contents bits q) ->
  let k := Nat.min (length items) (Z.to_nat (SIZE - 1 - RingQueue.count bits q)) in
  exists q',
    RingQueue.push_all bits q items
      = (replicate k true ++ replicate (length items - k) false, q')
    /\ RingQueue.wf bits q'
    /\ RingQueue.count bits q' = RingQueue.count bits q + Z.of_nat k
    /\ Forall filled (RingQueue.contents bits q')
    /\ map RingQueue.seen (RingQueue.contents bits q')
       = map RingQueue.seen (RingQueue.contents bits q)
         ++ map RingQueue.stored (take k items).
Proof.
  induction items as [|[[buf len] t] items IH]; intros q Hwf Hr Hf k.
  - exists q. subst k. cbn. rewrite app_nil_r, Z.add_0_r. auto.
  - apply Forall_cons in Hr as [Hr1 Hr]. cbn in Hr1.
    pose proof (count_range q) as Hcr.
    cbn [RingQueue.push_all].
    destruct (Z.eq_dec (RingQueue.count bits q) (SIZE - 1)) as [Efull|Enf].
    + (* full: this push and all later ones are refused *)
      rewrite push_full by assumption.
      destruct (IH q Hwf Hr Hf) as (q' & Hp & Hwf' & Hc' & Hf' & Hs').
      rewrite Hp. exists q'. subst k.
      replace (Z.to_nat (SIZE - 1 - RingQueue.count bits q)) with 0%nat in * by lia.
      rewrite Nat.min_0_r in *. cbn in *. rewrite Nat.sub_0_r in Hp |- *.
      auto.
    + destruct (push_contents q buf len t Hwf ltac:(lia))
        as (q1 & old & Hp1 & Hwf1 & Hc1 & Hcont1).
      rewrite Hp1.
      assert (Hf1 : Forall filled (RingQueue.contents bits q1)).
      { rewrite Hcont1. apply Forall_app. split; [assumption|].
        apply Forall_singleton, filled_write_slot. assumption. }
      destruct (IH q1 Hwf1 Hr Hf1) as (q' & Hp & Hwf' & Hc' & Hf' & Hs').
      rewrite Hp. exists q'. subst k. rewrite Hc1 in *.
      replace (Z.to_nat (SIZE - 1 - RingQueue.count bits q))
        with (S (Z.to_nat (SIZE - 1 - (RingQueue.count bits q + 1)))) by lia.
      cbn [length]. rewrite <- Nat.succ_min_distr. cbn [replicate take map app].
      rewrite Nat.sub_succ.
      split; [reflexivity|]. split; [assumption|]. split; [lia|].
      split; [assumption|].
      rewrite Hs', Hcont1, map_app. cbn [map].
      rewrite payload_write_slot by assumption.
      rewrite <- app_assoc. reflexivity.
Qed.

Lemma pop_n_spec (m : nat) : forall (q : Queue) (out : Item),
  RingQueue.wf bits q ->
  Forall filled (RingQueue.contents bits q) ->
  let k := Nat.min m (length (RingQueue.contents bits q)) in
  map fst (fst (RingQueue.pop_n bits q out m))
    = replicate k true ++ replicate (m - k) false
  /\ RingQueue.popped (fst (RingQueue.pop_n bits q out m))
     = map RingQueue.seen (take m (RingQueue.contents bits q))
  /\ RingQueue.contents bits (snd (RingQueue.pop_n bits q out m))
     = drop m (RingQueue.contents bits q).
Proof.
  induction m as [|m IH]; intros q out Hwf Hf k.
  - subst k. cbn. rewrite drop_0. auto.
  - cbn [RingQueue.pop_n].
    pose proof (contents_length q Hwf) as Hlen.
    pose proof (count_range q) as Hcr.
    destruct (Z.eq_dec (RingQueue.count bits q) 0) as [E0|Hne].
    + (* empty: every pop is refused *)
      assert (Hnil : RingQueue.contents bits q = []).
      { apply length_zero_iff_nil. lia. }
      rewrite pop_empty by (apply (count_empty q Hwf); assumption).
      destruct (IH q out Hwf Hf) as (Hfl & Hpo & Hco).
      destruct (RingQueue.pop_n bits q out m) as [rs q2] eqn:Hpn.
      subst k. rewrite Hnil in *. cbn in *.
      rewrite Nat.min_0_r in Hfl. cbn in Hfl. rewrite Nat.sub_0_r in Hfl.
      unfold RingQueue.popped in *. cbn.
      destruct (decide (false = true)); [discriminate|].
      split; [f_equal; exact Hfl|]. split.
      * etransitivity; [exact Hpo|]. destruct m; reflexivity.
      * etransitivity; [exact Hco|]. destruct m; reflexivity.
    + destruct (pop_contents q out Hwf ltac:(lia))
        as (q1 & it & rest & Hcont & Hpop & Hwf1 & Hc1 & Hrest).
      rewrite Hpop. rewrite Hcont in Hf. apply Forall_cons in Hf as [Hfit Hf].
      rewrite <- Hrest in Hf.
      destruct (IH q1
                  (RingQueue.mkItem (RingQueue.length it)
                     (memcpy (RingQueue.data out) (RingQueue.data it)
                             (Z.to_nat (RingQueue.length it)))
                     (RingQueue.tag it)) Hwf1 Hf) as (Hfl & Hpo & Hco).
      destruct (RingQueue.pop_n bits q1 _ m) as [rs q2] eqn:Hpn.
      subst k. rewrite Hcont. cbn [fst snd map length] in *.
      rewrite <- Nat.succ_min_distr. cbn [replicate app].
      rewrite Nat.sub_succ, Hrest in *.
      split; [f_equal; exact Hfl|]. split.
      * unfold RingQueue.popped in *. cbn [filter list_filter fst snd].
        rewrite decide_True by reflexivity.
        cbn [map take snd]. rewrite seen_pop_item by assumption.
        f_equal. exact Hpo.
      * exact Hco.
Qed.

(** From an empty queue, pushes beyond [SIZE - 1] items are refused and the
    pops hand back, in order, the items that were accepted. *)
Lemma ring_fifo (q0 : Queue) :
  RingQueue.wf bits q0 ->
  RingQueue.tail q0 = RingQueue.head q0 ->
  RingQueue.fifo bits q0 (Z.to_nat (SIZE - 1)).
Proof.
  intros Hwf He items m out Hr Hn Hm.
  assert (Hc0 : RingQueue.count bits q0 = 0) by (apply (count_empty q0 Hwf); assumption).
  assert (Hnil : RingQueue.contents bits q0 = []).
  { apply length_zero_iff_nil. pose proof (contents_length q0 Hwf). lia. }
  destruct (push_all_spec items q0 Hwf Hr) as (q1 & Hp & Hwf1 & Hc1 & Hf1 & Hs1).
  { rewrite Hnil. constructor. }
  rewrite Hp. cbn [fst snd].
  rewrite Hc0, Z.sub_0_r, Nat.min_l in * by lia.
  split.
  { rewrite Nat.sub_diag. cbn. apply app_nil_r. }
  destruct (pop_n_spec m q1 out Hwf1 Hf1) as (_ & Hpo & _).
  rewrite Hpo, <- List.firstn_map, Hs1, Hnil. cbn [map app].
  rewrite firstn_all, List.firstn_map. f_equal.
  destruct (Nat.le_ge_cases m (length items)).
  - rewrite Nat.min_l by assumption. reflexivity.
  - rewrite Nat.min_r by assumption. rewrite firstn_all. apply take_ge. assumption.
Qed.

End RingFacts.

(** The two instances, as the firmware starts them. *)
Lemma bleInQueue_init_wf : RingQueue.wf Hub.BLE_IN_BITS Hub.bleInQueue_init.
Proof. constructor; unfold RingQueue.RING_SIZE, Hub.BLE_IN_BITS; cbn; lia. Qed.

Lemma notifyQueue_init_wf : RingQueue.wf Relay.NOTIFY_RING_BITS Relay.notifyQueue_init.
Proof. constructor; unfold RingQueue.RING_SIZE, Relay.NOTIFY_RING_BITS; cbn; lia. Qed.

(** What a consumer sees of an item when its own item's tag is [t]. *)
Definition treated (t : Z) (it : Relay.NotifyItem) : Z * list byte * Z :=
  (RingQueue.length it, RingQueue.payload it, t).

(** An answer of the bounded FIFO with the tag of a popped item replaced by
    the consumer's. *)
Definition relabel (t : Z) (r : bool * option (Z * list byte * Z))
  : bool * option (Z * list byte * Z) :=
  (fst r, option_map (fun x => (fst (fst x), snd (fst x), t)) (snd r)).

Section ConsumerPop.

Lemma notify_bits_ok : 0 <= Relay.NOTIFY_RING_BITS <= 16.
Proof. unfold Relay.NOTIFY_RING_BITS. lia. Qed.

Lemma consumer_pop_empty (q : Relay.NotifyQueue) (out : Relay.NotifyItem) :
  RingQueue.tail q = RingQueue.head q ->
  Relay.Consumer.notifyQueuePop q out = (false, q, out).
Proof.
  intros E. unfold Relay.Consumer.notifyQueuePop. rewrite E, Z.eqb_refl. reflexivity.
Qed.

(** A successful pop hands out the oldest item's length and bytes, under the
    tag the caller's item already had. *)
Lemma consumer_pop_contents (q : Relay.NotifyQueue) (out : Relay.NotifyItem) :
  RingQueue.wf Relay.NOTIFY_RING_BITS q ->
  0 < RingQueue.count Relay.NOTIFY_RING_BITS q ->
  exists q' it rest,
    RingQueue.contents Relay.NOTIFY_RING_BITS q = it :: rest
    /\ Relay.Consumer.notifyQueuePop q out
       = (true, q',
          RingQueue.mkItem (RingQueue.length it)
            (memcpy (RingQueue.data out) (RingQueue.data it)
                    (Z.to_nat (RingQueue.length it)))
            (RingQueue.tag out))
    /\ RingQueue.wf Relay.NOTIFY_RING_BITS q'
    /\ RingQueue.count Relay.NOTIFY_RING_BITS q'
       = RingQueue.count Relay.NOTIFY_RING_BITS q - 1
    /\ RingQueue.contents Relay.NOTIFY_RING_BITS q' = rest.
Proof.
  intros Hwf Hpos.
  destruct (pop_contents Relay.NOTIFY_RING_BITS notify_bits_ok q out Hwf Hpos)
    as (q' & it & rest & Hcont & Hpop & Hwf' & Hc' & Hrest).
  exists q', it, rest. split; [exact Hcont|]. split; [|auto].
  unfold RingQueue.pop in Hpop. unfold Relay.Consumer.notifyQueuePop.
  destruct (RingQueue.tail q =? RingQueue.head q); [discriminate|].
  destruct (RingQueue.slots q !! _) as [slot|]; [|discriminate].
  injection Hpop as <- Hl Hd _. rewrite Hl. rewrite Hl in Hd. rewrite Hd. reflexivity.
Qed.

Lemma seen_consumer_item (it out : Relay.NotifyItem) :
  filled it ->
  RingQueue.seen
    (RingQueue.mkItem (RingQueue.length it)
       (memcpy (RingQueue.data out) (RingQueue.data it)
               (Z.to_nat (RingQueue.length it)))
       (RingQueue.tag out))
  = treated (RingQueue.tag out) it.
Proof.
  intros Hfill. pose proof (seen_pop_item it out Hfill) as Hseen.
  unfold RingQueue.seen, RingQueue.payload, treated in *.
  cbn [RingQueue.length RingQueue.data RingQueue.tag] in *.
  injection Hseen as Hpay. rewrite Hpay. reflexivity.
Qed.

Lemma consumer_run_ops_fifo (ops : list (@RingQueue.Op Z)) :
  forall (q : Relay.NotifyQueue) (out : Relay.NotifyItem),
    RingQueue.wf Relay.NOTIFY_RING_BITS q ->
    Forall filled (RingQueue.contents Relay.NOTIFY_RING_BITS q) ->
    Forall RingQueue.op_readable ops ->
    Relay.Consumer.run_ops q out ops
    = map (relabel (RingQueue.tag out))
          (RingQueue.bounded_fifo 63
             (map RingQueue.seen (RingQueue.contents Relay.NOTIFY_RING_BITS q)) ops).
Proof.
  induction ops as [|op ops IH]; intros q out Hwf Hf Hr; [reflexivity|].
  apply Forall_cons in Hr as [Hr1 Hr].
  pose proof (contents_length Relay.NOTIFY_RING_BITS notify_bits_ok q Hwf) as Hlen.
  pose proof (count_range Relay.NOTIFY_RING_BITS notify_bits_ok q) as Hcr.
  change (RingQueue.RING_SIZE Relay.NOTIFY_RING_BITS) with 64 in Hcr.
  destruct op as [buf len t|];
    cbn [Relay.Consumer.run_ops RingQueue.bounded_fifo].
  - rewrite length_map. unfold Relay.notifyQueuePushFromISR.
    destruct (Nat.ltb_spec (length (RingQueue.contents Relay.NOTIFY_RING_BITS q)) 63)
      as [Hroom|Hfull].
    + destruct (push_contents Relay.NOTIFY_RING_BITS notify_bits_ok q buf len t Hwf
                  ltac:(change (RingQueue.RING_SIZE Relay.NOTIFY_RING_BITS) with 64; lia))
        as (q1 & old & Hp & Hwf1 & Hc1 & Hcont1).
      rewrite Hp. cbn [map]. f_equal.
      rewrite IH; [|assumption| |assumption].
      * rewrite Hcont1, map_app. cbn [map].
        rewrite payload_write_slot by exact Hr1. reflexivity.
      * rewrite Hcont1. apply Forall_app. split; [assumption|].
        apply Forall_singleton, filled_write_slot. exact Hr1.
    + rewrite (push_full Relay.NOTIFY_RING_BITS notify_bits_ok q buf len t Hwf)
        by (change (RingQueue.RING_SIZE Relay.NOTIFY_RING_BITS) with 64; lia).
      cbn [map]. f_equal. apply IH; assumption.
  - destruct (Z.eq_dec (RingQueue.count Relay.NOTIFY_RING_BITS q) 0) as [E0|Hne].
    + assert (Hnil : RingQueue.contents Relay.NOTIFY_RING_BITS q = []).
      { apply length_zero_iff_nil. lia. }
      rewrite consumer_pop_empty by (eapply count_empty; eauto using notify_bits_ok).
      rewrite Hnil. cbn [map]. f_equal.
      rewrite IH by assumption. rewrite Hnil. reflexivity.
    + destruct (consumer_pop_contents q out Hwf ltac:(lia))
        as (q1 & it & rest & Hcont & Hpop & Hwf1 & Hc1 & Hrest).
      rewrite Hpop, Hcont. cbn [map].
      rewrite Hcont in Hf. apply Forall_cons in Hf as [Hfit Hf].
      rewrite seen_consumer_item by assumption. f_equal.
      rewrite IH; [rewrite Hrest; reflexivity|assumption| |assumption].
      rewrite Hrest. assumption.
Qed.

(** Pops in a row hand out the oldest items in order, each under the tag
    the consumer's item had before the first of them. *)
Lemma consumer_pop_n_popped (m : nat) :
  forall (q : Relay.NotifyQueue) (out : Relay.NotifyItem),
    RingQueue.wf Relay.NOTIFY_RING_BITS q ->
    Forall filled (RingQueue.contents Relay.NOTIFY_RING_BITS q) ->
    RingQueue.popped (fst (Relay.Consumer.pop_n q out m))
    = map (treated (RingQueue.tag out))
          (take m (RingQueue.contents Relay.NOTIFY_RING_BITS q)).
Proof.
  induction m as [|m IH]; intros q out Hwf Hf; [reflexivity|].
  cbn [Relay.Consumer.pop_n].
  pose proof (contents_length Relay.NOTIFY_RING_BITS notify_bits_ok q Hwf) as Hlen.
  pose proof (count_range Relay.NOTIFY_RING_BITS notify_bits_ok q) as Hcr.
  destruct (Z.eq_dec (RingQueue.count Relay.NOTIFY_RING_BITS q) 0) as [E0|Hne].
  - assert (Hnil : RingQueue.contents Relay.NOTIFY_RING_BITS q = []).
    { apply length_zero_iff_nil. lia. }
    rewrite consumer_pop_empty by (eapply count_empty; eauto using notify_bits_ok).
    specialize (IH q out Hwf Hf).
    destruct (Relay.Consumer.pop_n q out m) as [rs q2].
    cbn [fst] in *. rewrite Hnil in *. rewrite take_nil in IH.
    unfold RingQueue.popped in *. cbn [filter list_filter fst snd].
    rewrite decide_False by discriminate. exact IH.
  - destruct (consumer_pop_contents q out Hwf ltac:(lia))
      as (q1 & it & rest & Hcont & Hpop & Hwf1 & Hc1 & Hrest).
    rewrite Hpop. rewrite Hcont in Hf. apply Forall_cons in Hf as [Hfit Hf].
    rewrite <- Hrest in Hf.
    specialize (IH q1
                  (RingQueue.mkItem (RingQueue.length it)
                     (memcpy (RingQueue.data out) (RingQueue.data it)
                             (Z.to_nat (RingQueue.length it)))
                     (RingQueue.tag out)) Hwf1 Hf).
    destruct (Relay.Consumer.pop_n q1 _ m) as [rs q2].
    cbn [fst RingQueue.tag] in *. rewrite Hcont, Hrest in *.
    unfold RingQueue.popped in *. cbn [filter list_filter fst snd].
    rewrite decide_True by reflexivity.
    cbn [map take snd]. rewrite seen_consumer_item by assumption.
    f_equal. exact IH.
Qed.

(** From an empty queue, up to 63 pushes are all accepted and the pops hand
    back, in order, the length and the bytes of the items pushed. *)
Lemma consumer_fifo (q0 : Relay.NotifyQueue) (items : list (list byte * Z * Z))
    (m : nat) (out : Relay.NotifyItem) :
  RingQueue.wf Relay.NOTIFY_RING_BITS q0 ->
  RingQueue.tail q0 = RingQueue.head q0 ->
  Forall RingQueue.readable items ->
  (length items <= 63)%nat ->
  fst (RingQueue.push_all Relay.NOTIFY_RING_BITS q0 items) = replicate (length items) true
  /\ map fst
         (RingQueue.popped
            (fst (Relay.Consumer.pop_n
                    (snd (RingQueue.push_all Relay.NOTIFY_RING_BITS q0 items)) out m)))
     = map (fun p => fst (RingQueue.stored p)) (take (Nat.min m (length items)) items).
Proof.
  intros Hwf He Hr Hn.
  assert (Hc0 : RingQueue.count Relay.NOTIFY_RING_BITS q0 = 0)
    by (eapply count_empty; eauto using notify_bits_ok).
  assert (Hnil : RingQueue.contents Relay.NOTIFY_RING_BITS q0 = []).
  { apply length_zero_iff_nil.
    pose proof (contents_length Relay.NOTIFY_RING_BITS notify_bits_ok q0 Hwf). lia. }
  destruct (push_all_spec Relay.NOTIFY_RING_BITS notify_bits_ok items q0 Hwf Hr)
    as (q1 & Hp & Hwf1 & Hc1 & Hf1 & Hs1).
  { rewrite Hnil. constructor. }
  rewrite Hp. cbn [fst snd].
  change (RingQueue.RING_SIZE Relay.NOTIFY_RING_BITS) with 64 in *.
  rewrite Hc0, Z.sub_0_r, Nat.min_l in * by lia.
  split.
  { rewrite Nat.sub_diag. cbn. apply app_nil_r. }
  rewrite Hnil in Hs1. cbn [map app] in Hs1. rewrite firstn_all in Hs1.
  rewrite (consumer_pop_n_popped m q1 out Hwf1 Hf1).
  assert (Hproj : map fst (map (treated (RingQueue.tag out))
                             (RingQueue.contents Relay.NOTIFY_RING_BITS q1))
                  = map (fun p => fst (RingQueue.stored p)) items).
  { rewrite <- (map_map RingQueue.stored fst), <- Hs1, !map_map. reflexivity. }
  assert (Hlen1 : length (RingQueue.contents Relay.NOTIFY_RING_BITS q1) = length items).
  { apply (f_equal (@length _)) in Hs1. rewrite !length_map in Hs1. exact Hs1. }
  rewrite <- !List.firstn_map.
  etransitivity; [apply (f_equal (take m)), Hproj|].
  destruct (Nat.le_ge_cases m (length items)).
  - rewrite Nat.min_l by assumption. reflexivity.
  - rewrite Nat.min_r by assumption.
    rewrite !List.firstn_all2 by (rewrite length_map; lia). reflexivity.
Qed.

End ConsumerPop.

(** C1, as stated, fails on the Hub's queue: the ring has sixteen slots, but
    one of them is always kept free, so the sixteenth of sixteen pushes is
    refused and sixteen pops hand back fifteen items; the FIFO property does
    not hold at capacity 16.  And a write of 300 bytes is stored as its
    first 256 bytes, so the pop does not hand back the item that was
    pushed. *)
Lemma ring_queue_sixteen_slots_counterexample :
  let items := map (fun i => ([i], 1, tt)) (seqZ 0 16) in
  let out := RingQueue.mkItem 0 (replicate 256 0) tt in
  fst (RingQueue.push_all Hub.BLE_IN_BITS Hub.bleInQueue_init items)
    = replicate 15 true ++ [false]
  /\ RingQueue.popped
       (fst (RingQueue.pop_n Hub.BLE_IN_BITS
               (snd (RingQueue.push_all Hub.BLE_IN_BITS Hub.bleInQueue_init items))
               out 16))
     = map RingQueue.stored (take 15 items)
  /\ ~ RingQueue.fifo Hub.BLE_IN_BITS Hub.bleInQueue_init 16
  /\ RingQueue.popped
       (fst (RingQueue.pop_n Hub.BLE_IN_BITS
               (snd (Hub.bleInPushFromISR Hub.bleInQueue_init (replicate 300 7) 300))
               out 1))
     = [(256, replicate 256 7, tt)].
Proof.
  split; [vm_compute; reflexivity|]. split; [vm_compute; reflexivity|].
  split; [|vm_compute; reflexivity].
  intros H.
  destruct (H (map (fun i => ([i], 1, tt)) (seqZ 0 16)) 16%nat
              (RingQueue.mkItem 0 (replicate 256 0) tt)) as [Hflags _].
  - vm_compute. repeat constructor; intro; discriminate.
  - vm_compute. repeat constructor.
  - lia.
  - vm_compute in Hflags. discriminate Hflags.
Qed.

(** C1 (amended): the usable capacity of a ring of [2^k] slots is [2^k - 1],
    15 for the Hub's BLE-in queue and 63 for the Relay's notify queue.
    Starting from an empty queue, [N] pushes followed by [M] pops with
    [N, M] at most that capacity are all accepted and the pops hand back the
    first [min M N] items in FIFO order, each with the length and the bytes
    the push stored (length clipped to 256 bytes, the bytes up to that
    length); a push on a full queue returns [false] and leaves the queue
    (slots and indices) as it was; a pop on an empty queue returns [false]
    and leaves the queue and the caller's item as they were.  The Hub's
    items have no other field; the Relay's pop is [notifyQueuePop] as the
    source has it, which writes the length and the bytes only. *)
Theorem ring_queue_fifo :
  (forall q0 : Hub.BleInQueue,
      RingQueue.wf Hub.BLE_IN_BITS q0 -> RingQueue.tail q0 = RingQueue.head q0 ->
      RingQueue.fifo Hub.BLE_IN_BITS q0 15)
  /\ (forall (q : Hub.BleInQueue) buf len,
        RingQueue.wf Hub.BLE_IN_BITS q -> RingQueue.count Hub.BLE_IN_BITS q = 15 ->
        Hub.bleInPushFromISR q buf len = (false, q))
  /\ (forall (q : Hub.BleInQueue) out,
        RingQueue.tail q = RingQueue.head q -> Hub.bleInPop q out = (false, q, out))
  /\ (forall (q0 : Relay.NotifyQueue) (items : list (list byte * Z * Z)) (m : nat)
             (out : Relay.NotifyItem),
        RingQueue.wf Relay.NOTIFY_RING_BITS q0 -> RingQueue.tail q0 = RingQueue.head q0 ->
        Forall RingQueue.readable items ->
        (length items <= 63)%nat -> (m <= 63)%nat ->
        fst (RingQueue.push_all Relay.NOTIFY_RING_BITS q0 items)
          = replicate (length items) true
        /\ map fst
               (RingQueue.popped
                  (fst (Relay.Consumer.pop_n
                          (snd (RingQueue.push_all Relay.NOTIFY_RING_BITS q0 items))
                          out m)))
           = map (fun p => fst (RingQueue.stored p))
                 (take (Nat.min m (length items)) items))
  /\ (forall (q : Relay.NotifyQueue) buf len pcm8,
        RingQueue.wf Relay.NOTIFY_RING_BITS q ->
        RingQueue.count Relay.NOTIFY_RING_BITS q = 63 ->
        Relay.notifyQueuePushFromISR q buf len pcm8 = (false, q))
  /\ (forall (q : Relay.NotifyQueue) out,
        RingQueue.tail q = RingQueue.head q ->
        Relay.Consumer.notifyQueuePop q out = (false, q, out)).
Proof.
  assert (H4 : 0 <= Hub.BLE_IN_BITS <= 16) by (unfold Hub.BLE_IN_BITS; lia).
  assert (H6 : 0 <= Relay.NOTIFY_RING_BITS <= 16) by (unfold Relay.NOTIFY_RING_BITS; lia).
  split; [|split; [|split; [|split; [|split]]]].
  - intros q0 Hwf He. exact (ring_fifo Hub.BLE_IN_BITS H4 q0 Hwf He).
  - intros q buf len Hwf Hc. apply (push_full Hub.BLE_IN_BITS H4); assumption.
  - intros q out He. apply (pop_empty Hub.BLE_IN_BITS). assumption.
  - intros q0 items m out Hwf He Hr Hn _. exact (consumer_fifo q0 items m out Hwf He Hr Hn).
  - intros q buf len pcm8 Hwf Hc. apply (push_full Relay.NOTIFY_RING_BITS H6); assumption.
  - intros q out He. apply consumer_pop_empty. assumption.
Qed.

(** ** Legacy 8-bit upsampling *)

Definition pcm_lo (s8 : byte) : byte := to_u8 (Z.land (Relay.upsample s8) 255).
Definition pcm_hi (s8 : byte) : byte :=
  to_u8 (Z.land (Z.shiftr (Relay.upsample s8) 8) 255).

Lemma upsample_bytes_all :
  forallb (fun s8 =>
             (Relay.upsample s8 =? (s8 - 128) * 256)
             && (Relay.sample_of (pcm_lo s8) (pcm_hi s8) =? Z.shiftl (s8 - 128) 8)
             && (Z.shiftl (s8 - 128) 8 =? (s8 - 128) * 256))
          (seqZ 0 256) = true.
Proof. vm_compute. reflexivity. Qed.

(** ** Peer registry *)

Section RegistryFacts.
Import Hub.

Lemma shift_left_length n : forall devs j,
  length (shift_left devs j n) = length devs.
Proof.
  induction n as [|n IH]; intros devs j; [reflexivity|].
  cbn [shift_left]. destruct (devs !! S j); [|reflexivity].
  rewrite IH. apply length_insert.
Qed.

Lemma shift_left_lookup n : forall devs j k,
  (j + n < length devs)%nat ->
  shift_left devs j n !! k
  = if decide (j <= k < j + n)%nat then devs !! S k else devs !! k.
Proof.
  induction n as [|n IH]; intros devs j k Hlen.
  - cbn. rewrite decide_False by lia. reflexivity.
  - cbn [shift_left].
    destruct (lookup_lt_is_Some_2 devs (S j)) as [d Hd]; [lia|]. rewrite Hd.
    rewrite IH by (rewrite length_insert; lia).
    destruct (decide (k = j)) as [->|Hne].
    + rewrite decide_False by lia. rewrite decide_True by lia.
      rewrite list_lookup_insert_eq by lia. symmetry. exact Hd.
    + destruct (decide (S j <= k < S j + n)%nat).
      * rewrite decide_True by lia. apply list_lookup_insert_ne. lia.
      * rewrite decide_False by lia. apply list_lookup_insert_ne. lia.
Qed.

Lemma find_device_Some st m i d :
  find_device st m = Some (i, d) ->
  live st !! i = Some d /\ mac d = m /\ (i < meshDeviceCount st)%nat
  /\ meshDevices st !! i = Some d.
Proof.
  unfold find_device. intros H. apply list_find_Some in H as (Hl & Hm & _).
  split; [assumption|]. split; [assumption|].
  unfold live in Hl. apply lookup_take_Some in Hl as [Hl Hi]. auto.
Qed.

Lemma find_device_None st m :
  find_device st m = None <-> m ∉ macs st.
Proof.
  unfold find_device, macs. rewrite list_find_None, Forall_forall.
  rewrite list_elem_of_fmap. split.
  - intros H (d & -> & Hd). exact (H d Hd eq_refl).
  - intros H d Hd E. apply H. exists d. auto.
Qed.

Lemma find_device_unique st i d :
  NoDup (macs st) -> live st !! i = Some d ->
  find_device st (mac d) = Some (i, d).
Proof.
  intros Hnd Hl. unfold find_device. apply list_find_Some.
  split; [assumption|]. split; [reflexivity|].
  intros j y Hj Hlt E.
  assert (j = i); [|lia].
  apply (NoDup_lookup (macs st) j i (mac d)); [assumption|..];
    unfold macs; rewrite list_lookup_fmap.
  - rewrite Hj. cbn. f_equal. assumption.
  - rewrite Hl. reflexivity.
Qed.

(** What a removal does to the registry. *)
Lemma removeDeviceFromMesh_found st m i d :
  reg_ok st -> find_device st m = Some (i, d) ->
  exists st',
    removeDeviceFromMesh st m = (true, st')
    /\ live st' = delete i (live st)
    /\ meshDeviceCount st' = (meshDeviceCount st - 1)%nat
    /\ length (meshDevices st') = length (meshDevices st).
Proof.
  intros [Hlen Hcnt Hnd] Hf. unfold removeDeviceFromMesh. rewrite Hf.
  apply find_device_Some in Hf as (Hl & Hm & Hi & Hd).
  eexists. split; [reflexivity|]. cbn.
  split; [|split; [reflexivity | apply shift_left_length]].
  unfold live. cbn.
  apply list_eq. intros k.
  destruct (decide (k < meshDeviceCount st - 1)%nat) as [Hk|Hk].
  - rewrite lookup_take_lt by lia.
    rewrite shift_left_lookup by lia.
    destruct (decide (i <= k < i + (meshDeviceCount st - 1 - i))%nat).
    + rewrite list_lookup_delete_ge by lia. rewrite lookup_take_lt by lia. reflexivity.
    + rewrite list_lookup_delete_lt by lia. rewrite lookup_take_lt by lia. reflexivity.
  - rewrite lookup_take_ge by lia.
    rewrite list_lookup_delete_ge by lia. rewrite lookup_take_ge by lia. reflexivity.
Qed.

Lemma removeDeviceFromMesh_absent st m :
  find_device st m = None -> removeDeviceFromMesh st m = (false, st).
Proof. intros H. unfold removeDeviceFromMesh. rewrite H. reflexivity. Qed.

Lemma nodup_mac_inj (l : list MeshDevice) x y :
  NoDup (mac <$> l) -> x ∈ l -> y ∈ l -> mac x = mac y -> x = y.
Proof.
  intros Hnd Hx Hy E.
  apply list_elem_of_lookup in Hx as [a Ha]. apply list_elem_of_lookup in Hy as [b Hb].
  assert (a = b).
  { apply (NoDup_lookup (mac <$> l) a b (mac x)); [assumption|..];
      rewrite list_lookup_fmap.
    - rewrite Ha. reflexivity.
    - rewrite Hb. cbn. f_equal. auto. }
  subst b. congruence.
Qed.

Lemma delete_elem_nodup (l : list MeshDevice) i d x :
  NoDup (mac <$> l) -> l !! i = Some d ->
  x ∈ delete i l <-> x ∈ l /\ mac x <> mac d.
Proof.
  intros Hnd Hl. rewrite delete_take_drop.
  pose proof (take_drop_middle l i d Hl) as E.
  set (l1 := take i l) in *. set (l2 := drop (S i) l) in *.
  clearbody l1 l2. subst l.
  rewrite fmap_app, fmap_cons in Hnd.
  apply NoDup_app in Hnd as (H1 & H12 & H2). apply NoDup_cons in H2 as [Hd2 H2].
  rewrite !elem_of_app, elem_of_cons. split.
  - intros [Hx|Hx]; (split; [auto|]); intros E.
    + apply (H12 (mac x)); [apply list_elem_of_fmap_2; assumption|].
      rewrite E. apply elem_of_cons. auto.
    + apply Hd2. rewrite <- E. apply list_elem_of_fmap_2. assumption.
  - intros [[Hx|[->|Hx]] Hne]; auto. contradiction.
Qed.

Lemma reg_ok_delete st st' i :
  reg_ok st ->
  live st' = delete i (live st) ->
  (meshDeviceCount st' <= meshDeviceCount st)%nat ->
  length (meshDevices st') = length (meshDevices st) ->
  reg_ok st'.
Proof.
  intros [Hlen Hcnt Hnd] Hl Hc Hlen'. constructor; [congruence | lia |].
  unfold macs in *. rewrite Hl, list_fmap_delete.
  eapply sublist_NoDup; [eassumption | apply sublist_delete].
Qed.

(** A removal takes out the entry with that address and nothing else. *)
Lemma removeDeviceFromMesh_spec st m :
  reg_ok st ->
  let st' := snd (removeDeviceFromMesh st m) in
  reg_ok st'
  /\ (forall x, x ∈ live st' <-> x ∈ live st /\ mac x <> m)
  /\ (meshDeviceCount st' <= meshDeviceCount st)%nat.
Proof.
  intros Hok. destruct (find_device st m) as [[i d]|] eqn:Hf.
  - destruct (removeDeviceFromMesh_found st m i d Hok Hf) as (st' & Hr & Hl & Hc & Hlen).
    rewrite Hr. cbn. apply find_device_Some in Hf as (Hli & Hm & Hi & _).
    split; [eapply reg_ok_delete; eauto; lia|]. split; [|lia].
    intros x. rewrite Hl, <- Hm. apply delete_elem_nodup; [apply Hok | assumption].
  - rewrite removeDeviceFromMesh_absent by assumption. cbn.
    split; [assumption|]. split; [|lia].
    intros x. split; [|tauto]. intros Hx. split; [assumption|].
    intros E. apply find_device_None in Hf. apply Hf. rewrite <- E.
    unfold macs. apply list_elem_of_fmap_2. assumption.
Qed.

(** *** The timeout sweep *)

Lemma cleanup_loop_spec now fuel : forall i st,
  reg_ok st -> (meshDeviceCount st - i < fuel)%nat ->
  exists st',
    cleanup_loop fuel i now st = Some st'
    /\ reg_ok st'
    /\ live st'
       = take i (live st)
         ++ filter (fun d => timed_out now d = false) (drop i (live st)).
Proof.
  induction fuel as [|fuel IH]; intros i st Hok Hfuel; [lia|].
  pose proof Hok as [Hlen Hcnt Hnd].
  assert (Hll : length (live st) = meshDeviceCount st).
  { unfold live. rewrite length_take. lia. }
  cbn [cleanup_loop].
  destruct (Nat.ltb_spec i (meshDeviceCount st)) as [Hi|Hi].
  2:{ exists st. split; [reflexivity|]. split; [assumption|].
      rewrite take_ge, drop_ge by lia. cbn. symmetry. apply app_nil_r. }
  destruct (Nat.leb_spec MAX_MESH_DEVICES i) as [Hmax|Hmax]; [lia|].
  destruct (lookup_lt_is_Some_2 (meshDevices st) i) as [d Hd]; [lia|].
  rewrite Hd.
  assert (Hl : live st !! i = Some d).
  { unfold live. rewrite lookup_take_lt by lia. assumption. }
  rewrite (drop_S _ _ _ Hl).
  destruct (timed_out now d) eqn:Hto.
  - pose proof (find_device_unique st i d Hnd Hl) as Hf.
    destruct (removeDeviceFromMesh_found st (mac d) i d Hok Hf)
      as (st1 & Hr & Hl1 & Hc1 & Hlen1).
    rewrite Hr.
    destruct (IH i st1) as (st' & Hloop & Hok' & Hlive').
    { eapply reg_ok_delete; eauto; lia. }
    { lia. }
    exists st'. split; [assumption|]. split; [assumption|].
    rewrite Hlive', Hl1. rewrite filter_cons_False by (rewrite Hto; discriminate).
    rewrite delete_take_drop.
    rewrite take_app_le by (rewrite length_take; lia).
    rewrite take_take, Nat.min_id.
    rewrite drop_app_ge by (rewrite length_take; lia).
    rewrite length_take, Nat.min_l, Nat.sub_diag by lia. reflexivity.
  - destruct (IH (S i) st Hok ltac:(lia)) as (st' & Hloop & Hok' & Hlive').
    exists st'. split; [assumption|]. split; [assumption|].
    rewrite Hlive', (take_S_r _ _ _ Hl).
    rewrite filter_cons_True by assumption.
    rewrite <- app_assoc. reflexivity.
Qed.

(** The sweep always returns, and it keeps exactly the entries that are not
    both active and silent for longer than the timeout. *)
Lemma cleanupInactiveDevices_spec st now :
  reg_ok st -> meshNetworkActive st = true ->
  exists st',
    cleanupInactiveDevices st now = Some st'
    /\ reg_ok st'
    /\ live st' = filter (fun d => timed_out now d = false) (live st).
Proof.
  intros Hok Hact. unfold cleanupInactiveDevices. rewrite Hact. cbn [negb].
  destruct (cleanup_loop_spec now (S (meshDeviceCount st)) 0 st Hok ltac:(lia))
    as (st' & Hl & Hok' & Hlive).
  exists st'. rewrite take_0, drop_0 in Hlive. auto.
Qed.

Lemma cleanupInactiveDevices_idle st now :
  meshNetworkActive st = false -> cleanupInactiveDevices st now = Some st.
Proof. intros H. unfold cleanupInactiveDevices. rewrite H. reflexivity. Qed.

(** *** The send loops that drop unreachable peers *)

(** What one of these loops may do to the registry and to the radio: no
    entry appears, no inactive entry disappears, and only registered
    addresses are sent to. *)
Definition prunes (st st' : State) (outs : list Output) : Prop :=
  reg_ok st'
  /\ (forall x, x ∈ live st' -> x ∈ live st)
  /\ (forall x, x ∈ live st -> isActive x = false -> x ∈ live st')
  /\ (forall o, o ∈ outs -> exists m msg, o = EspNowSend m msg /\ m ∈ macs st).

Lemma prunes_refl st : reg_ok st -> prunes st st [].
Proof.
  intros H. split; [assumption|]. split; [auto|]. split; [auto|].
  intros o Ho. apply elem_of_nil in Ho. contradiction.
Qed.

Lemma send_loop_spec guard eligible get_peer send msg fuel : forall i k st,
  reg_ok st -> (meshDeviceCount st - i < fuel)%nat ->
  exists outs st',
    send_loop fuel i k guard eligible get_peer send msg st = Some (outs, st')
    /\ prunes st st' outs.
Proof.
  induction fuel as [|fuel IH]; intros i k st Hok Hfuel; [lia|].
  pose proof Hok as [Hlen Hcnt Hnd].
  cbn [send_loop].
  destruct (Nat.ltb_spec i (meshDeviceCount st)) as [Hi|Hi];
    [|exists [], st; split; [reflexivity | apply prunes_refl; assumption]].
  destruct (guard && (MAX_MESH_DEVICES <=? i)%nat);
    [exists [], st; split; [reflexivity | apply prunes_refl; assumption]|].
  destruct (lookup_lt_is_Some_2 (meshDevices st) i) as [d Hd]; [lia|].
  rewrite Hd.
  assert (Hl : live st !! i = Some d).
  { unfold live. rewrite lookup_take_lt by lia. assumption. }
  assert (Hdin : d ∈ live st) by (eapply list_elem_of_lookup_2; eassumption).
  assert (Hmd : mac d ∈ macs st) by (apply list_elem_of_fmap_2; assumption).
  (* the two ways the loop goes on *)
  assert (Hkeep : exists outs st',
             send_loop fuel (S i) (S k) guard eligible get_peer send msg st
               = Some (outs, st') /\ prunes st st' outs)
    by (apply IH; [assumption | lia]).
  assert (Hdrop : isActive d = true ->
           exists outs st',
             send_loop fuel i (S k) guard eligible get_peer send msg
               (snd (removeDeviceFromMesh st (mac d))) = Some (outs, st')
             /\ prunes st st' outs).
  { intros Hact.
    pose proof (find_device_unique st i d Hnd Hl) as Hf.
    destruct (removeDeviceFromMesh_found st (mac d) i d Hok Hf)
      as (st1 & Hr & Hl1 & Hc1 & Hlen1).
    destruct (removeDeviceFromMesh_spec st (mac d) Hok) as (Hok1 & Hin1 & _).
    rewrite Hr in *. cbn [snd] in *.
    destruct (IH i (S k) st1 Hok1 ltac:(lia)) as (outs & st' & Hloop & Hp).
    exists outs, st'. split; [assumption|].
    destruct Hp as (Hok' & Hsub & Hina & Hout).
    split; [assumption|]. split; [|split].
    - intros x Hx. apply Hsub, Hin1 in Hx. tauto.
    - intros x Hx Hxa. apply Hina; [|assumption]. apply Hin1. split; [assumption|].
      intros E. assert (x = d) by (eapply nodup_mac_inj; eauto). congruence.
    - intros o Ho. destruct (Hout o Ho) as (m & b & -> & Hm).
      exists m, b. split; [reflexivity|].
      unfold macs in *. apply list_elem_of_fmap in Hm as (x & -> & Hx).
      apply list_elem_of_fmap_2. apply Hin1 in Hx. tauto. }
  assert (Hcons : forall outs st',
             prunes st st' outs -> prunes st st' (EspNowSend (mac d) (msg k) :: outs)).
  { intros outs st' (Hok' & Hsub & Hina & Hout).
    split; [assumption|]. split; [assumption|]. split; [assumption|].
    intros o Ho. apply elem_of_cons in Ho as [->|Ho]; [eauto|auto]. }
  destruct (isActive d) eqn:Hact; cbn [andb]; [|exact Hkeep].
  destruct (eligible d); [|exact Hkeep].
  destruct (get_peer k); [|exact (Hdrop eq_refl)].
  destruct (send k).
  - destruct Hkeep as (outs & st' & -> & Hp). cbn. eauto.
  - destruct (Hdrop eq_refl) as (outs & st' & -> & Hp). cbn. eauto.
  - destruct (Hdrop eq_refl) as (outs & st' & -> & Hp). cbn. eauto.
  - destruct Hkeep as (outs & st' & -> & Hp). cbn. eauto.
Qed.

(** *** Joins and heartbeats *)

Lemma insert_same_mac (l : list MeshDevice) i d d' :
  l !! i = Some d -> mac d' = mac d ->
  mac <$> <[i := d']> l = mac <$> l.
Proof.
  intros Hl E. rewrite list_fmap_insert, E. apply list_insert_id.
  rewrite list_lookup_fmap, Hl. reflexivity.
Qed.

Lemma insert_keeps_others (l : list MeshDevice) i d d' x :
  l !! i = Some d -> x ∈ l -> mac x <> mac d -> x ∈ <[i := d']> l.
Proof.
  intros Hl Hx Hne. apply list_elem_of_lookup in Hx as [j Hj].
  apply list_elem_of_lookup. exists j.
  rewrite list_lookup_insert_ne; [assumption|].
  intros ->. rewrite Hl in Hj. injection Hj as ->. contradiction.
Qed.

(** Stamping an entry in place (a repeated join, a ready, a heartbeat). *)
Lemma restamp_spec st m i d d' :
  reg_ok st -> find_device st m = Some (i, d) -> mac d' = mac d ->
  let st' := set_registry (<[i := d']> (meshDevices st)) (meshDeviceCount st) st in
  reg_ok st'
  /\ macs st' = macs st
  /\ live st' = <[i := d']> (live st)
  /\ (forall x, x ∈ live st -> mac x <> m -> x ∈ live st').
Proof.
  intros [Hlen Hcnt Hnd] Hf E st'.
  apply find_device_Some in Hf as (Hl & Hm & Hi & Hd).
  assert (Hlive : live st' = <[i := d']> (live st))
    by (unfold st', live; cbn; apply take_insert_lt; assumption).
  assert (Hmacs : macs st' = macs st).
  { unfold macs. rewrite Hlive. eapply insert_same_mac; eassumption. }
  split; [|split; [assumption | split; [assumption|]]].
  - constructor;
      [cbn; rewrite length_insert; assumption | cbn; assumption
      | rewrite Hmacs; assumption].
  - intros x Hx Hne. rewrite Hlive. eapply insert_keeps_others; eauto. congruence.
Qed.

Lemma addDeviceToMesh_spec st m name type now peer_added :
  reg_ok st ->
  let st' := snd (addDeviceToMesh st m name type now peer_added) in
  reg_ok st'
  /\ (forall m', m' ∈ macs st' -> m' ∈ macs st \/ m' = m)
  /\ (forall x, x ∈ live st -> mac x <> m -> x ∈ live st').
Proof.
  intros Hok. pose proof Hok as [Hlen Hcnt Hnd]. unfold addDeviceToMesh.
  destruct (find_device st m) as [[i d]|] eqn:Hf.
  - cbn [snd].
    destruct (restamp_spec st m i d (set_lastSeen now d) Hok Hf eq_refl)
      as (Hok' & Hmacs & _ & Hkeep).
    split; [assumption|]. split; [|assumption].
    intros m' Hm'. rewrite Hmacs in Hm'. auto.
  - destruct (Nat.ltb_spec (meshDeviceCount st) MAX_MESH_DEVICES) as [Hroom|Hfull].
    2:{ cbn. split; [assumption|]. split; auto. }
    set (fresh := mkDevice m name type now false false 100).
    assert (Hsame : take (meshDeviceCount st)
                      (<[meshDeviceCount st := fresh]> (meshDevices st)) = live st).
    { unfold live. apply take_insert_ge. lia. }
    destruct peer_added; cbn [snd].
    + assert (Hlive : live (set_registry (<[meshDeviceCount st := fresh]> (meshDevices st))
                              (S (meshDeviceCount st)) st) = live st ++ [fresh]).
      { unfold live at 1. cbn.
        rewrite (take_S_r _ _ fresh) by (apply list_lookup_insert_eq; lia).
        rewrite Hsame. reflexivity. }
      split; [|split].
      * constructor; [cbn; rewrite length_insert; assumption | cbn; lia |].
        unfold macs. rewrite Hlive, fmap_app. cbn.
        apply NoDup_app. split; [assumption|]. split; [|apply NoDup_singleton].
        intros x Hx Hx'. apply list_elem_of_singleton in Hx'. subst x.
        apply find_device_None in Hf. contradiction.
      * intros m'. unfold macs at 1. rewrite Hlive, fmap_app, elem_of_app. cbn.
        rewrite list_elem_of_singleton. tauto.
      * intros x Hx _. rewrite Hlive. apply elem_of_app. auto.
    + assert (Hlive : live (set_registry (<[meshDeviceCount st := fresh]> (meshDevices st))
                              (meshDeviceCount st) st) = live st) by exact Hsame.
      split; [|split].
      * constructor; [cbn; rewrite length_insert; assumption | cbn; assumption |].
        unfold macs. rewrite Hlive. assumption.
      * intros m'. unfold macs at 1. rewrite Hlive. auto.
      * intros x Hx _. rewrite Hlive. assumption.
Qed.

Lemma updateDeviceHeartbeat_spec st m now :
  reg_ok st ->
  let st' := updateDeviceHeartbeat st m now in
  reg_ok st'
  /\ macs st' = macs st
  /\ (forall x, x ∈ live st -> mac x <> m -> x ∈ live st').
Proof.
  intros Hok. unfold updateDeviceHeartbeat.
  destruct (find_device st m) as [[i d]|] eqn:Hf.
  - destruct (restamp_spec st m i d (set_ready now d) Hok Hf eq_refl)
      as (Hok' & Hmacs & _ & Hkeep). auto.
  - cbn. auto.
Qed.

(** *** The audio path leaves the registry alone *)

Definition same_registry (st st' : State) : Prop :=
  meshDevices st' = meshDevices st /\ meshDeviceCount st' = meshDeviceCount st.

(** What the audio path sends: frames to active registered peers and
    notifications to the paired phone. *)
Definition audio_out (st : State) (o : Output) : Prop :=
  match o with
  | EspNowSend m _ => exists d, d ∈ live st /\ isActive d = true /\ mac d = m
  | BleNotify _ => True
  | _ => False
  end.

Lemma same_registry_refl st : same_registry st st.
Proof. split; reflexivity. Qed.

Lemma same_registry_trans st1 st2 st3 :
  same_registry st1 st2 -> same_registry st2 st3 -> same_registry st1 st3.
Proof. intros [H1 H2] [H3 H4]. split; congruence. Qed.

Lemma same_registry_live st st' : same_registry st st' -> live st' = live st.
Proof. intros [H1 H2]. unfold live. rewrite H1, H2. reflexivity. Qed.

Lemma same_registry_ok st st' : same_registry st st' -> reg_ok st -> reg_ok st'.
Proof.
  intros Hs [Hlen Hcnt Hnd]. pose proof (same_registry_live _ _ Hs) as Hl.
  destruct Hs as [H1 H2]. constructor; [congruence | congruence |].
  unfold macs in *. rewrite Hl. assumption.
Qed.

Lemma audio_out_same st st' o : same_registry st st' -> audio_out st o -> audio_out st' o.
Proof.
  intros Hs. unfold audio_out. rewrite (same_registry_live _ _ Hs). auto.
Qed.

Lemma fan_out_audio st frame : Forall (audio_out st) (fan_out st frame).
Proof.
  unfold fan_out. destruct (0 <? meshDeviceCount st)%nat; [|constructor].
  apply Forall_forall. intros o Ho.
  apply list_elem_of_In, in_flat_map in Ho as (d & Hd & Ho).
  apply list_elem_of_In in Hd.
  destruct (isActive d) eqn:Hact; [|destruct Ho].
  destruct Ho as [<-|[]]. cbn. eauto.
Qed.

(** The chunk loop only advances the sequence number. *)
Lemma chunk_loop_spec millis total n : forall chunk st,
  snd (chunk_loop n chunk total millis st)
  = set_sequence (audioSequenceNumber (snd (chunk_loop n chunk total millis st))) st
  /\ Forall (audio_out st) (fst (chunk_loop n chunk total millis st)).
Proof.
  induction n as [|n IH]; intros chunk st.
  - cbn. split; [destruct st; reflexivity | constructor].
  - cbn [chunk_loop].
    set (st1 := set_sequence (to_i32 (audioSequenceNumber st + 1)) st).
    destruct (IH (chunk + 1) st1) as [Hst Houts].
    assert (Hsame : same_registry st1 st) by (split; reflexivity).
    assert (Houts' : Forall (audio_out st)
                       (fst (chunk_loop n (chunk + 1) total millis st1))).
    { eapply Forall_impl; [exact Houts|]. intros o. apply audio_out_same. assumption. }
    destruct (compressAudioData _ _) as [rawBuffer rawSize].
    destruct (calculateAudioStats _ _ _ _) as [minVal maxVal].
    destruct (frame_message _ _) as [frame|].
    + destruct (chunk_loop n (chunk + 1) total millis st1) as [outs st2].
      cbn [fst snd] in *. split; [rewrite Hst; reflexivity|].
      apply Forall_app. split; [apply fan_out_audio|].
      apply Forall_app. split; [|assumption].
      destruct (deviceConnected st && pAudioCharacteristic st); repeat constructor.
    + split; [rewrite Hst; reflexivity | assumption].
Qed.

Lemma sendAudioChunks_registry millis st :
  same_registry st (snd (sendAudioChunks millis st))
  /\ Forall (audio_out st) (fst (sendAudioChunks millis st)).
Proof.
  unfold sendAudioChunks.
  destruct ((meshDeviceCount st =? 0)%nat && negb (deviceConnected st)).
  - cbn. split; [split; reflexivity | constructor].
  - destruct (chunk_loop_spec millis
                (Z.quot (audioBufferIndex st) AUDIO_CHUNK_SIZE)
                (Z.to_nat (Z.quot (audioBufferIndex st) AUDIO_CHUNK_SIZE)) 0 st)
      as [Hst Houts].
    destruct (chunk_loop _ _ _ _ _) as [outs st1]. cbn [fst snd] in *.
    split; [|assumption].
    rewrite Hst. unfold compact_buffer.
    destruct (0 <? _); split; reflexivity.
Qed.

Lemma addAudioData_append_registry st data len millis outs st' :
  addAudioData_append st data len millis = Some (outs, st') ->
  same_registry st st' /\ Forall (audio_out st) outs.
Proof.
  unfold addAudioData_append.
  pose proof (sendAudioChunks_registry millis st) as [Hs1 Ho1].
  set (flush := if AUDIO_BUFFER_SIZE <? audioBufferIndex st + len
                then if AUDIO_CHUNK_SIZE <=? audioBufferIndex st
                     then sendAudioChunks millis st else ([], st)
                else ([], st)).
  assert (Hflush : same_registry st (snd flush) /\ Forall (audio_out st) (fst flush)).
  { subst flush. destruct (AUDIO_BUFFER_SIZE <? _);
      [destruct (AUDIO_CHUNK_SIZE <=? _)|]; cbn;
      auto using same_registry_refl. }
  destruct flush as [outs1 st1]. cbn [fst snd] in Hflush. destruct Hflush as [Hs Ho].
  intros H.
  destruct ((AUDIO_BUFFER_SIZE <? audioBufferIndex st + len)
            && (AUDIO_BUFFER_SIZE <? audioBufferIndex st1 + len)).
  - destruct (audioBufferIndex st1 - _ <? 0); [discriminate|]. cbn in H.
    destruct (AUDIO_BUFFER_SIZE <? _); [discriminate|]. injection H as <- <-.
    split; [|assumption]. destruct Hs. split; assumption.
  - cbn in H. destruct (AUDIO_BUFFER_SIZE <? _); [discriminate|]. injection H as <- <-.
    split; [|assumption]. destruct Hs. split; assumption.
Qed.

Lemma addAudioData_registry st data len millis1 millis2 outs st' :
  addAudioData st data len millis1 millis2 = Some (outs, st') ->
  same_registry st st' /\ Forall (audio_out st) outs.
Proof.
  unfold addAudioData.
  destruct (negb (isAudioStreaming st)).
  { intros H. injection H as <- <-. split; [apply same_registry_refl | constructor]. }
  destruct (len <=? 0).
  { intros H. injection H as <- <-. split; [apply same_registry_refl | constructor]. }
  destruct (addAudioData_append st data len millis1) as [[outs1 st1]|] eqn:Ha;
    [|discriminate].
  apply addAudioData_append_registry in Ha as [Hs1 Ho1]. cbn.
  destruct (AUDIO_CHUNK_SIZE <=? audioBufferIndex st1).
  - pose proof (sendAudioChunks_registry millis2 st1) as [Hs2 Ho2].
    destruct (sendAudioChunks millis2 st1) as [outs2 st2]. cbn [fst snd] in *.
    intros H. injection H as <- <-.
    split; [eapply same_registry_trans; eassumption|].
    apply Forall_app. split; [assumption|].
    eapply Forall_impl; [exact Ho2|]. intros o.
    apply audio_out_same. destruct Hs1. split; congruence.
  - intros H. injection H as <- <-. auto.
Qed.

(** The append is defined whenever the new bytes fit the buffer at all. *)
Lemma addAudioData_append_defined st data len millis :
  len <= AUDIO_BUFFER_SIZE ->
  is_Some (addAudioData_append st data len millis).
Proof.
  intros Hlen. unfold addAudioData_append.
  destruct (if AUDIO_BUFFER_SIZE <? audioBufferIndex st + len
            then if AUDIO_CHUNK_SIZE <=? audioBufferIndex st
                 then sendAudioChunks millis st else ([], st)
            else ([], st)) as [outs1 st1] eqn:Hflush.
  destruct (Z.ltb_spec AUDIO_BUFFER_SIZE (audioBufferIndex st + len)) as [H1|H1];
    cbn [andb].
  - destruct (Z.ltb_spec AUDIO_BUFFER_SIZE (audioBufferIndex st1 + len)) as [H2|H2].
    + destruct (Z.ltb_spec (audioBufferIndex st1
                            - (audioBufferIndex st1 + len - AUDIO_BUFFER_SIZE)) 0);
        [lia|]. cbn.
      destruct (Z.ltb_spec AUDIO_BUFFER_SIZE
                  (audioBufferIndex st1
                   - (audioBufferIndex st1 + len - AUDIO_BUFFER_SIZE) + len));
        [lia | eauto].
    + cbn. destruct (Z.ltb_spec AUDIO_BUFFER_SIZE (audioBufferIndex st1 + len));
        [lia | eauto].
  - injection Hflush as <- <-. cbn.
    destruct (Z.ltb_spec AUDIO_BUFFER_SIZE (audioBufferIndex st + len)); [lia | eauto].
Qed.

Lemma addAudioData_defined st data len millis1 millis2 :
  len <= AUDIO_BUFFER_SIZE ->
  is_Some (addAudioData st data len millis1 millis2).
Proof.
  intros Hlen. unfold addAudioData.
  destruct (negb (isAudioStreaming st)); [eauto|].
  destruct (len <=? 0); [eauto|].
  destruct (addAudioData_append_defined st data len millis1 Hlen) as [[outs1 st1] ->].
  cbn. destruct (AUDIO_CHUNK_SIZE <=? audioBufferIndex st1); [|eauto].
  destruct (sendAudioChunks millis2 st1). eauto.
Qed.

(** *** Every event of the Hub *)

(** The event is not a join sent from [m]. *)
Definition not_join_from (m : mac_addr) (ev : Event) : Prop :=
  match ev with
  | EvRecv m' (Some (mesh_join _ _)) _ _ _ _ _ _ => m' <> m
  | _ => True
  end.

(** The event is not a ready, a heartbeat or a leave sent from [m]. *)
Definition quiet (m : mac_addr) (ev : Event) : Prop :=
  match ev with
  | EvRecv m' (Some mesh_ready) _ _ _ _ _ _
  | EvRecv m' (Some mesh_heartbeat) _ _ _ _ _ _
  | EvRecv m' (Some mesh_leave) _ _ _ _ _ _ => m' <> m
  | _ => True
  end.

(** The bytes handed to [addAudioData] fit the accumulator's buffer. *)
Definition audio_fits (ev : Event) : Prop :=
  match ev with
  | EvAudio _ len _ _ => len <= AUDIO_BUFFER_SIZE
  | _ => True
  end.

(** [m] is registered but has not been marked active. *)
Definition parked (m : mac_addr) (st : State) : Prop :=
  exists d, d ∈ live st /\ mac d = m /\ isActive d = false.

Definition to_registered (st : State) (o : Output) : Prop :=
  match o with
  | EspNowSend m _ => m ∈ macs st
  | _ => True
  end.

(** What every event guarantees about the registry. *)
Definition evolves (st st' : State) (outs : list Output) (absent_ok stay_ok : mac_addr -> Prop)
  : Prop :=
  reg_ok st'
  /\ Forall (to_registered st) outs
  /\ (forall m, absent_ok m -> m ∉ macs st -> m ∉ macs st')
  /\ (forall m, stay_ok m -> parked m st -> parked m st').

Lemma evolves_same st st' outs (P Q : mac_addr -> Prop) :
  reg_ok st -> same_registry st st' -> Forall (audio_out st) outs ->
  evolves st st' outs P Q.
Proof.
  intros Hok Hs Ho. pose proof (same_registry_live _ _ Hs) as Hl.
  split; [eapply same_registry_ok; eassumption|]. split; [|split].
  - eapply Forall_impl; [exact Ho|]. intros [m msg| | |]; cbn; try tauto.
    intros (d & Hd & _ & <-). apply list_elem_of_fmap_2. assumption.
  - intros m _. unfold macs. rewrite Hl. auto.
  - intros m _. unfold parked. rewrite Hl. auto.
Qed.

Lemma evolves_prunes st st' outs (P Q : mac_addr -> Prop) :
  prunes st st' outs -> evolves st st' outs P Q.
Proof.
  intros (Hok' & Hsub & Hina & Hout).
  split; [assumption|]. split; [|split].
  - apply Forall_forall. intros o Ho. destruct (Hout o Ho) as (m & msg & -> & Hm).
    exact Hm.
  - intros m _ Hm Hm'. apply Hm. unfold macs in *.
    apply list_elem_of_fmap in Hm' as (x & -> & Hx). apply list_elem_of_fmap_2. auto.
  - intros m _ (d & Hd & Hm & Hact). exists d. auto.
Qed.

Lemma evolves_keep_others st st' m0 (P Q : mac_addr -> Prop) :
  reg_ok st' ->
  (forall m', m' ∈ macs st' -> m' ∈ macs st) ->
  (forall x, x ∈ live st -> mac x <> m0 -> x ∈ live st') ->
  (forall m, Q m -> m0 <> m) ->
  evolves st st' [] P Q.
Proof.
  intros Hok' Hmacs Hkeep HQ.
  split; [assumption|]. split; [constructor|]. split.
  - intros m Hm Habs Hin. apply Hmacs in Hin. contradiction.
  - intros m Hm (d & Hd & <- & Hact). exists d.
    split; [|auto]. apply Hkeep; [assumption|]. intros E. exact (HQ _ Hm (eq_sym E)).
Qed.

Lemma evolves_snoc st st' outs o (P Q : mac_addr -> Prop) :
  evolves st st' outs P Q -> to_registered st o -> evolves st st' (outs ++ [o]) P Q.
Proof.
  intros (H1 & H2 & H3 & H4) Ho. split; [assumption|]. split; [|auto].
  apply Forall_app. split; [assumption | repeat constructor; assumption].
Qed.

Lemma step_spec st ev :
  reg_ok st -> audio_fits ev ->
  exists outs st',
    step st ev = Some (outs, st')
    /\ evolves st st' outs (fun m => not_join_from m ev) (fun m => quiet m ev).
Proof.
  intros Hok Hfit. pose proof Hok as [Hlen Hcnt Hnd].
  destruct ev as [m msg len now peer_added doc get_peer send | now
                 | doc get_peer send | doc get_peer send
                 | data len millis1 millis2 | millis | | | | connected];
    cbn [step].
  - (* the radio callback *)
    destruct msg as [[name type| | | | | |]|]; cbn [OnDataRecv].
    + (* join *)
      pose proof (addDeviceToMesh_spec st m name type now peer_added Hok)
        as (Hok' & Hmacs & Hkeep).
      destruct (addDeviceToMesh st m name type now peer_added) as [ok st1] eqn:Hadd.
      cbn [snd] in *. eexists _, st1. split; [reflexivity|].
      split; [assumption|]. split; [repeat constructor|]. split.
      * intros m0 Hnj Habs Hin. cbn in Hnj.
        apply Hmacs in Hin as [Hin| ->]; [contradiction | congruence].
      * intros m0 _ (d & Hd & <- & Hact).
        destruct (decide (mac d = m)) as [E|E]; [|exists d; auto].
        unfold addDeviceToMesh in Hadd.
        destruct (find_device st m) as [[i d0]|] eqn:Hf.
        -- injection Hadd as <- <-.
           destruct (restamp_spec st m i d0 (set_lastSeen now d0) Hok Hf eq_refl)
             as (_ & _ & Hlive & _).
           apply find_device_Some in Hf as (Hl0 & Hm0 & Hi & _).
           assert (d0 = d).
           { eapply nodup_mac_inj; [exact Hnd | | assumption | congruence].
             eapply list_elem_of_lookup_2. eassumption. }
           subst d0. exists (set_lastSeen now d). split; [|auto].
           rewrite Hlive. apply list_elem_of_insert.
           unfold live. rewrite length_take. lia.
        -- apply find_device_None in Hf. exfalso. apply Hf. rewrite <- E.
           apply list_elem_of_fmap_2. assumption.
    + (* ready *)
      pose proof (updateDeviceHeartbeat_spec st m now Hok) as (Hok' & Hmacs & Hkeep).
      eexists _, _. split; [reflexivity|].
      apply evolves_keep_others with (m0 := m); auto.
      rewrite Hmacs. auto.
    + (* audio relayed to the other peers *)
      unfold relayAudioToMesh.
      destruct (negb (meshNetworkActive st) || (len <=? 0)).
      * cbn. eexists _, _. split; [reflexivity|].
        apply evolves_snoc with (outs := []); [|exact I].
        apply evolves_prunes, prunes_refl. assumption.
      * edestruct (send_loop_spec true) as (outs & st' & -> & Hp);
          [exact Hok | |]; [lia|].
        cbn. eexists _, _. split; [reflexivity|].
        apply evolves_snoc; [|exact I]. apply evolves_prunes. exact Hp.
    + (* heartbeat *)
      pose proof (updateDeviceHeartbeat_spec st m now Hok) as (Hok' & Hmacs & Hkeep).
      eexists _, _. split; [reflexivity|].
      apply evolves_keep_others with (m0 := m); auto.
      rewrite Hmacs. auto.
    + (* leave *)
      pose proof (removeDeviceFromMesh_spec st m Hok) as (Hok' & Hin & _).
      eexists _, _. split; [reflexivity|].
      apply evolves_keep_others with (m0 := m); auto.
      * intros m' Hm'. unfold macs in *.
        apply list_elem_of_fmap in Hm' as (x & -> & Hx). apply list_elem_of_fmap_2.
        apply Hin in Hx. tauto.
      * intros x Hx Hne. apply Hin. auto.
    + eexists _, _. split; [reflexivity|]. apply evolves_prunes, prunes_refl. assumption.
    + eexists _, _. split; [reflexivity|]. apply evolves_prunes, prunes_refl. assumption.
    + eexists _, _. split; [reflexivity|]. apply evolves_prunes, prunes_refl. assumption.
  - (* the timeout sweep *)
    destruct (meshNetworkActive st) eqn:Hact.
    + destruct (cleanupInactiveDevices_spec st now Hok Hact) as (st' & -> & Hok' & Hlive).
      cbn. eexists _, _. split; [reflexivity|].
      apply evolves_prunes. split; [assumption|]. split; [|split].
      * intros x Hx. rewrite Hlive in Hx. apply list_elem_of_filter in Hx. tauto.
      * intros x Hx Hina. rewrite Hlive. apply list_elem_of_filter. split; [|assumption].
        unfold timed_out. rewrite Hina. reflexivity.
      * intros o Ho. apply elem_of_nil in Ho. contradiction.
    + eexists _, _. split; [reflexivity|]. apply evolves_prunes, prunes_refl. assumption.
  - (* heartbeat to the peers *)
    unfold sendMeshHeartbeat.
    destruct (meshNetworkActive st), (meshDeviceCount st =? 0)%nat;
      try (eexists _, _; split; [reflexivity|];
           apply evolves_prunes, prunes_refl; assumption).
    edestruct (send_loop_spec false) as (outs & st' & -> & Hp); [exact Hok | |]; [lia|].
    eexists _, _. split; [reflexivity|]. apply evolves_prunes. exact Hp.
  - (* status broadcast *)
    unfold broadcastMeshStatus.
    destruct (meshNetworkActive st), (meshDeviceCount st =? 0)%nat;
      try (eexists _, _; split; [reflexivity|];
           apply evolves_prunes, prunes_refl; assumption).
    edestruct (send_loop_spec false) as (outs & st' & -> & Hp); [exact Hok | |]; [lia|].
    eexists _, _. split; [reflexivity|]. apply evolves_prunes. exact Hp.
  - (* audio from the paired phone *)
    cbn in Hfit.
    destruct (addAudioData_defined st data len millis1 millis2 Hfit) as [[outs st'] Ha].
    rewrite Ha. apply addAudioData_registry in Ha as [Hs Ho].
    eexists _, _. split; [reflexivity|]. apply evolves_same; assumption.
  - (* the sender task *)
    destruct (isAudioStreaming st && (deviceConnected st || (0 <? meshDeviceCount st)%nat)).
    + pose proof (sendAudioChunks_registry millis st) as [Hs Ho].
      destruct (sendAudioChunks millis st) as [outs st']. cbn [fst snd] in *.
      eexists _, _. split; [reflexivity|]. apply evolves_same; assumption.
    + eexists _, _. split; [reflexivity|].
      apply evolves_same; [assumption | apply same_registry_refl | constructor].
  - eexists _, _. split; [reflexivity|].
    apply evolves_same; [assumption | | constructor].
    unfold startAudioStream. destruct (negb (isAudioStreaming st)); split; reflexivity.
  - eexists _, _. split; [reflexivity|].
    apply evolves_same; [assumption | | constructor].
    unfold stopAudioStream. destruct (isAudioStreaming st); split; reflexivity.
  - eexists _, _. split; [reflexivity|].
    apply evolves_same; [assumption | split; reflexivity | constructor].
  - eexists _, _. split; [reflexivity|].
    apply evolves_same; [assumption | split; reflexivity | constructor].
Qed.

(** A whole run of events. *)
Lemma run_spec (evs : list Event) : forall st,
  reg_ok st -> Forall audio_fits evs ->
  exists outs st',
    run st evs = Some (outs, st')
    /\ reg_ok st'
    /\ (forall m, Forall (not_join_from m) evs -> m ∉ macs st ->
          (m ∉ macs st') /\ (forall msg, EspNowSend m msg ∉ outs))
    /\ (forall m, Forall (quiet m) evs -> parked m st -> parked m st').
Proof.
  induction evs as [|ev evs IH]; intros st Hok Hfit.
  - exists [], st. split; [reflexivity|]. split; [assumption|]. split; [|auto].
    intros m _ Hm. split; [assumption|]. intros msg H. apply elem_of_nil in H. exact H.
  - apply Forall_cons in Hfit as [Hfit1 Hfit].
    destruct (step_spec st ev Hok Hfit1) as (outs1 & st1 & Hstep & Hok1 & Ho1 & Ha1 & Hp1).
    destruct (IH st1 Hok1 Hfit) as (outs2 & st2 & Hrun & Hok2 & Ha2 & Hp2).
    exists (outs1 ++ outs2), st2. cbn [run]. rewrite Hstep. cbn. rewrite Hrun. cbn.
    split; [reflexivity|]. split; [assumption|]. split.
    + intros m Hnj Hm. apply Forall_cons in Hnj as [Hnj1 Hnj].
      destruct (Ha2 m Hnj (Ha1 m Hnj1 Hm)) as [Habs Hno].
      split; [assumption|]. intros msg Hin. apply elem_of_app in Hin as [Hin|Hin].
      * rewrite Forall_forall in Ho1. apply Ho1 in Hin. cbn in Hin. contradiction.
      * exact (Hno msg Hin).
    + intros m Hq Hp. apply Forall_cons in Hq as [Hq1 Hq]. auto.
Qed.

Lemma sendAudioChunks_targets millis st m msg :
  EspNowSend m msg ∈ fst (sendAudioChunks millis st) -> m ∈ macs st.
Proof.
  intros Hin. pose proof (sendAudioChunks_registry millis st) as [_ Ho].
  rewrite Forall_forall in Ho. apply Ho in Hin as (d & Hd & _ & <-).
  apply list_elem_of_fmap_2. assumption.
Qed.

Lemma live_nonempty st x : x ∈ live st -> (1 <= meshDeviceCount st)%nat.
Proof.
  unfold live. destruct (meshDeviceCount st); [|lia].
  rewrite take_0. intros H. apply elem_of_nil in H. contradiction.
Qed.

End RegistryFacts.

(** *** Joining a full registry *)

(** A Hub whose registry holds four peers, the first two active. *)
Definition peer_mac (n : Z) : Hub.mac_addr := (16, 0, 59, 72, 156, n).

Definition peer (n : Z) (seen : Z) (active : bool) : Hub.MeshDevice :=
  Hub.mkDevice (peer_mac n) "ESP32S3_Audio_Client" "ESP32_Audio_Client" seen active false 100.

Definition full_hub : Hub.State :=
  Hub.mkState [peer 1 1000 true; peer 2 1000 true; peer 3 1000 false; peer 4 1000 false]
              4 true false false true (replicate 1024 0) 0 0.

(** C6, as stated, fails: a join from an address that is already one of the
    four registered peers is acknowledged with [joined], and the entry's
    [lastSeen] is overwritten. *)
Lemma join_full_registry_counterexample :
  exists st',
    Hub.OnDataRecv full_hub (peer_mac 1)
      (Some (Hub.mesh_join "ESP32S3_Audio_Client" "ESP32_Audio_Client"))
      120 5000 true (fun _ => []) (fun _ => true) (fun _ => Hub.ESP_OK)
    = Some ([Hub.MeshAck (peer_mac 1) "joined" 5000 4], st')
    /\ Hub.meshDeviceCount full_hub = Hub.MAX_MESH_DEVICES
    /\ Hub.meshDevices st' <> Hub.meshDevices full_hub.
Proof.
  eexists. split; [vm_compute; reflexivity|]. split; [reflexivity|].
  vm_compute. discriminate.
Qed.

(** C6 (amended): a join received while the registry holds its four peers,
    from an address that is not one of them, is answered with
    ack(status=failed) and leaves the whole Hub state, registry and peer
    count included, as it was.  A join from an address that is one of the
    four is answered with ack(status=joined) and re-stamps that entry's
    [lastSeen] with the time of the join: the entry's other fields, the
    other entries, the registered addresses, the peer count and the rest of
    the Hub state stay the same. *)
Theorem join_at_capacity (st : Hub.State) (m : Hub.mac_addr) (name type : string)
    (len now : Z) (peer_added : bool) (doc : nat -> list byte)
    (get_peer : nat -> bool) (send : nat -> Hub.esp_err) :
  Hub.reg_ok st ->
  Hub.meshDeviceCount st = Hub.MAX_MESH_DEVICES ->
  (m ∉ Hub.macs st ->
     Hub.OnDataRecv st m (Some (Hub.mesh_join name type)) len now peer_added
                    doc get_peer send
     = Some ([Hub.MeshAck m "failed" now (Hub.meshDeviceCount st)], st))
  /\ (m ∈ Hub.macs st ->
      exists (i : nat) (d : Hub.MeshDevice),
        let d' := Hub.mkDevice (Hub.mac d) (Hub.deviceName d) (Hub.deviceType d) now
                               (Hub.isActive d) (Hub.isCoordinator d)
                               (Hub.audioQuality d) in
        let st' := Hub.mkState (<[i := d']> (Hub.meshDevices st)) (Hub.meshDeviceCount st)
                               (Hub.meshNetworkActive st) (Hub.isAudioStreaming st)
                               (Hub.deviceConnected st) (Hub.pAudioCharacteristic st)
                               (Hub.audioBuffer st) (Hub.audioBufferIndex st)
                               (Hub.audioSequenceNumber st) in
        Hub.live st !! i = Some d
        /\ Hub.mac d = m
        /\ Hub.OnDataRecv st m (Some (Hub.mesh_join name type)) len now peer_added
                          doc get_peer send
           = Some ([Hub.MeshAck m "joined" now (Hub.meshDeviceCount st)], st')
        /\ Hub.live st' !! i = Some d'
        /\ Hub.lastSeen d' = now
        /\ (forall j, j <> i -> Hub.live st' !! j = Hub.live st !! j)
        /\ Hub.macs st' = Hub.macs st
        /\ Hub.meshDeviceCount st' = Hub.meshDeviceCount st).
Proof.
  intros Hok Hfull. split.
  - intros Hm. apply find_device_None in Hm.
    unfold Hub.OnDataRecv, Hub.addDeviceToMesh. rewrite Hm.
    replace (Hub.meshDeviceCount st <? Hub.MAX_MESH_DEVICES)%nat with false
      by (symmetry; apply Nat.ltb_ge; lia).
    reflexivity.
  - intros Hm.
    destruct (Hub.find_device st m) as [[i d]|] eqn:Hf.
    2:{ apply find_device_None in Hf. contradiction. }
    destruct (restamp_spec st m i d (Hub.set_lastSeen now d) Hok Hf eq_refl)
      as (_ & Hmacs & Hlive & _).
    pose proof (find_device_Some st m i d Hf) as (Hl & Hmac & Hi & _).
    exists i, d. cbn zeta.
    fold (Hub.set_lastSeen now d).
    fold (Hub.set_registry (<[i := Hub.set_lastSeen now d]> (Hub.meshDevices st))
                           (Hub.meshDeviceCount st) st).
    split; [exact Hl|]. split; [exact Hmac|].
    split; [unfold Hub.OnDataRecv, Hub.addDeviceToMesh; rewrite Hf; reflexivity|].
    split; [rewrite Hlive; apply list_lookup_insert_eq; eapply lookup_lt_Some; exact Hl|].
    split; [reflexivity|].
    split; [intros j Hj; rewrite Hlive; apply list_lookup_insert_ne; congruence|].
    split; [exact Hmacs | reflexivity].
Qed.

(** *** Timeout sweep and fan-out *)

(** C7: an active peer whose [lastSeen] is older than the timeout when the
    sweep runs is removed by the sweep (the sweep returns, and the address is
    no longer registered), and it is absent from every later audio fan-out:
    whatever the Hub does next, short of a new join from that address, no
    frame of [sendAudioChunks] (nor any other radio send) goes to it. *)
Theorem timeout_sweep_removes_active_peer
    (st : Hub.State) (d : Hub.MeshDevice) (now : Z) :
  Hub.reg_ok st ->
  Hub.meshNetworkActive st = true ->
  d ∈ Hub.live st ->
  Hub.isActive d = true ->
  Hub.DEVICE_TIMEOUT < to_u32 (now - Hub.lastSeen d) ->
  exists st',
    Hub.cleanupInactiveDevices st now = Some st'
    /\ (Hub.mac d ∉ Hub.macs st')
    /\ (forall millis msg,
          Hub.EspNowSend (Hub.mac d) msg ∉ fst (Hub.sendAudioChunks millis st'))
    /\ (forall evs,
          Forall audio_fits evs -> Forall (not_join_from (Hub.mac d)) evs ->
          exists outs st'',
            Hub.run st' evs = Some (outs, st'')
            /\ (Hub.mac d ∉ Hub.macs st'')
            /\ (forall msg, Hub.EspNowSend (Hub.mac d) msg ∉ outs)
            /\ (forall millis msg,
                  Hub.EspNowSend (Hub.mac d) msg
                    ∉ fst (Hub.sendAudioChunks millis st''))).
Proof.
  intros Hok Hact Hd Hactive Hold.
  destruct (cleanupInactiveDevices_spec st now Hok Hact) as (st' & Hsweep & Hok' & Hlive).
  assert (Habs : Hub.mac d ∉ Hub.macs st').
  { unfold Hub.macs. rewrite Hlive. intros Hin.
    apply list_elem_of_fmap in Hin as (x & E & Hx).
    apply list_elem_of_filter in Hx as [Hto Hx].
    assert (x = d) by (eapply nodup_mac_inj; [apply Hok | assumption.. | congruence]).
    subst x. unfold Hub.timed_out in Hto. rewrite Hactive in Hto. cbn in Hto.
    apply Z.ltb_ge in Hto. lia. }
  exists st'. split; [assumption|]. split; [assumption|]. split.
  - intros millis msg Hin. apply sendAudioChunks_targets in Hin. contradiction.
  - intros evs Hfit Hnj.
    destruct (run_spec evs st' Hok' Hfit) as (outs & st'' & Hrun & Hok'' & Ha & _).
    destruct (Ha (Hub.mac d) Hnj Habs) as [Habs' Hno].
    exists outs, st''. split; [assumption|]. split; [assumption|]. split; [assumption|].
    intros millis msg Hin. apply sendAudioChunks_targets in Hin. contradiction.
Qed.

(** C10: a registered peer that has not been marked active is not removed
    by the timeout sweep, whatever the clock says, nor by any of the send
    loops that drop unreachable peers, whatever the transport answers; it
    keeps its slot through every run of Hub events in which it sends neither
    a ready or heartbeat (which would mark it active) nor a leave; an
    explicit leave does remove it. *)
Theorem unready_peer_keeps_slot (st : Hub.State) (d : Hub.MeshDevice) :
  Hub.reg_ok st ->
  d ∈ Hub.live st ->
  Hub.isActive d = false ->
  (forall now, exists st',
      Hub.cleanupInactiveDevices st now = Some st' /\ d ∈ Hub.live st')
  /\ (forall doc get_peer send, exists outs st',
        Hub.sendMeshHeartbeat st doc get_peer send = Some (outs, st')
        /\ d ∈ Hub.live st')
  /\ (forall doc get_peer send, exists outs st',
        Hub.broadcastMeshStatus st doc get_peer send = Some (outs, st')
        /\ d ∈ Hub.live st')
  /\ (forall src len doc get_peer send, exists outs st',
        Hub.relayAudioToMesh st src len doc get_peer send = Some (outs, st')
        /\ d ∈ Hub.live st')
  /\ (forall evs,
        Forall audio_fits evs -> Forall (quiet (Hub.mac d)) evs ->
        exists outs st',
          Hub.run st evs = Some (outs, st')
          /\ parked (Hub.mac d) st'
          /\ (1 <= Hub.meshDeviceCount st' <= Hub.MAX_MESH_DEVICES)%nat)
  /\ Hub.mac d ∉ Hub.macs (snd (Hub.removeDeviceFromMesh st (Hub.mac d))).
Proof.
  intros Hok Hd Hina.
  assert (Hloop : forall guard eligible get_peer send msg, exists outs st',
             Hub.send_loop (S (Hub.meshDeviceCount st)) 0 0 guard eligible
                           get_peer send msg st = Some (outs, st')
             /\ d ∈ Hub.live st').
  { intros. edestruct send_loop_spec as (outs & st' & Hl & _ & _ & Hkeep & _);
      [exact Hok | | exists outs, st'; split; [exact Hl | auto]]. lia. }
  split; [|split; [|split; [|split; [|split]]]].
  - intros now. destruct (Hub.meshNetworkActive st) eqn:Hact.
    + destruct (cleanupInactiveDevices_spec st now Hok Hact) as (st' & Hs & _ & Hlive).
      exists st'. split; [assumption|]. rewrite Hlive.
      apply list_elem_of_filter. split; [|assumption].
      unfold Hub.timed_out. rewrite Hina. reflexivity.
    + exists st. split; [apply cleanupInactiveDevices_idle|]; assumption.
  - intros. unfold Hub.sendMeshHeartbeat.
    destruct (Hub.meshDeviceCount st =? 0)%nat; [eauto | apply Hloop].
  - intros. unfold Hub.broadcastMeshStatus.
    destruct (Hub.meshDeviceCount st =? 0)%nat; [eauto | apply Hloop].
  - intros. unfold Hub.relayAudioToMesh.
    destruct (negb (Hub.meshNetworkActive st) || (len <=? 0)); [eauto | apply Hloop].
  - intros evs Hfit Hq.
    destruct (run_spec evs st Hok Hfit) as (outs & st' & Hrun & Hok' & _ & Hp).
    assert (Hpk : parked (Hub.mac d) st') by (apply Hp; [assumption | exists d; auto]).
    exists outs, st'. split; [assumption|]. split; [assumption|].
    destruct Hpk as (x & Hx & _). split; [eapply live_nonempty; eassumption | apply Hok'].
  - destruct (removeDeviceFromMesh_spec st (Hub.mac d) Hok) as (_ & Hin & _).
    unfold Hub.macs. intros H. apply list_elem_of_fmap in H as (x & E & Hx).
    apply Hin in Hx as [_ Hne]. congruence.
Qed.

(** ** Compact text frame *)

Section FrameFacts.

Definition is_digit (c : byte) : Prop := 48 <= c <= 57.

(** The decoder's accumulation step. *)
Definition accumulate (current : Z) (c : byte) : Z := to_i32 (current * 10 + (c - 48)).

Lemma to_i32_small v : 0 <= v < 2147483648 -> to_i32 v = v.
Proof.
  intros H. unfold to_i32. rewrite Z.mod_small by lia.
  destruct (Z.ltb_spec v 2147483648); lia.
Qed.

Lemma to_i32_range v : -2147483648 <= to_i32 v < 2147483648.
Proof.
  unfold to_i32. pose proof (Z.mod_pos_bound v 4294967296 ltac:(lia)).
  destruct (Z.ltb_spec (v mod 4294967296) 2147483648); lia.
Qed.

Lemma digits_rev_digits fuel : forall v, 0 <= v -> Forall is_digit (digits_rev fuel v).
Proof.
  induction fuel as [|fuel IH]; intros v Hv; [constructor|].
  cbn [digits_rev]. constructor.
  - unfold is_digit. pose proof (Z.mod_pos_bound v 10 ltac:(lia)). lia.
  - destruct (v <? 10); [constructor|]. apply IH. apply Z.div_pos; lia.
Qed.

Lemma digits_rev_length fuel : forall v, (1 <= length (digits_rev (S fuel) v) <= S fuel)%nat.
Proof.
  induction fuel as [|fuel IH]; intros v.
  - cbn. destruct (v <? 10); cbn; lia.
  - change (digits_rev (S (S fuel)) v)
      with ((48 + v mod 10) :: (if v <? 10 then [] else digits_rev (S fuel) (v / 10))).
    destruct (v <? 10); cbn [length]; [lia|]. specialize (IH (v / 10)). lia.
Qed.

Lemma digits_rev_value fuel : forall v,
  0 <= v < 2147483648 -> v < 10 ^ Z.of_nat fuel ->
  fold_right (fun c acc => accumulate acc c) 0 (digits_rev fuel v) = v.
Proof.
  induction fuel as [|fuel IH]; intros v Hv Hf.
  - cbn in Hf. cbn. lia.
  - cbn [digits_rev fold_right]. unfold accumulate at 1.
    replace (48 + v mod 10 - 48) with (v mod 10) by lia.
    destruct (Z.ltb_spec v 10) as [Hs|Hb].
    + cbn. rewrite Z.mod_small by lia. apply to_i32_small. lia.
    + rewrite IH.
      * rewrite <- (to_i32_small v Hv) at 3. f_equal.
        rewrite (Z.div_mod v 10) at 3 by lia. lia.
      * split; [apply Z.div_pos; lia|]. apply Z.div_lt_upper_bound; lia.
      * apply Z.div_lt_upper_bound; [lia|].
        rewrite Nat2Z.inj_succ, Z.pow_succ_r in Hf by lia. lia.
Qed.

Lemma decimal_digits v : 0 <= v -> Forall is_digit (decimal v).
Proof.
  intros H. unfold decimal. apply Forall_rev, digits_rev_digits. assumption.
Qed.

Lemma decimal_value v :
  0 <= v < 2147483648 -> fold_left accumulate (decimal v) 0 = v.
Proof.
  intros H. unfold decimal. rewrite <- fold_left_rev_right, rev_involutive.
  apply digits_rev_value; [assumption|]. cbn. lia.
Qed.

Lemma decimal_length v : (1 <= length (decimal v) <= 10)%nat.
Proof. unfold decimal. rewrite length_rev. apply (digits_rev_length 9). Qed.

Lemma fmt_d_nonneg v : 0 <= v < 2147483648 -> fmt_d v = decimal v.
Proof.
  intros H. unfold fmt_d. rewrite to_i32_small by assumption.
  destruct (Z.ltb_spec v 0); [lia | reflexivity].
Qed.

Lemma fmt_d_length v : (1 <= length (fmt_d v) <= 11)%nat.
Proof.
  unfold fmt_d. destruct (to_i32 v <? 0); cbn [length].
  - pose proof (decimal_length (- to_i32 v)). lia.
  - pose proof (decimal_length (to_i32 v)). lia.
Qed.

(** The decoder reads a run of digits into [current]. *)
Lemma header_loop_digits (ds : list byte) : forall rest idx field current values,
  Forall is_digit ds -> (field < 8)%nat ->
  Relay.header_loop (ds ++ rest) idx field current values
  = Relay.header_loop rest (idx + Z.of_nat (length ds)) field
      (fold_left accumulate ds current) values.
Proof.
  induction ds as [|c ds IH]; intros rest idx field current values Hd Hf.
  - cbn. rewrite Z.add_0_r. reflexivity.
  - apply Forall_cons in Hd as [Hc Hd]. unfold is_digit in Hc.
    cbn [app Relay.header_loop fold_left].
    destruct (Nat.ltb_spec field 8); [|lia].
    unfold COLON. destruct (Z.eqb_spec c 58); [lia|].
    destruct (Z.leb_spec 48 c); [|lia]. destruct (Z.leb_spec c 57); [|lia].
    cbn [andb]. rewrite IH by assumption.
    f_equal. cbn [length]. lia.
Qed.

(** One field: its digits, then the colon that closes it. *)
Lemma header_loop_field v rest idx field values :
  0 <= v < 2147483648 -> (field < 8)%nat ->
  Relay.header_loop (fmt_d v ++ COLON :: rest) idx field 0 values
  = Relay.header_loop rest (idx + Z.of_nat (length (fmt_d v)) + 1) (S field) 0
      (<[field := v]> values).
Proof.
  intros Hv Hf. rewrite fmt_d_nonneg by assumption.
  rewrite header_loop_digits; [|apply decimal_digits; lia|assumption].
  rewrite decimal_value by assumption.
  cbn [Relay.header_loop]. destruct (Nat.ltb_spec field 8); [|lia].
  rewrite Z.eqb_refl. reflexivity.
Qed.

Lemma memcpy_at_app (a b src : list byte) (n : nat) :
  memcpy_at (a ++ b) (length a) src n = a ++ take n src ++ drop n b.
Proof.
  unfold memcpy_at. rewrite take_app_length. f_equal. f_equal.
  rewrite drop_app_ge by lia. f_equal. lia.
Qed.

(** The frame the encoder hands to the radio: header, colon, and as much of
    the payload as the 250-byte ceiling leaves room for. *)
Lemma frame_message_spec (text raw : list byte) :
  (length text + 1 + length raw < 300)%nat -> (length text + 1 < 250)%nat ->
  Hub.frame_message text raw
  = Some (text ++ COLON :: take (249 - length text) raw).
Proof.
  intros Hfit Hroom. unfold Hub.frame_message.
  unfold Hub.MESSAGE_BUFFER_SIZE, Hub.ESPNOW_MAX.
  rewrite (take_ge text 299) by lia.
  destruct (Z.ltb_spec (Z.of_nat (length text) + Z.of_nat (length raw) + 1) 300); [|lia].
  rewrite !Nat2Z.id.
  replace (Z.to_nat (Z.of_nat (length text) + 1)) with (length (text ++ [COLON]))
    by (rewrite length_app; cbn; lia).
  replace (<[length text := COLON]> (text ++ replicate (Z.to_nat 300 - length text) 0))
    with ((text ++ [COLON]) ++ replicate (299 - length text) 0).
  2:{ rewrite insert_app_r_alt by lia. rewrite Nat.sub_diag.
      replace (Z.to_nat 300 - length text)%nat with (S (299 - length text)) by lia.
      cbn. rewrite <- app_assoc. reflexivity. }
  rewrite memcpy_at_app. rewrite (take_ge raw (length raw)) by lia.
  rewrite drop_replicate.
  destruct (Z.ltb_spec 250 (Z.of_nat (length text) + 1 + Z.of_nat (length raw))) as [Hbig|Hok].
  - destruct (Z.ltb_spec 0 (250 - (Z.of_nat (length text) + 1 + Z.of_nat (length raw))
                            + Z.of_nat (length raw))); [|lia].
    f_equal.
    replace (Z.to_nat (Z.of_nat (length text) + 1 + Z.of_nat (length raw)
                       - Z.of_nat (length raw)
                       + (250 - (Z.of_nat (length text) + 1 + Z.of_nat (length raw))
                          + Z.of_nat (length raw)))) with 250%nat by lia.
    replace (Z.to_nat (Z.of_nat (length text) + 1 + Z.of_nat (length raw)
                       - Z.of_nat (length raw)
                       + (250 - (Z.of_nat (length text) + 1 + Z.of_nat (length raw))
                          + Z.of_nat (length raw))
                       - (250 - (Z.of_nat (length text) + 1 + Z.of_nat (length raw))
                          + Z.of_nat (length raw))))
      with (length (text ++ [COLON])) by (rewrite length_app; cbn; lia).
    replace (Z.to_nat (250 - (Z.of_nat (length text) + 1 + Z.of_nat (length raw))
                       + Z.of_nat (length raw)))
      with (249 - length text)%nat by lia.
    rewrite memcpy_at_app.
    rewrite app_assoc, take_app_length'.
    + rewrite <- app_assoc. reflexivity.
    + rewrite !length_app, length_take. cbn. lia.
  - f_equal.
    replace (Z.to_nat (Z.of_nat (length text) + 1 + Z.of_nat (length raw)))
      with (length ((text ++ [COLON]) ++ raw)) by (rewrite !length_app; cbn; lia).
    rewrite app_assoc, take_app_length.
    rewrite (take_ge raw) by lia. rewrite <- app_assoc. reflexivity.
Qed.

Lemma compact_header_length seq chunk total time rate bits minv maxv :
  (17 <= length (Hub.compact_header seq chunk total time rate bits minv maxv) <= 97)%nat.
Proof.
  unfold Hub.compact_header. rewrite !length_app. cbn [length].
  pose proof (fmt_d_length seq). pose proof (fmt_d_length chunk).
  pose proof (fmt_d_length total). pose proof (fmt_d_length time).
  pose proof (fmt_d_length rate). pose proof (fmt_d_length bits).
  pose proof (fmt_d_length minv). pose proof (fmt_d_length maxv). lia.
Qed.

(** The decoder undoes the header: the eight fields land in [values] and
    [dataStart] is the index after the ninth colon. *)
Lemma parse_compact_frame v0 v1 v2 v3 v4 v5 v6 v7 (payload : list byte)
    (values : list Z) (dataStart : Z) :
  Forall (fun v => 0 <= v < 2147483648) [v0; v1; v2; v3; v4; v5; v6; v7] ->
  payload <> [] -> length values = 8%nat ->
  let text := Hub.compact_header v0 v1 v2 v3 v4 v5 v6 v7 in
  Relay.parseCompactAudioHeader (text ++ COLON :: payload) values dataStart
  = (true, [v0; v1; v2; v3; v4; v5; v6; v7], Z.of_nat (length text) + 1).
Proof.
  intros Hv Hp Hvals text.
  repeat (apply Forall_cons in Hv as [? Hv]).
  do 9 (destruct values as [|? values]; try discriminate Hvals).
  pose proof (compact_header_length v0 v1 v2 v3 v4 v5 v6 v7) as Hlen. fold text in Hlen.
  assert (Hpl : (1 <= length payload)%nat) by (destruct payload; [contradiction | cbn; lia]).
  unfold Relay.parseCompactAudioHeader.
  assert (Htext : text ++ COLON :: payload
                  = CHAR_P :: COLON ::
                    (fmt_d v0 ++ COLON :: fmt_d v1 ++ COLON :: fmt_d v2 ++ COLON ::
                     fmt_d v3 ++ COLON :: fmt_d v4 ++ COLON :: fmt_d v5 ++ COLON ::
                     fmt_d v6 ++ COLON :: fmt_d v7 ++ COLON :: payload)).
  { unfold text, Hub.compact_header.
    repeat (first [rewrite <- app_assoc | progress cbn [app]]). reflexivity. }
  assert (Hl : Z.of_nat (length text)
               = 2 + Z.of_nat (length (fmt_d v0)) + 1 + Z.of_nat (length (fmt_d v1)) + 1
                 + Z.of_nat (length (fmt_d v2)) + 1 + Z.of_nat (length (fmt_d v3)) + 1
                 + Z.of_nat (length (fmt_d v4)) + 1 + Z.of_nat (length (fmt_d v5)) + 1
                 + Z.of_nat (length (fmt_d v6)) + 1 + Z.of_nat (length (fmt_d v7))).
  { unfold text, Hub.compact_header. rewrite !length_app. cbn [length]. lia. }
  assert (Hlen5 : (Z.of_nat (length (text ++ COLON :: payload)) <? 5) = false).
  { apply Z.ltb_ge. rewrite length_app. cbn [length]. lia. }
  rewrite Hlen5. rewrite Htext. rewrite !Z.eqb_refl. cbn [negb orb].
  do 8 (rewrite header_loop_field by (assumption || lia)).
  cbn [Relay.header_loop list_insert insert Nat.ltb Nat.leb Nat.eqb].
  destruct payload as [|b payload]; [contradiction|].
  cbn [Relay.header_loop Nat.ltb Nat.leb Nat.eqb].
  rewrite <- Htext.
  assert (Hidx : 2 + Z.of_nat (length (fmt_d v0)) + 1 + Z.of_nat (length (fmt_d v1)) + 1
                 + Z.of_nat (length (fmt_d v2)) + 1 + Z.of_nat (length (fmt_d v3)) + 1
                 + Z.of_nat (length (fmt_d v4)) + 1 + Z.of_nat (length (fmt_d v5)) + 1
                 + Z.of_nat (length (fmt_d v6)) + 1 + Z.of_nat (length (fmt_d v7)) + 1
                 = Z.of_nat (length text) + 1) by lia.
  rewrite Hidx.
  replace (Z.of_nat (length text) + 1 <? Z.of_nat (length (text ++ COLON :: b :: payload)))
    with true.
  - reflexivity.
  - symmetry. apply Z.ltb_lt. rewrite length_app. cbn [length]. lia.
Qed.

(** *** The chunk sender, chunk by chunk *)

(** The payload of chunk [chunk], the sequence number after [n] chunks, and
    the header and frame of the [k]-th chunk sent from [st]. *)
Definition chunk_payload (st : Hub.State) (chunk : Z) : list byte :=
  take 200 (drop (Z.to_nat (chunk * Hub.AUDIO_CHUNK_SIZE)) (Hub.audioBuffer st)).

Definition seq_after (n : nat) (s : Z) : Z := Nat.iter n (fun x => to_i32 (x + 1)) s.

Definition chunk_header (st : Hub.State) (total : Z) (millis : Z -> Z)
    (chunk : Z) (k : nat) : list byte :=
  Hub.compact_header (seq_after k (Hub.audioSequenceNumber st)) (chunk + Z.of_nat k)
    total (millis (chunk + Z.of_nat k))
    Hub.AUDIO_SAMPLE_RATE Hub.AUDIO_BITS_PER_SAMPLE 128 128.

Definition chunk_frame (st : Hub.State) (total : Z) (millis : Z -> Z)
    (chunk : Z) (k : nat) : list byte :=
  let text := chunk_header st total millis chunk k in
  text ++ COLON :: take (249 - length text) (chunk_payload st (chunk + Z.of_nat k)).

Definition chunk_outputs (st : Hub.State) (frame raw : list byte) : list Hub.Output :=
  Hub.fan_out st frame
  ++ (if Hub.deviceConnected st && Hub.pAudioCharacteristic st
      then [Hub.BleNotify raw] else []).

Lemma chunk_payload_length st chunk : (length (chunk_payload st chunk) <= 200)%nat.
Proof. unfold chunk_payload. rewrite length_take. lia. Qed.

Lemma chunk_loop_step n chunk total millis st :
  Hub.chunk_loop (S n) chunk total millis st
  = let '(outs, st2) :=
      Hub.chunk_loop n (chunk + 1) total millis
        (Hub.set_sequence (to_i32 (Hub.audioSequenceNumber st + 1)) st) in
    (chunk_outputs st (chunk_frame st total millis chunk 0) (chunk_payload st chunk)
       ++ outs, st2).
Proof.
  cbn [Hub.chunk_loop]. unfold Hub.compressAudioData, Hub.calculateAudioStats.
  change (Hub.AUDIO_CHUNK_SIZE <=? 0) with false. cbn iota.
  change (Z.to_nat Hub.AUDIO_CHUNK_SIZE) with 200%nat.
  rewrite take_take, Nat.min_id.
  fold (chunk_payload st chunk).
  unfold chunk_frame, chunk_header. cbn [seq_after Nat.iter Z.of_nat].
  rewrite !Z.add_0_r.
  set (text := Hub.compact_header _ _ _ _ _ _ _ _).
  pose proof (compact_header_length (Hub.audioSequenceNumber st) chunk total
                (millis chunk) Hub.AUDIO_SAMPLE_RATE Hub.AUDIO_BITS_PER_SAMPLE 128 128)
    as Hlen. fold text in Hlen.
  pose proof (chunk_payload_length st chunk) as Hpl.
  rewrite frame_message_spec by lia.
  destruct (Hub.chunk_loop n _ _ _ _) as [outs st2].
  unfold chunk_outputs. rewrite <- app_assoc. reflexivity.
Qed.

Lemma chunk_frame_shift st total millis chunk k :
  chunk_frame (Hub.set_sequence (to_i32 (Hub.audioSequenceNumber st + 1)) st)
              total millis (chunk + 1) k
  = chunk_frame st total millis chunk (S k).
Proof.
  unfold chunk_frame, chunk_header, chunk_payload, seq_after.
  rewrite Nat.iter_succ_r. cbn [Hub.audioSequenceNumber Hub.set_sequence Hub.audioBuffer].
  replace (chunk + 1 + Z.of_nat k) with (chunk + Z.of_nat (S k)) by lia.
  reflexivity.
Qed.

Lemma chunk_frame_length st total millis chunk k :
  (length (chunk_frame st total millis chunk k) <= 250)%nat.
Proof.
  unfold chunk_frame. rewrite length_app. cbn [length]. rewrite length_take.
  pose proof (compact_header_length
                (seq_after k (Hub.audioSequenceNumber st)) (chunk + Z.of_nat k) total
                (millis (chunk + Z.of_nat k)) Hub.AUDIO_SAMPLE_RATE
                Hub.AUDIO_BITS_PER_SAMPLE 128 128) as Hlen.
  fold (chunk_header st total millis chunk k) in Hlen. lia.
Qed.

Lemma fan_out_frames st frame m msg :
  Hub.EspNowSend m msg ∈ Hub.fan_out st frame -> msg = frame.
Proof.
  unfold Hub.fan_out. destruct (0 <? Hub.meshDeviceCount st)%nat.
  - intros H. apply list_elem_of_In, in_flat_map in H as (d & _ & H).
    destruct (Hub.isActive d); [|destruct H].
    destruct H as [H|[]]. congruence.
  - intros H. apply elem_of_nil in H. contradiction.
Qed.

Lemma fan_out_reaches st frame d :
  d ∈ Hub.live st -> Hub.isActive d = true ->
  Hub.EspNowSend (Hub.mac d) frame ∈ Hub.fan_out st frame.
Proof.
  intros Hd Hact. unfold Hub.fan_out.
  pose proof (live_nonempty st d Hd) as Hc.
  destruct (Nat.ltb_spec 0 (Hub.meshDeviceCount st)); [|lia].
  apply list_elem_of_In, in_flat_map. exists d.
  split; [apply list_elem_of_In; assumption|]. rewrite Hact. left. reflexivity.
Qed.

(** Every frame the loop hands to the radio is at most 250 bytes. *)
Lemma chunk_loop_ceiling total millis n : forall chunk st m msg,
  Hub.EspNowSend m msg ∈ fst (Hub.chunk_loop n chunk total millis st) ->
  (length msg <= 250)%nat.
Proof.
  induction n as [|n IH]; intros chunk st m msg Hin.
  - cbn in Hin. apply elem_of_nil in Hin. contradiction.
  - rewrite chunk_loop_step in Hin.
    destruct (Hub.chunk_loop n _ _ _ _) as [outs st2] eqn:Hl. cbn [fst] in Hin.
    apply elem_of_app in Hin as [Hin|Hin].
    + unfold chunk_outputs in Hin. apply elem_of_app in Hin as [Hin|Hin].
      * apply fan_out_frames in Hin. subst msg. apply chunk_frame_length.
      * destruct (_ && _); [|apply elem_of_nil in Hin; contradiction].
        apply list_elem_of_singleton in Hin. discriminate.
    + eapply IH. rewrite Hl. exact Hin.
Qed.

(** No chunk is dropped: the [k]-th frame reaches every active peer. *)
Lemma chunk_loop_sends total millis n : forall chunk st d k,
  d ∈ Hub.live st -> Hub.isActive d = true -> (k < n)%nat ->
  Hub.EspNowSend (Hub.mac d) (chunk_frame st total millis chunk k)
    ∈ fst (Hub.chunk_loop n chunk total millis st).
Proof.
  induction n as [|n IH]; intros chunk st d k Hd Hact Hk; [lia|].
  rewrite chunk_loop_step.
  destruct (Hub.chunk_loop n _ _ _ _) as [outs st2] eqn:Hl. cbn [fst].
  apply elem_of_app. destruct k as [|k].
  - left. unfold chunk_outputs. apply elem_of_app. left.
    apply fan_out_reaches; assumption.
  - right. rewrite <- chunk_frame_shift.
    replace outs with (fst (Hub.chunk_loop n (chunk + 1) total millis
                              (Hub.set_sequence
                                 (to_i32 (Hub.audioSequenceNumber st + 1)) st)))
      by (rewrite Hl; reflexivity).
    apply IH; [exact Hd | assumption | lia].
Qed.

End FrameFacts.

Lemma fmt_d_digit v : 0 <= v < 10 -> length (fmt_d v) = 1%nat.
Proof.
  intros H. rewrite fmt_d_nonneg by lia. unfold decimal. rewrite length_rev.
  cbn [digits_rev]. destruct (Z.ltb_spec v 10); [reflexivity | lia].
Qed.

(** With the cursor inside the buffer a header is at most 46 characters. *)
Lemma chunk_header_short st millis k :
  0 <= Hub.audioBufferIndex st <= Hub.AUDIO_BUFFER_SIZE ->
  (k < Z.to_nat (Z.quot (Hub.audioBufferIndex st) Hub.AUDIO_CHUNK_SIZE))%nat ->
  (length (chunk_header st (Z.quot (Hub.audioBufferIndex st) Hub.AUDIO_CHUNK_SIZE)
                        millis 0 k) <= 46)%nat.
Proof.
  intros Hidx Hk. unfold Hub.AUDIO_BUFFER_SIZE, Hub.AUDIO_CHUNK_SIZE in *.
  assert (Ht : 0 <= Z.quot (Hub.audioBufferIndex st) 200 < 10).
  { split; [apply Z.quot_pos; lia|]. apply Z.quot_lt_upper_bound; lia. }
  unfold chunk_header, Hub.compact_header. rewrite !length_app. cbn [length].
  rewrite (fmt_d_digit (0 + Z.of_nat k)) by lia.
  rewrite (fmt_d_digit (Z.quot (Hub.audioBufferIndex st) 200)) by lia.
  change (length (fmt_d Hub.AUDIO_SAMPLE_RATE)) with 5%nat.
  change (length (fmt_d Hub.AUDIO_BITS_PER_SAMPLE)) with 2%nat.
  change (length (fmt_d 128)) with 3%nat.
  pose proof (fmt_d_length (seq_after k (Hub.audioSequenceNumber st))).
  pose proof (fmt_d_length (millis (0 + Z.of_nat k))). lia.
Qed.

(** C3: every frame the chunk sender hands to the radio is at most 250
    bytes; no chunk is dropped: for each chunk the frame made of the
    unchanged header, one colon and the payload cut to the room that is left
    under the ceiling goes to every active peer; with the cursor inside the
    buffer the payload is not cut at all; and for any header that leaves
    room for a payload byte the encoder cuts the payload, never the header,
    and still emits the frame. *)
Theorem audio_frames_within_ceiling (st : Hub.State) (millis : Z -> Z) :
  let total := Z.quot (Hub.audioBufferIndex st) Hub.AUDIO_CHUNK_SIZE in
  (forall m frame,
      Hub.EspNowSend m frame ∈ fst (Hub.sendAudioChunks millis st) ->
      (length frame <= 250)%nat)
  /\ (forall d k,
        d ∈ Hub.live st -> Hub.isActive d = true -> (k < Z.to_nat total)%nat ->
        Hub.EspNowSend (Hub.mac d) (chunk_frame st total millis 0 k)
          ∈ fst (Hub.sendAudioChunks millis st))
  /\ (forall k,
        0 <= Hub.audioBufferIndex st <= Hub.AUDIO_BUFFER_SIZE ->
        (k < Z.to_nat total)%nat ->
        chunk_frame st total millis 0 k
        = chunk_header st total millis 0 k ++ COLON :: chunk_payload st (Z.of_nat k))
  /\ (forall text raw,
        (length text + 1 + length raw < 300)%nat -> (length text + 1 < 250)%nat ->
        Hub.frame_message text raw
        = Some (text ++ COLON :: take (249 - length text) raw)).
Proof.
  intros total. split; [|split; [|split]].
  - intros m frame Hin. unfold Hub.sendAudioChunks in Hin.
    destruct (_ && _); [cbn in Hin; apply elem_of_nil in Hin; contradiction|].
    fold total in Hin.
    destruct (Hub.chunk_loop (Z.to_nat total) 0 total millis st) as [outs st1] eqn:Hl.
    cbn [fst] in Hin.
    apply (chunk_loop_ceiling total millis (Z.to_nat total) 0 st m frame).
    rewrite Hl. exact Hin.
  - intros d k Hd Hact Hk. unfold Hub.sendAudioChunks.
    pose proof (live_nonempty st d Hd) as Hc.
    destruct (Nat.eqb_spec (Hub.meshDeviceCount st) 0); [lia|]. cbn [andb].
    fold total.
    pose proof (chunk_loop_sends total millis (Z.to_nat total) 0 st d k Hd Hact Hk) as H.
    destruct (Hub.chunk_loop (Z.to_nat total) 0 total millis st) as [outs st1].
    exact H.
  - intros k Hidx Hk. unfold chunk_frame.
    pose proof (chunk_header_short st millis k Hidx Hk) as Hlen. fold total in Hlen.
    pose proof (chunk_payload_length st (0 + Z.of_nat k)) as Hpl.
    rewrite take_ge by lia. rewrite Z.add_0_l. reflexivity.
  - exact frame_message_spec.
Qed.


(** ** Accumulator *)

Section AccumulatorFacts.
Import Hub.

Definition no_sink (st : State) : bool :=
  (meshDeviceCount st =? 0)%nat && negb (deviceConnected st).

Definition buffer_ok (st : State) : Prop :=
  length (audioBuffer st) = Z.to_nat AUDIO_BUFFER_SIZE
  /\ 0 <= audioBufferIndex st <= AUDIO_BUFFER_SIZE.

Lemma memset_whole (buf : list byte) :
  length buf = Z.to_nat AUDIO_BUFFER_SIZE ->
  memset_at buf 0 0 (Z.to_nat AUDIO_BUFFER_SIZE) = replicate (Z.to_nat AUDIO_BUFFER_SIZE) 0.
Proof.
  intros H. unfold memset_at. rewrite take_0, drop_ge by lia.
  cbn [app]. apply app_nil_r.
Qed.

(** Without a mesh peer and without a phone the sender throws the buffer away. *)
Lemma sendAudioChunks_no_sink millis st :
  no_sink st = true -> length (audioBuffer st) = Z.to_nat AUDIO_BUFFER_SIZE ->
  sendAudioChunks millis st
  = ([], set_buffer (replicate (Z.to_nat AUDIO_BUFFER_SIZE) 0) 0 st).
Proof.
  intros Hn Hl. unfold sendAudioChunks. unfold no_sink in Hn. rewrite Hn.
  rewrite memset_whole by assumption. reflexivity.
Qed.

(** With a sink, the whole chunks leave the buffer, the remainder moves to
    the front and the rest is zeroed. *)
Lemma sendAudioChunks_compacts millis st :
  no_sink st = false -> buffer_ok st ->
  let st' := snd (sendAudioChunks millis st) in
  let remaining := Z.rem (audioBufferIndex st) AUDIO_CHUNK_SIZE in
  audioBufferIndex st' = remaining
  /\ audioBuffer st'
     = drop (Z.to_nat (audioBufferIndex st - remaining)) (pending st)
       ++ replicate (Z.to_nat (AUDIO_BUFFER_SIZE - remaining)) 0.
Proof.
  intros Hn [Hl Hidx]. unfold sendAudioChunks. unfold no_sink in Hn. rewrite Hn.
  pose proof (chunk_loop_spec millis (Z.quot (audioBufferIndex st) AUDIO_CHUNK_SIZE)
                (Z.to_nat (Z.quot (audioBufferIndex st) AUDIO_CHUNK_SIZE)) 0 st)
    as [Hst _].
  destruct (chunk_loop _ _ _ _ _) as [outs st1]. cbn [fst snd] in *.
  rewrite Hst. unfold compact_buffer.
  cbn [audioBufferIndex audioBuffer set_sequence].
  unfold AUDIO_BUFFER_SIZE, AUDIO_CHUNK_SIZE in *.
  pose proof (Z.quot_rem' (audioBufferIndex st) 200) as Hqr.
  pose proof (Z.rem_bound_pos (audioBufferIndex st) 200 ltac:(lia) ltac:(lia)) as Hr.
  set (r := Z.rem (audioBufferIndex st) 200) in *.
  set (q := Z.quot (audioBufferIndex st) 200) in *.
  assert (Hdrop : drop (Z.to_nat (audioBufferIndex st - r)) (pending st)
                  = take (Z.to_nat r) (drop (Z.to_nat (q * 200)) (audioBuffer st))).
  { unfold pending. rewrite take_drop_commute. do 2 f_equal; lia. }
  destruct (Z.ltb_spec 0 r) as [Hpos|Hzero]; cbn [audioBufferIndex audioBuffer set_buffer].
  - split; [reflexivity|]. rewrite Hdrop. unfold memset_at, memmove_front.
    rewrite take_app_le by (rewrite length_take, length_drop; lia).
    rewrite take_take, Nat.min_id.
    rewrite (drop_ge (_ ++ _))
      by (rewrite length_app, length_take, !length_drop; lia).
    rewrite app_nil_r. reflexivity.
  - split; [lia|]. rewrite memset_whole by assumption.
    rewrite Hdrop. replace r with 0 by lia.
    rewrite take_0. reflexivity.
Qed.

Lemma sendAudioChunks_buffer_ok millis st :
  buffer_ok st ->
  buffer_ok (snd (sendAudioChunks millis st))
  /\ audioBufferIndex (snd (sendAudioChunks millis st)) < AUDIO_CHUNK_SIZE.
Proof.
  intros Hok. pose proof Hok as [Hl Hidx].
  destruct (no_sink st) eqn:Hn.
  - rewrite sendAudioChunks_no_sink by assumption. cbn.
    unfold buffer_ok. cbn. rewrite length_replicate.
    unfold AUDIO_BUFFER_SIZE, AUDIO_CHUNK_SIZE. lia.
  - destruct (sendAudioChunks_compacts millis st Hn Hok) as [Hi Hb].
    unfold AUDIO_BUFFER_SIZE, AUDIO_CHUNK_SIZE in *.
    pose proof (Z.rem_bound_pos (audioBufferIndex st) 200 ltac:(lia) ltac:(lia)) as Hr.
    pose proof (Z.rem_le (audioBufferIndex st) 200 ltac:(lia) ltac:(lia)) as Hle.
    unfold buffer_ok. rewrite Hi, Hb. unfold AUDIO_BUFFER_SIZE.
    rewrite length_app, length_drop, length_replicate.
    unfold pending. rewrite length_take. lia.
Qed.

(** The state the append starts from: after the forced flush, if any. *)
Definition after_forced_flush (st : State) (len : Z) (millis : Z -> Z) : State :=
  if AUDIO_BUFFER_SIZE <? audioBufferIndex st + len then
    if AUDIO_CHUNK_SIZE <=? audioBufferIndex st
    then snd (sendAudioChunks millis st) else st
  else st.

Lemma after_forced_flush_ok st len millis :
  buffer_ok st -> buffer_ok (after_forced_flush st len millis).
Proof.
  intros H. unfold after_forced_flush.
  destruct (_ <? _); [|assumption]. destruct (_ <=? _); [|assumption].
  apply sendAudioChunks_buffer_ok. assumption.
Qed.

(** Eviction: the oldest [overflow] bytes go, the newest stay, the new
    bytes fill the buffer up to its end. *)
Lemma addAudioData_append_evicts st data len millis :
  buffer_ok st ->
  let st1 := after_forced_flush st len millis in
  AUDIO_BUFFER_SIZE < audioBufferIndex st + len ->
  AUDIO_BUFFER_SIZE < audioBufferIndex st1 + len ->
  0 < len <= AUDIO_BUFFER_SIZE ->
  len <= Z.of_nat (length data) ->
  let overflow := audioBufferIndex st1 + len - AUDIO_BUFFER_SIZE in
  exists outs st2,
    addAudioData_append st data len millis = Some (outs, st2)
    /\ audioBufferIndex st2 = AUDIO_BUFFER_SIZE
    /\ audioBuffer st2
       = drop (Z.to_nat overflow) (pending st1) ++ take (Z.to_nat len) data
    /\ same_registry st st2
    /\ isAudioStreaming st2 = isAudioStreaming st
    /\ deviceConnected st2 = deviceConnected st.
Proof.
  intros Hok st1 H1 H2 Hlen Hdata overflow.
  pose proof (after_forced_flush_ok st len millis Hok) as [Hl1 Hi1]. fold st1 in Hl1, Hi1.
  assert (Hflags : same_registry st st1
                   /\ isAudioStreaming st1 = isAudioStreaming st
                   /\ deviceConnected st1 = deviceConnected st).
  { subst st1. unfold after_forced_flush.
    destruct (_ <? _); [|repeat split]. destruct (_ <=? _); [|repeat split].
    pose proof (sendAudioChunks_registry millis st) as [Hs _].
    split; [exact Hs|]. unfold sendAudioChunks.
    destruct (_ && _); [cbn; auto|].
    pose proof (chunk_loop_spec millis (Z.quot (audioBufferIndex st) AUDIO_CHUNK_SIZE)
                  (Z.to_nat (Z.quot (audioBufferIndex st) AUDIO_CHUNK_SIZE)) 0 st)
      as [Hst _].
    destruct (chunk_loop _ _ _ _ _) as [outs0 st0]. cbn [fst snd] in *.
    rewrite Hst. unfold compact_buffer. destruct (0 <? _); cbn; auto. }
  destruct Hflags as (Hsame & Hstream & Hconn).
  unfold addAudioData_append.
  assert (Hfl : (if AUDIO_BUFFER_SIZE <? audioBufferIndex st + len
                 then if AUDIO_CHUNK_SIZE <=? audioBufferIndex st
                      then sendAudioChunks millis st else ([], st)
                 else ([], st))
                = (fst (if AUDIO_CHUNK_SIZE <=? audioBufferIndex st
                        then sendAudioChunks millis st else ([], st)), st1)).
  { subst st1. unfold after_forced_flush.
    destruct (Z.ltb_spec AUDIO_BUFFER_SIZE (audioBufferIndex st + len)); [|lia].
    destruct (_ <=? _); [destruct (sendAudioChunks millis st)|]; reflexivity. }
  rewrite Hfl.
  destruct (Z.ltb_spec AUDIO_BUFFER_SIZE (audioBufferIndex st + len)); [|lia].
  destruct (Z.ltb_spec AUDIO_BUFFER_SIZE (audioBufferIndex st1 + len)); [|lia].
  cbn [andb]. fold overflow.
  destruct (Z.ltb_spec (audioBufferIndex st1 - overflow) 0); [subst overflow; lia|].
  cbn [mbind option_bind audioBufferIndex audioBuffer set_buffer].
  destruct (Z.ltb_spec AUDIO_BUFFER_SIZE (audioBufferIndex st1 - overflow + len));
    [subst overflow; lia|].
  eexists _, _. split; [reflexivity|].
  cbn [audioBufferIndex audioBuffer set_buffer].
  split; [subst overflow; lia|]. split.
  - unfold memcpy_at, memmove_front, pending.
    unfold AUDIO_BUFFER_SIZE in *.
    rewrite take_app_le by (rewrite length_take, length_drop; subst overflow; lia).
    rewrite take_take, Nat.min_id.
    rewrite (drop_ge (_ ++ _))
      by (rewrite length_app, length_take, !length_drop; subst overflow; lia).
    rewrite app_nil_r. f_equal.
    rewrite take_drop_commute. do 2 f_equal. subst overflow. lia.
  - split; [destruct Hsame; split; assumption|]. split; assumption.
Qed.

End AccumulatorFacts.

(** A Hub that is streaming to a connected phone, no mesh peer registered,
    with 100 bytes buffered; and the Hub as [setup] leaves it. *)
Definition blank_device : Hub.MeshDevice :=
  Hub.mkDevice (0, 0, 0, 0, 0, 0) "" "" 0 false false 0.

Definition streaming_hub : Hub.State :=
  Hub.mkState (replicate 4 blank_device) 0 true true true true
              (replicate 100 1 ++ replicate 924 0) 100 0.

Definition hub_boot : Hub.State :=
  Hub.mkState (replicate 4 blank_device) 0 true false false true
              (replicate 1024 0) 0 0.

(** C4, as stated, fails: with the cursor at [1024 - 924] and 1000 new
    bytes (no forced flush, 76 bytes evicted), the append leaves the cursor
    at 1024, not at 1000; the chunk emission that ends [addAudioData] then
    leaves it at 24, and the last 1000 bytes of the buffer are not the new
    bytes. *)
Lemma overflow_cursor_counterexample :
  let data := replicate 1000 2 in
  let clock := fun _ : Z => 0 in
  Hub.audioBufferIndex streaming_hub = Hub.AUDIO_BUFFER_SIZE - 924
  /\ 0 < 924 < 1000
  /\ (Hub.audioBufferIndex ∘ snd) <$> Hub.addAudioData_append streaming_hub data 1000 clock
     = Some 1024
  /\ (Hub.audioBufferIndex ∘ snd) <$> Hub.addAudioData streaming_hub data 1000 clock clock
     = Some 24
  /\ (fun r => drop 24 (Hub.audioBuffer (snd r)))
       <$> Hub.addAudioData streaming_hub data 1000 clock clock
     = Some (replicate 1000 0)
  /\ replicate 1000 0 <> data.
Proof.
  cbv zeta. split; [reflexivity|]. split; [lia|].
  split; [vm_compute; reflexivity|]. split; [vm_compute; reflexivity|].
  split; [vm_compute; reflexivity|]. discriminate.
Qed.

(** C4 (amended): when [len] bytes ([len] at most the capacity) are appended
    at cursor [capacity - k] with [0 < k < len] and the forced chunk flush
    does not free enough room, the oldest
    [overflow = (cursor + len) - capacity] bytes (cursor as the flush left
    it) are evicted by the left shift, the newest old bytes are kept, and the
    append completes with the cursor at the capacity and the last [len] bytes
    of the buffer equal to the new bytes; the chunk emission that ends
    [addAudioData] then leaves the cursor at 24 (at 0 when neither a mesh
    peer nor a phone is connected). *)
Theorem overflow_eviction (st : Hub.State) (data : list byte) (len k : Z)
    (millis1 millis2 : Z -> Z) :
  buffer_ok st ->
  Hub.isAudioStreaming st = true ->
  Hub.audioBufferIndex st = Hub.AUDIO_BUFFER_SIZE - k ->
  0 < k < len ->
  len <= Hub.AUDIO_BUFFER_SIZE ->
  len <= Z.of_nat (length data) ->
  let st1 := after_forced_flush st len millis1 in
  Hub.AUDIO_BUFFER_SIZE < Hub.audioBufferIndex st1 + len ->
  let overflow := Hub.audioBufferIndex st1 + len - Hub.AUDIO_BUFFER_SIZE in
  (exists outs st2,
      Hub.addAudioData_append st data len millis1 = Some (outs, st2)
      /\ Hub.audioBufferIndex st2 = Hub.AUDIO_BUFFER_SIZE
      /\ Hub.audioBuffer st2
         = drop (Z.to_nat overflow) (Hub.pending st1) ++ take (Z.to_nat len) data
      /\ drop (Z.to_nat (Hub.AUDIO_BUFFER_SIZE - len)) (Hub.audioBuffer st2)
         = take (Z.to_nat len) data)
  /\ (exists outs st3,
        Hub.addAudioData st data len millis1 millis2 = Some (outs, st3)
        /\ Hub.audioBufferIndex st3 = if no_sink st then 0 else 24).
Proof.
  intros Hok Hstream Hcur Hk Hlen Hdata st1 Hfull overflow.
  pose proof (after_forced_flush_ok st len millis1 Hok) as [Hl1 Hi1]. fold st1 in Hl1, Hi1.
  destruct (addAudioData_append_evicts st data len millis1 Hok ltac:(lia) Hfull
              ltac:(lia) Hdata)
    as (outs & st2 & Happ & Hidx2 & Hbuf2 & Hsame & Hstr2 & Hconn2).
  fold st1 in Hbuf2. fold overflow in Hbuf2.
  assert (Hpl : length (drop (Z.to_nat overflow) (Hub.pending st1))
                = Z.to_nat (Hub.AUDIO_BUFFER_SIZE - len)).
  { rewrite length_drop. unfold Hub.pending. rewrite length_take.
    unfold Hub.AUDIO_BUFFER_SIZE in *. subst overflow. lia. }
  split.
  - exists outs, st2. split; [assumption|]. split; [assumption|]. split; [assumption|].
    rewrite Hbuf2, <- Hpl. apply drop_app_length.
  - unfold Hub.addAudioData. rewrite Hstream. cbn [negb].
    destruct (Z.leb_spec len 0); [lia|]. rewrite Happ. cbn [mbind option_bind].
    rewrite Hidx2. change (Hub.AUDIO_CHUNK_SIZE <=? Hub.AUDIO_BUFFER_SIZE) with true.
    cbn iota.
    assert (Hok2 : buffer_ok st2).
    { split; [|rewrite Hidx2; unfold Hub.AUDIO_BUFFER_SIZE; lia].
      rewrite Hbuf2, length_app, Hpl, length_take.
      unfold Hub.AUDIO_BUFFER_SIZE in *. lia. }
    assert (Hns : no_sink st2 = no_sink st).
    { unfold no_sink. destruct Hsame as [_ Hc]. rewrite Hc, Hconn2. reflexivity. }
    destruct (Hub.sendAudioChunks millis2 st2) as [outs2 st3] eqn:Hsend.
    exists (outs ++ outs2), st3. split; [reflexivity|].
    replace st3 with (snd (Hub.sendAudioChunks millis2 st2)) by (rewrite Hsend; reflexivity).
    rewrite <- Hns. destruct (no_sink st2) eqn:Hn.
    + rewrite sendAudioChunks_no_sink by (assumption || apply Hok2). reflexivity.
    + destruct (sendAudioChunks_compacts millis2 st2 Hn Hok2) as [Hi _].
      rewrite Hi, Hidx2. reflexivity.
Qed.

(** *** Where buffered bytes are cleared *)

(** An event throws buffered bytes away: bytes were buffered, the event
    emitted nothing, and it left the buffer zeroed with the cursor at 0. *)
Definition discards_unsent (st : Hub.State) (ev : Hub.Event) : Prop :=
  Hub.pending st <> []
  /\ exists st',
       Hub.step st ev = Some ([], st')
       /\ Hub.audioBuffer st' = replicate 1024 0
       /\ Hub.audioBufferIndex st' = 0.

(** C9, as stated, fails.  From the Hub as [setup] leaves it, starting the
    stream and writing 50 bytes leaves 50 bytes buffered; stopping the stream
    then zeroes them, and so does the [clear_buffer] command, with nothing
    emitted and no compaction involved.  Writing 250 bytes while neither a
    peer nor a phone is connected takes the early return of
    [sendAudioChunks]: all 250 bytes are zeroed and none is emitted. *)
Lemma buffer_cleared_elsewhere_counterexample :
  let clock := fun _ : Z => 0 in
  (exists st,
      Hub.run hub_boot [Hub.EvStart; Hub.EvAudio (replicate 50 7) 50 clock clock]
        = Some ([], st)
      /\ Hub.pending st = replicate 50 7
      /\ discards_unsent st Hub.EvStop
      /\ discards_unsent st Hub.EvClear)
  /\ (exists st,
        Hub.run hub_boot [Hub.EvStart; Hub.EvAudio (replicate 150 7) 150 clock clock]
          = Some ([], st)
        /\ Hub.pending st = replicate 150 7
        /\ discards_unsent st (Hub.EvAudio (replicate 100 9) 100 clock clock)).
Proof.
  cbv zeta. split.
  - eexists. split; [vm_compute; reflexivity|]. split; [vm_compute; reflexivity|].
    split; (split; [vm_compute; discriminate|]);
      eexists; (split; [vm_compute; reflexivity|]); split; vm_compute; reflexivity.
  - eexists. split; [vm_compute; reflexivity|]. split; [vm_compute; reflexivity|].
    split; [vm_compute; discriminate|].
    eexists. split; [vm_compute; reflexivity|]. split; vm_compute; reflexivity.
Qed.

(** C9 (amended): the compaction that ends an emission moves the partial
    remainder chunk to the front of the buffer, keeps exactly those bytes and
    zeroes the rest; it is not the only point where buffered bytes are
    cleared: [sendAudioChunks] called with neither a mesh peer nor a phone
    connected zeroes the whole buffer without emitting anything,
    [stopAudioStream] and the [clear_buffer] command zero it as well, and
    [startAudioStream] resets the cursor (overflow eviction, which drops the
    oldest bytes, is the subject of C4). *)
Theorem buffer_clearing_points (st : Hub.State) (millis : Z -> Z) :
  buffer_ok st ->
  let zeros := replicate (Z.to_nat Hub.AUDIO_BUFFER_SIZE) 0 in
  (no_sink st = false ->
     let st' := snd (Hub.sendAudioChunks millis st) in
     let remaining := Z.rem (Hub.audioBufferIndex st) Hub.AUDIO_CHUNK_SIZE in
     Hub.audioBufferIndex st' = remaining
     /\ Hub.pending st'
        = drop (Z.to_nat (Hub.audioBufferIndex st - remaining)) (Hub.pending st)
     /\ drop (Z.to_nat remaining) (Hub.audioBuffer st')
        = replicate (Z.to_nat (Hub.AUDIO_BUFFER_SIZE - remaining)) 0)
  /\ (no_sink st = true ->
      Hub.sendAudioChunks millis st = ([], Hub.set_buffer zeros 0 st))
  /\ (Hub.isAudioStreaming st = true ->
      Hub.audioBuffer (Hub.stopAudioStream st) = zeros
      /\ Hub.audioBufferIndex (Hub.stopAudioStream st) = 0)
  /\ (Hub.audioBuffer (Hub.clear_buffer st) = zeros
      /\ Hub.audioBufferIndex (Hub.clear_buffer st) = 0)
  /\ (Hub.isAudioStreaming st = false ->
      Hub.audioBufferIndex (Hub.startAudioStream st) = 0).
Proof.
  intros Hok zeros. pose proof Hok as [Hl Hidx].
  split; [|split; [|split; [|split]]].
  - intros Hn st' remaining.
    destruct (sendAudioChunks_compacts millis st Hn Hok) as [Hi Hb].
    fold st' in Hi, Hb. fold remaining in Hi, Hb.
    assert (Hlen : length (drop (Z.to_nat (Hub.audioBufferIndex st - remaining))
                             (Hub.pending st)) = Z.to_nat remaining).
    { rewrite length_drop. unfold Hub.pending. rewrite length_take.
      unfold Hub.AUDIO_BUFFER_SIZE, Hub.AUDIO_CHUNK_SIZE in *.
      pose proof (Z.rem_bound_pos (Hub.audioBufferIndex st) 200 ltac:(lia) ltac:(lia)).
      pose proof (Z.rem_le (Hub.audioBufferIndex st) 200 ltac:(lia) ltac:(lia)).
      subst remaining. lia. }
    split; [assumption|]. split.
    + unfold Hub.pending at 1. rewrite Hi, Hb, <- Hlen. apply take_app_length.
    + rewrite Hb, <- Hlen. apply drop_app_length.
  - intros Hn. apply sendAudioChunks_no_sink; assumption.
  - intros Hs. unfold Hub.stopAudioStream. rewrite Hs. cbn.
    split; [apply memset_whole; assumption | reflexivity].
  - cbn. split; [apply memset_whole; assumption | reflexivity].
  - intros Hs. unfold Hub.startAudioStream. rewrite Hs. reflexivity.
Qed.

(** ** The theorems at concrete inputs *)

Lemma full_hub_ok : Hub.reg_ok full_hub.
Proof.
  constructor; [reflexivity | apply Nat.leb_le; reflexivity |].
  apply (bool_decide_unpack _). vm_compute. exact I.
Qed.

Lemma streaming_hub_ok : buffer_ok streaming_hub.
Proof. split; [reflexivity | cbn; unfold Hub.AUDIO_BUFFER_SIZE; lia]. Qed.

(** C1 at the Hub's queue as it starts: two writes, one of them holding a
    colon and a ['P'], come back in order; and at the Relay's queue as it
    starts: a Legacy8 item and a raw item come back in order, length and
    bytes, into an item whose tag reads 255. *)
Lemma ring_queue_fifo_witness :
  (RingQueue.wf Hub.BLE_IN_BITS Hub.bleInQueue_init
   /\ RingQueue.tail Hub.bleInQueue_init = RingQueue.head Hub.bleInQueue_init
   /\ fst (RingQueue.push_all Hub.BLE_IN_BITS Hub.bleInQueue_init
             [([1; 2; 3], 3, tt); ([58; 80], 2, tt)]) = [true; true]
   /\ RingQueue.popped
        (fst (RingQueue.pop_n Hub.BLE_IN_BITS
                (snd (RingQueue.push_all Hub.BLE_IN_BITS Hub.bleInQueue_init
                        [([1; 2; 3], 3, tt); ([58; 80], 2, tt)]))
                (RingQueue.mkItem 0 (replicate 256 0) tt) 2))
      = [(3, [1; 2; 3], tt); (2, [58; 80], tt)])
  /\ (RingQueue.wf Relay.NOTIFY_RING_BITS Relay.notifyQueue_init
      /\ RingQueue.tail Relay.notifyQueue_init = RingQueue.head Relay.notifyQueue_init
      /\ fst (RingQueue.push_all Relay.NOTIFY_RING_BITS Relay.notifyQueue_init
                [([0; 128; 255], 3, 1); ([58; 80], 2, 0)]) = [true; true]
      /\ map fst
           (RingQueue.popped
              (fst (Relay.Consumer.pop_n
                      (snd (RingQueue.push_all Relay.NOTIFY_RING_BITS
                              Relay.notifyQueue_init
                              [([0; 128; 255], 3, 1); ([58; 80], 2, 0)]))
                      (RingQueue.mkItem 0 (replicate 256 0) 255) 2)))
         = [(3, [0; 128; 255]); (2, [58; 80])]).
Proof.
  destruct ring_queue_fifo as (Hfifo & _ & _ & Hrelay & _).
  split.
  - split; [exact bleInQueue_init_wf|]. split; [reflexivity|].
    apply (Hfifo Hub.bleInQueue_init bleInQueue_init_wf eq_refl
                 [([1; 2; 3], 3, tt); ([58; 80], 2, tt)] 2%nat
                 (RingQueue.mkItem 0 (replicate 256 0) tt)).
    + repeat constructor; cbn; lia.
    + cbn. lia.
    + lia.
  - split; [exact notifyQueue_init_wf|]. split; [reflexivity|].
    apply (Hrelay Relay.notifyQueue_init
                  [([0; 128; 255], 3, 1); ([58; 80], 2, 0)] 2%nat
                  (RingQueue.mkItem 0 (replicate 256 0) 255)
                  notifyQueue_init_wf eq_refl).
    + repeat constructor; cbn; lia.
    + cbn. lia.
    + lia.
Defined.



(** A Hub with two active peers and 250 bytes buffered. *)
Definition loaded_hub : Hub.State :=
  Hub.set_buffer (replicate 250 9 ++ replicate 774 0) 250 full_hub.

(** C3 at that Hub: the one whole chunk goes to the first peer as a frame
    of 227 bytes. *)
Lemma audio_frames_within_ceiling_witness :
  peer 1 1000 true ∈ Hub.live loaded_hub
  /\ Hub.isActive (peer 1 1000 true) = true
  /\ (0 < Z.to_nat (Z.quot (Hub.audioBufferIndex loaded_hub) Hub.AUDIO_CHUNK_SIZE))%nat
  /\ Hub.EspNowSend (Hub.mac (peer 1 1000 true))
       (chunk_frame loaded_hub
          (Z.quot (Hub.audioBufferIndex loaded_hub) Hub.AUDIO_CHUNK_SIZE)
          (fun _ => 5000) 0 0)
       ∈ fst (Hub.sendAudioChunks (fun _ => 5000) loaded_hub).
Proof.
  assert (H1 : peer 1 1000 true ∈ Hub.live loaded_hub)
    by (apply list_elem_of_lookup; exists 0%nat; reflexivity).
  assert (H2 : (0 < Z.to_nat (Z.quot (Hub.audioBufferIndex loaded_hub)
                                     Hub.AUDIO_CHUNK_SIZE))%nat)
    by (apply Nat.ltb_lt; reflexivity).
  split; [exact H1|]. split; [reflexivity|]. split; [exact H2|].
  destruct (audio_frames_within_ceiling loaded_hub (fun _ => 5000)) as (_ & Hsend & _).
  exact (Hsend (peer 1 1000 true) 0%nat H1 eq_refl H2).
Defined.

(** C4 at the streaming Hub: 1000 bytes on top of 100 buffered ones. *)
Lemma overflow_eviction_witness :
  buffer_ok streaming_hub
  /\ Hub.isAudioStreaming streaming_hub = true
  /\ Hub.audioBufferIndex streaming_hub = Hub.AUDIO_BUFFER_SIZE - 924
  /\ 0 < 924 < 1000
  /\ 1000 <= Hub.AUDIO_BUFFER_SIZE
  /\ 1000 <= Z.of_nat (length (replicate 1000 2))
  /\ Hub.AUDIO_BUFFER_SIZE
     < Hub.audioBufferIndex (after_forced_flush streaming_hub 1000 (fun _ => 0)) + 1000
  /\ exists outs st2,
       Hub.addAudioData_append streaming_hub (replicate 1000 2) 1000 (fun _ => 0)
         = Some (outs, st2)
       /\ Hub.audioBufferIndex st2 = Hub.AUDIO_BUFFER_SIZE
       /\ drop (Z.to_nat (Hub.AUDIO_BUFFER_SIZE - 1000)) (Hub.audioBuffer st2)
          = take (Z.to_nat 1000) (replicate 1000 2).
Proof.
  assert (H2 : 0 < 924 < 1000) by lia.
  assert (H3 : 1000 <= Hub.AUDIO_BUFFER_SIZE) by (apply Z.leb_le; reflexivity).
  assert (H4 : 1000 <= Z.of_nat (length (replicate 1000 2)))
    by (apply Z.leb_le; vm_compute; reflexivity).
  assert (H5 : Hub.AUDIO_BUFFER_SIZE
               < Hub.audioBufferIndex
                   (after_forced_flush streaming_hub 1000 (fun _ => 0)) + 1000)
    by (apply Z.ltb_lt; vm_compute; reflexivity).
  split; [exact streaming_hub_ok|]. split; [reflexivity|]. split; [reflexivity|].
  split; [exact H2|]. split; [exact H3|]. split; [exact H4|]. split; [exact H5|].
  destruct (overflow_eviction streaming_hub (replicate 1000 2) 1000 924
              (fun _ => 0) (fun _ => 0) streaming_hub_ok eq_refl eq_refl H2 H3 H4 H5)
    as [(outs & st2 & Ha & Hi & _ & Hd) _].
  exists outs, st2. split; [exact Ha|]. split; [exact Hi | exact Hd].
Defined.

(** C6 at the full registry: a join from a fifth address, and a join from
    the address of the second peer, last seen at 1000 ms, at 5000 ms. *)
Lemma join_at_capacity_witness :
  Hub.reg_ok full_hub
  /\ Hub.meshDeviceCount full_hub = Hub.MAX_MESH_DEVICES
  /\ (peer_mac 9 ∉ Hub.macs full_hub)
  /\ Hub.OnDataRecv full_hub (peer_mac 9)
       (Some (Hub.mesh_join "ESP32S3_Audio_Client" "ESP32_Audio_Client"))
       120 5000 true (fun _ => []) (fun _ => true) (fun _ => Hub.ESP_OK)
     = Some ([Hub.MeshAck (peer_mac 9) "failed" 5000 (Hub.meshDeviceCount full_hub)],
             full_hub)
  /\ (peer_mac 2 ∈ Hub.macs full_hub)
  /\ exists st',
       Hub.OnDataRecv full_hub (peer_mac 2)
         (Some (Hub.mesh_join "ESP32S3_Audio_Client" "ESP32_Audio_Client"))
         120 5000 true (fun _ => []) (fun _ => true) (fun _ => Hub.ESP_OK)
       = Some ([Hub.MeshAck (peer_mac 2) "joined" 5000 4], st')
       /\ Hub.live st'
          = [peer 1 1000 true; peer 2 5000 true; peer 3 1000 false; peer 4 1000 false].
Proof.
  assert (Hm : peer_mac 9 ∉ Hub.macs full_hub)
    by (apply (bool_decide_unpack _); vm_compute; exact I).
  assert (Hm2 : peer_mac 2 ∈ Hub.macs full_hub)
    by (apply (bool_decide_unpack _); vm_compute; exact I).
  split; [exact full_hub_ok|]. split; [reflexivity|]. split; [exact Hm|].
  split.
  { exact (proj1 (join_at_capacity full_hub (peer_mac 9) "ESP32S3_Audio_Client"
                    "ESP32_Audio_Client" 120 5000 true (fun _ => []) (fun _ => true)
                    (fun _ => Hub.ESP_OK) full_hub_ok eq_refl) Hm). }
  split; [exact Hm2|].
  destruct (proj2 (join_at_capacity full_hub (peer_mac 2) "ESP32S3_Audio_Client"
                     "ESP32_Audio_Client" 120 5000 true (fun _ => []) (fun _ => true)
                     (fun _ => Hub.ESP_OK) full_hub_ok eq_refl) Hm2)
    as (i & d & Hl & Hmac & Hrecv & _).
  eexists. split; [exact Hrecv|].
  destruct i as [|[|[|[|i]]]]; cbn in Hl; try discriminate Hl;
    injection Hl as <-; try discriminate Hmac.
  reflexivity.
Defined.

(** C7 at the full registry: the first peer, last seen at 1000 ms, is swept
    at 40000 ms. *)
Lemma timeout_sweep_removes_active_peer_witness :
  Hub.reg_ok full_hub
  /\ Hub.meshNetworkActive full_hub = true
  /\ peer 1 1000 true ∈ Hub.live full_hub
  /\ Hub.isActive (peer 1 1000 true) = true
  /\ Hub.DEVICE_TIMEOUT < to_u32 (40000 - Hub.lastSeen (peer 1 1000 true))
  /\ exists st',
       Hub.cleanupInactiveDevices full_hub 40000 = Some st'
       /\ (Hub.mac (peer 1 1000 true) ∉ Hub.macs st').
Proof.
  assert (H3 : peer 1 1000 true ∈ Hub.live full_hub)
    by (apply list_elem_of_lookup; exists 0%nat; reflexivity).
  assert (H5 : Hub.DEVICE_TIMEOUT < to_u32 (40000 - Hub.lastSeen (peer 1 1000 true)))
    by (apply Z.ltb_lt; reflexivity).
  split; [exact full_hub_ok|]. split; [reflexivity|]. split; [exact H3|].
  split; [reflexivity|]. split; [exact H5|].
  destruct (timeout_sweep_removes_active_peer full_hub (peer 1 1000 true) 40000
              full_hub_ok eq_refl H3 eq_refl H5) as (st' & Hs & Habs & _).
  exists st'. split; [exact Hs | exact Habs].
Defined.

(** C9 at the streaming Hub (a phone is connected, 100 bytes buffered). *)
Lemma buffer_clearing_points_witness :
  buffer_ok streaming_hub
  /\ no_sink streaming_hub = false
  /\ Hub.isAudioStreaming streaming_hub = true
  /\ Hub.audioBufferIndex (snd (Hub.sendAudioChunks (fun _ => 0) streaming_hub))
     = Z.rem (Hub.audioBufferIndex streaming_hub) Hub.AUDIO_CHUNK_SIZE
  /\ Hub.audioBuffer (Hub.stopAudioStream streaming_hub)
     = replicate (Z.to_nat Hub.AUDIO_BUFFER_SIZE) 0
  /\ Hub.audioBufferIndex (Hub.stopAudioStream streaming_hub) = 0.
Proof.
  split; [exact streaming_hub_ok|]. split; [reflexivity|]. split; [reflexivity|].
  destruct (buffer_clearing_points streaming_hub (fun _ => 0) streaming_hub_ok)
    as (Hsend & _ & Hstop & _).
  destruct (Hsend eq_refl) as (Hi & _). destruct (Hstop eq_refl) as (Hb & Hz).
  split; [exact Hi|]. split; [exact Hb | exact Hz].
Defined.

(** C10 at the full registry: the third peer never became active and
    survives a sweep forty-six days into the uptime. *)
Lemma unready_peer_keeps_slot_witness :
  Hub.reg_ok full_hub
  /\ peer 3 1000 false ∈ Hub.live full_hub
  /\ Hub.isActive (peer 3 1000 false) = false
  /\ exists st',
       Hub.cleanupInactiveDevices full_hub 4000000000 = Some st'
       /\ peer 3 1000 false ∈ Hub.live st'.
Proof.
  assert (H2 : peer 3 1000 false ∈ Hub.live full_hub)
    by (apply list_elem_of_lookup; exists 2%nat; reflexivity).
  split; [exact full_hub_ok|]. split; [exact H2|]. split; [reflexivity|].
  destruct (unready_peer_keeps_slot full_hub (peer 3 1000 false) full_hub_ok H2 eq_refl)
    as (Hsweep & _).
  exact (Hsweep 4000000000).
Defined.

(** ** Reachable states

    The shape of the registry ([reg_ok]) and of the accumulator
    ([buffer_ok]) assumed above is the shape of every state the Hub reaches
    from [hub_boot]. *)

Section Reachable.
Import Hub.

Definition same_audio (st st' : State) : Prop :=
  audioBuffer st' = audioBuffer st /\ audioBufferIndex st' = audioBufferIndex st.

(** [addAudioData] is handed [len] bytes that are there to be read. *)
Definition audio_readable (ev : Event) : Prop :=
  match ev with
  | EvAudio data len _ _ => len <= Z.of_nat (length data)
  | _ => True
  end.

Lemma same_audio_ok st st' : same_audio st st' -> buffer_ok st -> buffer_ok st'.
Proof. intros [Hb Hi] [Hl Hr]. unfold buffer_ok. rewrite Hb, Hi. auto. Qed.

Lemma removeDeviceFromMesh_audio st m : same_audio st (snd (removeDeviceFromMesh st m)).
Proof.
  unfold removeDeviceFromMesh. destruct (find_device st m) as [[i d]|];
    split; reflexivity.
Qed.

Lemma cleanup_loop_audio now fuel : forall i st st',
  cleanup_loop fuel i now st = Some st' -> same_audio st st'.
Proof.
  induction fuel as [|fuel IH]; intros i st st' H; [discriminate|].
  cbn [cleanup_loop] in H.
  destruct (i <? meshDeviceCount st)%nat; [|injection H as <-; split; reflexivity].
  destruct (MAX_MESH_DEVICES <=? i)%nat; [injection H as <-; split; reflexivity|].
  destruct (meshDevices st !! i) as [d|]; [|injection H as <-; split; reflexivity].
  destruct (timed_out now d); [|eapply IH; eassumption].
  pose proof (removeDeviceFromMesh_audio st (mac d)) as [Hb Hi].
  destruct (removeDeviceFromMesh st (mac d)) as [[] st1]; cbn [snd] in *;
    apply IH in H as [Hb' Hi']; split; congruence.
Qed.

Lemma send_loop_audio guard eligible get_peer send msg fuel : forall i k st outs st',
  send_loop fuel i k guard eligible get_peer send msg st = Some (outs, st') ->
  same_audio st st'.
Proof.
  induction fuel as [|fuel IH]; intros i k st outs st' H; [discriminate|].
  cbn [send_loop] in H.
  destruct (i <? meshDeviceCount st)%nat; [|injection H as <- <-; split; reflexivity].
  destruct (guard && _); [injection H as <- <-; split; reflexivity|].
  destruct (meshDevices st !! i) as [d|]; [|injection H as <- <-; split; reflexivity].
  pose proof (removeDeviceFromMesh_audio st (mac d)) as [Hb Hi].
  assert (Hdrop : forall outs0,
             send_loop fuel i (S k) guard eligible get_peer send msg
               (snd (removeDeviceFromMesh st (mac d))) = Some (outs0, st') ->
             same_audio st st').
  { intros outs0 H0. apply IH in H0 as [Hb' Hi']. split; congruence. }
  destruct (isActive d && eligible d); [|eapply IH; eassumption].
  destruct (get_peer k); [|eapply Hdrop; eassumption].
  destruct (send k);
    match type of H with
    | context [send_loop ?f ?a ?b ?c ?d ?e ?g ?h ?s] =>
        destruct (send_loop f a b c d e g h s) as [[outs0 st0]|] eqn:Hl;
          [|discriminate]
    end;
    cbn in H; injection H as <- <-; eauto.
Qed.

Lemma addAudioData_append_buffer_ok st data len millis outs st' :
  buffer_ok st -> 0 < len -> len <= Z.of_nat (length data) ->
  addAudioData_append st data len millis = Some (outs, st') ->
  buffer_ok st'.
Proof.
  intros Hok Hpos Hdata H.
  pose proof (after_forced_flush_ok st len millis Hok) as Hok1.
  unfold addAudioData_append in H.
  assert (Hfl : snd (if AUDIO_BUFFER_SIZE <? audioBufferIndex st + len
                     then if AUDIO_CHUNK_SIZE <=? audioBufferIndex st
                          then sendAudioChunks millis st else ([], st)
                     else ([], st))
                = after_forced_flush st len millis).
  { unfold after_forced_flush. destruct (_ <? _); [destruct (_ <=? _)|]; reflexivity. }
  destruct (if AUDIO_BUFFER_SIZE <? audioBufferIndex st + len
            then if AUDIO_CHUNK_SIZE <=? audioBufferIndex st
                 then sendAudioChunks millis st else ([], st)
            else ([], st)) as [outs1 st1].
  cbn [snd] in Hfl. subst st1.
  set (st1 := after_forced_flush st len millis) in *.
  destruct Hok1 as [Hl1 Hi1]. unfold AUDIO_BUFFER_SIZE in *.
  destruct ((1024 <? audioBufferIndex st + len) && (1024 <? audioBufferIndex st1 + len))
    eqn:Hev.
  - apply andb_true_iff in Hev as [_ Hev]. apply Z.ltb_lt in Hev.
    destruct (Z.ltb_spec (audioBufferIndex st1 - (audioBufferIndex st1 + len - 1024)) 0);
      [discriminate|].
    cbn [mbind option_bind audioBufferIndex audioBuffer set_buffer] in H.
    destruct (Z.ltb_spec 1024
                (audioBufferIndex st1 - (audioBufferIndex st1 + len - 1024) + len));
      [discriminate|].
    injection H as <- <-. unfold buffer_ok. cbn.
    unfold memcpy_at, memmove_front.
    rewrite !length_app, !length_take, !length_drop, !length_app, !length_take,
      !length_drop. unfold AUDIO_BUFFER_SIZE. lia.
  - cbn [mbind option_bind] in H.
    destruct (Z.ltb_spec 1024 (audioBufferIndex st1 + len)); [discriminate|].
    injection H as <- <-. unfold buffer_ok. cbn.
    unfold memcpy_at. rewrite !length_app, !length_take, !length_drop.
    unfold AUDIO_BUFFER_SIZE. lia.
Qed.

Lemma addAudioData_buffer_ok st data len millis1 millis2 outs st' :
  buffer_ok st -> len <= Z.of_nat (length data) ->
  addAudioData st data len millis1 millis2 = Some (outs, st') ->
  buffer_ok st'.
Proof.
  intros Hok Hdata. unfold addAudioData.
  destruct (negb (isAudioStreaming st)); [intros H; injection H as <- <-; assumption|].
  destruct (Z.leb_spec len 0) as [Hle|Hgt];
    [intros H; injection H as <- <-; assumption|].
  destruct (addAudioData_append st data len millis1) as [[outs1 st1]|] eqn:Ha;
    [|discriminate].
  apply addAudioData_append_buffer_ok in Ha; [|assumption..]. cbn.
  destruct (AUDIO_CHUNK_SIZE <=? audioBufferIndex st1).
  - pose proof (sendAudioChunks_buffer_ok millis2 st1 Ha) as [Hok2 _].
    destruct (sendAudioChunks millis2 st1). intros H. injection H as <- <-. exact Hok2.
  - intros H. injection H as <- <-. assumption.
Qed.

Lemma zeroed_ok st seq streaming :
  buffer_ok st ->
  buffer_ok (set_buffer (memset_at (audioBuffer st) 0 0 (Z.to_nat AUDIO_BUFFER_SIZE)) 0
               (set_sequence seq (set_streaming streaming st))).
Proof.
  intros [Hl Hi]. unfold buffer_ok. cbn. rewrite memset_whole by assumption.
  rewrite length_replicate. unfold AUDIO_BUFFER_SIZE. lia.
Qed.

Lemma step_buffer_ok st ev outs st' :
  buffer_ok st -> audio_readable ev ->
  step st ev = Some (outs, st') -> buffer_ok st'.
Proof.
  intros Hok Hread H.
  destruct ev as [m msg len now peer_added doc get_peer send | now
                 | doc get_peer send | doc get_peer send
                 | data len millis1 millis2 | millis | | | | connected];
    cbn [step] in H.
  - destruct msg as [[name type| | | | | |]|]; cbn [OnDataRecv] in H.
    + unfold addDeviceToMesh in H.
      destruct (find_device st m) as [[i d]|];
        [|destruct (_ <? _)%nat; [destruct peer_added|]];
        injection H as <- <-; exact Hok.
    + injection H as <- <-. unfold updateDeviceHeartbeat.
      destruct (find_device st m) as [[i d]|]; exact Hok.
    + unfold relayAudioToMesh in H.
      destruct (negb (meshNetworkActive st) || (len <=? 0)).
      * cbn in H. injection H as <- <-. exact Hok.
      * destruct (send_loop _ _ _ _ _ _ _ _ _) as [[outs0 st0]|] eqn:Hl; [|discriminate].
        cbn in H. injection H as <- <-.
        eapply same_audio_ok; [eapply send_loop_audio; eassumption | assumption].
    + injection H as <- <-. unfold updateDeviceHeartbeat.
      destruct (find_device st m) as [[i d]|]; exact Hok.
    + injection H as <- <-.
      eapply same_audio_ok; [apply removeDeviceFromMesh_audio | assumption].
    + injection H as <- <-. exact Hok.
    + injection H as <- <-. exact Hok.
    + injection H as <- <-. exact Hok.
  - destruct (meshNetworkActive st) eqn:Hact; [|injection H as <- <-; exact Hok].
    destruct (cleanupInactiveDevices st now) as [st0|] eqn:Hc; [|discriminate].
    cbn in H. injection H as <- <-.
    unfold cleanupInactiveDevices in Hc. rewrite Hact in Hc. cbn [negb] in Hc.
    eapply same_audio_ok; [eapply cleanup_loop_audio; eassumption | assumption].
  - unfold sendMeshHeartbeat in H.
    destruct (meshNetworkActive st), (meshDeviceCount st =? 0)%nat;
      try (injection H as <- <-; exact Hok).
    eapply same_audio_ok; [eapply send_loop_audio; eassumption | assumption].
  - unfold broadcastMeshStatus in H.
    destruct (meshNetworkActive st), (meshDeviceCount st =? 0)%nat;
      try (injection H as <- <-; exact Hok).
    eapply same_audio_ok; [eapply send_loop_audio; eassumption | assumption].
  - eapply addAudioData_buffer_ok; eassumption.
  - destruct (_ && _); [|injection H as <- <-; exact Hok].
    pose proof (sendAudioChunks_buffer_ok millis st Hok) as [Hok' _].
    destruct (sendAudioChunks millis st). injection H as <- <-. exact Hok'.
  - injection H as <- <-. unfold startAudioStream.
    destruct (negb (isAudioStreaming st)); [|exact Hok].
    destruct Hok as [Hl Hi]. unfold buffer_ok. cbn. unfold AUDIO_BUFFER_SIZE in *. lia.
  - injection H as <- <-. unfold stopAudioStream.
    destruct (isAudioStreaming st); [apply zeroed_ok; assumption | exact Hok].
  - injection H as <- <-. unfold clear_buffer.
    destruct Hok as [Hl Hi]. unfold buffer_ok. cbn. rewrite memset_whole by assumption.
    rewrite length_replicate. unfold AUDIO_BUFFER_SIZE. lia.
  - injection H as <- <-. exact Hok.
Qed.

Lemma hub_boot_ok : reg_ok hub_boot /\ buffer_ok hub_boot.
Proof.
  split.
  - constructor; [reflexivity | apply Nat.leb_le; reflexivity | constructor].
  - split; [reflexivity | cbn; unfold AUDIO_BUFFER_SIZE; lia].
Qed.

(** Every run of events from the booted Hub returns, in a state of that
    shape. *)
Lemma reachable_ok (evs : list Event) : forall st,
  reg_ok st -> buffer_ok st ->
  Forall audio_fits evs -> Forall audio_readable evs ->
  exists outs st',
    run st evs = Some (outs, st') /\ reg_ok st' /\ buffer_ok st'.
Proof.
  induction evs as [|ev evs IH]; intros st Hreg Hbuf Hfit Hread.
  - exists [], st. auto.
  - apply Forall_cons in Hfit as [Hfit1 Hfit]. apply Forall_cons in Hread as [Hread1 Hread].
    destruct (step_spec st ev Hreg Hfit1) as (outs1 & st1 & Hstep & Hreg1 & _).
    pose proof (step_buffer_ok st ev outs1 st1 Hbuf Hread1 Hstep) as Hbuf1.
    destruct (IH st1 Hreg1 Hbuf1 Hfit Hread) as (outs2 & st2 & Hrun & Hreg2 & Hbuf2).
    exists (outs1 ++ outs2), st2. cbn [run]. rewrite Hstep. cbn. rewrite Hrun. cbn. auto.
Qed.

End Reachable.


(** * Further properties of the firmware *)

(** ** Ring queue: producer and consumer interleaved *)

Section RingInterleaved.
Context {Tag : Type}.
Variable bits : Z.
Hypothesis bits_range : 0 <= bits <= 16.

Local Abbreviation SIZE := (RingQueue.RING_SIZE bits).

(** The ring and the bounded list answer every sequence of calls alike, as
    long as the list holds what the ring holds. *)
Lemma run_ops_bounded_fifo (ops : list (@RingQueue.Op Tag)) :
  forall (q : @RingQueue.Queue Tag) (out : @RingQueue.Item Tag),
    RingQueue.wf bits q ->
    Forall filled (RingQueue.contents bits q) ->
    Forall RingQueue.op_readable ops ->
    RingQueue.run_ops bits q out ops
    = RingQueue.bounded_fifo (Z.to_nat (SIZE - 1))
        (map RingQueue.seen (RingQueue.contents bits q)) ops.
Proof.
  induction ops as [|op ops IH]; intros q out Hwf Hf Hr; [reflexivity|].
  apply Forall_cons in Hr as [Hr1 Hr].
  pose proof (contents_length bits bits_range q Hwf) as Hlen.
  pose proof (count_range bits bits_range q) as Hcr.
  destruct op as [buf len t|]; cbn [RingQueue.run_ops RingQueue.bounded_fifo].
  - rewrite length_map.
    destruct (Nat.ltb_spec (length (RingQueue.contents bits q)) (Z.to_nat (SIZE - 1)))
      as [Hroom|Hfull].
    + destruct (push_contents bits bits_range q buf len t Hwf ltac:(lia))
        as (q1 & old & Hp & Hwf1 & Hc1 & Hcont1).
      rewrite Hp. f_equal.
      rewrite IH; [|assumption| |assumption].
      * rewrite Hcont1, map_app. cbn [map].
        rewrite payload_write_slot by exact Hr1. reflexivity.
      * rewrite Hcont1. apply Forall_app. split; [assumption|].
        apply Forall_singleton, filled_write_slot. exact Hr1.
    + rewrite push_full by (assumption || lia). f_equal. apply IH; assumption.
  - destruct (Z.eq_dec (RingQueue.count bits q) 0) as [E0|Hne].
    + assert (Hnil : RingQueue.contents bits q = []).
      { apply length_zero_iff_nil. lia. }
      rewrite pop_empty by (eapply count_empty; eassumption).
      rewrite Hnil. cbn [map]. f_equal.
      rewrite IH by assumption. rewrite Hnil. reflexivity.
    + destruct (pop_contents bits bits_range q out Hwf ltac:(lia))
        as (q1 & it & rest & Hcont & Hpop & Hwf1 & Hc1 & Hrest).
      rewrite Hpop, Hcont. cbn [map].
      rewrite Hcont in Hf. apply Forall_cons in Hf as [Hfit Hf].
      rewrite seen_pop_item by assumption. f_equal.
      rewrite IH; [rewrite Hrest; reflexivity|assumption| |assumption].
      rewrite Hrest. assumption.
Qed.

End RingInterleaved.

(** X1.  Under any interleaving of producer and consumer calls, starting
    from an empty queue, the Hub's BLE-in queue answers exactly as a FIFO list
    bounded to 15 items: a push is refused exactly when that many items are
    held, a pop is refused exactly when none is, and a successful pop hands
    out the oldest item as it was stored, however often the indices have
    wrapped.  The Relay's notify queue does the same, bounded to 63 items,
    for the length and the bytes of an item; the tag a pop hands out is not
    the one that was pushed but the one the consumer's own item held before
    the first pop. *)
Theorem ring_queue_interleaved :
  (forall (q0 : Hub.BleInQueue) (out : Hub.IncomingBleItem) ops,
      RingQueue.wf Hub.BLE_IN_BITS q0 ->
      RingQueue.tail q0 = RingQueue.head q0 ->
      Forall RingQueue.op_readable ops ->
      RingQueue.run_ops Hub.BLE_IN_BITS q0 out ops = RingQueue.bounded_fifo 15 [] ops)
  /\ (forall (q0 : Relay.NotifyQueue) (out : Relay.NotifyItem) ops,
        RingQueue.wf Relay.NOTIFY_RING_BITS q0 ->
        RingQueue.tail q0 = RingQueue.head q0 ->
        Forall RingQueue.op_readable ops ->
        Relay.Consumer.run_ops q0 out ops
        = map (relabel (Relay.isPcm8 out)) (RingQueue.bounded_fifo 63 [] ops)).
Proof.
  assert (H4 : 0 <= Hub.BLE_IN_BITS <= 16) by (unfold Hub.BLE_IN_BITS; lia).
  assert (Hnil : forall bits (q0 : @RingQueue.Queue unit), 0 <= bits <= 16 ->
            RingQueue.wf bits q0 -> RingQueue.tail q0 = RingQueue.head q0 ->
            RingQueue.contents bits q0 = []).
  { intros bits q0 Hb Hwf He. apply length_zero_iff_nil.
    pose proof (contents_length bits Hb q0 Hwf).
    assert (RingQueue.count bits q0 = 0) by (eapply count_empty; eassumption). lia. }
  assert (HnilZ : forall bits (q0 : @RingQueue.Queue Z), 0 <= bits <= 16 ->
            RingQueue.wf bits q0 -> RingQueue.tail q0 = RingQueue.head q0 ->
            RingQueue.contents bits q0 = []).
  { intros bits q0 Hb Hwf He. apply length_zero_iff_nil.
    pose proof (contents_length bits Hb q0 Hwf).
    assert (RingQueue.count bits q0 = 0) by (eapply count_empty; eassumption). lia. }
  split.
  - intros q0 out ops Hwf He Hr.
    rewrite (run_ops_bounded_fifo Hub.BLE_IN_BITS H4 ops q0 out Hwf); [| |assumption].
    + rewrite (Hnil _ q0 H4 Hwf He). reflexivity.
    + rewrite (Hnil _ q0 H4 Hwf He). constructor.
  - intros q0 out ops Hwf He Hr.
    rewrite (consumer_run_ops_fifo ops q0 out Hwf); [| |assumption].
    + rewrite (HnilZ _ q0 notify_bits_ok Hwf He). reflexivity.
    + rewrite (HnilZ _ q0 notify_bits_ok Hwf He). constructor.
Qed.

Lemma ring_queue_interleaved_witness :
  let out := RingQueue.mkItem 0 (replicate 512 0) 0 in
  let ops := [RingQueue.OpPush [7; 9] 2 1; RingQueue.OpPop; RingQueue.OpPop] in
  RingQueue.wf Relay.NOTIFY_RING_BITS Relay.notifyQueue_init
  /\ RingQueue.tail Relay.notifyQueue_init = RingQueue.head Relay.notifyQueue_init
  /\ Forall RingQueue.op_readable ops
  /\ Relay.Consumer.run_ops Relay.notifyQueue_init out ops
     = [(true, None); (true, Some (2, [7; 9], 0)); (false, None)].
Proof.
  cbv zeta.
  assert (Hr : Forall RingQueue.op_readable
                 [RingQueue.OpPush [7; 9] 2 1; RingQueue.OpPop; RingQueue.OpPop]).
  { repeat constructor; cbn; lia. }
  split; [exact notifyQueue_init_wf|]. split; [reflexivity|]. split; [exact Hr|].
  rewrite (proj2 ring_queue_interleaved Relay.notifyQueue_init _ _
             notifyQueue_init_wf eq_refl Hr).
  reflexivity.
Defined.

(** ** The chunk sender: what each sink receives *)

(** The datagrams handed to the radio for address [m], and the values
    notified on the peripheral characteristic, in the order of the calls. *)
Definition frames_to (m : Hub.mac_addr) (outs : list Hub.Output) : list (list byte) :=
  flat_map (fun o => match o with
                     | Hub.EspNowSend m' msg => if bool_decide (m' = m) then [msg] else []
                     | _ => []
                     end) outs.

Definition ble_values (outs : list Hub.Output) : list (list byte) :=
  flat_map (fun o => match o with Hub.BleNotify v => [v] | _ => [] end) outs.

Section SinkFacts.
Import Hub.

Lemma frames_to_app m outs1 outs2 :
  frames_to m (outs1 ++ outs2) = frames_to m outs1 ++ frames_to m outs2.
Proof. apply flat_map_app. Qed.

Lemma ble_values_app outs1 outs2 :
  ble_values (outs1 ++ outs2) = ble_values outs1 ++ ble_values outs2.
Proof. apply flat_map_app. Qed.

Definition sends_of (frame : list byte) (l : list MeshDevice) : list Output :=
  flat_map (fun d => if isActive d then [EspNowSend (mac d) frame] else []) l.

Lemma frames_to_sends_absent m frame (l : list MeshDevice) :
  (forall d, d ∈ l -> isActive d = true -> mac d <> m) ->
  frames_to m (sends_of frame l) = [].
Proof.
  induction l as [|x l IH]; intros H; [reflexivity|].
  unfold sends_of in *. cbn [flat_map]. rewrite frames_to_app, IH.
  - destruct (isActive x) eqn:Ea; [|reflexivity].
    cbn. rewrite bool_decide_eq_false_2; [reflexivity|].
    apply H; [left|assumption].
  - intros d Hd. apply H. right. assumption.
Qed.

Lemma frames_to_sends_once frame (l : list MeshDevice) d :
  NoDup (mac <$> l) -> d ∈ l -> isActive d = true ->
  frames_to (mac d) (sends_of frame l) = [frame].
Proof.
  induction l as [|x l IH]; intros Hnd Hd Ha.
  - apply elem_of_nil in Hd. contradiction.
  - rewrite fmap_cons in Hnd. apply NoDup_cons in Hnd as [Hx Hnd].
    change (sends_of frame (x :: l))
      with ((if isActive x then [EspNowSend (mac x) frame] else []) ++ sends_of frame l).
    rewrite frames_to_app.
    apply elem_of_cons in Hd as [->|Hd].
    + rewrite Ha. cbn. rewrite bool_decide_eq_true_2 by reflexivity.
      rewrite frames_to_sends_absent; [reflexivity|].
      intros d Hd _ E. apply Hx. rewrite <- E. apply list_elem_of_fmap_2. assumption.
    + rewrite IH by assumption.
      destruct (isActive x); [|reflexivity].
      cbn. rewrite bool_decide_eq_false_2; [reflexivity|].
      intros E. apply Hx. rewrite E. apply list_elem_of_fmap_2. assumption.
Qed.

Lemma ble_values_sends frame (l : list MeshDevice) : ble_values (sends_of frame l) = [].
Proof.
  induction l as [|x l IH]; [reflexivity|].
  change (sends_of frame (x :: l))
    with ((if isActive x then [EspNowSend (mac x) frame] else []) ++ sends_of frame l).
  rewrite ble_values_app, IH. destruct (isActive x); reflexivity.
Qed.

Lemma fan_out_sends st frame : fan_out st frame = sends_of frame (live st).
Proof.
  unfold fan_out, sends_of. destruct (Nat.ltb_spec 0 (meshDeviceCount st)); [reflexivity|].
  unfold live. replace (meshDeviceCount st) with 0%nat by lia. reflexivity.
Qed.

Definition phone (st : State) : bool := deviceConnected st && pAudioCharacteristic st.

(** The chunk loop, sink by sink. *)
Lemma chunk_loop_frames total millis n : forall chunk st,
  (forall d, d ∈ live st -> isActive d = true -> NoDup (macs st) ->
     frames_to (mac d) (fst (chunk_loop n chunk total millis st))
     = map (chunk_frame st total millis chunk) (seq 0 n))
  /\ (forall m, (forall d, d ∈ live st -> isActive d = true -> mac d <> m) ->
        frames_to m (fst (chunk_loop n chunk total millis st)) = [])
  /\ ble_values (fst (chunk_loop n chunk total millis st))
     = if phone st
       then map (fun k => chunk_payload st (chunk + Z.of_nat k)) (seq 0 n) else [].
Proof.
  induction n as [|n IH]; intros chunk st.
  - cbn. destruct (phone st); auto.
  - rewrite chunk_loop_step.
    pose (st1 := set_sequence (to_i32 (audioSequenceNumber st + 1)) st).
    destruct (IH (chunk + 1) st1) as (IH1 & IH2 & IH3).
    fold st1. destruct (chunk_loop n (chunk + 1) total millis st1) as [outs st2] eqn:Hloop.
    cbn [fst] in *. unfold chunk_outputs. rewrite fan_out_sends. fold (phone st).
    split; [|split].
    + intros d Hd Ha Hnd.
      rewrite !frames_to_app, frames_to_sends_once by assumption.
      rewrite (IH1 d Hd Ha Hnd).
      replace (frames_to (mac d) (if phone st then [BleNotify (chunk_payload st chunk)] else []))
        with (@nil (list byte)) by (destruct (phone st); reflexivity).
      cbn [app seq map]. f_equal.
      rewrite <- seq_shift, map_map. apply map_ext. intros k.
      apply chunk_frame_shift.
    + intros m Hm.
      rewrite !frames_to_app, frames_to_sends_absent by assumption.
      rewrite (IH2 m Hm). destruct (phone st); reflexivity.
    + rewrite !ble_values_app, ble_values_sends, IH3.
      change (phone st1) with (phone st).
      destruct (phone st); [|reflexivity].
      cbn [app seq map ble_values flat_map]. rewrite Z.add_0_r. f_equal.
      rewrite <- seq_shift, map_map. apply map_ext. intros k.
      unfold chunk_payload. cbn. do 3 f_equal. lia.
Qed.

End SinkFacts.

Section StreamFacts.
Import Hub.

Lemma sendAudioChunks_outs millis st :
  fst (sendAudioChunks millis st)
  = if no_sink st then []
    else fst (chunk_loop (Z.to_nat (Z.quot (audioBufferIndex st) AUDIO_CHUNK_SIZE)) 0
                         (Z.quot (audioBufferIndex st) AUDIO_CHUNK_SIZE) millis st).
Proof.
  unfold sendAudioChunks, no_sink.
  destruct ((meshDeviceCount st =? 0)%nat && negb (deviceConnected st)); [reflexivity|].
  destruct (chunk_loop _ _ _ _ _). reflexivity.
Qed.

(** Consecutive chunks of a buffer, put end to end, are its front. *)
Lemma concat_chunk_payloads st n :
  concat (map (fun k => chunk_payload st (0 + Z.of_nat k)) (seq 0 n))
  = take (200 * n) (audioBuffer st).
Proof.
  induction n as [|n IH]; [reflexivity|].
  rewrite seq_S, map_app, concat_app, IH. cbn [map concat]. rewrite app_nil_r.
  unfold chunk_payload, AUDIO_CHUNK_SIZE.
  replace (Z.to_nat ((0 + Z.of_nat (0 + n)) * 200)) with (200 * n)%nat by lia.
  rewrite take_take_drop. f_equal. lia.
Qed.

Lemma pending_after_send millis st :
  no_sink st = false -> buffer_ok st ->
  pending (snd (sendAudioChunks millis st))
  = drop (200 * Z.to_nat (Z.quot (audioBufferIndex st) AUDIO_CHUNK_SIZE)) (pending st).
Proof.
  intros Hs Hok. destruct (sendAudioChunks_compacts millis st Hs Hok) as [Hidx Hbuf].
  destruct Hok as [Hlen Hrange]. unfold pending at 1. rewrite Hidx, Hbuf.
  unfold AUDIO_CHUNK_SIZE, AUDIO_BUFFER_SIZE in *.
  pose proof (Z.quot_rem' (audioBufferIndex st) 200) as Hqr.
  pose proof (Z.rem_bound_pos (audioBufferIndex st) 200 ltac:(lia) ltac:(lia)) as Hrem.
  assert (Hq : 0 <= Z.quot (audioBufferIndex st) 200) by (apply Z.quot_pos; lia).
  replace (Z.to_nat (audioBufferIndex st - Z.rem (audioBufferIndex st) 200))
    with (200 * Z.to_nat (Z.quot (audioBufferIndex st) 200))%nat by lia.
  apply take_app_length'. rewrite length_drop. unfold pending.
  rewrite length_take. lia.
Qed.

(** With a phone attached, one pass of the chunk sender hands over the whole
    chunks and keeps the rest: no byte is lost, repeated or reordered. *)
Lemma sendAudioChunks_stream millis st :
  buffer_ok st -> phone st = true ->
  concat (ble_values (fst (sendAudioChunks millis st)))
    ++ pending (snd (sendAudioChunks millis st))
  = pending st.
Proof.
  intros Hok Hphone.
  assert (Hs : no_sink st = false).
  { unfold no_sink. unfold phone in Hphone.
    destruct (deviceConnected st); [|discriminate]. apply andb_false_r. }
  rewrite pending_after_send by assumption.
  rewrite sendAudioChunks_outs, Hs.
  destruct (chunk_loop_frames (Z.quot (audioBufferIndex st) AUDIO_CHUNK_SIZE) millis
              (Z.to_nat (Z.quot (audioBufferIndex st) AUDIO_CHUNK_SIZE)) 0 st)
    as (_ & _ & Hble).
  rewrite Hble, Hphone, concat_chunk_payloads.
  destruct Hok as [Hlen Hrange].
  unfold AUDIO_CHUNK_SIZE, AUDIO_BUFFER_SIZE in *.
  pose proof (Z.quot_rem' (audioBufferIndex st) 200) as Hqr.
  pose proof (Z.rem_bound_pos (audioBufferIndex st) 200 ltac:(lia) ltac:(lia)) as Hrem.
  assert (Hq : 0 <= Z.quot (audioBufferIndex st) 200) by (apply Z.quot_pos; lia).
  set (n := (200 * Z.to_nat (Z.quot (audioBufferIndex st) 200))%nat).
  rewrite <- (take_drop n (pending st)) at 2. f_equal.
  unfold pending. rewrite take_take. f_equal. lia.
Qed.

End StreamFacts.

(** X2.  One pass of the chunk sender hands each active registered peer
    exactly one datagram per whole chunk, in chunk order (frame [k] carries
    sequence number start + k, chunk index k and the chunk's bytes); an
    address that is not that of an active registered peer gets nothing; the
    phone, when attached, is notified the chunks' raw bytes in the same
    order. *)
Theorem chunks_delivered_in_order (st : Hub.State) (millis : Z -> Z) :
  Hub.reg_ok st ->
  let total := Z.quot (Hub.audioBufferIndex st) Hub.AUDIO_CHUNK_SIZE in
  let outs := fst (Hub.sendAudioChunks millis st) in
  (forall d, d ∈ Hub.live st -> Hub.isActive d = true ->
     frames_to (Hub.mac d) outs
     = map (chunk_frame st total millis 0) (seq 0 (Z.to_nat total)))
  /\ (forall m,
        (forall d, d ∈ Hub.live st -> Hub.isActive d = true -> Hub.mac d <> m) ->
        frames_to m outs = [])
  /\ ble_values outs
     = if phone st
       then map (fun k => chunk_payload st (Z.of_nat k)) (seq 0 (Z.to_nat total))
       else [].
Proof.
  intros Hreg total outs. subst outs. rewrite sendAudioChunks_outs.
  destruct (chunk_loop_frames total millis (Z.to_nat total) 0 st) as (H1 & H2 & H3).
  destruct (no_sink st) eqn:Hs.
  - unfold no_sink in Hs. apply andb_prop in Hs as [Hc Hd].
    apply Nat.eqb_eq in Hc. apply negb_true_iff in Hd.
    split; [|split].
    + intros d Hd' _. apply live_nonempty in Hd'. lia.
    + reflexivity.
    + unfold phone. rewrite Hd. reflexivity.
  - split; [|split].
    + intros d Hd Ha. apply H1; [assumption..|]. apply Hreg.
    + exact H2.
    + exact H3.
Qed.

Lemma chunks_delivered_in_order_witness :
  Hub.reg_ok loaded_hub
  /\ peer 2 1000 true ∈ Hub.live loaded_hub
  /\ Hub.isActive (peer 2 1000 true) = true
  /\ frames_to (peer_mac 2) (fst (Hub.sendAudioChunks (fun _ => 5000) loaded_hub))
     = [Hub.compact_header 0 0 1 5000 16000 16 128 128 ++ COLON :: replicate 200 9]
  /\ frames_to (peer_mac 3) (fst (Hub.sendAudioChunks (fun _ => 5000) loaded_hub)) = [].
Proof.
  assert (Hok : Hub.reg_ok loaded_hub).
  { apply (same_registry_ok full_hub); [split; reflexivity | exact full_hub_ok]. }
  assert (Hin : peer 2 1000 true ∈ Hub.live loaded_hub).
  { vm_compute. right. left. }
  destruct (chunks_delivered_in_order loaded_hub (fun _ => 5000) Hok) as (H1 & H2 & _).
  split; [exact Hok|]. split; [exact Hin|]. split; [reflexivity|]. split.
  - refine (eq_trans (H1 (peer 2 1000 true) Hin eq_refl) _). vm_compute. reflexivity.
  - apply H2. intros d Hd Ha E. vm_compute in Hd.
    repeat (apply elem_of_cons in Hd as [->|Hd]; [discriminate|]).
    apply elem_of_nil in Hd. contradiction.
Defined.

Section AppendFacts.
Import Hub.

Lemma append_pending st data len :
  buffer_ok st -> 0 <= len <= Z.of_nat (length data) ->
  audioBufferIndex st + len <= AUDIO_BUFFER_SIZE ->
  pending (set_buffer (memcpy_at (audioBuffer st) (Z.to_nat (audioBufferIndex st))
                                 data (Z.to_nat len))
                      (audioBufferIndex st + len) st)
  = pending st ++ take (Z.to_nat len) data.
Proof.
  intros [Hlen Hrange] Hl Hfit. unfold pending, set_buffer, memcpy_at. cbn.
  unfold AUDIO_BUFFER_SIZE in *.
  rewrite app_assoc. apply take_app_length'.
  rewrite length_app, !length_take. lia.
Qed.

Lemma append_buffer_ok st data len :
  buffer_ok st -> 0 <= len <= Z.of_nat (length data) ->
  audioBufferIndex st + len <= AUDIO_BUFFER_SIZE ->
  buffer_ok (set_buffer (memcpy_at (audioBuffer st) (Z.to_nat (audioBufferIndex st))
                                   data (Z.to_nat len))
                        (audioBufferIndex st + len) st).
Proof.
  intros [Hlen Hrange] Hl Hfit. unfold buffer_ok, set_buffer, memcpy_at. cbn.
  unfold AUDIO_BUFFER_SIZE in *.
  rewrite !length_app, !length_take, length_drop. lia.
Qed.

(** [addAudioData_append] when the bytes fit behind what the forced flush
    leaves: the flush's outputs, then the plain append. *)
Lemma addAudioData_append_fits st data len millis :
  buffer_ok st -> 0 < len <= Z.of_nat (length data) ->
  Z.rem (audioBufferIndex st) AUDIO_CHUNK_SIZE + len <= AUDIO_BUFFER_SIZE ->
  let st1 := after_forced_flush st len millis in
  let outs := if (AUDIO_BUFFER_SIZE <? audioBufferIndex st + len)
                 && (AUDIO_CHUNK_SIZE <=? audioBufferIndex st)
              then fst (sendAudioChunks millis st) else [] in
  audioBufferIndex st1 + len <= AUDIO_BUFFER_SIZE
  /\ addAudioData_append st data len millis
     = Some (outs,
             set_buffer (memcpy_at (audioBuffer st1) (Z.to_nat (audioBufferIndex st1))
                                   data (Z.to_nat len))
                        (audioBufferIndex st1 + len) st1).
Proof.
  intros Hok Hl Hfit st1 outs. subst st1 outs.
  pose proof Hok as [Hlen Hrange].
  unfold addAudioData_append, after_forced_flush.
  unfold AUDIO_CHUNK_SIZE, AUDIO_BUFFER_SIZE in *.
  destruct (Z.ltb_spec 1024 (audioBufferIndex st + len)) as [Hover|Hroom]; cbn [andb].
  - destruct (Z.leb_spec 200 (audioBufferIndex st)) as [Hbig|Hsmall].
    + destruct (sendAudioChunks_buffer_ok millis st Hok) as [Hok1 Hlt].
      destruct (sendAudioChunks millis st) as [outs1 st1] eqn:Hsend. cbn [fst snd] in *.
      assert (Hidx1 : audioBufferIndex st1 = Z.rem (audioBufferIndex st) 200
                      \/ audioBufferIndex st1 = 0).
      { destruct (no_sink st) eqn:Hs.
        - right. rewrite (sendAudioChunks_no_sink millis st Hs) in Hsend by exact Hlen.
          inversion Hsend. reflexivity.
        - left. pose proof (sendAudioChunks_compacts millis st Hs Hok) as [Hi _].
          rewrite Hsend in Hi. exact Hi. }
      pose proof (Z.rem_bound_pos (audioBufferIndex st) 200 ltac:(lia) ltac:(lia)).
      assert (Hfit1 : audioBufferIndex st1 + len <= 1024) by lia.
      split; [exact Hfit1|].
      destruct (Z.ltb_spec 1024 (audioBufferIndex st1 + len)); [lia|].
      cbn. destruct (Z.ltb_spec 1024 (audioBufferIndex st1 + len)); [lia|]. reflexivity.
    + rewrite Z.rem_small in Hfit by lia. lia.
  - split; [exact Hroom|]. cbn.
    destruct (Z.ltb_spec 1024 (audioBufferIndex st + len)); [lia|]. reflexivity.
Qed.

End AppendFacts.

(** The flags that select the sinks and the streaming flag. *)
Definition mode (st : Hub.State) : bool * bool * bool :=
  (Hub.deviceConnected st, Hub.pAudioCharacteristic st, Hub.isAudioStreaming st).

Section ModeFacts.
Import Hub.

Lemma sendAudioChunks_mode millis st : mode (snd (sendAudioChunks millis st)) = mode st.
Proof.
  unfold sendAudioChunks.
  destruct ((meshDeviceCount st =? 0)%nat && negb (deviceConnected st)); [reflexivity|].
  pose proof (chunk_loop_spec millis (Z.quot (audioBufferIndex st) AUDIO_CHUNK_SIZE)
                (Z.to_nat (Z.quot (audioBufferIndex st) AUDIO_CHUNK_SIZE)) 0 st)
    as [Hst _].
  destruct (chunk_loop _ _ _ _ _) as [outs st1]. cbn [snd] in *. rewrite Hst.
  unfold compact_buffer. destruct (0 <? _); reflexivity.
Qed.

Lemma addAudioData_append_mode st data len millis outs st' :
  addAudioData_append st data len millis = Some (outs, st') -> mode st' = mode st.
Proof.
  unfold addAudioData_append.
  set (first := if AUDIO_BUFFER_SIZE <? audioBufferIndex st + len then _ else _).
  assert (Hfirst : mode (snd first) = mode st).
  { subst first. destruct (AUDIO_BUFFER_SIZE <? audioBufferIndex st + len); [|reflexivity].
    destruct (AUDIO_CHUNK_SIZE <=? audioBufferIndex st); [|reflexivity].
    apply sendAudioChunks_mode. }
  destruct first as [outs1 st1]. cbn [snd] in Hfirst.
  destruct ((AUDIO_BUFFER_SIZE <? audioBufferIndex st + len)
            && (AUDIO_BUFFER_SIZE <? audioBufferIndex st1 + len)).
  - destruct (audioBufferIndex st1 - _ <? 0); [discriminate|]. cbn [mbind option_bind].
    destruct (AUDIO_BUFFER_SIZE <? _); [discriminate|].
    intros H. injection H as <- <-. exact Hfirst.
  - cbn [mbind option_bind].
    destruct (AUDIO_BUFFER_SIZE <? _); [discriminate|].
    intros H. injection H as <- <-. exact Hfirst.
Qed.

Lemma addAudioData_mode st data len millis1 millis2 outs st' :
  addAudioData st data len millis1 millis2 = Some (outs, st') -> mode st' = mode st.
Proof.
  unfold addAudioData.
  destruct (negb (isAudioStreaming st)); [intros H; injection H as <- <-; reflexivity|].
  destruct (len <=? 0); [intros H; injection H as <- <-; reflexivity|].
  destruct (addAudioData_append st data len millis1) as [[outs1 st1]|] eqn:Ha;
    [|discriminate].
  apply addAudioData_append_mode in Ha. cbn [mbind option_bind].
  destruct (AUDIO_CHUNK_SIZE <=? audioBufferIndex st1).
  - pose proof (sendAudioChunks_mode millis2 st1) as Hs.
    destruct (sendAudioChunks millis2 st1) as [outs2 st2]. cbn [snd] in Hs.
    intros H. injection H as <- <-. congruence.
  - intros H. injection H as <- <-. exact Ha.
Qed.

End ModeFacts.

Lemma addAudioData_stream (st : Hub.State) (data : list byte) (len : Z)
    (millis1 millis2 : Z -> Z) :
  buffer_ok st ->
  phone st = true ->
  Hub.isAudioStreaming st = true ->
  0 < len <= Z.of_nat (length data) ->
  Z.rem (Hub.audioBufferIndex st) Hub.AUDIO_CHUNK_SIZE + len <= Hub.AUDIO_BUFFER_SIZE ->
  exists outs st',
    Hub.addAudioData st data len millis1 millis2 = Some (outs, st')
    /\ concat (ble_values outs) ++ Hub.pending st'
       = Hub.pending st ++ take (Z.to_nat len) data
    /\ (Hub.audioBufferIndex st < Hub.AUDIO_CHUNK_SIZE ->
        Hub.audioBufferIndex st' < Hub.AUDIO_CHUNK_SIZE).
Proof.
  intros Hok Hphone Hstream Hl Hfit.
  destruct (addAudioData_append_fits st data len millis1 Hok Hl Hfit) as [Hfit1 Happ].
  assert (Hok1 : buffer_ok (after_forced_flush st len millis1))
    by (apply after_forced_flush_ok; assumption).
  assert (Hphone1 : phone (after_forced_flush st len millis1) = true).
  { unfold after_forced_flush.
    destruct (Hub.AUDIO_BUFFER_SIZE <? Hub.audioBufferIndex st + len); [|assumption].
    destruct (Hub.AUDIO_CHUNK_SIZE <=? Hub.audioBufferIndex st); [|assumption].
    unfold Hub.sendAudioChunks.
    destruct ((Hub.meshDeviceCount st =? 0)%nat && negb (Hub.deviceConnected st));
      [exact Hphone|].
    destruct (Hub.chunk_loop _ _ _ _ _) as [o s] eqn:Hloop.
    pose proof (chunk_loop_spec millis1
                  (Z.quot (Hub.audioBufferIndex st) Hub.AUDIO_CHUNK_SIZE)
                  (Z.to_nat (Z.quot (Hub.audioBufferIndex st) Hub.AUDIO_CHUNK_SIZE)) 0 st)
      as [Hs _].
    rewrite Hloop in Hs. cbn [snd] in *. rewrite Hs.
    unfold Hub.compact_buffer. destruct (0 <? _); exact Hphone. }
  (* what the forced flush handed over, and what it left *)
  assert (Hflush :
            concat (ble_values
                      (if (Hub.AUDIO_BUFFER_SIZE <? Hub.audioBufferIndex st + len)
                          && (Hub.AUDIO_CHUNK_SIZE <=? Hub.audioBufferIndex st)
                       then fst (Hub.sendAudioChunks millis1 st) else []))
            ++ Hub.pending (after_forced_flush st len millis1)
            = Hub.pending st).
  { unfold after_forced_flush.
    destruct (Hub.AUDIO_BUFFER_SIZE <? Hub.audioBufferIndex st + len); [|reflexivity].
    destruct (Hub.AUDIO_CHUNK_SIZE <=? Hub.audioBufferIndex st); [|reflexivity].
    cbn [andb]. apply sendAudioChunks_stream; assumption. }
  set (st1 := after_forced_flush st len millis1) in *.
  set (outs1 := if (Hub.AUDIO_BUFFER_SIZE <? Hub.audioBufferIndex st + len)
                   && (Hub.AUDIO_CHUNK_SIZE <=? Hub.audioBufferIndex st)
                then fst (Hub.sendAudioChunks millis1 st) else []) in *.
  set (st2 := Hub.set_buffer
                (memcpy_at (Hub.audioBuffer st1) (Z.to_nat (Hub.audioBufferIndex st1))
                           data (Z.to_nat len))
                (Hub.audioBufferIndex st1 + len) st1) in *.
  assert (Hpend2 : Hub.pending st2 = Hub.pending st1 ++ take (Z.to_nat len) data)
    by (apply append_pending; [assumption | lia | assumption]).
  assert (Hok2 : buffer_ok st2) by (apply append_buffer_ok; [assumption | lia | assumption]).
  unfold Hub.addAudioData. rewrite Hstream. cbn [negb].
  destruct (Z.leb_spec len 0) as [Hle|_]; [lia|].
  rewrite Happ. cbn [mbind option_bind].
  destruct (Z.leb_spec Hub.AUDIO_CHUNK_SIZE (Hub.audioBufferIndex st2)) as [Hbig|Hsmall].
  - destruct (Hub.sendAudioChunks millis2 st2) as [outs2 st3] eqn:Hsend.
    exists (outs1 ++ outs2), st3. split; [reflexivity|].
    pose proof (sendAudioChunks_stream millis2 st2 Hok2 Hphone1) as Hs2.
    pose proof (sendAudioChunks_buffer_ok millis2 st2 Hok2) as [_ Hlt].
    rewrite Hsend in Hs2, Hlt. cbn [fst snd] in *.
    split; [|intros _; exact Hlt].
    rewrite ble_values_app, concat_app, <- app_assoc, Hs2, Hpend2, app_assoc, Hflush.
    reflexivity.
  - exists outs1, st2. split; [reflexivity|]. split; [|intros _; exact Hsmall].
    rewrite Hpend2, app_assoc, Hflush. reflexivity.
Qed.


(** X3.  With a phone attached and the stream running, an append that fits
    behind what the forced flush leaves (the cursor's remainder modulo the
    chunk size plus the new bytes is at most the capacity) loses nothing:
    the bytes notified to the phone during the call, followed by the bytes
    still pending after it, are the bytes pending before it followed by the
    new bytes; and less than one chunk stays pending. *)
Theorem audio_stream_conserved (st : Hub.State) (data : list byte) (len : Z)
    (millis1 millis2 : Z -> Z) :
  buffer_ok st ->
  phone st = true ->
  Hub.isAudioStreaming st = true ->
  0 < len <= Z.of_nat (length data) ->
  Z.rem (Hub.audioBufferIndex st) Hub.AUDIO_CHUNK_SIZE + len <= Hub.AUDIO_BUFFER_SIZE ->
  exists outs st',
    Hub.addAudioData st data len millis1 millis2 = Some (outs, st')
    /\ concat (ble_values outs) ++ Hub.pending st'
       = Hub.pending st ++ take (Z.to_nat len) data
    /\ (Hub.audioBufferIndex st < Hub.AUDIO_CHUNK_SIZE ->
        Hub.audioBufferIndex st' < Hub.AUDIO_CHUNK_SIZE).
Proof.
  intros Hok Hphone Hstream Hl Hfit.
  destruct (addAudioData_stream st data len millis1 millis2 Hok Hphone Hstream Hl Hfit)
    as (outs & st' & Hrun & Hconserved & Hcursor).
  exists outs, st'. split; [exact Hrun|]. split; [exact Hconserved | exact Hcursor].
Qed.

Lemma audio_stream_conserved_witness :
  buffer_ok streaming_hub
  /\ phone streaming_hub = true
  /\ Hub.isAudioStreaming streaming_hub = true
  /\ 0 < 150 <= Z.of_nat (length (replicate 150 2))
  /\ Z.rem (Hub.audioBufferIndex streaming_hub) Hub.AUDIO_CHUNK_SIZE + 150
     <= Hub.AUDIO_BUFFER_SIZE
  /\ exists outs st',
       Hub.addAudioData streaming_hub (replicate 150 2) 150 (fun _ => 0) (fun _ => 0)
         = Some (outs, st')
       /\ concat (ble_values outs) ++ Hub.pending st'
          = replicate 100 1 ++ replicate 150 2.
Proof.
  assert (Hl : 0 < 150 <= Z.of_nat (length (replicate 150 2))) by (cbn; lia).
  assert (Hfit : Z.rem (Hub.audioBufferIndex streaming_hub) Hub.AUDIO_CHUNK_SIZE + 150
                 <= Hub.AUDIO_BUFFER_SIZE) by (vm_compute; discriminate).
  destruct (audio_stream_conserved streaming_hub (replicate 150 2) 150
              (fun _ => 0) (fun _ => 0) streaming_hub_ok eq_refl eq_refl Hl Hfit)
    as (outs & st' & Hrun & Hstream & _).
  split; [exact streaming_hub_ok|]. split; [reflexivity|]. split; [reflexivity|].
  split; [exact Hl|]. split; [exact Hfit|].
  exists outs, st'. split; [exact Hrun|].
  rewrite Hstream. vm_compute. reflexivity.
Defined.

Section CursorFacts.
Import Hub.

Lemma same_audio_below st st' :
  same_audio st st' -> audioBufferIndex st < AUDIO_CHUNK_SIZE ->
  audioBufferIndex st' < AUDIO_CHUNK_SIZE.
Proof. intros [_ Hi] H. rewrite Hi. exact H. Qed.

(** Every call leaves less than one chunk in the accumulator. *)
Lemma step_below_chunk st ev outs st' :
  buffer_ok st -> audioBufferIndex st < AUDIO_CHUNK_SIZE -> audio_readable ev ->
  step st ev = Some (outs, st') -> audioBufferIndex st' < AUDIO_CHUNK_SIZE.
Proof.
  intros Hok Hlt Hread H.
  destruct ev as [m msg len now peer_added doc get_peer send | now
                 | doc get_peer send | doc get_peer send
                 | data len millis1 millis2 | millis | | | | connected];
    cbn [step] in H.
  - destruct msg as [[name type| | | | | |]|]; cbn [OnDataRecv] in H.
    + unfold addDeviceToMesh in H.
      destruct (find_device st m) as [[i d]|];
        [|destruct (_ <? _)%nat; [destruct peer_added|]];
        injection H as <- <-; exact Hlt.
    + injection H as <- <-. unfold updateDeviceHeartbeat.
      destruct (find_device st m) as [[i d]|]; exact Hlt.
    + unfold relayAudioToMesh in H.
      destruct (negb (meshNetworkActive st) || (len <=? 0)).
      * cbn in H. injection H as <- <-. exact Hlt.
      * destruct (send_loop _ _ _ _ _ _ _ _ _) as [[outs0 st0]|] eqn:Hl; [|discriminate].
        cbn in H. injection H as <- <-.
        eapply same_audio_below; [eapply send_loop_audio; eassumption | assumption].
    + injection H as <- <-. unfold updateDeviceHeartbeat.
      destruct (find_device st m) as [[i d]|]; exact Hlt.
    + injection H as <- <-.
      eapply same_audio_below; [apply removeDeviceFromMesh_audio | assumption].
    + injection H as <- <-. exact Hlt.
    + injection H as <- <-. exact Hlt.
    + injection H as <- <-. exact Hlt.
  - destruct (meshNetworkActive st) eqn:Hact; [|injection H as <- <-; exact Hlt].
    destruct (cleanupInactiveDevices st now) as [st0|] eqn:Hc; [|discriminate].
    cbn in H. injection H as <- <-.
    unfold cleanupInactiveDevices in Hc. rewrite Hact in Hc. cbn [negb] in Hc.
    eapply same_audio_below; [eapply cleanup_loop_audio; eassumption | assumption].
  - unfold sendMeshHeartbeat in H.
    destruct (meshNetworkActive st), (meshDeviceCount st =? 0)%nat;
      try (injection H as <- <-; exact Hlt).
    eapply same_audio_below; [eapply send_loop_audio; eassumption | assumption].
  - unfold broadcastMeshStatus in H.
    destruct (meshNetworkActive st), (meshDeviceCount st =? 0)%nat;
      try (injection H as <- <-; exact Hlt).
    eapply same_audio_below; [eapply send_loop_audio; eassumption | assumption].
  - cbn in Hread. unfold addAudioData in H.
    destruct (negb (isAudioStreaming st)); [injection H as <- <-; assumption|].
    destruct (Z.leb_spec len 0) as [Hle|Hgt]; [injection H as <- <-; assumption|].
    destruct (addAudioData_append st data len millis1) as [[outs1 st1]|] eqn:Ha;
      [|discriminate].
    apply addAudioData_append_buffer_ok in Ha; [|assumption..]. cbn in H.
    destruct (Z.leb_spec AUDIO_CHUNK_SIZE (audioBufferIndex st1)).
    + pose proof (sendAudioChunks_buffer_ok millis2 st1 Ha) as [_ Hlt2].
      destruct (sendAudioChunks millis2 st1). injection H as <- <-. exact Hlt2.
    + injection H as <- <-. assumption.
  - destruct (_ && _); [|injection H as <- <-; exact Hlt].
    pose proof (sendAudioChunks_buffer_ok millis st Hok) as [_ Hlt'].
    destruct (sendAudioChunks millis st). injection H as <- <-. exact Hlt'.
  - injection H as <- <-. unfold startAudioStream.
    destruct (negb (isAudioStreaming st)); [|exact Hlt].
    cbn. unfold AUDIO_CHUNK_SIZE. lia.
  - injection H as <- <-. unfold stopAudioStream.
    destruct (isAudioStreaming st); [|exact Hlt]. cbn. unfold AUDIO_CHUNK_SIZE. lia.
  - injection H as <- <-. cbn. unfold AUDIO_CHUNK_SIZE. lia.
  - injection H as <- <-. exact Hlt.
Qed.

Lemma run_below_chunk (evs : list Event) : forall st,
  reg_ok st -> buffer_ok st -> audioBufferIndex st < AUDIO_CHUNK_SIZE ->
  Forall audio_fits evs -> Forall audio_readable evs ->
  exists outs st',
    run st evs = Some (outs, st')
    /\ reg_ok st' /\ buffer_ok st' /\ audioBufferIndex st' < AUDIO_CHUNK_SIZE.
Proof.
  induction evs as [|ev evs IH]; intros st Hreg Hbuf Hlt Hfit Hread.
  - exists [], st. auto.
  - apply Forall_cons in Hfit as [Hfit1 Hfit]. apply Forall_cons in Hread as [Hread1 Hread].
    destruct (step_spec st ev Hreg Hfit1) as (outs1 & st1 & Hstep & Hreg1 & _).
    pose proof (step_buffer_ok st ev outs1 st1 Hbuf Hread1 Hstep) as Hbuf1.
    pose proof (step_below_chunk st ev outs1 st1 Hbuf Hlt Hread1 Hstep) as Hlt1.
    destruct (IH st1 Hreg1 Hbuf1 Hlt1 Hfit Hread) as (outs2 & st2 & Hrun & Hrest).
    exists (outs1 ++ outs2), st2. cbn [run]. rewrite Hstep. cbn. rewrite Hrun. cbn. auto.
Qed.

End CursorFacts.

(** X4.  Whatever the Hub is asked to do after boot (radio messages,
    sweeps, heartbeats, status broadcasts, appends of at most 1024 readable
    bytes, sender-task ticks, start, stop, clear, phone connects and
    disconnects), every call returns and leaves the accumulator cursor
    within [0, 200): a whole chunk never stays buffered between two calls. *)
Theorem accumulator_below_one_chunk (evs : list Hub.Event) :
  Forall audio_fits evs -> Forall audio_readable evs ->
  exists outs st,
    Hub.run hub_boot evs = Some (outs, st)
    /\ 0 <= Hub.audioBufferIndex st < Hub.AUDIO_CHUNK_SIZE
    /\ length (Hub.audioBuffer st) = Z.to_nat Hub.AUDIO_BUFFER_SIZE.
Proof.
  intros Hfit Hread.
  destruct hub_boot_ok as [Hreg Hbuf].
  destruct (run_below_chunk evs hub_boot Hreg Hbuf ltac:(vm_compute; reflexivity) Hfit Hread)
    as (outs & st & Hrun & _ & [Hlen Hrange] & Hlt).
  exists outs, st. split; [exact Hrun|]. split; [lia | exact Hlen].
Qed.

Lemma accumulator_below_one_chunk_witness :
  let clock := fun _ : Z => 0 in
  let evs := [Hub.EvBle true; Hub.EvStart;
              Hub.EvAudio (replicate 256 7) 256 clock clock;
              Hub.EvAudio (replicate 256 8) 256 clock clock;
              Hub.EvSenderTask clock] in
  Forall audio_fits evs /\ Forall audio_readable evs
  /\ exists outs st,
       Hub.run hub_boot evs = Some (outs, st)
       /\ 0 <= Hub.audioBufferIndex st < Hub.AUDIO_CHUNK_SIZE
       /\ Hub.audioBufferIndex st = 112.
Proof.
  cbv zeta.
  assert (Hfit : Forall audio_fits
            [Hub.EvBle true; Hub.EvStart;
             Hub.EvAudio (replicate 256 7) 256 (fun _ => 0) (fun _ => 0);
             Hub.EvAudio (replicate 256 8) 256 (fun _ => 0) (fun _ => 0);
             Hub.EvSenderTask (fun _ => 0)]).
  { repeat constructor; cbn; unfold Hub.AUDIO_BUFFER_SIZE; lia. }
  assert (Hread : Forall audio_readable
            [Hub.EvBle true; Hub.EvStart;
             Hub.EvAudio (replicate 256 7) 256 (fun _ => 0) (fun _ => 0);
             Hub.EvAudio (replicate 256 8) 256 (fun _ => 0) (fun _ => 0);
             Hub.EvSenderTask (fun _ => 0)]).
  { repeat constructor; cbn; lia. }
  destruct (accumulator_below_one_chunk _ Hfit Hread) as (outs & st & Hrun & Hrange & _).
  split; [exact Hfit|]. split; [exact Hread|].
  exists outs, st. split; [exact Hrun|]. split; [exact Hrange|].
  vm_compute in Hrun. injection Hrun as _ <-. reflexivity.
Defined.

(** ** Registry: joining, becoming ready, leaving *)

Section HandshakeFacts.
Import Hub.

Definition fresh_device (m : mac_addr) (name type : string) (now : Z) : MeshDevice :=
  mkDevice m name type now false false 100.

(** A join from an address the registry does not hold, while there is room. *)
Lemma addDeviceToMesh_fresh st m name type now peer_added :
  reg_ok st -> m ∉ macs st -> (meshDeviceCount st < MAX_MESH_DEVICES)%nat ->
  exists st',
    addDeviceToMesh st m name type now peer_added = (peer_added, st')
    /\ reg_ok st'
    /\ meshDeviceCount st'
       = (if peer_added then S (meshDeviceCount st) else meshDeviceCount st)
    /\ live st'
       = live st ++ (if peer_added then [fresh_device m name type now] else []).
Proof.
  intros Hreg Hm Hroom. pose proof Hreg as [Hlen Hcount Hnd].
  unfold addDeviceToMesh.
  rewrite (proj2 (find_device_None st m) Hm).
  destruct (Nat.ltb_spec (meshDeviceCount st) MAX_MESH_DEVICES) as [_|]; [|lia].
  fold (fresh_device m name type now).
  assert (Hkeep : take (meshDeviceCount st)
                       (<[meshDeviceCount st := fresh_device m name type now]> (meshDevices st))
                  = live st).
  { unfold live. apply take_insert_ge. lia. }
  destruct peer_added.
  - eexists. split; [reflexivity|].
    assert (Hlive : live (set_registry
                            (<[meshDeviceCount st := fresh_device m name type now]>
                               (meshDevices st))
                            (S (meshDeviceCount st)) st)
                    = live st ++ [fresh_device m name type now]).
    { unfold live at 1. cbn [meshDevices meshDeviceCount set_registry].
      rewrite (take_S_r _ _ (fresh_device m name type now)).
      - rewrite Hkeep. reflexivity.
      - apply list_lookup_insert_eq. lia. }
    split; [|split; [reflexivity | exact Hlive]].
    constructor.
    + cbn. rewrite length_insert. exact Hlen.
    + cbn. lia.
    + unfold macs. rewrite Hlive, fmap_app. cbn [fmap list_fmap].
      apply NoDup_app. split; [exact Hnd|]. split; [|apply NoDup_singleton].
      intros x Hx Hx'. apply list_elem_of_singleton in Hx'. subst x. exact (Hm Hx).
  - eexists. split; [reflexivity|].
    assert (Hlive : live (set_registry
                            (<[meshDeviceCount st := fresh_device m name type now]>
                               (meshDevices st))
                            (meshDeviceCount st) st)
                    = live st).
    { unfold live at 1. cbn [meshDevices meshDeviceCount set_registry]. exact Hkeep. }
    split; [|split; [reflexivity | rewrite Hlive, app_nil_r; reflexivity]].
    constructor.
    + cbn. rewrite length_insert. exact Hlen.
    + cbn. lia.
    + unfold macs. rewrite Hlive. exact Hnd.
Qed.

Lemma filter_keeps_all {A} (P : A -> Prop) `{forall x, Decision (P x)} (l : list A) :
  Forall P l -> filter P l = l.
Proof.
  induction 1 as [|x l Hx Hl IH]; [reflexivity|].
  rewrite filter_cons_True by assumption. f_equal. exact IH.
Qed.

(** With distinct addresses, deleting an entry is filtering its address out. *)
Lemma delete_is_filter (l : list MeshDevice) i d :
  NoDup (mac <$> l) -> l !! i = Some d ->
  delete i l = filter (fun x => mac x <> mac d) l.
Proof.
  revert i. induction l as [|x l IH]; intros i Hnd Hi; [discriminate|].
  rewrite fmap_cons in Hnd. apply NoDup_cons in Hnd as [Hx Hnd].
  destruct i as [|i]; cbn in Hi.
  - injection Hi as ->. cbn [delete list_delete].
    rewrite filter_cons_False by (intros H; apply H; reflexivity).
    symmetry. apply filter_keeps_all. apply Forall_forall. intros y Hy E.
    apply Hx. rewrite <- E. apply list_elem_of_fmap_2. exact Hy.
  - cbn [delete list_delete]. rewrite filter_cons_True.
    + f_equal. apply IH; assumption.
    + intros E. apply Hx. rewrite E. apply list_elem_of_fmap_2.
      eapply list_elem_of_lookup_2. exact Hi.
Qed.

Lemma removeDeviceFromMesh_filter st m :
  reg_ok st ->
  let st' := snd (removeDeviceFromMesh st m) in
  reg_ok st'
  /\ live st' = filter (fun x => mac x <> m) (live st)
  /\ fst (removeDeviceFromMesh st m) = bool_decide (m ∈ macs st).
Proof.
  intros Hreg st'. subst st'.
  destruct (removeDeviceFromMesh_spec st m Hreg) as [Hreg' _].
  split; [exact Hreg'|].
  destruct (find_device st m) as [[i d]|] eqn:Hf.
  - destruct (removeDeviceFromMesh_found st m i d Hreg Hf) as (st' & Hr & Hlive & _).
    rewrite Hr. cbn [fst snd].
    destruct (find_device_Some st m i d Hf) as (Hi & Hm & _).
    split.
    + rewrite Hlive, <- Hm. apply delete_is_filter; [apply Hreg | exact Hi].
    + symmetry. apply bool_decide_eq_true_2. rewrite <- Hm. unfold macs.
      apply list_elem_of_fmap_2. eapply list_elem_of_lookup_2. exact Hi.
  - rewrite (removeDeviceFromMesh_absent st m Hf). cbn [fst snd].
    apply find_device_None in Hf. split.
    + symmetry. apply filter_keeps_all. apply Forall_forall. intros y Hy E.
      apply Hf. rewrite <- E. unfold macs. apply list_elem_of_fmap_2. exact Hy.
    + symmetry. apply bool_decide_eq_false_2. exact Hf.
Qed.

End HandshakeFacts.

Section HandshakeRuns.
Import Hub.

Lemma live_length st : reg_ok st -> length (live st) = meshDeviceCount st.
Proof.
  intros [Hlen Hcount _]. unfold live. rewrite length_take. lia.
Qed.

(** [mesh_ready] (and [mesh_heartbeat]) from the address of the newest
    entry marks that entry, and only it. *)
Lemma updateDeviceHeartbeat_last st m now l d :
  reg_ok st -> live st = l ++ [d] -> mac d = m ->
  let st' := updateDeviceHeartbeat st m now in
  reg_ok st' /\ live st' = l ++ [set_ready now d].
Proof.
  intros Hreg Hlive Hm st'. subst st'.
  assert (Hi : live st !! length l = Some d).
  { rewrite Hlive. apply list_lookup_middle. reflexivity. }
  assert (Hf : find_device st m = Some (length l, d)).
  { rewrite <- Hm. apply find_device_unique; [apply Hreg | exact Hi]. }
  unfold updateDeviceHeartbeat. rewrite Hf.
  destruct (restamp_spec st m (length l) d (set_ready now d) Hreg Hf eq_refl)
    as (Hreg' & _ & Hlive' & _).
  split; [exact Hreg'|].
  rewrite Hlive', Hlive. rewrite insert_app_r_alt by lia.
  rewrite Nat.sub_diag. reflexivity.
Qed.

Lemma updateDeviceHeartbeat_unknown st m now :
  m ∉ macs st -> updateDeviceHeartbeat st m now = st.
Proof.
  intros Hm. unfold updateDeviceHeartbeat.
  rewrite (proj2 (find_device_None st m) Hm). reflexivity.
Qed.

(** What a peer that is not marked active gets from the chunk sender, and
    what one that is gets. *)
Lemma sendAudioChunks_frames_inactive millis st m :
  (forall d, d ∈ live st -> isActive d = true -> mac d <> m) ->
  frames_to m (fst (sendAudioChunks millis st)) = [].
Proof.
  intros H. rewrite sendAudioChunks_outs. destruct (no_sink st); [reflexivity|].
  apply chunk_loop_frames. exact H.
Qed.

Lemma sendAudioChunks_frames_active millis st d :
  reg_ok st -> d ∈ live st -> isActive d = true ->
  frames_to (mac d) (fst (sendAudioChunks millis st))
  = map (chunk_frame st (Z.quot (audioBufferIndex st) AUDIO_CHUNK_SIZE) millis 0)
        (seq 0 (Z.to_nat (Z.quot (audioBufferIndex st) AUDIO_CHUNK_SIZE))).
Proof.
  intros Hreg Hd Ha. rewrite sendAudioChunks_outs.
  destruct (no_sink st) eqn:Hs.
  - unfold no_sink in Hs. apply andb_prop in Hs as [Hc _].
    apply Nat.eqb_eq in Hc. apply live_nonempty in Hd. lia.
  - apply chunk_loop_frames; [assumption..|apply Hreg].
Qed.

End HandshakeRuns.

(** X5.  A join from an address the registry does not hold, received while
    fewer than 4 peers are registered, appends one entry behind the existing
    ones (inactive, stamped with the current time, quality 100) and is
    answered [joined] with the new count, provided the transport accepts the
    peer; when the transport refuses it the answer is [failed] and the
    registered entries and the count are as before. *)
Theorem join_with_room (st : Hub.State) (m : Hub.mac_addr) (name type : string)
    (len now : Z) (peer_added : bool) (doc : nat -> list byte)
    (get_peer : nat -> bool) (send : nat -> Hub.esp_err) :
  Hub.reg_ok st ->
  m ∉ Hub.macs st ->
  (Hub.meshDeviceCount st < Hub.MAX_MESH_DEVICES)%nat ->
  exists st',
    Hub.OnDataRecv st m (Some (Hub.mesh_join name type)) len now peer_added
                   doc get_peer send
    = Some ([Hub.MeshAck m (if peer_added then "joined" else "failed")%string now
                         (if peer_added then S (Hub.meshDeviceCount st)
                          else Hub.meshDeviceCount st)], st')
    /\ Hub.reg_ok st'
    /\ Hub.live st'
       = Hub.live st
         ++ (if peer_added then [Hub.mkDevice m name type now false false 100] else []).
Proof.
  intros Hreg Hm Hroom.
  destruct (addDeviceToMesh_fresh st m name type now peer_added Hreg Hm Hroom)
    as (st' & Hadd & Hreg' & Hcount & Hlive).
  exists st'. cbn [Hub.OnDataRecv]. rewrite Hadd, Hcount.
  split; [destruct peer_added; reflexivity|]. split; [exact Hreg' | exact Hlive].
Qed.

Lemma join_with_room_witness :
  let st := Hub.set_registry (Hub.meshDevices full_hub) 2 full_hub in
  Hub.reg_ok st
  /\ (peer_mac 9 ∉ Hub.macs st)
  /\ (Hub.meshDeviceCount st < Hub.MAX_MESH_DEVICES)%nat
  /\ exists st',
       Hub.OnDataRecv st (peer_mac 9) (Some (Hub.mesh_join "relay" "client")) 64 7000 true
                      (fun _ => []) (fun _ => true) (fun _ => Hub.ESP_OK)
       = Some ([Hub.MeshAck (peer_mac 9) "joined" 7000 3], st')
       /\ Hub.live st'
          = [peer 1 1000 true; peer 2 1000 true;
             Hub.mkDevice (peer_mac 9) "relay" "client" 7000 false false 100].
Proof.
  cbv zeta.
  assert (Hreg : Hub.reg_ok (Hub.set_registry (Hub.meshDevices full_hub) 2 full_hub)).
  { constructor; [reflexivity | cbn; unfold Hub.MAX_MESH_DEVICES; lia |].
    vm_compute. repeat constructor; intros H;
      repeat (apply elem_of_cons in H as [H|H]; [discriminate|]);
      apply elem_of_nil in H; exact H. }
  assert (Hm : peer_mac 9 ∉ Hub.macs (Hub.set_registry (Hub.meshDevices full_hub) 2 full_hub)).
  { vm_compute. intros H.
    repeat (apply elem_of_cons in H as [H|H]; [discriminate|]).
    apply elem_of_nil in H. exact H. }
  assert (Hroom : (Hub.meshDeviceCount (Hub.set_registry (Hub.meshDevices full_hub) 2 full_hub)
                   < Hub.MAX_MESH_DEVICES)%nat).
  { apply Nat.ltb_lt. reflexivity. }
  destruct (join_with_room _ (peer_mac 9) "relay" "client" 64 7000 true
              (fun _ => []) (fun _ => true) (fun _ => Hub.ESP_OK) Hreg Hm Hroom)
    as (st' & Hrecv & _ & Hlive).
  split; [exact Hreg|]. split; [exact Hm|]. split; [exact Hroom|].
  exists st'. split; [exact Hrecv | exact Hlive].
Defined.

(** X6.  The join / ready handshake decides who receives audio.  After a
    join alone the new peer is registered but the chunk sender hands it
    nothing; after join then ready its entry is active and the chunk sender
    hands it every chunk frame, in order; a ready that arrives before the
    join is ignored, so the peer then stays without audio. *)
Theorem handshake_enables_audio (st : Hub.State) (m : Hub.mac_addr)
    (name type : string) (len now1 now2 : Z) (doc : nat -> list byte)
    (get_peer : nat -> bool) (send : nat -> Hub.esp_err) (millis : Z -> Z) :
  Hub.reg_ok st ->
  m ∉ Hub.macs st ->
  (Hub.meshDeviceCount st < Hub.MAX_MESH_DEVICES)%nat ->
  let join := Hub.EvRecv m (Some (Hub.mesh_join name type)) len now1 true
                         doc get_peer send in
  let ready := Hub.EvRecv m (Some Hub.mesh_ready) len now2 true doc get_peer send in
  let entry := Hub.mkDevice m name type now1 false false 100 in
  (exists outs st1,
      Hub.run st [join] = Some (outs, st1)
      /\ Hub.live st1 = Hub.live st ++ [entry]
      /\ frames_to m (fst (Hub.sendAudioChunks millis st1)) = [])
  /\ (exists outs st2,
        Hub.run st [join; ready] = Some (outs, st2)
        /\ Hub.live st2 = Hub.live st ++ [Hub.set_ready now2 entry]
        /\ frames_to m (fst (Hub.sendAudioChunks millis st2))
           = map (chunk_frame st2 (Z.quot (Hub.audioBufferIndex st2) Hub.AUDIO_CHUNK_SIZE)
                              millis 0)
                 (seq 0 (Z.to_nat (Z.quot (Hub.audioBufferIndex st2)
                                          Hub.AUDIO_CHUNK_SIZE))))
  /\ (exists outs st3,
        Hub.run st [ready; join] = Some (outs, st3)
        /\ Hub.live st3 = Hub.live st ++ [entry]
        /\ frames_to m (fst (Hub.sendAudioChunks millis st3)) = []).
Proof.
  intros Hreg Hm Hroom join ready entry.
  destruct (addDeviceToMesh_fresh st m name type now1 true Hreg Hm Hroom)
    as (st1 & Hadd & Hreg1 & Hcount1 & Hlive1).
  fold entry in Hlive1. cbn [app] in Hlive1.
  assert (Hquiet : forall st', Hub.live st' = Hub.live st ++ [entry] ->
            frames_to m (fst (Hub.sendAudioChunks millis st')) = []).
  { intros st' Hl. apply sendAudioChunks_frames_inactive. intros d Hd Ha.
    rewrite Hl in Hd. apply elem_of_app in Hd as [Hd|Hd].
    - intros E. apply Hm. rewrite <- E. apply list_elem_of_fmap_2. exact Hd.
    - apply list_elem_of_singleton in Hd. subst d. discriminate Ha. }
  split; [|split].
  - exists [Hub.MeshAck m "joined" now1 (Hub.meshDeviceCount st1)], st1.
    subst join. cbn [Hub.run Hub.step Hub.OnDataRecv]. rewrite Hadd. cbn.
    split; [reflexivity|]. split; [exact Hlive1 | apply Hquiet; exact Hlive1].
  - destruct (updateDeviceHeartbeat_last st1 m now2 (Hub.live st) entry Hreg1 Hlive1 eq_refl)
      as [Hreg2 Hlive2].
    exists [Hub.MeshAck m "joined" now1 (Hub.meshDeviceCount st1)],
           (Hub.updateDeviceHeartbeat st1 m now2).
    subst join ready. cbn [Hub.run Hub.step Hub.OnDataRecv]. rewrite Hadd. cbn.
    split; [reflexivity|]. split; [exact Hlive2|].
    change m with (Hub.mac (Hub.set_ready now2 entry)) at 1.
    apply sendAudioChunks_frames_active; [exact Hreg2 | | reflexivity].
    rewrite Hlive2. apply elem_of_app. right. apply list_elem_of_singleton. reflexivity.
  - exists [Hub.MeshAck m "joined" now1 (Hub.meshDeviceCount st1)], st1.
    subst join ready. cbn [Hub.run Hub.step Hub.OnDataRecv].
    rewrite (updateDeviceHeartbeat_unknown st m now2 Hm). cbn. rewrite Hadd. cbn.
    split; [reflexivity|]. split; [exact Hlive1 | apply Hquiet; exact Hlive1].
Qed.

Lemma handshake_enables_audio_witness :
  let st := Hub.set_buffer (replicate 200 5 ++ replicate 824 0) 200 hub_boot in
  let join := Hub.EvRecv (peer_mac 1) (Some (Hub.mesh_join "relay" "client")) 64 1000 true
                         (fun _ => []) (fun _ => true) (fun _ => Hub.ESP_OK) in
  let ready := Hub.EvRecv (peer_mac 1) (Some Hub.mesh_ready) 64 2000 true
                          (fun _ => []) (fun _ => true) (fun _ => Hub.ESP_OK) in
  Hub.reg_ok st
  /\ (peer_mac 1 ∉ Hub.macs st)
  /\ (Hub.meshDeviceCount st < Hub.MAX_MESH_DEVICES)%nat
  /\ exists outs st2,
       Hub.run st [join; ready] = Some (outs, st2)
       /\ frames_to (peer_mac 1) (fst (Hub.sendAudioChunks (fun _ => 3000) st2))
          = [Hub.compact_header 0 0 1 3000 16000 16 128 128 ++ COLON :: replicate 200 5].
Proof.
  cbv zeta.
  set (st := Hub.set_buffer (replicate 200 5 ++ replicate 824 0) 200 hub_boot).
  assert (Hreg : Hub.reg_ok st).
  { apply (same_registry_ok hub_boot); [split; reflexivity | apply hub_boot_ok]. }
  assert (Hm : peer_mac 1 ∉ Hub.macs st).
  { vm_compute. intros H. apply elem_of_nil in H. exact H. }
  assert (Hroom : (Hub.meshDeviceCount st < Hub.MAX_MESH_DEVICES)%nat).
  { apply Nat.ltb_lt. reflexivity. }
  destruct (handshake_enables_audio st (peer_mac 1) "relay" "client" 64 1000 2000
              (fun _ => []) (fun _ => true) (fun _ => Hub.ESP_OK) (fun _ => 3000)
              Hreg Hm Hroom) as (_ & (outs & st2 & Hrun & Hlive & Hframes) & _).
  split; [exact Hreg|]. split; [exact Hm|]. split; [exact Hroom|].
  exists outs, st2. split; [exact Hrun|].
  rewrite Hframes. vm_compute in Hrun. injection Hrun as _ <-.
  vm_compute. reflexivity.
Defined.

(** X7.  A leave removes the sender's entry and nothing else: the remaining
    entries keep their contents and their order, and a leave from an address
    that is not registered changes nothing.  A join followed by a leave from
    the same fresh address gives back the entries and the count the registry
    had before. *)
Theorem leave_removes_only_sender (st : Hub.State) (m : Hub.mac_addr)
    (name type : string) (len now : Z) (peer_added : bool) (doc : nat -> list byte)
    (get_peer : nat -> bool) (send : nat -> Hub.esp_err) :
  Hub.reg_ok st ->
  let leave := Hub.EvRecv m (Some Hub.mesh_leave) len now peer_added doc get_peer send in
  let join := Hub.EvRecv m (Some (Hub.mesh_join name type)) len now true
                         doc get_peer send in
  (exists st',
      Hub.step st leave = Some ([], st')
      /\ Hub.reg_ok st'
      /\ Hub.live st' = filter (fun d => Hub.mac d <> m) (Hub.live st)
      /\ (m ∉ Hub.macs st -> st' = st))
  /\ (m ∉ Hub.macs st -> (Hub.meshDeviceCount st < Hub.MAX_MESH_DEVICES)%nat ->
      exists outs st2,
        Hub.run st [join; leave] = Some (outs, st2)
        /\ Hub.live st2 = Hub.live st
        /\ Hub.meshDeviceCount st2 = Hub.meshDeviceCount st).
Proof.
  intros Hreg leave join.
  assert (Hkeep : forall l : list Hub.MeshDevice,
            (forall d, d ∈ l -> Hub.mac d <> m) ->
            filter (fun d => Hub.mac d <> m) l = l).
  { intros l H. apply filter_keeps_all, Forall_forall. exact H. }
  split.
  - destruct (removeDeviceFromMesh_filter st m Hreg) as (Hreg' & Hlive & _).
    exists (snd (Hub.removeDeviceFromMesh st m)).
    split; [reflexivity|]. split; [exact Hreg'|]. split; [exact Hlive|].
    intros Hm. rewrite removeDeviceFromMesh_absent; [reflexivity|].
    apply find_device_None. exact Hm.
  - intros Hm Hroom.
    destruct (addDeviceToMesh_fresh st m name type now true Hreg Hm Hroom)
      as (st1 & Hadd & Hreg1 & Hcount1 & Hlive1).
    destruct (removeDeviceFromMesh_filter st1 m Hreg1) as (Hreg2 & Hlive2 & _).
    exists [Hub.MeshAck m "joined" now (Hub.meshDeviceCount st1)],
           (snd (Hub.removeDeviceFromMesh st1 m)).
    subst join leave. cbn [Hub.run Hub.step Hub.OnDataRecv]. rewrite Hadd. cbn.
    split; [reflexivity|].
    assert (Hl : Hub.live (snd (Hub.removeDeviceFromMesh st1 m)) = Hub.live st).
    { rewrite Hlive2, Hlive1, filter_app.
      rewrite filter_cons_False by (intros H; apply H; reflexivity).
      rewrite filter_nil, app_nil_r. apply Hkeep.
      intros d Hd E. apply Hm. rewrite <- E. apply list_elem_of_fmap_2. exact Hd. }
    split; [exact Hl|].
    rewrite <- (live_length _ Hreg2), <- (live_length _ Hreg), Hl. reflexivity.
Qed.

Lemma leave_removes_only_sender_witness :
  Hub.reg_ok full_hub
  /\ exists st',
       Hub.step full_hub
         (Hub.EvRecv (peer_mac 2) (Some Hub.mesh_leave) 32 9000 true
                     (fun _ => []) (fun _ => true) (fun _ => Hub.ESP_OK))
       = Some ([], st')
       /\ Hub.live st' = [peer 1 1000 true; peer 3 1000 false; peer 4 1000 false].
Proof.
  destruct (leave_removes_only_sender full_hub (peer_mac 2) "" "" 32 9000 true
              (fun _ => []) (fun _ => true) (fun _ => Hub.ESP_OK) full_hub_ok)
    as [(st' & Hstep & _ & Hlive & _) _].
  split; [exact full_hub_ok|]. exists st'. split; [exact Hstep|].
  rewrite Hlive. vm_compute. reflexivity.
Defined.

(** X8.  The timeout sweep keeps, in their order and unchanged, exactly the
    entries that are inactive or whose age is at most 30000 ms; the age is
    the 32-bit difference of the clock and the entry's stamp, so an entry
    stamped shortly before the millisecond clock wraps around is still kept
    after the wrap.  With the mesh not active the sweep does nothing. *)
Theorem sweep_keeps_fresh_peers (st : Hub.State) (now : Z) :
  Hub.reg_ok st ->
  (Hub.meshNetworkActive st = true ->
   exists st',
     Hub.cleanupInactiveDevices st now = Some st'
     /\ Hub.reg_ok st'
     /\ Hub.live st' = filter (fun d => Hub.timed_out now d = false) (Hub.live st)
     /\ (forall d, d ∈ Hub.live st ->
           to_u32 (now - Hub.lastSeen d) <= Hub.DEVICE_TIMEOUT -> d ∈ Hub.live st')
     /\ (forall d, d ∈ Hub.live st -> Hub.isActive d = false -> d ∈ Hub.live st'))
  /\ (Hub.meshNetworkActive st = false -> Hub.cleanupInactiveDevices st now = Some st).
Proof.
  intros Hreg. split.
  - intros Hact.
    destruct (cleanupInactiveDevices_spec st now Hreg Hact) as (st' & Hc & Hreg' & Hlive).
    exists st'. split; [exact Hc|]. split; [exact Hreg'|]. split; [exact Hlive|].
    split; intros d Hd H; rewrite Hlive; apply list_elem_of_filter; (split; [|exact Hd]).
    + unfold Hub.timed_out. apply andb_false_iff. right. apply Z.ltb_ge. exact H.
    + unfold Hub.timed_out. rewrite H. reflexivity.
  - apply cleanupInactiveDevices_idle.
Qed.

Lemma sweep_keeps_fresh_peers_witness :
  let st := Hub.set_registry
              [peer 1 4294967000 true; peer 2 1000 true; peer 3 1000 false; blank_device]
              3 full_hub in
  Hub.reg_ok st
  /\ Hub.meshNetworkActive st = true
  /\ exists st',
       Hub.cleanupInactiveDevices st 200 = Some st'
       /\ Hub.live st' = [peer 1 4294967000 true; peer 3 1000 false].
Proof.
  cbv zeta.
  set (st := Hub.set_registry
               [peer 1 4294967000 true; peer 2 1000 true; peer 3 1000 false; blank_device]
               3 full_hub).
  assert (Hreg : Hub.reg_ok st).
  { constructor; [reflexivity | cbn; unfold Hub.MAX_MESH_DEVICES; lia |].
    vm_compute. repeat constructor; intros H;
      repeat (apply elem_of_cons in H as [H|H]; [discriminate|]);
      apply elem_of_nil in H; exact H. }
  destruct (proj1 (sweep_keeps_fresh_peers st 200 Hreg) eq_refl)
    as (st' & Hc & _ & Hlive & _).
  split; [exact Hreg|]. split; [reflexivity|].
  exists st'. split; [exact Hc|]. rewrite Hlive. vm_compute. reflexivity.
Defined.

(** ** The send loops of heartbeat, status broadcast and audio relay *)

Section SendLoopFacts.
Import Hub.

(** The transport knows every peer and no send is answered [ARG] or
    [NOT_FOUND]. *)
Definition healthy (get_peer : nat -> bool) (send : nat -> esp_err) : Prop :=
  (forall k, get_peer k = true)
  /\ (forall k, send k <> ESP_ERR_ESPNOW_ARG /\ send k <> ESP_ERR_ESPNOW_NOT_FOUND).

(** The datagrams of one pass over the entries [l], the first of them
    visited in iteration [k]. *)
Definition pass_outputs (eligible : MeshDevice -> bool) (msg : nat -> list byte)
    (k : nat) (l : list MeshDevice) : list Output :=
  concat (imap (fun j d => if isActive d && eligible d
                           then [EspNowSend (mac d) (msg (k + j)%nat)] else []) l).

Lemma pass_outputs_cons eligible msg k d l :
  pass_outputs eligible msg k (d :: l)
  = (if isActive d && eligible d then [EspNowSend (mac d) (msg k)] else [])
    ++ pass_outputs eligible msg (S k) l.
Proof.
  unfold pass_outputs. rewrite imap_cons. cbn [concat]. rewrite Nat.add_0_r.
  f_equal. f_equal. apply imap_ext. intros j x _. cbn.
  replace (k + S j)%nat with (S (k + j)) by lia. reflexivity.
Qed.

Lemma pass_outputs_const eligible frame k l :
  pass_outputs eligible (fun _ => frame) k l
  = flat_map (fun d => if isActive d && eligible d then [EspNowSend (mac d) frame] else []) l.
Proof.
  revert k. induction l as [|d l IH]; intros k; [reflexivity|].
  rewrite pass_outputs_cons, IH. reflexivity.
Qed.

Lemma send_loop_healthy guard eligible get_peer send msg fuel : forall i k st,
  reg_ok st -> (meshDeviceCount st - i < fuel)%nat ->
  healthy get_peer send ->
  send_loop fuel i k guard eligible get_peer send msg st
  = Some (pass_outputs eligible msg k (drop i (live st)), st).
Proof.
  induction fuel as [|fuel IH]; intros i k st Hok Hfuel Hh; [lia|].
  pose proof Hok as [Hlen Hcnt Hnd]. pose proof Hh as [Hgp Hsd].
  pose proof (live_length st Hok) as Hll.
  cbn [send_loop].
  destruct (Nat.ltb_spec i (meshDeviceCount st)) as [Hi|Hi];
    [|rewrite drop_ge by lia; reflexivity].
  destruct (Nat.leb_spec MAX_MESH_DEVICES i) as [Hmax|Hmax]; [lia|].
  rewrite andb_false_r.
  destruct (lookup_lt_is_Some_2 (meshDevices st) i) as [d Hd]; [lia|].
  rewrite Hd.
  assert (Hl : live st !! i = Some d).
  { unfold live. rewrite lookup_take_lt by lia. assumption. }
  rewrite (drop_S _ _ _ Hl), pass_outputs_cons.
  rewrite (IH (S i) (S k) st Hok ltac:(lia) Hh).
  destruct (isActive d && eligible d); [|reflexivity].
  rewrite Hgp. destruct (Hsd k) as [H1 H2].
  destruct (send k); try contradiction; reflexivity.
Qed.

(** Whatever the transport answers, a datagram goes only to an entry that
    was active and eligible when it was visited. *)
Lemma send_loop_eligible guard eligible get_peer send msg fuel : forall i k st outs st',
  send_loop fuel i k guard eligible get_peer send msg st = Some (outs, st') ->
  forall o, o ∈ outs ->
    exists d j, o = EspNowSend (mac d) (msg j) /\ isActive d = true /\ eligible d = true.
Proof.
  induction fuel as [|fuel IH]; intros i k st outs st' H o Ho; [discriminate|].
  cbn [send_loop] in H.
  destruct (i <? meshDeviceCount st)%nat;
    [|injection H as <- <-; apply elem_of_nil in Ho; contradiction].
  destruct (guard && (MAX_MESH_DEVICES <=? i)%nat);
    [injection H as <- <-; apply elem_of_nil in Ho; contradiction|].
  destruct (meshDevices st !! i) as [d|];
    [|injection H as <- <-; apply elem_of_nil in Ho; contradiction].
  destruct (isActive d) eqn:Ha; cbn [andb] in H; [|eapply IH; eassumption].
  destruct (eligible d) eqn:He; [|eapply IH; eassumption].
  destruct (get_peer k); [|eapply IH; eassumption].
  assert (Hstep : forall st0 i0,
            ('(outs0, st'') ← send_loop fuel i0 (S k) guard eligible get_peer send msg st0;
             Some (EspNowSend (mac d) (msg k) :: outs0, st'')) = Some (outs, st') ->
            exists d' j, o = EspNowSend (mac d') (msg j)
                         /\ isActive d' = true /\ eligible d' = true).
  { intros st0 i0 H0.
    destruct (send_loop fuel i0 (S k) guard eligible get_peer send msg st0)
      as [[outs0 st0']|] eqn:Hl; [|discriminate].
    cbn in H0. injection H0 as <- <-.
    apply elem_of_cons in Ho as [->|Ho]; [eauto|].
    eapply IH; eassumption. }
  destruct (send k); eapply Hstep; exact H.
Qed.

(** A transport that knows no peer any more: every active eligible entry is
    dropped, nothing is sent, the others stay in their order. *)
Lemma send_loop_forgotten guard eligible send msg fuel : forall i k st,
  reg_ok st -> (meshDeviceCount st - i < fuel)%nat ->
  exists st',
    send_loop fuel i k guard eligible (fun _ => false) send msg st = Some ([], st')
    /\ reg_ok st'
    /\ live st'
       = take i (live st)
         ++ filter (fun d => isActive d && eligible d = false) (drop i (live st)).
Proof.
  induction fuel as [|fuel IH]; intros i k st Hok Hfuel; [lia|].
  pose proof Hok as [Hlen Hcnt Hnd].
  pose proof (live_length st Hok) as Hll.
  cbn [send_loop].
  destruct (Nat.ltb_spec i (meshDeviceCount st)) as [Hi|Hi].
  2:{ exists st. split; [reflexivity|]. split; [assumption|].
      rewrite take_ge, drop_ge by lia. cbn. symmetry. apply app_nil_r. }
  destruct (Nat.leb_spec MAX_MESH_DEVICES i) as [Hmax|Hmax]; [lia|].
  rewrite andb_false_r.
  destruct (lookup_lt_is_Some_2 (meshDevices st) i) as [d Hd]; [lia|].
  rewrite Hd.
  assert (Hl : live st !! i = Some d).
  { unfold live. rewrite lookup_take_lt by lia. assumption. }
  rewrite (drop_S _ _ _ Hl).
  destruct (isActive d && eligible d) eqn:Hto.
  - pose proof (find_device_unique st i d Hnd Hl) as Hf.
    destruct (removeDeviceFromMesh_found st (mac d) i d Hok Hf)
      as (st1 & Hr & Hl1 & Hc1 & Hlen1).
    rewrite Hr. cbn [snd].
    destruct (IH i (S k) st1) as (st' & Hloop & Hok' & Hlive').
    { eapply reg_ok_delete; eauto; lia. }
    { lia. }
    exists st'. split; [assumption|]. split; [assumption|].
    rewrite Hlive', Hl1. rewrite filter_cons_False by (rewrite Hto; discriminate).
    rewrite delete_take_drop.
    rewrite take_app_le by (rewrite length_take; lia).
    rewrite take_take, Nat.min_id.
    rewrite drop_app_ge by (rewrite length_take; lia).
    rewrite length_take, Nat.min_l, Nat.sub_diag by lia. reflexivity.
  - destruct (IH (S i) (S k) st Hok ltac:(lia)) as (st' & Hloop & Hok' & Hlive').
    exists st'. split; [assumption|]. split; [assumption|].
    rewrite Hlive', (take_S_r _ _ _ Hl).
    rewrite filter_cons_True by assumption.
    rewrite <- app_assoc. reflexivity.
Qed.

End SendLoopFacts.

(** The addresses the datagrams of [outs] were handed to the radio for. *)
Definition destinations (outs : list Hub.Output) : list Hub.mac_addr :=
  flat_map (fun o => match o with Hub.EspNowSend m _ => [m] | _ => [] end) outs.

Lemma destinations_pass_outputs eligible msg (l : list Hub.MeshDevice) : forall k,
  destinations (pass_outputs eligible msg k l)
  = Hub.mac <$> filter (fun d => Hub.isActive d && eligible d = true) l.
Proof.
  induction l as [|d l IH]; intros k; [reflexivity|].
  rewrite pass_outputs_cons. unfold destinations in *. rewrite flat_map_app, IH.
  destruct (Hub.isActive d && eligible d) eqn:E.
  - rewrite filter_cons_True by exact E. reflexivity.
  - rewrite filter_cons_False by (rewrite E; discriminate). reflexivity.
Qed.

Lemma sends_of_pass frame k (l : list Hub.MeshDevice) :
  pass_outputs (fun _ => true) (fun _ => frame) k l = sends_of frame l.
Proof.
  rewrite pass_outputs_const. unfold sends_of. apply flat_map_ext.
  intros d. rewrite andb_true_r. reflexivity.
Qed.

(** X9.  On a transport that knows every peer and answers no send with
    [ARG] or [NOT_FOUND], a heartbeat and a status broadcast each hand the
    radio one datagram per active registered peer, in registry order, carrying
    the first 250 bytes of the document, and leave the Hub's state as it
    was; inactive entries get nothing. *)
Theorem healthy_transport_delivers (st : Hub.State) (doc : list byte)
    (get_peer : nat -> bool) (send : nat -> Hub.esp_err) :
  Hub.reg_ok st ->
  healthy get_peer send ->
  let outs :=
    flat_map (fun d => if Hub.isActive d
                       then [Hub.EspNowSend (Hub.mac d) (take 250 doc)] else [])
             (Hub.live st) in
  Hub.sendMeshHeartbeat st doc get_peer send = Some (outs, st)
  /\ Hub.broadcastMeshStatus st doc get_peer send = Some (outs, st).
Proof.
  intros Hreg Hh outs. subst outs. fold (sends_of (take 250 doc) (Hub.live st)).
  unfold Hub.sendMeshHeartbeat, Hub.broadcastMeshStatus.
  destruct (Nat.eqb_spec (Hub.meshDeviceCount st) 0) as [E|E].
  - unfold Hub.live. rewrite E. cbn. auto.
  - rewrite (send_loop_healthy false (fun _ => true) get_peer send (fun _ => take 250 doc)
               (S (Hub.meshDeviceCount st)) 0 0 st Hreg ltac:(lia) Hh).
    rewrite drop_0, sends_of_pass. auto.
Qed.

Lemma healthy_transport_delivers_witness :
  Hub.reg_ok full_hub
  /\ healthy (fun _ => true) (fun k => if (k =? 0)%nat then Hub.ESP_FAIL else Hub.ESP_OK)
  /\ Hub.sendMeshHeartbeat full_hub (replicate 300 65) (fun _ => true)
       (fun k => if (k =? 0)%nat then Hub.ESP_FAIL else Hub.ESP_OK)
     = Some ([Hub.EspNowSend (peer_mac 1) (replicate 250 65);
              Hub.EspNowSend (peer_mac 2) (replicate 250 65)], full_hub).
Proof.
  assert (Hh : healthy (fun _ => true)
                 (fun k => if (k =? 0)%nat then Hub.ESP_FAIL else Hub.ESP_OK)).
  { split; [reflexivity|]. intros k. destruct (k =? 0)%nat; split; discriminate. }
  split; [exact full_hub_ok|]. split; [exact Hh|].
  exact (proj1 (healthy_transport_delivers full_hub (replicate 300 65) _ _ full_hub_ok Hh)).
Defined.

(** X10.  Audio data received from a peer is never relayed back to the
    sender: every relay datagram goes to a registered address other than the
    sender's, and the sender gets exactly the acknowledgement, which is sent
    last.  With the mesh inactive or a non-positive length nothing is
    relayed (the acknowledgement is still sent).  On a healthy transport the
    relay reaches every active peer but the sender, in registry order, and the
    registry is unchanged. *)
Theorem relay_never_echoes (st : Hub.State) (m : Hub.mac_addr) (len now : Z)
    (peer_added : bool) (doc : nat -> list byte)
    (get_peer : nat -> bool) (send : nat -> Hub.esp_err) :
  Hub.reg_ok st ->
  exists outs st',
    Hub.OnDataRecv st m (Some Hub.audio_data) len now peer_added doc get_peer send
    = Some (outs ++ [Hub.AudioAck m now], st')
    /\ Hub.reg_ok st'
    /\ (forall o, o ∈ outs ->
          exists m' msg, o = Hub.EspNowSend m' msg /\ m' <> m /\ m' ∈ Hub.macs st)
    /\ (Hub.meshNetworkActive st = false \/ len <= 0 -> outs = [] /\ st' = st)
    /\ (healthy get_peer send -> Hub.meshNetworkActive st = true -> 0 < len ->
        st' = st
        /\ destinations outs
           = Hub.mac <$> filter (fun d => Hub.isActive d = true /\ Hub.mac d <> m)
                                (Hub.live st)).
Proof.
  intros Hreg. cbn [Hub.OnDataRecv]. unfold Hub.relayAudioToMesh.
  destruct (Hub.meshNetworkActive st) eqn:Hact; cbn [negb orb].
  2:{ exists [], st. cbn. split; [reflexivity|]. split; [exact Hreg|].
      split; [intros o Ho; apply elem_of_nil in Ho; contradiction|].
      split; [auto | intros _ H; discriminate]. }
  destruct (Z.leb_spec len 0) as [Hle|Hgt].
  { exists [], st. cbn. split; [reflexivity|]. split; [exact Hreg|].
    split; [intros o Ho; apply elem_of_nil in Ho; contradiction|].
    split; [auto | intros _ _ H; lia]. }
  set (eligible := fun d : Hub.MeshDevice => negb (bool_decide (Hub.mac d = m))).
  destruct (send_loop_spec true eligible get_peer send doc (S (Hub.meshDeviceCount st))
              0 0 st Hreg ltac:(lia)) as (outs & st' & Hloop & Hreg' & _ & _ & Hout).
  exists outs, st'. rewrite Hloop. cbn.
  split; [reflexivity|]. split; [exact Hreg'|]. split; [|split].
  - intros o Ho. destruct (Hout o Ho) as (m' & msg & -> & Hm').
    exists m', msg. split; [reflexivity|]. split; [|exact Hm'].
    destruct (send_loop_eligible _ _ _ _ _ _ _ _ _ _ _ Hloop _ Ho)
      as (d & j & Heq & _ & Hel).
    injection Heq as -> _. unfold eligible in Hel.
    apply negb_true_iff, bool_decide_eq_false in Hel. exact Hel.
  - intros [H|H]; [discriminate | lia].
  - intros Hh _ _.
    rewrite (send_loop_healthy true eligible get_peer send doc
               (S (Hub.meshDeviceCount st)) 0 0 st Hreg ltac:(lia) Hh) in Hloop.
    injection Hloop as <- <-. split; [reflexivity|].
    rewrite drop_0, destinations_pass_outputs. f_equal.
    apply list_filter_iff. intros d. unfold eligible.
    rewrite andb_true_iff, negb_true_iff, bool_decide_eq_false. reflexivity.
Qed.

Lemma relay_never_echoes_witness :
  Hub.reg_ok full_hub
  /\ exists outs st',
       Hub.OnDataRecv full_hub (peer_mac 1) (Some Hub.audio_data) 40 6000 true
                      (fun k => [Z.of_nat k]) (fun _ => true) (fun _ => Hub.ESP_OK)
       = Some (outs ++ [Hub.AudioAck (peer_mac 1) 6000], st')
       /\ destinations outs = [peer_mac 2].
Proof.
  destruct (relay_never_echoes full_hub (peer_mac 1) 40 6000 true
              (fun k => [Z.of_nat k]) (fun _ => true) (fun _ => Hub.ESP_OK) full_hub_ok)
    as (outs & st' & Hrecv & _ & _ & _ & Hhealthy).
  split; [exact full_hub_ok|]. exists outs, st'. split; [exact Hrecv|].
  destruct Hhealthy as [_ Hd]; [|reflexivity|lia|].
  - split; [reflexivity|]. intros k. split; discriminate.
  - rewrite Hd. vm_compute. reflexivity.
Defined.

(** X11.  When the transport no longer knows any peer, one heartbeat (or
    one status broadcast) sends nothing and drops every active entry from the
    registry; the inactive entries stay, in their order. *)
Theorem forgotten_peers_pruned (st : Hub.State) (doc : list byte)
    (send : nat -> Hub.esp_err) :
  Hub.reg_ok st ->
  (exists st',
      Hub.sendMeshHeartbeat st doc (fun _ => false) send = Some ([], st')
      /\ Hub.reg_ok st'
      /\ Hub.live st' = filter (fun d => Hub.isActive d = false) (Hub.live st))
  /\ (exists st',
        Hub.broadcastMeshStatus st doc (fun _ => false) send = Some ([], st')
        /\ Hub.reg_ok st'
        /\ Hub.live st' = filter (fun d => Hub.isActive d = false) (Hub.live st)).
Proof.
  intros Hreg.
  assert (H : exists st',
             (if (Hub.meshDeviceCount st =? 0)%nat then Some ([], st)
              else Hub.send_loop (S (Hub.meshDeviceCount st)) 0 0 false (fun _ => true)
                     (fun _ => false) send (fun _ => take 250 doc) st)
             = Some ([], st')
             /\ Hub.reg_ok st'
             /\ Hub.live st' = filter (fun d => Hub.isActive d = false) (Hub.live st)).
  { destruct (Nat.eqb_spec (Hub.meshDeviceCount st) 0) as [E|E].
    - exists st. split; [reflexivity|]. split; [exact Hreg|].
      unfold Hub.live. rewrite E. reflexivity.
    - destruct (send_loop_forgotten false (fun _ => true) send (fun _ => take 250 doc)
                  (S (Hub.meshDeviceCount st)) 0 0 st Hreg ltac:(lia))
        as (st' & Hloop & Hreg' & Hlive).
      exists st'. split; [exact Hloop|]. split; [exact Hreg'|].
      rewrite Hlive, drop_0. cbn [take app].
      apply list_filter_iff. intros d. rewrite andb_true_r. reflexivity. }
  split; exact H.
Qed.

Lemma forgotten_peers_pruned_witness :
  Hub.reg_ok full_hub
  /\ exists st',
       Hub.sendMeshHeartbeat full_hub [1; 2; 3] (fun _ => false) (fun _ => Hub.ESP_OK)
       = Some ([], st')
       /\ Hub.live st' = [peer 3 1000 false; peer 4 1000 false].
Proof.
  destruct (proj1 (forgotten_peers_pruned full_hub [1; 2; 3] (fun _ => Hub.ESP_OK)
                     full_hub_ok)) as (st' & Hsend & _ & Hlive).
  split; [exact full_hub_ok|]. exists st'. split; [exact Hsend|].
  rewrite Hlive. vm_compute. reflexivity.
Defined.

(** ** The compact header decoder: the frames it accepts *)

(** The number a run of digits is read as, starting from [current]; the
    decoder's accumulator is a C [int]. *)
Definition field_value (current : Z) (f : list byte) : Z := fold_left accumulate f current.

(** Eight digit runs, each closed by a colon. *)
Definition header_fields (fields : list (list byte)) : list byte :=
  concat (map (fun f => f ++ [COLON]) fields).

Section DecoderFacts.

Lemma take_S_insert (values : list Z) field current :
  (field < length values)%nat ->
  take (S field) (<[field := current]> values) = take field values ++ [current].
Proof.
  intros H. rewrite (take_S_r _ _ current) by (apply list_lookup_insert_eq; exact H).
  rewrite take_insert_ge by lia. reflexivity.
Qed.

Lemma header_loop_sound (rest : list byte) : forall idx field current values idx' values',
  (field <= 8)%nat -> length values = 8%nat ->
  Relay.header_loop rest idx field current values = (true, idx', 8%nat, values') ->
  (field = 8%nat /\ idx' = idx /\ values' = values)
  \/ exists f fs tail,
       (field < 8)%nat /\ length fs = (7 - field)%nat
       /\ Forall is_digit f /\ Forall (Forall is_digit) fs
       /\ rest = f ++ COLON :: header_fields fs ++ tail
       /\ idx' = idx + Z.of_nat (length rest) - Z.of_nat (length tail)
       /\ values' = take field values ++ field_value current f :: map (field_value 0) fs.
Proof.
  induction rest as [|c rest IH]; intros idx field current values idx' values' Hf Hlen H.
  - cbn in H. injection H as <- <- <-. left. auto.
  - cbn [Relay.header_loop] in H.
    destruct (Nat.ltb_spec field 8) as [Hlt|Hge].
    2:{ injection H as <- <- <-. left. auto. }
    right. unfold COLON in H. destruct (Z.eqb_spec c 58) as [->|Hc].
    + apply IH in H; [|lia|rewrite length_insert; exact Hlen].
      destruct H as [(Hf8 & -> & ->)|(f & fs & tail & Hf7 & Hfs & Hd & Hds & -> & -> & ->)].
      * exists [], [], rest. assert (field = 7%nat) by lia. subst field.
        split; [lia|].
        split; [reflexivity|]. split; [constructor|]. split; [constructor|].
        split; [reflexivity|]. split; [cbn [length]; lia|].
        cbn [map field_value fold_left].
        rewrite insert_take_drop by lia. rewrite drop_ge by lia. reflexivity.
      * exists [], (f :: fs), tail. split; [lia|].
        split; [cbn [length]; lia|]. split; [constructor|].
        split; [constructor; assumption|].
        split; [unfold header_fields; cbn [map concat app]; rewrite <- !app_assoc;
                reflexivity|].
        split; [cbn [length]; lia|].
        rewrite take_S_insert by lia. rewrite <- app_assoc. reflexivity.
    + destruct (Z.leb_spec 48 c) as [H48|]; [|discriminate].
      destruct (Z.leb_spec c 57) as [H57|]; [|discriminate].
      cbn [andb] in H. apply IH in H; [|lia|exact Hlen].
      destruct H as [(Hf8 & _)|(f & fs & tail & _ & Hfs & Hd & Hds & -> & -> & ->)]; [lia|].
      exists (c :: f), fs, tail. split; [lia|].
      split; [exact Hfs|]. split; [constructor; [unfold is_digit; lia | exact Hd]|].
      split; [exact Hds|]. split; [reflexivity|]. split; [cbn [length]; lia|].
      reflexivity.
Qed.

Lemma header_loop_complete (fields : list (list byte)) : forall tail idx field values,
  length fields = (8 - field)%nat -> (field <= 8)%nat -> length values = 8%nat ->
  Forall (Forall is_digit) fields ->
  Relay.header_loop (header_fields fields ++ tail) idx field 0 values
  = (true, idx + Z.of_nat (length (header_fields fields)), 8%nat,
     take field values ++ map (field_value 0) fields).
Proof.
  induction fields as [|f fields IH]; intros tail idx field values Hn Hf Hlen Hd.
  - cbn [length] in Hn. assert (field = 8%nat) by lia. subst field.
    unfold header_fields. cbn [map concat app length]. rewrite Z.add_0_r, app_nil_r.
    rewrite take_ge by lia. destruct tail; reflexivity.
  - apply Forall_cons in Hd as [Hd1 Hd]. cbn [length] in Hn.
    unfold header_fields. cbn [map concat]. fold (header_fields fields).
    rewrite <- !app_assoc. rewrite header_loop_digits by (assumption || lia).
    cbn [app Relay.header_loop].
    destruct (Nat.ltb_spec field 8) as [_|]; [|lia].
    rewrite Z.eqb_refl.
    rewrite IH; [|lia|lia|rewrite length_insert; exact Hlen|exact Hd].
    rewrite take_S_insert by lia. rewrite <- app_assoc.
    f_equal. f_equal. f_equal. rewrite !length_app. cbn [length]. lia.
Qed.

End DecoderFacts.

Section DecoderLanguage.

(** A frame the decoder accepts has the shape of a compact frame. *)
Lemma parse_accepts_shape (data : list byte) (values : list Z) (dataStart : Z)
    (values' : list Z) (start : Z) :
  length values = 8%nat ->
  Relay.parseCompactAudioHeader data values dataStart = (true, values', start) ->
  exists fields payload,
    length fields = 8%nat
    /\ Forall (Forall is_digit) fields
    /\ payload <> []
    /\ data = [CHAR_P; COLON] ++ header_fields fields ++ payload
    /\ values' = map (field_value 0) fields
    /\ start = Z.of_nat (length data) - Z.of_nat (length payload)
    /\ drop (Z.to_nat start) data = payload.
Proof.
  intros Hlen H. unfold Relay.parseCompactAudioHeader in H.
  destruct data as [|c0 [|c1 rest]]; [discriminate..|].
  destruct (_ || _) eqn:Hguard; [discriminate|].
  apply orb_false_elim in Hguard as [Hguard Hc1].
  apply orb_false_elim in Hguard as [_ Hc0].
  apply negb_false_iff, Z.eqb_eq in Hc0, Hc1. subst c0 c1.
  destruct (Relay.header_loop rest 2 0 0 values) as [[[ok idx] field] vals] eqn:Hloop.
  destruct ok; [|discriminate].
  destruct (Nat.eqb_spec field 8) as [->|]; [|discriminate].
  injection H as Hlt <- <-. apply Z.ltb_lt in Hlt.
  apply header_loop_sound in Hloop; [|lia|exact Hlen].
  destruct Hloop as [(Hf & _)|(f & fs & tail & _ & Hfs & Hd & Hds & -> & -> & ->)];
    [discriminate|].
  exists (f :: fs), tail.
  assert (Hne : tail <> []).
  { intros ->. cbn [length] in Hlt. rewrite !length_app in Hlt. cbn [length] in Hlt.
    rewrite length_app in Hlt. cbn [length] in Hlt. lia. }
  assert (Hshape : CHAR_P :: COLON :: f ++ COLON :: header_fields fs ++ tail
                   = [CHAR_P; COLON] ++ header_fields (f :: fs) ++ tail).
  { unfold header_fields. cbn [map concat app]. rewrite <- !app_assoc. reflexivity. }
  split; [cbn [length]; lia|]. split; [constructor; assumption|].
  split; [exact Hne|]. split; [exact Hshape|]. split; [reflexivity|].
  assert (Hstart : 2 + Z.of_nat (length (f ++ COLON :: header_fields fs ++ tail))
                   - Z.of_nat (length tail)
                   = Z.of_nat (length (CHAR_P :: COLON :: f ++ COLON
                                         :: header_fields fs ++ tail))
                     - Z.of_nat (length tail)).
  { cbn [length]. lia. }
  split; [exact Hstart|].
  rewrite Hstart, Hshape.
  rewrite app_assoc. apply drop_app_length'.
  rewrite !length_app. lia.
Qed.

(** A frame of that shape is accepted. *)
Lemma parse_shape_accepted (values : list Z) (dataStart : Z)
    (fields : list (list byte)) (payload : list byte) :
  length values = 8%nat ->
  length fields = 8%nat -> Forall (Forall is_digit) fields -> payload <> [] ->
  let data := [CHAR_P; COLON] ++ header_fields fields ++ payload in
  Relay.parseCompactAudioHeader data values dataStart
  = (true, map (field_value 0) fields,
     Z.of_nat (length data) - Z.of_nat (length payload)).
Proof.
  intros Hlen Hn Hd Hne data. subst data.
  unfold Relay.parseCompactAudioHeader. cbn [app].
  assert (Hfl : (8 <= length (header_fields fields))%nat).
  { clear - Hn. unfold header_fields.
    assert (H : forall l : list (list byte),
               (length l <= length (concat (map (fun f => f ++ [COLON]) l)))%nat).
    { induction l as [|x l IH]; [reflexivity|].
      cbn [map concat length]. rewrite !length_app. cbn [length]. lia. }
    specialize (H fields). lia. }
  destruct payload as [|p payload]; [contradiction|].
  replace (Z.of_nat (length (CHAR_P :: COLON :: header_fields fields ++ p :: payload))
           <? 5) with false
    by (symmetry; apply Z.ltb_ge; cbn [length]; rewrite length_app; lia).
  rewrite !Z.eqb_refl. cbn [negb orb].
  rewrite (header_loop_complete fields (p :: payload) 2 0 values)
    by (assumption || lia).
  cbn [take app]. rewrite Nat.eqb_refl.
  f_equal; [f_equal|].
  + apply Z.ltb_lt. cbn [length]. rewrite length_app. cbn [length]. lia.
  + cbn [length]. rewrite length_app. cbn [length]. lia.
Qed.

End DecoderLanguage.

(** X12.  The frames the compact header decoder accepts are exactly those
    of the form [P:], eight runs of decimal digits (a run may be empty) each
    closed by a colon, and at least one payload byte.  For such a frame the
    decoder returns the eight runs read as C [int]s (an empty run reads as
    0) and the index of the first payload byte, whatever bytes the payload
    holds; any other frame is rejected. *)
Theorem compact_header_decoder_language (data : list byte) (values : list Z)
    (dataStart : Z) :
  length values = 8%nat ->
  (forall values' start,
      Relay.parseCompactAudioHeader data values dataStart = (true, values', start) ->
      exists fields payload,
        length fields = 8%nat
        /\ Forall (Forall is_digit) fields
        /\ payload <> []
        /\ data = [CHAR_P; COLON] ++ header_fields fields ++ payload
        /\ values' = map (field_value 0) fields
        /\ start = Z.of_nat (length data) - Z.of_nat (length payload)
        /\ drop (Z.to_nat start) data = payload)
  /\ (forall fields payload,
        length fields = 8%nat -> Forall (Forall is_digit) fields -> payload <> [] ->
        data = [CHAR_P; COLON] ++ header_fields fields ++ payload ->
        Relay.parseCompactAudioHeader data values dataStart
        = (true, map (field_value 0) fields,
           Z.of_nat (length data) - Z.of_nat (length payload))).
Proof.
  intros Hlen. split.
  - intros values' start H. exact (parse_accepts_shape data values dataStart _ _ Hlen H).
  - intros fields payload Hn Hd Hne ->.
    exact (parse_shape_accepted values dataStart fields payload Hlen Hn Hd Hne).
Qed.

Lemma compact_header_decoder_language_witness :
  length (replicate 8 0) = 8%nat
  /\ length [[49; 50]; []; [55]; [48; 48; 57]; []; []; [49]; [50]] = 8%nat
  /\ Forall (Forall is_digit) [[49; 50]; []; [55]; [48; 48; 57]; []; []; [49]; [50]]
  /\ [58; 0; 80] <> []
  /\ Relay.parseCompactAudioHeader
       ([CHAR_P; COLON]
          ++ header_fields [[49; 50]; []; [55]; [48; 48; 57]; []; []; [49]; [50]]
          ++ [58; 0; 80])
       (replicate 8 0) 0
     = (true, [12; 0; 7; 9; 0; 0; 1; 2], 18).
Proof.
  assert (Hd : Forall (Forall is_digit)
                 [[49; 50]; []; [55]; [48; 48; 57]; []; []; [49]; [50]]).
  { repeat constructor; unfold is_digit; lia. }
  assert (Hne : [58; 0; 80] <> @nil byte) by discriminate.
  split; [reflexivity|]. split; [reflexivity|]. split; [exact Hd|]. split; [exact Hne|].
  refine (eq_trans (proj2 (compact_header_decoder_language
                  ([CHAR_P; COLON]
                     ++ header_fields [[49; 50]; []; [55]; [48; 48; 57]; []; []; [49]; [50]]
                     ++ [58; 0; 80])
                  (replicate 8 0) 0 eq_refl)
               [[49; 50]; []; [55]; [48; 48; 57]; []; []; [49]; [50]] [58; 0; 80]
               eq_refl Hd Hne eq_refl) _).
  vm_compute. reflexivity.
Defined.

(** ** The Relay's coalescing buffer *)

(** The bytes a coalescing buffer holds, and the shape the code keeps it
    in. *)
Definition buffered (c : Relay.Coalescer) : list byte :=
  take (Z.to_nat (Relay.coalesceLen c)) (Relay.coalesceBuf c).

Definition coalescer_ok (size : Z) (c : Relay.Coalescer) : Prop :=
  length (Relay.coalesceBuf c) = Z.to_nat size /\ 0 <= Relay.coalesceLen c <= size.

(** Appending to at most [size] bytes: what does not fit is cut off the end
    of the new bytes. *)
Definition absorb (size : Z) (held new : list byte) : list byte :=
  held ++ take (Z.to_nat size - length held) new.

(** All samples of an 8-bit run as little-endian 16-bit samples. *)
Definition upsample_all (p : list byte) : list byte :=
  flat_map (fun s8 => [pcm_lo s8; pcm_hi s8]) p.

(** An item a producer stored: its array holds [length] bytes. *)
Definition sound_item (it : Relay.NotifyItem) : Prop :=
  filled it /\ 0 <= RingQueue.length it.

Section CoalescerFacts.

Lemma buffered_length size c :
  coalescer_ok size c -> length (buffered c) = Z.to_nat (Relay.coalesceLen c).
Proof. intros [Hl Hr]. unfold buffered. rewrite length_take. lia. Qed.

Lemma coalesce_append_spec size (c : Relay.Coalescer) src n :
  coalescer_ok size c -> 0 <= n <= Z.of_nat (length src) ->
  coalescer_ok size (Relay.coalesce_append size c src n)
  /\ buffered (Relay.coalesce_append size c src n)
     = absorb size (buffered c) (take (Z.to_nat n) src).
Proof.
  intros Hok Hn. pose proof (buffered_length size c Hok) as Hbl.
  destruct Hok as [Hl Hr].
  unfold Relay.coalesce_append, coalescer_ok, buffered, absorb, memcpy_at in *.
  cbn [Relay.coalesceBuf Relay.coalesceLen].
  split.
  - split; [|lia]. rewrite !length_app, !length_take, length_drop. lia.
  - rewrite Hbl, take_take.
    replace ((Z.to_nat size - Z.to_nat (Relay.coalesceLen c)) `min` Z.to_nat n)%nat
      with (Z.to_nat (Z.min n (size - Relay.coalesceLen c))) by lia.
    rewrite app_assoc. apply take_app_length'.
    rewrite length_app, !length_take. lia.
Qed.

(** The conversion loop, all at once: at most 256 samples fit its array. *)
Lemma pcm8_loop_all (n : nat) : forall (samples : list byte) (k : nat),
  (k <= 256)%nat ->
  Relay.pcm8_loop samples n (512 - 2 * Z.of_nat k)
  = upsample_all (take (Nat.min n k) samples).
Proof.
  induction n as [|n IH]; intros samples k Hk; [destruct samples; reflexivity|].
  destruct samples as [|s rest]; [rewrite take_nil; reflexivity|].
  cbn [Relay.pcm8_loop].
  destruct k as [|k].
  - destruct (Z.leb_spec (512 - 2 * Z.of_nat 0 + 2) 512); [lia|].
    rewrite Nat.min_0_r. reflexivity.
  - destruct (Z.leb_spec (512 - 2 * Z.of_nat (S k) + 2) 512); [|lia].
    replace (512 - 2 * Z.of_nat (S k) + 2) with (512 - 2 * Z.of_nat k) by lia.
    rewrite IH by lia. rewrite <- Nat.succ_min_distr. reflexivity.
Qed.

Lemma pcm8_to_pcm16_all (it : Relay.NotifyItem) :
  sound_item it ->
  Relay.pcm8_to_pcm16 it = upsample_all (take 256 (RingQueue.payload it)).
Proof.
  intros [Hf H0]. unfold Relay.pcm8_to_pcm16, RingQueue.payload.
  change 0 with (512 - 2 * Z.of_nat 256) at 1.
  rewrite pcm8_loop_all by lia. rewrite take_take. f_equal. f_equal. lia.
Qed.

Lemma upsample_all_length p : length (upsample_all p) = (2 * length p)%nat.
Proof.
  induction p as [|s p IH]; [reflexivity|].
  cbn [upsample_all flat_map app length] in *. unfold upsample_all in IH. lia.
Qed.

(** What one item adds to the buffer in [loop] and [setup], and in the
    notify task. *)
Definition loop_contribution (x : Z * list byte * Z) : list byte :=
  let '(_, payload, pcm8) := x in
  if negb (pcm8 =? 0) then upsample_all (take 256 payload) else replicate 240 128.

Definition task_contribution (x : Z * list byte * Z) : list byte :=
  let '(_, payload, pcm8) := x in
  if negb (pcm8 =? 0) then upsample_all (take 256 payload) else payload.

Lemma loop_ingest_sized_spec size c (it : Relay.NotifyItem) :
  coalescer_ok size c -> sound_item it ->
  coalescer_ok size (Relay.loop_ingest_sized size c it)
  /\ buffered (Relay.loop_ingest_sized size c it)
     = absorb size (buffered c) (loop_contribution (RingQueue.seen it)).
Proof.
  intros Hok Hit. unfold Relay.loop_ingest_sized, loop_contribution, RingQueue.seen,
    Relay.isPcm8.
  destruct (negb (RingQueue.tag it =? 0)).
  - rewrite pcm8_to_pcm16_all by assumption.
    destruct (coalesce_append_spec size c (upsample_all (take 256 (RingQueue.payload it)))
                (Z.of_nat (length (upsample_all (take 256 (RingQueue.payload it)))))
                Hok ltac:(lia)) as [H1 H2].
    split; [exact H1|]. rewrite H2, Nat2Z.id, firstn_all. reflexivity.
  - destruct (coalesce_append_spec size c (replicate 240 128) 240 Hok
                ltac:(rewrite length_replicate; lia)) as [H1 H2].
    split; [exact H1|]. rewrite H2. reflexivity.
Qed.

Lemma bleNotifyTask_ingest_spec c (it : Relay.NotifyItem) :
  coalescer_ok 1536 c -> sound_item it ->
  coalescer_ok 1536 (Relay.bleNotifyTask_ingest c it)
  /\ buffered (Relay.bleNotifyTask_ingest c it)
     = absorb 1536 (buffered c) (task_contribution (RingQueue.seen it)).
Proof.
  intros Hok Hit. unfold Relay.bleNotifyTask_ingest, task_contribution, RingQueue.seen,
    Relay.isPcm8.
  destruct (negb (RingQueue.tag it =? 0)).
  - rewrite pcm8_to_pcm16_all by assumption.
    destruct (coalesce_append_spec 1536 c (upsample_all (take 256 (RingQueue.payload it)))
                (Z.of_nat (length (upsample_all (take 256 (RingQueue.payload it)))))
                Hok ltac:(lia)) as [H1 H2].
    split; [exact H1|]. rewrite H2, Nat2Z.id, firstn_all. reflexivity.
  - destruct Hit as [Hf H0]. unfold filled in Hf.
    destruct (coalesce_append_spec 1536 c (RingQueue.data it) (RingQueue.length it) Hok
                ltac:(lia)) as [H1 H2].
    split; [exact H1|]. rewrite H2. reflexivity.
Qed.

End CoalescerFacts.

Section FlushFacts.

(** A notification carries between 1 and 160 bytes. *)
Definition notification_sized (v : list byte) : Prop := (1 <= length v <= 160)%nat.

Lemma notify_loop_spec (buf : list byte) (toSend : Z) (n : nat) : forall sent,
  0 <= sent -> toSend - sent <= Z.of_nat n ->
  concat (Relay.notify_loop n buf sent toSend)
  = take (Z.to_nat (toSend - sent)) (drop (Z.to_nat sent) buf)
  /\ (toSend <= Z.of_nat (length buf) ->
      Forall notification_sized (Relay.notify_loop n buf sent toSend)).
Proof.
  induction n as [|n IH]; intros sent H0 Hn.
  - cbn. replace (Z.to_nat (toSend - sent)) with 0%nat by lia. split; [reflexivity|].
    constructor.
  - cbn [Relay.notify_loop]. destruct (Z.ltb_spec sent toSend) as [Hlt|Hge].
    + destruct (IH (sent + Z.min 160 (toSend - sent)) ltac:(lia) ltac:(lia)) as [Hc Hs].
      split.
      * cbn [concat]. rewrite Hc.
        replace (Z.to_nat (sent + Z.min 160 (toSend - sent)))
          with (Z.to_nat sent + Z.to_nat (Z.min 160 (toSend - sent)))%nat by lia.
        rewrite <- drop_drop, take_take_drop. f_equal. lia.
      * intros Hb. constructor; [|apply Hs; exact Hb].
        unfold notification_sized. rewrite length_take, length_drop. lia.
    + replace (Z.to_nat (toSend - sent)) with 0%nat by lia. split; [reflexivity|].
      constructor.
Qed.

(** The flush hands over the front of the buffer, in pieces, and keeps the
    rest at the front. *)
Lemma flush_spec size cap (c : Relay.Coalescer) :
  coalescer_ok size c -> 0 <= cap ->
  let toSend := Z.to_nat (Z.min (Relay.coalesceLen c) cap) in
  concat (fst (Relay.flush cap c)) = take toSend (buffered c)
  /\ buffered (snd (Relay.flush cap c)) = drop toSend (buffered c)
  /\ coalescer_ok size (snd (Relay.flush cap c))
  /\ Forall notification_sized (fst (Relay.flush cap c)).
Proof.
  intros [Hl Hr] Hcap toSend. subst toSend. unfold Relay.flush. cbn [fst snd].
  set (toSend := Z.min (Relay.coalesceLen c) cap).
  destruct (notify_loop_spec (Relay.coalesceBuf c) toSend (Z.to_nat toSend) 0
              ltac:(lia) ltac:(lia)) as [Hc Hs].
  rewrite Z.sub_0_r in Hc. cbn [Z.to_nat drop] in Hc.
  split; [|split; [|split]].
  - rewrite Hc. unfold buffered. rewrite take_take. f_equal. lia.
  - unfold buffered. cbn [Relay.coalesceBuf Relay.coalesceLen].
    destruct (Z.ltb_spec 0 (Relay.coalesceLen c - toSend)) as [Hrem|Hrem].
    + unfold memmove_front. rewrite take_app_le by (rewrite length_take, length_drop; lia).
      rewrite take_take, Nat.min_id. rewrite take_drop_commute. f_equal. f_equal. lia.
    + replace (Z.to_nat (Relay.coalesceLen c - toSend)) with 0%nat by lia.
      rewrite drop_ge by (rewrite length_take; lia). reflexivity.
  - unfold coalescer_ok. cbn [Relay.coalesceBuf Relay.coalesceLen].
    split; [|lia].
    destruct (Z.ltb_spec 0 (Relay.coalesceLen c - toSend)) as [Hrem|Hrem]; [|exact Hl].
    unfold memmove_front. rewrite length_app, length_take, !length_drop. lia.
  - apply Hs. lia.
Qed.

(** The drain loop of [loop] and [setup] ingests the oldest items of the
    queue, in order, each under the tag of the caller's item. *)
Lemma drain_spec (ingest : Relay.Coalescer -> Relay.NotifyItem -> Relay.Coalescer)
    (contribution : Z * list byte * Z -> list byte) (size : Z) :
  (forall c it, coalescer_ok size c -> sound_item it ->
     coalescer_ok size (ingest c it)
     /\ buffered (ingest c it) = absorb size (buffered c) (contribution (RingQueue.seen it))) ->
  forall (n : nat) (q : Relay.NotifyQueue) (item : Relay.NotifyItem) (c : Relay.Coalescer),
    RingQueue.wf Relay.NOTIFY_RING_BITS q ->
    Forall sound_item (RingQueue.contents Relay.NOTIFY_RING_BITS q) ->
    coalescer_ok size c ->
    exists q' item' c',
      Relay.Consumer.drain ingest n q item c = (q', item', c')
      /\ RingQueue.wf Relay.NOTIFY_RING_BITS q'
      /\ RingQueue.contents Relay.NOTIFY_RING_BITS q'
         = drop n (RingQueue.contents Relay.NOTIFY_RING_BITS q)
      /\ coalescer_ok size c'
      /\ buffered c'
         = fold_left (absorb size)
             (map (fun it => contribution (treated (Relay.isPcm8 item) it))
                  (take n (RingQueue.contents Relay.NOTIFY_RING_BITS q)))
             (buffered c).
Proof.
  intros Hing.
  induction n as [|n IH]; intros q item c Hwf Hs Hok.
  - exists q, item, c. cbn. rewrite drop_0. auto.
  - cbn [Relay.Consumer.drain].
    pose proof (contents_length Relay.NOTIFY_RING_BITS notify_bits_ok q Hwf) as Hlen.
    pose proof (count_range Relay.NOTIFY_RING_BITS notify_bits_ok q) as Hcr.
    destruct (Z.eq_dec (RingQueue.count Relay.NOTIFY_RING_BITS q) 0) as [E0|Hne].
    + assert (Hnil : RingQueue.contents Relay.NOTIFY_RING_BITS q = []).
      { apply length_zero_iff_nil. lia. }
      rewrite consumer_pop_empty by (eapply count_empty; eauto using notify_bits_ok).
      exists q, item, c. rewrite Hnil. cbn. auto.
    + destruct (consumer_pop_contents q item Hwf ltac:(lia))
        as (q1 & it & rest & Hcont & Hpop & Hwf1 & Hc1 & Hrest).
      rewrite Hpop. rewrite Hcont in Hs. apply Forall_cons in Hs as [[Hfit H0] Hs].
      set (item1 := RingQueue.mkItem (RingQueue.length it)
                      (memcpy (RingQueue.data item) (RingQueue.data it)
                              (Z.to_nat (RingQueue.length it)))
                      (RingQueue.tag item)).
      assert (Hsound1 : sound_item item1).
      { split; [|exact H0]. unfold filled in *. subst item1. cbn.
        unfold memcpy. rewrite length_app, length_take. lia. }
      assert (Hseen1 : RingQueue.seen item1 = treated (Relay.isPcm8 item) it)
        by (apply seen_consumer_item; exact Hfit).
      destruct (Hing c item1 Hok Hsound1) as [Hok1 Hbuf1].
      destruct (IH q1 item1 (ingest c item1) Hwf1 ltac:(rewrite Hrest; exact Hs) Hok1)
        as (q' & item' & c' & Hd & Hwf' & Hcont' & Hok' & Hbuf').
      exists q', item', c'. split; [exact Hd|]. split; [exact Hwf'|].
      rewrite Hcont. cbn [drop take map fold_left].
      split; [rewrite Hcont', Hrest; reflexivity|]. split; [exact Hok'|].
      rewrite Hbuf', Hbuf1, Hseen1, Hrest. reflexivity.
Qed.

(** The ingest loop of [bleNotifyTask]: the item of iteration [k] is
    ingested under the tag the stack holds for it in that iteration. *)
Lemma task_drain_spec (locals : nat -> Relay.NotifyItem) :
  forall (n i : nat) (q : Relay.NotifyQueue) (c : Relay.Coalescer),
    RingQueue.wf Relay.NOTIFY_RING_BITS q ->
    Forall sound_item (RingQueue.contents Relay.NOTIFY_RING_BITS q) ->
    coalescer_ok 1536 c ->
    exists q' c',
      Relay.Consumer.task_drain n i q locals c = (q', c')
      /\ RingQueue.wf Relay.NOTIFY_RING_BITS q'
      /\ RingQueue.contents Relay.NOTIFY_RING_BITS q'
         = drop n (RingQueue.contents Relay.NOTIFY_RING_BITS q)
      /\ coalescer_ok 1536 c'
      /\ buffered c'
         = fold_left (absorb 1536)
             (imap (fun k it =>
                      task_contribution (treated (Relay.isPcm8 (locals (i + k)%nat)) it))
                   (take n (RingQueue.contents Relay.NOTIFY_RING_BITS q)))
             (buffered c).
Proof.
  induction n as [|n IH]; intros i q c Hwf Hs Hok.
  - exists q, c. cbn. rewrite drop_0. auto.
  - cbn [Relay.Consumer.task_drain].
    pose proof (contents_length Relay.NOTIFY_RING_BITS notify_bits_ok q Hwf) as Hlen.
    pose proof (count_range Relay.NOTIFY_RING_BITS notify_bits_ok q) as Hcr.
    destruct (Z.eq_dec (RingQueue.count Relay.NOTIFY_RING_BITS q) 0) as [E0|Hne].
    + assert (Hnil : RingQueue.contents Relay.NOTIFY_RING_BITS q = []).
      { apply length_zero_iff_nil. lia. }
      rewrite consumer_pop_empty by (eapply count_empty; eauto using notify_bits_ok).
      exists q, c. rewrite Hnil. cbn. auto.
    + destruct (consumer_pop_contents q (locals i) Hwf ltac:(lia))
        as (q1 & it & rest & Hcont & Hpop & Hwf1 & Hc1 & Hrest).
      rewrite Hpop. rewrite Hcont in Hs. apply Forall_cons in Hs as [[Hfit H0] Hs].
      set (item1 := RingQueue.mkItem (RingQueue.length it)
                      (memcpy (RingQueue.data (locals i)) (RingQueue.data it)
                              (Z.to_nat (RingQueue.length it)))
                      (RingQueue.tag (locals i))).
      assert (Hsound1 : sound_item item1).
      { split; [|exact H0]. unfold filled in *. subst item1. cbn.
        unfold memcpy. rewrite length_app, length_take. lia. }
      assert (Hseen1 : RingQueue.seen item1 = treated (Relay.isPcm8 (locals i)) it)
        by (apply seen_consumer_item; exact Hfit).
      destruct (bleNotifyTask_ingest_spec c item1 Hok Hsound1) as [Hok1 Hbuf1].
      destruct (IH (S i) q1 (Relay.bleNotifyTask_ingest c item1) Hwf1
                   ltac:(rewrite Hrest; exact Hs) Hok1)
        as (q' & c' & Hd & Hwf' & Hcont' & Hok' & Hbuf').
      exists q', c'. split; [exact Hd|]. split; [exact Hwf'|].
      rewrite Hcont. cbn [drop take]. rewrite imap_cons. cbn [fold_left].
      split; [rewrite Hcont', Hrest; reflexivity|]. split; [exact Hok'|].
      rewrite Hbuf', Hbuf1, Hseen1, Hrest, Nat.add_0_r.
      f_equal. apply imap_ext. intros k x _. unfold compose.
      replace (S i + k)%nat with (i + S k)%nat by lia. reflexivity.
Qed.

End FlushFacts.

(** X13.  One pass of the notify block of the Relay's [loop], phone
    connected: the oldest items of the queue, at most 32, are taken in FIFO
    order.  The tag read for every one of them is the one the block's own
    item holds, which [notifyQueuePop] never writes; the tag the producer
    stored plays no part.  If that tag is not zero each item's bytes are
    upsampled as 8-bit samples, if it is zero each item adds 240 bytes of
    value 128.  The contributions are cut to the room left in the 4096
    bytes; what is notified followed by what stays buffered is exactly that,
    in order; a notification carries 1 to 160 bytes, a pass notifies at most
    1440 bytes, and nothing is notified while fewer than 200 bytes are
    buffered and the timer is not due.  With no phone connected the block
    does nothing. *)
Theorem loop_pass_stream (q : Relay.NotifyQueue) (item : Relay.NotifyItem)
    (c : Relay.Coalescer) (due : bool) :
  RingQueue.wf Relay.NOTIFY_RING_BITS q ->
  Forall sound_item (RingQueue.contents Relay.NOTIFY_RING_BITS q) ->
  coalescer_ok 4096 c ->
  let ingested := take 32 (RingQueue.contents Relay.NOTIFY_RING_BITS q) in
  let stream :=
    fold_left (absorb 4096)
              (map (fun it =>
                      if Relay.isPcm8 item =? 0 then replicate 240 128
                      else upsample_all (take 256 (RingQueue.payload it)))
                   ingested)
              (buffered c) in
  (exists sent q' c',
      Relay.Consumer.loop_flush true due q item c = (sent, q', c')
      /\ RingQueue.wf Relay.NOTIFY_RING_BITS q'
      /\ RingQueue.contents Relay.NOTIFY_RING_BITS q'
         = drop 32 (RingQueue.contents Relay.NOTIFY_RING_BITS q)
      /\ coalescer_ok 4096 c'
      /\ concat sent ++ buffered c' = stream
      /\ Forall notification_sized sent
      /\ (length (concat sent) <= 1440)%nat
      /\ (due = false -> (length stream < 200)%nat -> sent = [])
      /\ (due = true \/ (200 <= length stream)%nat ->
          length (concat sent) = Nat.min (length stream) 1440))
  /\ Relay.Consumer.loop_flush false due q item c = ([], q, c).
Proof.
  intros Hwf Hs Hok ingested stream. split; [|reflexivity].
  unfold Relay.Consumer.loop_flush.
  destruct (drain_spec Relay.loop_ingest loop_contribution 4096
              (fun c it => loop_ingest_sized_spec 4096 c it) 32 q item c Hwf Hs Hok)
    as (q1 & item1 & c1 & Hd & Hwf1 & Hcont1 & Hok1 & Hbuf1).
  rewrite Hd. fold ingested in Hbuf1.
  assert (Hstream : buffered c1 = stream).
  { rewrite Hbuf1. subst stream. f_equal. apply map_ext. intros it.
    unfold loop_contribution, treated. destruct (Relay.isPcm8 item =? 0); reflexivity. }
  clear Hbuf1. rename Hstream into Hbuf1.
  pose proof (buffered_length 4096 c1 Hok1) as Hbl. rewrite Hbuf1 in Hbl.
  destruct (flush_spec 4096 1440 c1 Hok1 ltac:(lia)) as (Hf1 & Hf2 & Hf3 & Hf4).
  destruct ((200 <=? Relay.coalesceLen c1) || due) eqn:Hgo.
  - destruct (Relay.flush 1440 c1) as [sent c2]. cbn [fst snd] in *.
    exists sent, q1, c2. split; [reflexivity|]. split; [exact Hwf1|].
    split; [exact Hcont1|]. split; [exact Hf3|].
    split; [rewrite Hf1, Hf2, take_drop; exact Hbuf1|]. split; [exact Hf4|].
    assert (Hlen : length (concat sent) = Nat.min (length stream) 1440).
    { rewrite Hf1, length_take, Hbuf1. destruct Hok1 as [_ Hr]. lia. }
    split; [lia|]. split; [|intros _; exact Hlen].
    intros -> Hshort. rewrite orb_false_r in Hgo. apply Z.leb_le in Hgo. lia.
  - apply orb_false_elim in Hgo as [Hgo ->]. apply Z.leb_gt in Hgo.
    exists [], q1, c1. split; [reflexivity|]. split; [exact Hwf1|].
    split; [exact Hcont1|]. split; [exact Hok1|]. split; [exact Hbuf1|].
    split; [constructor|]. split; [cbn; lia|]. split; [reflexivity|].
    intros [H|H]; [discriminate|]. destruct Hok1 as [_ Hr]. lia.
Qed.

Lemma loop_pass_stream_witness :
  let q := snd (Relay.notifyQueuePushFromISR Relay.notifyQueue_init [0; 128; 255] 3 1) in
  let item := RingQueue.mkItem 0 (replicate 512 0) 0 in
  let c := Relay.mkCoalescer (replicate 4096 0) 0 in
  RingQueue.wf Relay.NOTIFY_RING_BITS q
  /\ Forall sound_item (RingQueue.contents Relay.NOTIFY_RING_BITS q)
  /\ coalescer_ok 4096 c
  /\ exists sent q' c',
       Relay.Consumer.loop_flush true true q item c = (sent, q', c')
       /\ concat sent ++ buffered c' = replicate 240 128.
Proof.
  cbv zeta.
  set (q := snd (Relay.notifyQueuePushFromISR Relay.notifyQueue_init [0; 128; 255] 3 1)).
  assert (Hwf : RingQueue.wf Relay.NOTIFY_RING_BITS q).
  { constructor;
      [split; [apply Z.leb_le | apply Z.ltb_lt]; vm_compute; reflexivity ..
      | vm_compute; reflexivity]. }
  assert (Hs : Forall sound_item (RingQueue.contents Relay.NOTIFY_RING_BITS q)).
  { vm_compute. repeat constructor; intros H; discriminate H. }
  assert (Hok : coalescer_ok 4096 (Relay.mkCoalescer (replicate 4096 0) 0)).
  { split; [reflexivity | cbn; lia]. }
  destruct (proj1 (loop_pass_stream q (RingQueue.mkItem 0 (replicate 512 0) 0)
                     (Relay.mkCoalescer (replicate 4096 0) 0) true Hwf Hs Hok))
    as (sent & q' & c' & Hrun & _ & _ & _ & Hstream & _).
  split; [exact Hwf|]. split; [exact Hs|]. split; [exact Hok|].
  exists sent, q', c'. split; [exact Hrun|]. rewrite Hstream. vm_compute. reflexivity.
Defined.

(** X14.  One cycle of [bleNotifyTask]: the oldest items of the queue, at
    most 8, are taken in FIFO order.  The tag read for the item of an
    iteration is the one the stack holds for the item declared in that
    iteration, which [notifyQueuePop] never writes; the tag the producer
    stored plays no part.  If that tag is not zero the item's bytes are
    upsampled as 8-bit samples, if it is zero they are added unchanged.  The
    contributions are cut to the room left in the 1536 bytes; what is
    notified followed by what stays buffered is exactly that, in order; a
    notification carries 1 to 160 bytes and a cycle notifies at most 1280
    bytes; nothing is notified without a phone or while fewer than 200
    bytes are buffered. *)
Theorem notify_task_stream (connected : bool) (q : Relay.NotifyQueue)
    (locals : nat -> Relay.NotifyItem) (c : Relay.Coalescer) :
  RingQueue.wf Relay.NOTIFY_RING_BITS q ->
  Forall sound_item (RingQueue.contents Relay.NOTIFY_RING_BITS q) ->
  coalescer_ok 1536 c ->
  let ingested := take 8 (RingQueue.contents Relay.NOTIFY_RING_BITS q) in
  let stream :=
    fold_left (absorb 1536)
              (imap (fun k it =>
                       if Relay.isPcm8 (locals k) =? 0 then RingQueue.payload it
                       else upsample_all (take 256 (RingQueue.payload it)))
                    ingested)
              (buffered c) in
  exists sent q' c',
    Relay.Consumer.bleNotifyTask_cycle connected q locals c = (sent, q', c')
    /\ RingQueue.wf Relay.NOTIFY_RING_BITS q'
    /\ RingQueue.contents Relay.NOTIFY_RING_BITS q'
       = drop 8 (RingQueue.contents Relay.NOTIFY_RING_BITS q)
    /\ coalescer_ok 1536 c'
    /\ concat sent ++ buffered c' = stream
    /\ Forall notification_sized sent
    /\ (connected = false \/ (length stream < 200)%nat -> sent = [])
    /\ (connected = true -> (200 <= length stream)%nat ->
        length (concat sent) = Nat.min (length stream) 1280).
Proof.
  intros Hwf Hs Hok ingested stream.
  unfold Relay.Consumer.bleNotifyTask_cycle.
  destruct (task_drain_spec locals 8 0 q c Hwf Hs Hok)
    as (q1 & c1 & Hd & Hwf1 & Hcont1 & Hok1 & Hbuf1).
  rewrite Hd. fold ingested in Hbuf1.
  assert (Hstream : buffered c1 = stream).
  { rewrite Hbuf1. subst stream. f_equal. apply imap_ext. intros k it _.
    unfold task_contribution, treated. cbn [Nat.add].
    destruct (Relay.isPcm8 (locals k) =? 0); reflexivity. }
  clear Hbuf1. rename Hstream into Hbuf1.
  pose proof (buffered_length 1536 c1 Hok1) as Hbl. rewrite Hbuf1 in Hbl.
  destruct (flush_spec 1536 1280 c1 Hok1 ltac:(lia)) as (Hf1 & Hf2 & Hf3 & Hf4).
  destruct (connected && (200 <=? Relay.coalesceLen c1)) eqn:Hgo.
  - apply andb_prop in Hgo as [-> Hgo]. apply Z.leb_le in Hgo.
    destruct (Relay.flush 1280 c1) as [sent c2]. cbn [fst snd] in *.
    exists sent, q1, c2. split; [reflexivity|]. split; [exact Hwf1|].
    split; [exact Hcont1|]. split; [exact Hf3|].
    split; [rewrite Hf1, Hf2, take_drop; exact Hbuf1|]. split; [exact Hf4|].
    split; [intros [H|H]; [discriminate | lia]|].
    intros _ _. rewrite Hf1, length_take, Hbuf1. destruct Hok1 as [_ Hr]. lia.
  - exists [], q1, c1. split; [reflexivity|]. split; [exact Hwf1|].
    split; [exact Hcont1|]. split; [exact Hok1|]. split; [exact Hbuf1|].
    split; [constructor|]. split; [reflexivity|].
    intros -> Hlong. cbn [andb] in Hgo. apply Z.leb_gt in Hgo. lia.
Qed.

Lemma notify_task_stream_witness :
  let q := snd (Relay.notifyQueuePushFromISR Relay.notifyQueue_init
                  (replicate 200 7) 200 1) in
  let locals := fun _ : nat => RingQueue.mkItem 0 (replicate 512 0) 0 in
  let c := Relay.mkCoalescer (replicate 1536 0) 0 in
  RingQueue.wf Relay.NOTIFY_RING_BITS q
  /\ Forall sound_item (RingQueue.contents Relay.NOTIFY_RING_BITS q)
  /\ coalescer_ok 1536 c
  /\ exists sent q' c',
       Relay.Consumer.bleNotifyTask_cycle true q locals c = (sent, q', c')
       /\ concat sent ++ buffered c' = replicate 200 7
       /\ sent = [replicate 160 7; replicate 40 7].
Proof.
  cbv zeta.
  set (q := snd (Relay.notifyQueuePushFromISR Relay.notifyQueue_init
                   (replicate 200 7) 200 1)).
  assert (Hwf : RingQueue.wf Relay.NOTIFY_RING_BITS q).
  { constructor;
      [split; [apply Z.leb_le | apply Z.ltb_lt]; vm_compute; reflexivity ..
      | vm_compute; reflexivity]. }
  assert (Hs : Forall sound_item (RingQueue.contents Relay.NOTIFY_RING_BITS q)).
  { vm_compute. repeat constructor; intros H; discriminate H. }
  assert (Hok : coalescer_ok 1536 (Relay.mkCoalescer (replicate 1536 0) 0)).
  { split; [reflexivity | cbn; lia]. }
  destruct (notify_task_stream true q (fun _ => RingQueue.mkItem 0 (replicate 512 0) 0)
              (Relay.mkCoalescer (replicate 1536 0) 0) Hwf Hs Hok)
    as (sent & q' & c' & Hrun & _ & _ & _ & Hstream & _).
  split; [exact Hwf|]. split; [exact Hs|]. split; [exact Hok|].
  exists sent, q', c'. split; [exact Hrun|].
  split; [rewrite Hstream; vm_compute; reflexivity|].
  vm_compute in Hrun. injection Hrun as <- _ _. reflexivity.
Defined.

(** ** The Relay's receive callback: the binary frame formats *)

Section ReceiveFacts.

(** What a push does to the Relay's queue. *)
Lemma notify_push_effect (q : Relay.NotifyQueue) buf len pcm8 :
  RingQueue.wf Relay.NOTIFY_RING_BITS q ->
  0 <= len <= Z.of_nat (length buf) ->
  let q' := snd (Relay.notifyQueuePushFromISR q buf len pcm8) in
  RingQueue.wf Relay.NOTIFY_RING_BITS q'
  /\ (Forall sound_item (RingQueue.contents Relay.NOTIFY_RING_BITS q) ->
      Forall sound_item (RingQueue.contents Relay.NOTIFY_RING_BITS q'))
  /\ (RingQueue.count Relay.NOTIFY_RING_BITS q < 63 ->
      map RingQueue.seen (RingQueue.contents Relay.NOTIFY_RING_BITS q')
      = map RingQueue.seen (RingQueue.contents Relay.NOTIFY_RING_BITS q)
        ++ [RingQueue.stored (buf, len, pcm8)])
  /\ (RingQueue.count Relay.NOTIFY_RING_BITS q = 63 -> q' = q).
Proof.
  intros Hwf Hlen q'. subst q'.
  assert (H6 : 0 <= Relay.NOTIFY_RING_BITS <= 16) by (unfold Relay.NOTIFY_RING_BITS; lia).
  assert (Hsize : RingQueue.RING_SIZE Relay.NOTIFY_RING_BITS = 64) by reflexivity.
  pose proof (count_range Relay.NOTIFY_RING_BITS H6 q) as Hcr.
  unfold Relay.notifyQueuePushFromISR.
  destruct (Z.eq_dec (RingQueue.count Relay.NOTIFY_RING_BITS q) 63) as [Efull|Enf].
  - rewrite (push_full Relay.NOTIFY_RING_BITS H6 q buf len pcm8 Hwf) by lia.
    cbn [snd]. split; [exact Hwf|]. split; [auto|]. split; [lia | reflexivity].
  - destruct (push_contents Relay.NOTIFY_RING_BITS H6 q buf len pcm8 Hwf ltac:(lia))
      as (q1 & old & Hp & Hwf1 & Hc1 & Hcont1).
    rewrite Hp. cbn [snd]. split; [exact Hwf1|]. split; [|split; [|lia]].
    + intros Hs. rewrite Hcont1. apply Forall_app. split; [exact Hs|].
      apply Forall_singleton. split; [apply filled_write_slot; exact Hlen|].
      cbn. unfold RingQueue.clip_len. destruct (256 <? len); lia.
    + intros _. rewrite Hcont1, map_app. cbn [map].
      rewrite payload_write_slot by exact Hlen. reflexivity.
Qed.

End ReceiveFacts.

(** X15.  A frame built by the Hub's encoder (fields within the range of a
    C [int], at least one payload byte) is taken by the Relay's receive
    callback as an audio chunk: it is acknowledged to the coordinator with
    its sequence number and chunk index, counted (one packet, the payload's
    length in bytes), and, when a phone is connected and the queue has room,
    its payload (at most the first 256 bytes) is queued behind the items
    already waiting, marked as raw 16-bit audio.  Without a phone, or with a
    full queue, the queue stays as it was; the acknowledgement is sent all
    the same. *)
Theorem relay_accepts_hub_frame (st : Relay.State) (v0 v1 v2 v3 v4 v5 v6 v7 : Z)
    (payload : list byte) (values : list Z) (processed : list byte) (now : Z) :
  Forall (fun v => 0 <= v < 2147483648) [v0; v1; v2; v3; v4; v5; v6; v7] ->
  payload <> [] ->
  length values = 8%nat ->
  length processed = 256%nat ->
  RingQueue.wf Relay.NOTIFY_RING_BITS (Relay.notifyQueue st) ->
  let frame := Hub.compact_header v0 v1 v2 v3 v4 v5 v6 v7 ++ COLON :: payload in
  let q := Relay.notifyQueue st in
  exists st',
    Relay.OnDataRecv_frames st frame values processed now
    = Relay.Handled [Relay.AudioChunkAck (Relay.esp32_a_mac st) v0 v1 "received" now] st'
    /\ Relay.packetsReceived st' = to_u32 (Relay.packetsReceived st + 1)
    /\ Relay.bytesReceived st'
       = to_u32 (Relay.bytesReceived st + Z.of_nat (length payload))
    /\ RingQueue.wf Relay.NOTIFY_RING_BITS (Relay.notifyQueue st')
    /\ (Relay.bleDeviceConnected st = true ->
        RingQueue.count Relay.NOTIFY_RING_BITS q < 63 ->
        map RingQueue.seen (RingQueue.contents Relay.NOTIFY_RING_BITS (Relay.notifyQueue st'))
        = map RingQueue.seen (RingQueue.contents Relay.NOTIFY_RING_BITS q)
          ++ [(Z.min (Z.of_nat (length payload)) 256, take 256 payload, 0)])
    /\ (Relay.bleDeviceConnected st = false
        \/ RingQueue.count Relay.NOTIFY_RING_BITS q = 63 ->
        Relay.notifyQueue st' = q).
Proof.
  intros Hv Hne Hvals Hproc Hwf frame q.
  pose proof (parse_compact_frame v0 v1 v2 v3 v4 v5 v6 v7 payload values 0 Hv Hne Hvals)
    as Hparse.
  cbv zeta in Hparse. fold frame in Hparse.
  set (text := Hub.compact_header v0 v1 v2 v3 v4 v5 v6 v7) in *.
  pose proof (compact_header_length v0 v1 v2 v3 v4 v5 v6 v7) as Htl. fold text in Htl.
  assert (Hpl : (1 <= length payload)%nat) by (destruct payload; [contradiction | cbn; lia]).
  assert (Hfl : length frame = (length text + 1 + length payload)%nat).
  { subst frame. rewrite length_app. cbn [length]. lia. }
  assert (H0 : nth 0 frame 0 = CHAR_P) by reflexivity.
  assert (H1 : nth 1 frame 0 = COLON) by reflexivity.
  assert (Hdrop : drop (Z.to_nat (Z.of_nat (length text) + 1)) frame = payload).
  { subst frame. replace (Z.to_nat (Z.of_nat (length text) + 1)) with (length text + 1)%nat
      by lia.
    rewrite <- drop_drop, drop_app_length. reflexivity. }
  set (n := Z.of_nat (length payload)) in *.
  set (copyLen := if n <? 256 then n else 256).
  assert (Hcopy : copyLen = Z.min n 256).
  { subst copyLen. destruct (Z.ltb_spec n 256); lia. }
  unfold Relay.OnDataRecv_frames. cbv beta zeta.
  rewrite H0, H1, Hparse, !Z.eqb_refl.
  replace (2 <? Z.of_nat (length frame)) with true by (symmetry; apply Z.ltb_lt; lia).
  replace (0 <? Z.of_nat (length text) + 1) with true by (symmetry; apply Z.ltb_lt; lia).
  replace (Z.of_nat (length text) + 1 <? Z.of_nat (length frame)) with true
    by (symmetry; apply Z.ltb_lt; lia).
  cbn [andb nth].
  replace (Z.of_nat (length frame) - (Z.of_nat (length text) + 1)) with n by lia.
  rewrite Hdrop. unfold Relay.decompressOptimizedAudio.
  replace (n <=? 0) with false by (symmetry; apply Z.leb_gt; lia).
  cbn [orb Z.leb Z.compare]. fold copyLen.
  replace (copyLen <=? 0) with false by (symmetry; apply Z.leb_gt; lia).
  replace (256 <? copyLen) with false by (symmetry; apply Z.ltb_ge; lia).
  cbn [orb].
  assert (Hu16 : to_u16 copyLen = copyLen) by (unfold to_u16; apply Z.mod_small; lia).
  rewrite Hu16.
  set (buf := memcpy processed payload (Z.to_nat copyLen)).
  assert (Hbuf : 0 <= copyLen <= Z.of_nat (length buf)).
  { subst buf. unfold memcpy. rewrite length_app, length_take, length_drop. lia. }
  destruct (notify_push_effect q buf copyLen 0 Hwf Hbuf) as (Hwf' & _ & Hroom & Hfull).
  assert (Hstored : RingQueue.stored (buf, copyLen, 0)
                    = (Z.min n 256, take 256 payload, 0)).
  { unfold RingQueue.stored, RingQueue.clipped, RingQueue.clip_len.
    replace (256 <? copyLen) with false by (symmetry; apply Z.ltb_ge; lia).
    subst buf. unfold memcpy.
    rewrite take_app_le by (rewrite length_take; lia).
    rewrite take_take, Nat.min_id, Hcopy. f_equal. f_equal.
    destruct (Z.le_gt_cases n 256).
    - rewrite !take_ge by lia. reflexivity.
    - f_equal. lia. }
  eexists. split; [reflexivity|].
  cbn [Relay.packetsReceived Relay.bytesReceived Relay.notifyQueue
       Relay.count_packet Relay.set_queue].
  fold q.
  split; [reflexivity|]. split; [reflexivity|].
  destruct (Relay.bleDeviceConnected st).
  - split; [exact Hwf'|]. split.
    + intros _ Hc. rewrite (Hroom Hc), Hstored. reflexivity.
    + intros [H|H]; [discriminate | exact (Hfull H)].
  - split; [exact Hwf|]. split; [intros H; discriminate | reflexivity].
Qed.

(** The Relay after [setup], and with a phone connected. *)
Definition relay_boot : Relay.State :=
  Relay.mkState Relay.notifyQueue_init false true 0 0 (0, 0, 0, 0, 0, 0)
                false false 0 0 0.

Definition relay_with_phone : Relay.State :=
  Relay.mkState Relay.notifyQueue_init true true 0 0 (16, 0, 59, 72, 156, 60)
                true true 0 0 0.

(** An [R:] frame carrying [payload]. *)
Definition CHAR_R_frame (payload : list byte) : list byte :=
  Relay.CHAR_R :: COLON :: payload.

Lemma relay_accepts_hub_frame_witness :
  Forall (fun v => 0 <= v < 2147483648) [7; 0; 1; 5000; 16000; 16; 128; 128]
  /\ [1; 2; 3; 4] <> []
  /\ length (replicate 8 0) = 8%nat
  /\ length (replicate 256 0) = 256%nat
  /\ RingQueue.wf Relay.NOTIFY_RING_BITS (Relay.notifyQueue relay_with_phone)
  /\ exists st',
       Relay.OnDataRecv_frames relay_with_phone
         (Hub.compact_header 7 0 1 5000 16000 16 128 128 ++ COLON :: [1; 2; 3; 4])
         (replicate 8 0) (replicate 256 0) 9000
       = Relay.Handled
           [Relay.AudioChunkAck (16, 0, 59, 72, 156, 60) 7 0 "received" 9000] st'
       /\ map RingQueue.seen
            (RingQueue.contents Relay.NOTIFY_RING_BITS (Relay.notifyQueue st'))
          = [(4, [1; 2; 3; 4], 0)].
Proof.
  assert (Hv : Forall (fun v => 0 <= v < 2147483648) [7; 0; 1; 5000; 16000; 16; 128; 128])
    by (repeat constructor; lia).
  assert (Hne : [1; 2; 3; 4] <> @nil byte) by discriminate.
  destruct (relay_accepts_hub_frame relay_with_phone 7 0 1 5000 16000 16 128 128
              [1; 2; 3; 4] (replicate 8 0) (replicate 256 0) 9000
              Hv Hne eq_refl eq_refl notifyQueue_init_wf)
    as (st' & Hrecv & _ & _ & _ & Hroom & _).
  split; [exact Hv|]. split; [exact Hne|]. split; [reflexivity|]. split; [reflexivity|].
  split; [exact notifyQueue_init_wf|].
  exists st'. split; [exact Hrecv|].
  rewrite Hroom; [reflexivity | reflexivity | vm_compute; reflexivity].
Defined.

Section LegacyFrames.

(** A 16-bit length sent low byte first. *)
Lemma le16_value (l0 l1 : Z) :
  0 <= l0 < 256 -> 0 <= l1 < 256 ->
  to_u16 (Z.lor l0 (Z.shiftl l1 8)) = l0 + 256 * l1.
Proof.
  intros H0 H1. rewrite Z.shiftl_mul_pow2 by lia. change (2 ^ 8) with 256.
  assert (Hland : Z.land l0 (l1 * 256) = 0).
  { apply Z.bits_inj'. intros k Hk. rewrite Z.land_spec, Z.bits_0.
    destruct (Z.lt_ge_cases k 8).
    - change 256 with (2 ^ 8). rewrite (Z.mul_pow2_bits_low l1 8 k) by lia.
      apply andb_false_r.
    - replace (Z.testbit l0 k) with false; [reflexivity|].
      symmetry. destruct (Z.eq_dec l0 0) as [->|Hne]; [apply Z.bits_0|].
      apply Z.bits_above_log2; [lia|].
      assert (Z.log2 l0 < 8) by (apply Z.log2_lt_pow2; lia). lia. }
  pose proof (Z.add_lor_land l0 (l1 * 256)) as Hadd. rewrite Hland in Hadd.
  unfold to_u16. rewrite Z.mod_small by lia. lia.
Qed.

End LegacyFrames.

(** X16.  The two legacy 8-bit formats.  An [R:] frame queues the bytes
    after the prefix, and a [WM] frame of type 0 whose declared length (two
    bytes, low byte first) is positive and covered by the bytes present
    queues that many bytes after its 7-byte header; both mark the item as
    8-bit PCM, keep at most 256 bytes, count one packet and the payload
    length, and queue whether or not a phone is connected.  A [WM] frame of
    another type, of declared length 0, or declaring more bytes than it
    carries is dropped without any effect.  A full queue stays as it was. *)
Theorem legacy_frames_enqueued (st : Relay.State) (values : list Z)
    (processed : list byte) (now : Z) :
  RingQueue.wf Relay.NOTIFY_RING_BITS (Relay.notifyQueue st) ->
  let q := Relay.notifyQueue st in
  let queued (st' : Relay.State) (n : Z) (bytes : list byte) :=
    Relay.packetsReceived st' = to_u32 (Relay.packetsReceived st + 1)
    /\ Relay.bytesReceived st' = to_u32 (Relay.bytesReceived st + n)
    /\ RingQueue.wf Relay.NOTIFY_RING_BITS (Relay.notifyQueue st')
    /\ (RingQueue.count Relay.NOTIFY_RING_BITS q < 63 ->
        map RingQueue.seen (RingQueue.contents Relay.NOTIFY_RING_BITS (Relay.notifyQueue st'))
        = map RingQueue.seen (RingQueue.contents Relay.NOTIFY_RING_BITS q)
          ++ [(Z.min n 256, take 256 bytes, 1)])
    /\ (RingQueue.count Relay.NOTIFY_RING_BITS q = 63 -> Relay.notifyQueue st' = q) in
  (forall payload,
      payload <> [] -> Z.of_nat (length payload) < 65536 ->
      exists st',
        Relay.OnDataRecv_frames st (CHAR_R_frame payload) values processed now
        = Relay.Handled [] st'
        /\ queued st' (Z.of_nat (length payload)) payload)
  /\ (forall type s0 s1 l0 l1 rest,
        0 <= l0 < 256 -> 0 <= l1 < 256 ->
        let plen := l0 + 256 * l1 in
        let frame := [Relay.CHAR_W; Relay.CHAR_M; type; s0; s1; l0; l1] ++ rest in
        (type = 0 -> 0 < plen <= Z.of_nat (length rest) ->
         exists st',
           Relay.OnDataRecv_frames st frame values processed now = Relay.Handled [] st'
           /\ queued st' plen (take (Z.to_nat plen) rest))
        /\ (type <> 0 \/ plen = 0 \/ Z.of_nat (length rest) < plen ->
            Relay.OnDataRecv_frames st frame values processed now = Relay.Handled [] st)).
Proof.
  intros Hwf q queued.
  assert (Hpush : forall buf n,
            0 < n <= Z.of_nat (length buf) -> n < 65536 ->
            queued (Relay.count_packet n
                      (Relay.set_queue
                         (snd (Relay.notifyQueuePushFromISR q buf n 1)) st))
                   n (take (Z.to_nat n) buf)).
  { intros buf n Hn Hu. subst queued. cbv beta.
    destruct (notify_push_effect q buf n 1 Hwf ltac:(lia)) as (Hwf' & _ & Hroom & Hfull).
    cbn [Relay.packetsReceived Relay.bytesReceived Relay.notifyQueue
         Relay.count_packet Relay.set_queue].
    split; [reflexivity|]. split; [reflexivity|]. split; [exact Hwf'|].
    split; [|exact Hfull].
    intros Hc. rewrite (Hroom Hc). f_equal. f_equal.
    unfold RingQueue.stored, RingQueue.clipped, RingQueue.clip_len.
    rewrite take_take.
    replace (if 256 <? n then 256 else n) with (Z.min n 256)
      by (destruct (Z.ltb_spec 256 n); lia).
    replace (Z.to_nat (Z.min n 256)) with (Nat.min 256 (Z.to_nat n)) by lia.
    reflexivity. }
  split.
  - intros payload Hne Hshort.
    assert (Hpl : (1 <= length payload)%nat) by (destruct payload; [contradiction | cbn; lia]).
    unfold CHAR_R_frame, Relay.OnDataRecv_frames. cbv beta zeta. cbn [nth].
    change (Relay.CHAR_R =? CHAR_P) with false.
    change (Relay.CHAR_R =? Relay.CHAR_W) with false.
    rewrite !andb_false_r, !Z.eqb_refl. cbn [andb].
    replace (Z.of_nat (length (Relay.CHAR_R :: COLON :: payload)))
      with (Z.of_nat (length payload) + 2) by (cbn [length]; lia).
    replace (2 <? Z.of_nat (length payload) + 2) with true
      by (symmetry; apply Z.ltb_lt; lia).
    replace (Z.of_nat (length payload) + 2 - 2) with (Z.of_nat (length payload)) by lia.
    replace (0 <? Z.of_nat (length payload)) with true by (symmetry; apply Z.ltb_lt; lia).
    cbn [drop].
    assert (Hu16 : to_u16 (Z.of_nat (length payload)) = Z.of_nat (length payload))
      by (unfold to_u16; apply Z.mod_small; lia).
    rewrite Hu16. eexists. split; [reflexivity|].
    pose proof (Hpush payload (Z.of_nat (length payload)) ltac:(lia) Hshort) as H.
    rewrite Nat2Z.id, firstn_all in H. exact H.
  - intros type s0 s1 l0 l1 rest H0 H1 plen frame.
    assert (Hplen : to_u16 (Z.lor l0 (Z.shiftl l1 8)) = plen) by (apply le16_value; assumption).
    assert (Hdispatch :
              Relay.OnDataRecv_frames st frame values processed now
              = if (7 + plen <=? Z.of_nat (length rest) + 7) && (type =? 0) && (0 <? plen)
                then Relay.Handled []
                       (Relay.count_packet plen
                          (Relay.set_queue
                             (snd (Relay.notifyQueuePushFromISR q rest plen 1)) st))
                else Relay.Handled [] st).
    { subst frame. unfold Relay.OnDataRecv_frames. cbv beta zeta. cbn [app nth].
      change (Relay.CHAR_W =? CHAR_P) with false.
      rewrite !andb_false_r, !Z.eqb_refl, Hplen. cbn [andb].
      set (len := Z.of_nat (length (_ :: _))).
      assert (Hlen : len = Z.of_nat (length rest) + 7) by (subst len; cbn [length]; lia).
      rewrite Hlen.
      replace (7 <=? Z.of_nat (length rest) + 7) with true
        by (symmetry; apply Z.leb_le; lia).
      cbn [drop andb]. rewrite drop_0. reflexivity. }
    rewrite Hdispatch. split.
    + intros -> Hp.
      replace (7 + plen <=? Z.of_nat (length rest) + 7) with true
        by (symmetry; apply Z.leb_le; lia).
      replace (0 <? plen) with true by (symmetry; apply Z.ltb_lt; lia).
      cbn [andb Z.eqb]. eexists. split; [reflexivity|].
      apply Hpush; lia.
    + intros [Ht|[Hz|Hbig]].
      * apply Z.eqb_neq in Ht. rewrite Ht, andb_false_r. reflexivity.
      * rewrite Hz. cbn. rewrite andb_false_r. reflexivity.
      * replace (7 + plen <=? Z.of_nat (length rest) + 7) with false
          by (symmetry; apply Z.leb_gt; lia).
        reflexivity.
Qed.

Lemma legacy_frames_enqueued_witness :
  RingQueue.wf Relay.NOTIFY_RING_BITS (Relay.notifyQueue relay_boot)
  /\ [0; 128; 255] <> []
  /\ exists st',
       Relay.OnDataRecv_frames relay_boot (CHAR_R_frame [0; 128; 255])
                               (replicate 8 0) (replicate 256 0) 100
       = Relay.Handled [] st'
       /\ Relay.packetsReceived st' = 1
       /\ Relay.bytesReceived st' = 3
       /\ map RingQueue.seen
            (RingQueue.contents Relay.NOTIFY_RING_BITS (Relay.notifyQueue st'))
          = [(3, [0; 128; 255], 1)].
Proof.
  assert (Hne : [0; 128; 255] <> @nil byte) by discriminate.
  destruct (proj1 (legacy_frames_enqueued relay_boot (replicate 8 0) (replicate 256 0) 100
                     notifyQueue_init_wf) [0; 128; 255] Hne ltac:(cbn; lia))
    as (st' & Hrecv & Hp & Hb & _ & Hroom & _).
  split; [exact notifyQueue_init_wf|]. split; [exact Hne|].
  exists st'. split; [exact Hrecv|]. split; [rewrite Hp; reflexivity|].
  split; [rewrite Hb; reflexivity|].
  rewrite Hroom; [reflexivity | vm_compute; reflexivity].
Defined.

Section LegacyEndToEnd.

Lemma OnDataRecv_frames_R (st : Relay.State) (payload : list byte) values processed now :
  payload <> [] -> Z.of_nat (length payload) < 65536 ->
  Relay.OnDataRecv_frames st (CHAR_R_frame payload) values processed now
  = Relay.Handled []
      (Relay.count_packet (Z.of_nat (length payload))
         (Relay.set_queue
            (snd (Relay.notifyQueuePushFromISR (Relay.notifyQueue st) payload
                    (Z.of_nat (length payload)) 1)) st)).
Proof.
  intros Hne Hshort.
  assert (Hpl : (1 <= length payload)%nat) by (destruct payload; [contradiction | cbn; lia]).
  unfold CHAR_R_frame, Relay.OnDataRecv_frames. cbv beta zeta. cbn [nth].
  change (Relay.CHAR_R =? CHAR_P) with false.
  change (Relay.CHAR_R =? Relay.CHAR_W) with false.
  rewrite !andb_false_r, !Z.eqb_refl.
  set (len := Z.of_nat (length (_ :: _))).
  assert (Hlen : len = Z.of_nat (length payload) + 2) by (subst len; cbn [length]; lia).
  rewrite Hlen.
  replace (2 <? Z.of_nat (length payload) + 2) with true
    by (symmetry; apply Z.ltb_lt; lia).
  replace (Z.of_nat (length payload) + 2 - 2) with (Z.of_nat (length payload)) by lia.
  replace (0 <? Z.of_nat (length payload)) with true by (symmetry; apply Z.ltb_lt; lia).
  cbn [drop andb]. rewrite drop_0.
  assert (Hu16 : to_u16 (Z.of_nat (length payload)) = Z.of_nat (length payload))
    by (unfold to_u16; apply Z.mod_small; lia).
  rewrite Hu16. reflexivity.
Qed.

End LegacyEndToEnd.

(** X17.  A legacy [R:] frame of at most 256 samples, received while the
    queue is empty and then taken by the next pass of [loop] with a phone
    connected.  The frame is queued whole, tagged as 8-bit audio, and the
    pass empties the queue; but what the phone gets depends on the tag that
    [loop]'s own item holds, not on the tag queued.  If that tag is not
    zero, every 8-bit sample [s] becomes the two bytes of [(s - 128) * 256],
    low byte first, in the order received; if it is zero the frame is
    replaced by 240 bytes of value 128.  Either goes behind what the
    coalescing buffer already held, and if the buffer was empty and the
    timer is due all of it is notified in that pass. *)
Theorem legacy_frame_reaches_phone (st : Relay.State) (payload : list byte)
    (values : list Z) (processed : list byte) (now : Z)
    (item : Relay.NotifyItem) (c : Relay.Coalescer) (due : bool) :
  RingQueue.wf Relay.NOTIFY_RING_BITS (Relay.notifyQueue st) ->
  RingQueue.contents Relay.NOTIFY_RING_BITS (Relay.notifyQueue st) = [] ->
  payload <> [] ->
  (length payload <= 256)%nat ->
  coalescer_ok 4096 c ->
  let heard :=
    if Relay.isPcm8 item =? 0 then replicate 240 128 else upsample_all payload in
  exists st' sent q' c',
    Relay.OnDataRecv_frames st (CHAR_R_frame payload) values processed now
    = Relay.Handled [] st'
    /\ map RingQueue.seen
           (RingQueue.contents Relay.NOTIFY_RING_BITS (Relay.notifyQueue st'))
       = [(Z.of_nat (length payload), payload, 1)]
    /\ Relay.Consumer.loop_flush true due (Relay.notifyQueue st') item c = (sent, q', c')
    /\ RingQueue.contents Relay.NOTIFY_RING_BITS q' = []
    /\ concat sent ++ buffered c' = absorb 4096 (buffered c) heard
    /\ Forall notification_sized sent
    /\ (buffered c = [] -> due = true -> concat sent = heard /\ buffered c' = []).
Proof.
  intros Hwf Hempty Hne Hshort Hok heard.
  assert (Hpl : (1 <= length payload)%nat) by (destruct payload; [contradiction | cbn; lia]).
  rewrite OnDataRecv_frames_R by (assumption || lia).
  set (q := Relay.notifyQueue st) in *.
  set (q1 := snd (Relay.notifyQueuePushFromISR q payload (Z.of_nat (length payload)) 1)).
  destruct (notify_push_effect q payload (Z.of_nat (length payload)) 1 Hwf ltac:(lia))
    as (Hwf1 & Hsound1 & Hroom & _).
  fold q1 in Hwf1, Hsound1, Hroom.
  assert (Hc0 : RingQueue.count Relay.NOTIFY_RING_BITS q = 0).
  { pose proof (contents_length Relay.NOTIFY_RING_BITS notify_bits_ok q Hwf) as Hl.
    rewrite Hempty in Hl. cbn in Hl. lia. }
  rewrite Hempty in Hroom, Hsound1. specialize (Hroom ltac:(lia)).
  specialize (Hsound1 ltac:(constructor)). cbn [map app] in Hroom.
  assert (Hstored : RingQueue.stored (payload, Z.of_nat (length payload), 1)
                    = (Z.of_nat (length payload), payload, 1)).
  { unfold RingQueue.stored, RingQueue.clipped, RingQueue.clip_len.
    replace (256 <? Z.of_nat (length payload)) with false
      by (symmetry; apply Z.ltb_ge; lia).
    rewrite Nat2Z.id, firstn_all. reflexivity. }
  rewrite Hstored in Hroom.
  destruct (RingQueue.contents Relay.NOTIFY_RING_BITS q1) as [|it [|it2 rest]] eqn:Hcont;
    [discriminate | | discriminate].
  assert (Hseen : RingQueue.seen it = (Z.of_nat (length payload), payload, 1)).
  { apply (f_equal (fun l => nth 0 l (0, [], 0))) in Hroom. exact Hroom. }
  assert (Htreated : loop_contribution (treated (Relay.isPcm8 item) it) = heard).
  { unfold RingQueue.seen in Hseen. injection Hseen as _ Hpay _.
    unfold loop_contribution, treated. rewrite Hpay. subst heard.
    destruct (Relay.isPcm8 item =? 0); [reflexivity|].
    cbn [negb]. rewrite take_ge by lia. reflexivity. }
  destruct (drain_spec Relay.loop_ingest loop_contribution 4096
              (fun c it => loop_ingest_sized_spec 4096 c it) 32 q1 item c Hwf1
              ltac:(rewrite Hcont; exact Hsound1) Hok)
    as (q2 & item2 & c2 & Hd & Hwf2 & Hcont2 & Hok2 & Hbuf2).
  rewrite Hcont in Hcont2, Hbuf2. cbn [take drop map fold_left] in Hcont2, Hbuf2.
  rewrite Htreated in Hbuf2.
  assert (Hheard : (length heard <= 512)%nat).
  { subst heard. destruct (Relay.isPcm8 item =? 0);
      [rewrite length_replicate; lia | rewrite upsample_all_length; lia]. }
  pose proof (buffered_length 4096 c2 Hok2) as Hbl.
  destruct (flush_spec 4096 1440 c2 Hok2 ltac:(lia)) as (Hf1 & Hf2 & Hf3 & Hf4).
  exists (Relay.count_packet (Z.of_nat (length payload)) (Relay.set_queue q1 st)).
  unfold Relay.Consumer.loop_flush.
  cbn [Relay.notifyQueue Relay.count_packet Relay.set_queue]. rewrite Hd.
  destruct ((200 <=? Relay.coalesceLen c2) || due) eqn:Hgo.
  - destruct (Relay.flush 1440 c2) as [sent c3]. cbn [fst snd] in *.
    exists sent, q2, c3. split; [reflexivity|].
    split; [rewrite Hcont; exact Hroom|]. split; [reflexivity|].
    split; [exact Hcont2|].
    split; [rewrite Hf1, Hf2, take_drop; exact Hbuf2|]. split; [exact Hf4|].
    intros Hnil _. rewrite Hnil in Hbuf2. unfold absorb in Hbuf2. cbn [app length] in Hbuf2.
    unfold byte in *.
    rewrite take_ge in Hbuf2 by lia.
    rewrite Hbuf2 in Hbl, Hf1, Hf2.
    rewrite Hf1, Hf2.
    rewrite take_ge, drop_ge by lia. auto.
  - apply orb_false_elim in Hgo as [Hgo ->]. apply Z.leb_gt in Hgo.
    exists [], q2, c2. split; [reflexivity|].
    split; [rewrite Hcont; exact Hroom|]. split; [reflexivity|].
    split; [exact Hcont2|]. split; [exact Hbuf2|]. split; [constructor|].
    intros _ H. discriminate H.
Qed.

Lemma legacy_frame_reaches_phone_witness :
  RingQueue.wf Relay.NOTIFY_RING_BITS (Relay.notifyQueue relay_with_phone)
  /\ RingQueue.contents Relay.NOTIFY_RING_BITS (Relay.notifyQueue relay_with_phone) = []
  /\ [0; 128; 255] <> []
  /\ (length [0; 128; 255] <= 256)%nat
  /\ coalescer_ok 4096 (Relay.mkCoalescer (replicate 4096 0) 0)
  /\ (exists st' sent q' c',
         Relay.OnDataRecv_frames relay_with_phone (CHAR_R_frame [0; 128; 255])
                                 (replicate 8 0) (replicate 256 0) 100
         = Relay.Handled [] st'
         /\ Relay.Consumer.loop_flush true true (Relay.notifyQueue st')
              (RingQueue.mkItem 0 (replicate 512 0) 1)
              (Relay.mkCoalescer (replicate 4096 0) 0) = (sent, q', c')
         /\ concat sent = [0; 128; 0; 0; 0; 127])
  /\ (exists st' sent q' c',
         Relay.OnDataRecv_frames relay_with_phone (CHAR_R_frame [0; 128; 255])
                                 (replicate 8 0) (replicate 256 0) 100
         = Relay.Handled [] st'
         /\ Relay.Consumer.loop_flush true true (Relay.notifyQueue st')
              (RingQueue.mkItem 0 (replicate 512 0) 0)
              (Relay.mkCoalescer (replicate 4096 0) 0) = (sent, q', c')
         /\ concat sent = replicate 240 128).
Proof.
  assert (Hne : [0; 128; 255] <> @nil byte) by discriminate.
  assert (Hshort : (length [0; 128; 255] <= 256)%nat) by (cbn; lia).
  assert (Hok : coalescer_ok 4096 (Relay.mkCoalescer (replicate 4096 0) 0)).
  { split; [reflexivity | cbn; lia]. }
  destruct (legacy_frame_reaches_phone relay_with_phone [0; 128; 255] (replicate 8 0)
              (replicate 256 0) 100 (RingQueue.mkItem 0 (replicate 512 0) 1)
              (Relay.mkCoalescer (replicate 4096 0) 0) true
              notifyQueue_init_wf eq_refl Hne Hshort Hok)
    as (st1 & sent1 & q1 & c1 & Hrecv1 & _ & Hflush1 & _ & _ & _ & Hall1).
  destruct (legacy_frame_reaches_phone relay_with_phone [0; 128; 255] (replicate 8 0)
              (replicate 256 0) 100 (RingQueue.mkItem 0 (replicate 512 0) 0)
              (Relay.mkCoalescer (replicate 4096 0) 0) true
              notifyQueue_init_wf eq_refl Hne Hshort Hok)
    as (st0 & sent0 & q0 & c0 & Hrecv0 & _ & Hflush0 & _ & _ & _ & Hall0).
  split; [exact notifyQueue_init_wf|]. split; [reflexivity|]. split; [exact Hne|].
  split; [exact Hshort|]. split; [exact Hok|]. split.
  - exists st1, sent1, q1, c1. split; [exact Hrecv1|]. split; [exact Hflush1|].
    destruct (Hall1 eq_refl eq_refl) as [Hsent _].
    rewrite Hsent. vm_compute. reflexivity.
  - exists st0, sent0, q0, c0. split; [exact Hrecv0|]. split; [exact Hflush0|].
    destruct (Hall0 eq_refl eq_refl) as [Hsent _].
    rewrite Hsent. vm_compute. reflexivity.
Defined.

(** ** The Relay's link to the coordinator *)

Section LinkFacts.
Import Relay.

(** One scan sends at most one join request per candidate coordinator and
    touches neither the attempt counter nor the connection flags nor the
    heartbeat stamp. *)
Lemma scan_loop_spec (coordinators : list mac_addr) : forall attempt add_peer send millis ts st,
  let r := scan_loop coordinators attempt add_peer send millis ts st in
  (length (fst r) <= length coordinators)%nat
  /\ Forall (fun o => exists c, o = JoinRequest c ts /\ c ∈ coordinators) (fst r)
  /\ reconnectAttempts (snd r) = reconnectAttempts st
  /\ isMeshConnected (snd r) = isMeshConnected st
  /\ esp32_a_connected (snd r) = esp32_a_connected st
  /\ lastMeshHeartbeat (snd r) = lastMeshHeartbeat st
  /\ notifyQueue (snd r) = notifyQueue st.
Proof.
  induction coordinators as [|c rest IH]; intros attempt add_peer send millis ts st r.
  - subst r. cbn. repeat split; constructor.
  - subst r. cbn [scan_loop].
    destruct (add_peer attempt).
    + set (st1 := if send attempt then _ else st).
      assert (Hst1 : reconnectAttempts st1 = reconnectAttempts st
                     /\ isMeshConnected st1 = isMeshConnected st
                     /\ esp32_a_connected st1 = esp32_a_connected st
                     /\ lastMeshHeartbeat st1 = lastMeshHeartbeat st
                     /\ notifyQueue st1 = notifyQueue st).
      { subst st1. destruct (send attempt); [|auto].
        destruct (attempt <? 2)%nat; cbn; auto. }
      destruct Hst1 as (E1 & E2 & E3 & E4 & E5).
      specialize (IH (S attempt) add_peer send millis ts st1). cbv zeta in IH.
      destruct (scan_loop rest (S attempt) add_peer send millis ts st1) as [outs st2].
      cbn [fst snd length] in *.
      destruct IH as (Hl & Hf & H1 & H2 & H3 & H4 & H5).
      split; [lia|]. split.
      * constructor; [exists c; split; [reflexivity | left]|].
        eapply Forall_impl; [exact Hf|]. intros o (c' & -> & Hc').
        exists c'. split; [reflexivity | right; exact Hc'].
      * rewrite H1, H2, H3, H4, H5. auto.
    + specialize (IH (S attempt) add_peer send millis ts st). cbv zeta in IH.
      destruct IH as (Hl & Hf & Hrest). cbn [length].
      split; [lia|]. split; [|exact Hrest].
      eapply Forall_impl; [exact Hf|]. intros o (c' & -> & Hc').
      exists c'. split; [reflexivity | right; exact Hc'].
Qed.

(** Whether a pass of [loop] starts a scan. *)
Definition scans (st : State) (currentTime : Z) : bool :=
  (negb (isMeshConnected st) || negb (esp32_a_connected st))
  && (15000 <? to_u32 (currentTime - lastMeshJoinAttempt st))
  && (reconnectAttempts st <? MAX_RECONNECT_ATTEMPTS).

Lemma loop_mesh_spec st currentTime add_peer send millis ts :
  0 <= reconnectAttempts st <= MAX_RECONNECT_ATTEMPTS ->
  let r := loop_mesh st currentTime add_peer send millis ts in
  (length (fst r) <= if scans st currentTime then 3 else 0)%nat
  /\ reconnectAttempts (snd r)
     = (if scans st currentTime then reconnectAttempts st + 1 else reconnectAttempts st)
  /\ Forall (fun o => exists c, o = JoinRequest c ts /\ c ∈ potentialCoordinators) (fst r)
  /\ notifyQueue (snd r) = notifyQueue st.
Proof.
  intros Hr r. subst r. unfold loop_mesh, scans, MAX_RECONNECT_ATTEMPTS in *.
  destruct (negb (isMeshConnected st) || negb (esp32_a_connected st)) eqn:Hdis; cbn [andb].
  - destruct (15000 <? to_u32 (currentTime - lastMeshJoinAttempt st)); cbn [andb].
    + destruct (Z.ltb_spec (reconnectAttempts st) 10) as [Hlt|Hge].
      * unfold startScanningForESP32A.
        pose proof (scan_loop_spec potentialCoordinators 0 add_peer send millis ts
                      (set_reconnectAttempts (to_i32 (reconnectAttempts st + 1))
                         (set_lastMeshJoinAttempt currentTime st))) as Hscan.
        cbv zeta in Hscan.
        destruct (scan_loop potentialCoordinators 0 add_peer send millis ts _)
          as [outs st1].
        cbn [fst snd] in Hscan. destruct Hscan as (Hl & Hf & H1 & H2 & H3 & H4 & H5).
        cbn [reconnectAttempts set_reconnectAttempts set_lastMeshJoinAttempt
             isMeshConnected esp32_a_connected notifyQueue] in H1, H2, H3, H5.
        assert (Hdis1 : isMeshConnected st1 && esp32_a_connected st1 = false).
        { rewrite H2, H3. destruct (isMeshConnected st), (esp32_a_connected st);
            cbn in *; congruence. }
        rewrite Hdis1. cbn [fst snd].
        split; [exact Hl|]. split; [|split; [exact Hf | exact H5]].
        rewrite H1. unfold to_i32. rewrite Z.mod_small by lia.
        destruct (Z.ltb_spec (reconnectAttempts st + 1) 2147483648); lia.
      * assert (Hdis1 : isMeshConnected st && esp32_a_connected st = false).
        { destruct (isMeshConnected st), (esp32_a_connected st); cbn in *; congruence. }
        rewrite Hdis1. cbn. auto using Forall_nil.
    + assert (Hdis1 : isMeshConnected st && esp32_a_connected st = false).
      { destruct (isMeshConnected st), (esp32_a_connected st); cbn in *; congruence. }
      rewrite Hdis1. cbn. auto using Forall_nil.
  - destruct (isMeshConnected st && esp32_a_connected st);
      [destruct (DEVICE_TIMEOUT <? _)|]; cbn; auto using Forall_nil.
Qed.

End LinkFacts.

(** Passes of the mesh part of [loop], with anything else the firmware does
    in between: [interfere] stands for the callbacks and the rest of [loop],
    which cannot write the pass counter (a [static] local of [loop]). *)
Definition Pass : Type :=
  (Relay.State -> Relay.State) * Z * (nat -> bool) * (nat -> bool) * (nat -> Z) * Z.

Definition keeps_counter (p : Pass) : Prop :=
  let '(interfere, _, _, _, _, _) := p in
  forall st, Relay.reconnectAttempts (interfere st) = Relay.reconnectAttempts st.

Fixpoint loop_mesh_run (st : Relay.State) (passes : list Pass)
  : list Relay.Output * Relay.State :=
  match passes with
  | [] => ([], st)
  | (interfere, currentTime, add_peer, send, millis, ts) :: rest =>
      let '(outs1, st1) :=
        Relay.loop_mesh (interfere st) currentTime add_peer send millis ts in
      let '(outs2, st2) := loop_mesh_run st1 rest in
      (outs1 ++ outs2, st2)
  end.

(** X18.  The Relay's reconnection is bounded for good: over any number of
    passes of [loop], whatever the clock, the transport and the callbacks do
    in between, [loop] starts at most 10 scans in total and so hands the
    radio at most 30 join requests; once 10 scans have been started no pass
    of [loop] sends anything any more, because the counter is never
    reset. *)
Theorem reconnect_attempts_bounded (passes : list Pass) (st : Relay.State) :
  Forall keeps_counter passes ->
  0 <= Relay.reconnectAttempts st <= Relay.MAX_RECONNECT_ATTEMPTS ->
  let r := loop_mesh_run st passes in
  Z.of_nat (length (fst r)) <= 3 * (Relay.MAX_RECONNECT_ATTEMPTS - Relay.reconnectAttempts st)
  /\ Relay.reconnectAttempts st <= Relay.reconnectAttempts (snd r)
     <= Relay.MAX_RECONNECT_ATTEMPTS
  /\ (Relay.reconnectAttempts st = Relay.MAX_RECONNECT_ATTEMPTS -> fst r = []).
Proof.
  revert st. induction passes as [|[[[[[f now] add_peer] send] millis] ts] rest IH];
    intros st Hk Hr r; subst r.
  - cbn. split; [lia|]. split; [lia | reflexivity].
  - apply Forall_cons in Hk as [Hk1 Hk]. cbn in Hk1.
    cbn [loop_mesh_run].
    pose proof (loop_mesh_spec (f st) now add_peer send millis ts
                  ltac:(rewrite Hk1; exact Hr)) as Hstep.
    cbv zeta in Hstep.
    destruct (Relay.loop_mesh (f st) now add_peer send millis ts) as [outs1 st1].
    cbn [fst snd] in Hstep. destruct Hstep as (Hl & Ha & _ & _). rewrite Hk1 in Ha.
    assert (Hs : scans (f st) now = true -> Relay.reconnectAttempts st < 10).
    { unfold scans, Relay.MAX_RECONNECT_ATTEMPTS. rewrite Hk1. intros H.
      apply andb_prop in H as [_ H]. apply Z.ltb_lt in H. exact H. }
    unfold Relay.MAX_RECONNECT_ATTEMPTS in *.
    assert (Hr1 : 0 <= Relay.reconnectAttempts st1 <= 10).
    { rewrite Ha. destruct (scans (f st) now); [specialize (Hs eq_refl)|]; lia. }
    specialize (IH st1 Hk Hr1). cbv zeta in IH.
    destruct (loop_mesh_run st1 rest) as [outs2 st2]. cbn [fst snd] in *.
    destruct IH as (IHl & IHa & IHz).
    rewrite length_app.
    destruct (scans (f st) now) eqn:Hsc.
    + specialize (Hs eq_refl). split; [lia|]. split; [lia|]. intros E. lia.
    + split; [lia|]. split; [lia|]. intros E.
      assert (outs1 = []) by (destruct outs1; [reflexivity | cbn in Hl; lia]).
      subst outs1. cbn. apply IHz. lia.
Qed.

Lemma reconnect_attempts_bounded_witness :
  let pass : Pass := (fun st => st, 20000, fun _ => true, fun _ => false, fun _ => 20001, 20000) in
  Forall keeps_counter [pass; pass]
  /\ 0 <= Relay.reconnectAttempts (Relay.set_reconnectAttempts 9 relay_boot)
       <= Relay.MAX_RECONNECT_ATTEMPTS
  /\ map (fun o => match o with Relay.JoinRequest c _ => c | _ => (0, 0, 0, 0, 0, 0) end)
         (fst (loop_mesh_run (Relay.set_reconnectAttempts 9 relay_boot) [pass; pass]))
     = Relay.potentialCoordinators
  /\ Relay.reconnectAttempts
       (snd (loop_mesh_run (Relay.set_reconnectAttempts 9 relay_boot) [pass; pass])) = 10.
Proof.
  cbv zeta.
  set (pass := ((fun st : Relay.State => st, 20000, fun _ : nat => true,
                 fun _ : nat => false, fun _ : nat => 20001, 20000) : Pass)).
  assert (Hk : Forall keeps_counter [pass; pass]).
  { repeat constructor; intros st; reflexivity. }
  assert (Hr : 0 <= Relay.reconnectAttempts (Relay.set_reconnectAttempts 9 relay_boot)
               <= Relay.MAX_RECONNECT_ATTEMPTS).
  { cbn. unfold Relay.MAX_RECONNECT_ATTEMPTS. lia. }
  pose proof (reconnect_attempts_bounded [pass; pass]
                (Relay.set_reconnectAttempts 9 relay_boot) Hk Hr) as (_ & Hle & _).
  split; [exact Hk|]. split; [exact Hr|]. split; [vm_compute; reflexivity|].
  vm_compute. reflexivity.
Defined.

(** X19.  The Relay's watchdog counts from the last heartbeat, not from the
    join.  A "joined" acknowledgement from [m] (with the peer added) makes
    [m] the coordinator, answers with one ready confirmation to [m] and marks
    the link up, but leaves the heartbeat stamp alone: the next pass of
    [loop], at clock [t], keeps the link exactly when at most 30000 ms
    (modulo 2^32) have passed since the last heartbeat received before the
    join, and sends nothing either way.  A heartbeat received at [h] in
    between moves the deadline to [h] + 30000. *)
Theorem watchdog_counts_from_last_heartbeat (st : Relay.State) (m : Relay.mac_addr)
    (len now t : Z) (add_peer send : nat -> bool) (millis : nat -> Z) (ts : Z) :
  let joined := Relay.OnDataRecv_json st m (Some (Relay.mesh_ack "joined")) len now true in
  let up st' := Relay.isMeshConnected st' && Relay.esp32_a_connected st' in
  fst joined = [Relay.ReadyConfirmation m now]
  /\ Relay.esp32_a_mac (snd joined) = m
  /\ up (snd joined) = true
  /\ (let pass := Relay.loop_mesh (snd joined) t add_peer send millis ts in
      fst pass = []
      /\ up (snd pass) = negb (30000 <? to_u32 (t - Relay.lastMeshHeartbeat st)))
  /\ (forall (m' : Relay.mac_addr) (len' h : Z) (peer_added : bool),
        let beat := Relay.OnDataRecv_json (snd joined) m' (Some Relay.mesh_heartbeat)
                      len' h peer_added in
        let pass := Relay.loop_mesh (snd beat) t add_peer send millis ts in
        fst beat = [] /\ fst pass = []
        /\ up (snd pass) = negb (30000 <? to_u32 (t - h))).
Proof.
  cbv zeta. cbn [Relay.OnDataRecv_json String.eqb Ascii.eqb Bool.eqb fst snd].
  repeat split.
  - unfold Relay.loop_mesh, Relay.DEVICE_TIMEOUT. cbn.
    destruct (30000 <? _); reflexivity.
  - unfold Relay.loop_mesh, Relay.DEVICE_TIMEOUT. cbn.
    destruct (30000 <? _); reflexivity.
  - unfold Relay.loop_mesh, Relay.DEVICE_TIMEOUT. cbn.
    destruct (30000 <? _); reflexivity.
  - unfold Relay.loop_mesh, Relay.DEVICE_TIMEOUT. cbn.
    destruct (30000 <? _); reflexivity.
Qed.

(** ** The statistics of a received chunk *)

Section StatsFacts.
Import Relay.

Lemma stats_loop_spec : forall (d : list byte) (n : nat) (sum minVal maxVal : Z),
  (n <= length d)%nat ->
  Forall (fun b => 0 <= b <= 255) d ->
  0 <= sum -> sum + 255 * Z.of_nat n < 2 ^ 32 ->
  let r := stats_loop d n sum minVal maxVal in
  let heard := take n d in
  r.1.1 = sum + foldr Z.add 0 heard
  /\ 0 <= foldr Z.add 0 heard <= 255 * Z.of_nat n
  /\ r.1.2 <= minVal /\ maxVal <= r.2
  /\ Forall (fun x => r.1.2 <= x <= r.2) heard
  /\ (r.1.2 = minVal \/ r.1.2 ∈ heard)
  /\ (r.2 = maxVal \/ r.2 ∈ heard).
Proof.
  induction d as [|x rest IH]; intros n sum mn mx Hn Hb Hs Hsum.
  - destruct n; [|cbn in Hn; lia]. cbn. repeat split; try lia; auto using Forall_nil.
  - destruct n as [|n'].
    + cbn. repeat split; try lia; auto using Forall_nil.
    + apply Forall_cons in Hb as [Hx Hb]. cbn [length] in Hn.
      cbn [stats_loop take foldr].
      assert (Hu : to_u32 (sum + x) = sum + x).
      { unfold to_u32. apply Z.mod_small. lia. }
      rewrite Hu.
      specialize (IH n' (sum + x) (if x <? mn then x else mn) (if mx <? x then x else mx)
                     ltac:(lia) Hb ltac:(lia) ltac:(lia)).
      cbv zeta in IH. destruct IH as (E & Hr & Hmn & Hmx & Hall & Hin1 & Hin2).
      set (r := stats_loop rest n' (sum + x) _ _) in *.
      assert (Hmn' : r.1.2 <= mn /\ r.1.2 <= x) by (destruct (Z.ltb_spec x mn); lia).
      assert (Hmx' : mx <= r.2 /\ x <= r.2) by (destruct (Z.ltb_spec mx x); lia).
      split; [lia|]. split; [lia|]. split; [lia|]. split; [lia|].
      split; [constructor; [lia | exact Hall]|].
      split.
      * destruct Hin1 as [E1|Hin1]; [|right; right; exact Hin1].
        destruct (Z.ltb_spec x mn); [right; rewrite E1; left | left; exact E1].
      * destruct Hin2 as [E2|Hin2]; [|right; right; exact Hin2].
        destruct (Z.ltb_spec mx x); [right; rewrite E2; left | left; exact E2].
Qed.

End StatsFacts.

(** X20.  For a chunk of [length] bytes, 1 <= length <= 65535, read from a
    buffer that holds them, [processReceivedAudioData] returns; the minimum
    and the maximum it reports are bytes of the chunk that bound all of them,
    the average is the integer quotient of their sum by [length] and lies
    between the two; the packet counter goes up by one and the byte counter
    by [length] (modulo 2^32); and with a phone connected and room in the
    ring the chunk, cut to the slot size, is queued last with tag 0, while
    without a phone the queue is left alone. *)
Theorem received_chunk_statistics (st : Relay.State) (audioData : list byte) (length : Z) :
  1 <= length <= 65535 ->
  length <= Z.of_nat (List.length audioData) ->
  Forall (fun b => 0 <= b <= 255) audioData ->
  RingQueue.wf Relay.NOTIFY_RING_BITS (Relay.notifyQueue st) ->
  let heard := take (Z.to_nat length) audioData in
  exists minVal maxVal avgVal st',
    Relay.processReceivedAudioData st audioData length = Some (minVal, maxVal, avgVal, st')
    /\ minVal ∈ heard /\ maxVal ∈ heard
    /\ Forall (fun x => minVal <= x <= maxVal) heard
    /\ avgVal = foldr Z.add 0 heard / length
    /\ minVal <= avgVal <= maxVal
    /\ Relay.packetsReceived st' = to_u32 (Relay.packetsReceived st + 1)
    /\ Relay.bytesReceived st' = to_u32 (Relay.bytesReceived st + length)
    /\ (Relay.bleDeviceConnected st && Relay.pAudioCharacteristic st = true ->
        RingQueue.count Relay.NOTIFY_RING_BITS (Relay.notifyQueue st) < 63 ->
        map RingQueue.seen (RingQueue.contents Relay.NOTIFY_RING_BITS (Relay.notifyQueue st'))
        = map RingQueue.seen (RingQueue.contents Relay.NOTIFY_RING_BITS (Relay.notifyQueue st))
          ++ [RingQueue.stored (audioData, length, 0)])
    /\ (Relay.bleDeviceConnected st && Relay.pAudioCharacteristic st = false ->
        Relay.notifyQueue st' = Relay.notifyQueue st).
Proof.
  intros Hlen Hfit Hbytes Hwf heard.
  pose proof (stats_loop_spec audioData (Z.to_nat length) 0 255 0
                ltac:(lia) Hbytes ltac:(lia) ltac:(lia)) as Hstats.
  cbv zeta in Hstats. fold heard in Hstats.
  unfold Relay.processReceivedAudioData.
  destruct (Relay.stats_loop audioData (Z.to_nat length) 0 255 0) as [[sum mn] mx].
  cbn [fst snd] in Hstats.
  destruct Hstats as (Esum & Hrange & Hmn & Hmx & Hall & Hin1 & Hin2).
  rewrite Z2Nat.id in Hrange by lia.
  assert (Hu32 : to_u32 length = length) by (unfold to_u32; apply Z.mod_small; lia).
  assert (Hu16 : to_u16 length = length) by (unfold to_u16; apply Z.mod_small; lia).
  rewrite Hu32, Hu16.
  assert (Hnz : (length =? 0) = false) by (apply Z.eqb_neq; lia).
  rewrite Hnz.
  assert (Hne : exists x, heard !! 0%nat = Some x).
  { subst heard. destruct audioData as [|x rest]; [cbn in Hfit; lia|].
    exists x. destruct (Z.to_nat length) eqn:E; [lia | reflexivity]. }
  destruct Hne as (x0 & Hx0).
  assert (Hx0in : x0 ∈ heard) by (eapply list_elem_of_lookup_2; exact Hx0).
  assert (Hx0b : 0 <= x0 <= 255).
  { subst heard. apply (proj1 (Forall_forall _ _) (Forall_take _ _ _ Hbytes) x0 Hx0in). }
  pose proof (proj1 (Forall_forall _ _) Hall x0 Hx0in) as Hx0r. cbv beta in Hx0r.
  assert (Hmnin : mn ∈ heard).
  { destruct Hin1 as [E|H]; [|exact H].
    assert (x0 = mn) by lia. subst x0. exact Hx0in. }
  assert (Hmxin : mx ∈ heard).
  { destruct Hin2 as [E|H]; [|exact H].
    assert (x0 = mx) by lia. subst x0. exact Hx0in. }
  assert (Hlo : mn * length <= foldr Z.add 0 heard
                /\ foldr Z.add 0 heard <= mx * length).
  { assert (Hgen : forall l : list Z, Forall (fun x => mn <= x <= mx) l ->
                     mn * Z.of_nat (List.length l) <= foldr Z.add 0 l
                                                  <= mx * Z.of_nat (List.length l)).
    { induction l as [|y l IHl]; intros Hl; [cbn; lia|].
      apply Forall_cons in Hl as [Hy Hl]. specialize (IHl Hl).
      cbn [foldr List.length]. lia. }
    specialize (Hgen heard Hall).
    assert (El : Z.of_nat (@List.length Z heard) = length).
    { subst heard. rewrite length_take. unfold byte in *. lia. }
    rewrite El in Hgen. lia. }
  assert (Havg : mn <= sum / length <= mx).
  { rewrite Esum, Z.add_0_l. split.
    - apply Z.div_le_lower_bound; lia.
    - apply Z.div_le_upper_bound; lia. }
  assert (Hmnb : 0 <= mn <= 255).
  { subst heard. apply (proj1 (Forall_forall _ _) (Forall_take _ _ _ Hbytes) mn Hmnin). }
  assert (Hmxb : 0 <= mx <= 255).
  { subst heard. apply (proj1 (Forall_forall _ _) (Forall_take _ _ _ Hbytes) mx Hmxin). }
  assert (Hu8 : to_u8 (sum / length) = sum / length).
  { unfold to_u8. apply Z.mod_small. lia. }
  rewrite Hu8.
  eexists mn, mx, (sum / length), _. split; [reflexivity|].
  split; [exact Hmnin|]. split; [exact Hmxin|]. split; [exact Hall|].
  split; [rewrite Esum, Z.add_0_l; reflexivity|]. split; [exact Havg|].
  destruct (Relay.bleDeviceConnected st && Relay.pAudioCharacteristic st) eqn:Hphone.
  - cbn [Relay.packetsReceived Relay.bytesReceived Relay.set_queue Relay.count_packet
         Relay.notifyQueue].
    split; [reflexivity|]. split; [reflexivity|]. split; [|discriminate].
    intros _ Hroom.
    destruct (notify_push_effect (Relay.notifyQueue st) audioData length 0 Hwf
                ltac:(lia)) as (_ & _ & Hpush & _).
    exact (Hpush Hroom).
  - cbn [Relay.packetsReceived Relay.bytesReceived Relay.count_packet Relay.notifyQueue].
    split; [reflexivity|]. split; [reflexivity|]. split; [discriminate | reflexivity].
Qed.

Lemma received_chunk_statistics_witness :
  1 <= 3 <= 65535
  /\ 3 <= Z.of_nat (length [3; 200; 100])
  /\ Forall (fun b => 0 <= b <= 255) [3; 200; 100]
  /\ RingQueue.wf Relay.NOTIFY_RING_BITS (Relay.notifyQueue relay_with_phone)
  /\ exists st',
       Relay.processReceivedAudioData relay_with_phone [3; 200; 100] 3
       = Some (3, 200, 101, st')
       /\ map RingQueue.seen
            (RingQueue.contents Relay.NOTIFY_RING_BITS (Relay.notifyQueue st'))
          = [(3, [3; 200; 100], 0)].
Proof.
  assert (H1 : 1 <= 3 <= 65535) by lia.
  assert (H2 : 3 <= Z.of_nat (length [3; 200; 100])) by (cbn; lia).
  assert (H3 : Forall (fun b => 0 <= b <= 255) [3; 200; 100]) by (repeat constructor; lia).
  destruct (received_chunk_statistics relay_with_phone [3; 200; 100] 3 H1 H2 H3
              notifyQueue_init_wf)
    as (mn & mx & avg & st' & Hrun & _ & _ & _ & _ & _ & _ & _ & Hpush & _).
  split; [exact H1|]. split; [exact H2|]. split; [exact H3|].
  split; [exact notifyQueue_init_wf|].
  exists st'. split.
  - rewrite Hrun. vm_compute in Hrun. congruence.
  - rewrite Hpush; [reflexivity | reflexivity | vm_compute; reflexivity].
Defined.

(** ** The u-law encoder *)

Section UlawFacts.

Lemma to_i16_small v : -32768 <= v < 32768 -> to_i16 v = v.
Proof.
  intros H. unfold to_i16. cbv zeta.
  destruct (Z.ltb_spec (v mod 65536) 32768); Z.div_mod_to_equations; lia.
Qed.

Lemma ulaw_seg_more (k : nat) : forall fuel pcm_val seg r,
  Hub.ulaw_seg fuel pcm_val seg = Some r ->
  Hub.ulaw_seg (fuel + k) pcm_val seg = Some r.
Proof.
  induction fuel as [|fuel IH]; intros pcm_val seg r; [discriminate|].
  cbn [Hub.ulaw_seg Nat.add].
  destruct (Z.shiftl 33 (seg + 1) - 33 <? pcm_val); [apply IH | auto].
Qed.

Lemma linearToUlaw_more (k fuel : nat) (x code : Z) :
  Hub.linearToUlaw fuel x = Some code ->
  Hub.linearToUlaw (fuel + k) x = Some code.
Proof.
  unfold Hub.linearToUlaw.
  destruct (if to_i16 (Z.shiftr x 2) <? 0 then _ else _) as [p mask].
  set (p' := to_i16 ((if 8158 <? p then 8158 else p) + 133)).
  destruct (Hub.ulaw_seg fuel p' 0) as [seg|] eqn:Hseg; [|discriminate].
  rewrite (ulaw_seg_more k fuel p' 0 seg Hseg). auto.
Qed.

(** The code of a magnitude [p] (the sample shifted, made positive and
    clipped) under [mask]. *)
Definition magnitude_code (fuel : nat) (p mask : Z) : option Z :=
  seg ← Hub.ulaw_seg fuel (p + 133) 0;
  Some (to_u8 (Z.lxor
                 (to_u8 (Z.lor (Z.shiftl seg 4)
                               (Z.shiftr (p + 133 - (Z.shiftl 33 seg - 33)) (seg + 1))))
                 mask)).

Lemma linearToUlaw_magnitude (fuel : nat) (x : Z) :
  -32768 <= x <= 32767 ->
  Hub.linearToUlaw fuel x
  = magnitude_code fuel (Z.min (Z.abs (x / 4)) 8158) (if x <? 0 then 127 else 255).
Proof.
  intros Hx. unfold Hub.linearToUlaw, magnitude_code.
  rewrite Z.shiftr_div_pow2 by lia. change (2 ^ 2) with 4.
  assert (Hy : -8192 <= x / 4 <= 8191) by (Z.div_mod_to_equations; lia).
  rewrite (to_i16_small (x / 4)) by lia.
  assert (Hsign : (x / 4 <? 0) = (x <? 0)).
  { destruct (Z.ltb_spec (x / 4) 0), (Z.ltb_spec x 0);
      try reflexivity; Z.div_mod_to_equations; lia. }
  rewrite Hsign.
  destruct (Z.ltb_spec x 0) as [Hneg|Hpos].
  - assert (x / 4 < 0) by (Z.div_mod_to_equations; lia).
    rewrite (to_i16_small (- (x / 4))) by lia.
    replace (if 8158 <? - (x / 4) then 8158 else - (x / 4))
      with (Z.min (Z.abs (x / 4)) 8158) by (destruct (Z.ltb_spec 8158 (- (x / 4))); lia).
    rewrite (to_i16_small (_ + 133)) by lia. reflexivity.
  - assert (0 <= x / 4) by (apply Z.div_pos; lia).
    replace (if 8158 <? x / 4 then 8158 else x / 4)
      with (Z.min (Z.abs (x / 4)) 8158) by (destruct (Z.ltb_spec 8158 (x / 4)); lia).
    rewrite (to_i16_small (_ + 133)) by lia. reflexivity.
Qed.

Lemma ulaw_seg_step (fuel : nat) (q seg : Z) :
  0 <= seg <= 7 ->
  Hub.ulaw_seg (S fuel) q seg
  = if 33 * 2 ^ (seg + 1) - 33 <? q then Hub.ulaw_seg fuel q (seg + 1) else Some seg.
Proof.
  intros Hs. cbn [Hub.ulaw_seg].
  rewrite Z.shiftl_mul_pow2 by lia. rewrite (to_i16_small (seg + 1)) by lia.
  reflexivity.
Qed.

(** The segment search stops within eight tests, on a segment from 2 to 7. *)
Lemma ulaw_seg_found (q : Z) :
  133 <= q <= 8291 ->
  exists seg,
    Hub.ulaw_seg 8 q 0 = Some seg
    /\ 2 <= seg <= 7
    /\ 33 * 2 ^ seg - 33 < q <= 33 * 2 ^ (seg + 1) - 33.
Proof.
  intros Hq.
  rewrite (ulaw_seg_step 7 q 0) by lia. change (33 * 2 ^ (0 + 1) - 33) with 33.
  destruct (Z.ltb_spec 33 q) as [_|?]; [|lia]. change (0 + 1) with 1.
  rewrite (ulaw_seg_step 6 q 1) by lia. change (33 * 2 ^ (1 + 1) - 33) with 99.
  destruct (Z.ltb_spec 99 q) as [_|?]; [|lia]. change (1 + 1) with 2.
  rewrite (ulaw_seg_step 5 q 2) by lia. change (33 * 2 ^ (2 + 1) - 33) with 231.
  destruct (Z.ltb_spec 231 q) as [H2|?];
    [|exists 2; change (2 ^ 2) with 4; change (2 ^ (2 + 1)) with 8; repeat split; lia].
  change (2 + 1) with 3.
  rewrite (ulaw_seg_step 4 q 3) by lia. change (33 * 2 ^ (3 + 1) - 33) with 495.
  destruct (Z.ltb_spec 495 q) as [H3|?];
    [|exists 3; change (2 ^ 3) with 8; change (2 ^ (3 + 1)) with 16; repeat split; lia].
  change (3 + 1) with 4.
  rewrite (ulaw_seg_step 3 q 4) by lia. change (33 * 2 ^ (4 + 1) - 33) with 1023.
  destruct (Z.ltb_spec 1023 q) as [H4|?];
    [|exists 4; change (2 ^ 4) with 16; change (2 ^ (4 + 1)) with 32; repeat split; lia].
  change (4 + 1) with 5.
  rewrite (ulaw_seg_step 2 q 5) by lia. change (33 * 2 ^ (5 + 1) - 33) with 2079.
  destruct (Z.ltb_spec 2079 q) as [H5|?];
    [|exists 5; change (2 ^ 5) with 32; change (2 ^ (5 + 1)) with 64; repeat split; lia].
  change (5 + 1) with 6.
  rewrite (ulaw_seg_step 1 q 6) by lia. change (33 * 2 ^ (6 + 1) - 33) with 4191.
  destruct (Z.ltb_spec 4191 q) as [H6|?];
    [|exists 6; change (2 ^ 6) with 64; change (2 ^ (6 + 1)) with 128; repeat split; lia].
  change (6 + 1) with 7.
  rewrite (ulaw_seg_step 0 q 7) by lia. change (33 * 2 ^ (7 + 1) - 33) with 8415.
  destruct (Z.ltb_spec 8415 q) as [?|H7]; [lia|].
  exists 7. change (2 ^ 7) with 128. change (2 ^ (7 + 1)) with 256. repeat split; lia.
Qed.

Lemma lor_below_128 a b : 0 <= a < 128 -> 0 <= b < 128 -> 0 <= Z.lor a b < 128.
Proof.
  intros Ha Hb. split; [apply Z.lor_nonneg; lia|].
  destruct (Z.eq_dec (Z.lor a b) 0) as [E|Hne]; [lia|].
  assert (Hpos : 0 < Z.lor a b) by (pose proof (proj2 (Z.lor_nonneg a b) ltac:(lia)); lia).
  change 128 with (2 ^ 7). apply Z.log2_lt_pow2; [exact Hpos|].
  rewrite Z.log2_lor by lia.
  assert (La : Z.log2 a < 7).
  { destruct (Z.eq_dec a 0) as [->|]; [cbn; lia|]. apply Z.log2_lt_pow2; lia. }
  assert (Lb : Z.log2 b < 7).
  { destruct (Z.eq_dec b 0) as [->|]; [cbn; lia|]. apply Z.log2_lt_pow2; lia. }
  lia.
Qed.

(** Exclusive or with a mask of ones is the complement within the mask. *)
Lemma lxor_ones_low (n u : Z) :
  0 <= n -> 0 <= u < 2 ^ n -> Z.lxor u (Z.ones n) = Z.ones n - u.
Proof.
  intros Hn Hu.
  assert (Hones : Z.ones n = 2 ^ n - 1) by (rewrite Z.ones_equiv; lia).
  set (c := Z.ones n - u).
  assert (Hc : c = Z.land (Z.lnot u) (Z.ones n)).
  { rewrite Z.land_ones by lia. unfold Z.lnot, Z.pred. subst c.
    apply (Z.mod_unique (- u + -1) (2 ^ n) (-1)); [left; lia | lia]. }
  assert (Hland : Z.land c u = 0).
  { rewrite Hc, (Z.land_comm (Z.lnot u)), <- Z.land_assoc, (Z.land_comm (Z.lnot u)),
      Z.land_lnot_diag. apply Z.land_0_r. }
  assert (Hsum : Z.lxor c u = Z.ones n).
  { rewrite <- Z.add_nocarry_lxor by exact Hland. subst c. lia. }
  rewrite <- Hsum, (Z.lxor_comm c u), <- Z.lxor_assoc, Z.lxor_nilpotent, Z.lxor_0_l.
  reflexivity.
Qed.

(** Every magnitude has a 7-bit code [u]; the masks complement it within
    eight and within seven bits. *)
Lemma magnitude_code_spec (p : Z) :
  0 <= p <= 8158 ->
  exists u,
    0 <= u < 128
    /\ magnitude_code 8 p 255 = Some (255 - u)
    /\ magnitude_code 8 p 127 = Some (127 - u).
Proof.
  intros Hp.
  destruct (ulaw_seg_found (p + 133) ltac:(lia)) as (seg & Hseg & Hr & Hb).
  unfold magnitude_code. rewrite Hseg. cbn [mbind option_bind].
  rewrite Z.shiftl_mul_pow2 by lia. rewrite (Z.shiftl_mul_pow2 33 seg) by lia.
  rewrite Z.shiftr_div_pow2 by lia. change (2 ^ 4) with 16.
  change (seg + 1) with (Z.succ seg) in *. rewrite Z.pow_succ_r in * by lia.
  set (P := 2 ^ seg) in *.
  assert (HP : 0 < P) by (apply Z.pow_pos_nonneg; lia).
  set (m := (p + 133 - (33 * P - 33)) / (2 * P)).
  assert (Hm : 0 <= m < 17).
  { subst m. split; [apply Z.div_pos; lia|]. apply Z.div_lt_upper_bound; lia. }
  set (u := Z.lor (seg * 16) m).
  assert (Hu : 0 <= u < 128) by (apply lor_below_128; lia).
  assert (Hu8 : to_u8 u = u) by (unfold to_u8; apply Z.mod_small; lia).
  rewrite Hu8. exists u. split; [exact Hu|].
  change 255 with (Z.ones 8) at 1. change 127 with (Z.ones 7) at 1.
  rewrite (lxor_ones_low 8 u) by (change (2 ^ 8) with 256; lia).
  rewrite (lxor_ones_low 7 u) by (change (2 ^ 7) with 128; lia).
  change (Z.ones 8) with 255. change (Z.ones 7) with 127.
  unfold to_u8. rewrite !Z.mod_small by lia. split; reflexivity.
Qed.

End UlawFacts.

(** X21.  [linearToUlaw] returns for every 16-bit sample: the segment
    search stops within eight tests of its condition.  The code is a byte
    whose top bit is set exactly for the samples that are not negative; the
    samples from 32632 up all get the code 143 and those from -32632 down the
    code 15; and for a sample that is a multiple of 4 (other than 0 and
    -32768) the code of the opposite sample differs in the top bit only. *)
Theorem ulaw_encoder_total (x : Z) (fuel : nat) :
  -32768 <= x <= 32767 ->
  (8 <= fuel)%nat ->
  exists code,
    Hub.linearToUlaw fuel x = Some code
    /\ 0 <= code <= 255
    /\ (128 <= code <-> 0 <= x)
    /\ (32632 <= x -> code = 143)
    /\ (x <= -32632 -> code = 15)
    /\ (x mod 4 = 0 -> x <> 0 -> x <> -32768 ->
        Hub.linearToUlaw fuel (- x) = Some (Z.lxor code 128)).
Proof.
  intros Hx Hfuel.
  replace fuel with (8 + (fuel - 8))%nat by lia.
  set (p := Z.min (Z.abs (x / 4)) 8158).
  assert (Hp : 0 <= p <= 8158) by (subst p; lia).
  destruct (magnitude_code_spec p Hp) as (u & Hu & H255 & H127).
  pose proof (linearToUlaw_magnitude 8 x Hx) as Hrun. fold p in Hrun.
  assert (Hsat : p = 8158 -> u = 112).
  { intros E. rewrite E in H255.
    assert (Htop : magnitude_code 8 8158 255 = Some 143) by (vm_compute; reflexivity).
    rewrite Htop in H255. injection H255 as H255. lia. }
  assert (Hflip255 : Z.lxor (255 - u) 128 = 127 - u).
  { change 255 with (Z.ones 8). change 127 with (Z.ones 7).
    rewrite <- (lxor_ones_low 8 u) by (change (2 ^ 8) with 256; lia).
    rewrite <- (lxor_ones_low 7 u) by (change (2 ^ 7) with 128; lia).
    rewrite Z.lxor_assoc. reflexivity. }
  assert (Hflip127 : Z.lxor (127 - u) 128 = 255 - u).
  { change 255 with (Z.ones 8). change 127 with (Z.ones 7).
    rewrite <- (lxor_ones_low 8 u) by (change (2 ^ 8) with 256; lia).
    rewrite <- (lxor_ones_low 7 u) by (change (2 ^ 7) with 128; lia).
    rewrite Z.lxor_assoc. reflexivity. }
  assert (Hopp : x mod 4 = 0 -> x <> -32768 ->
                 Hub.linearToUlaw 8 (- x)
                 = magnitude_code 8 p (if - x <? 0 then 127 else 255)).
  { intros H4 Hmin. rewrite linearToUlaw_magnitude by lia.
    replace (- x / 4) with (- (x / 4)) by (Z.div_mod_to_equations; lia).
    rewrite Z.abs_opp. reflexivity. }
  destruct (Z.ltb_spec x 0) as [Hneg|Hpos].
  - exists (127 - u). split; [apply linearToUlaw_more; rewrite Hrun; exact H127|].
    split; [lia|]. split; [lia|]. split; [lia|]. split.
    + intros Hlow. rewrite Hsat; [reflexivity|]. subst p. Z.div_mod_to_equations. lia.
    + intros H4 Hnz Hmin. apply linearToUlaw_more. rewrite (Hopp H4 Hmin).
      destruct (Z.ltb_spec (- x) 0); [lia|]. rewrite Hflip127. exact H255.
  - exists (255 - u). split; [apply linearToUlaw_more; rewrite Hrun; exact H255|].
    split; [lia|]. split; [lia|]. split.
    + intros Hhigh. rewrite Hsat; [reflexivity|]. subst p. Z.div_mod_to_equations. lia.
    + split; [lia|]. intros H4 Hnz Hmin. apply linearToUlaw_more. rewrite (Hopp H4 Hmin).
      destruct (Z.ltb_spec (- x) 0); [|lia]. rewrite Hflip255. exact H127.
Qed.

Lemma ulaw_encoder_total_witness :
  -32768 <= 1000 <= 32767
  /\ (8 <= 8)%nat
  /\ Hub.linearToUlaw 8 1000 = Some 198
  /\ Hub.linearToUlaw 8 (-1000) = Some 70.
Proof.
  assert (H1 : -32768 <= 1000 <= 32767) by lia.
  destruct (ulaw_encoder_total 1000 8 H1 (le_n 8)) as (code & Hrun & _ & _ & _ & _ & Hopp).
  split; [exact H1|]. split; [exact (le_n 8)|].
  assert (Hcode : code = 198).
  { vm_compute in Hrun. congruence. }
  subst code. split; [exact Hrun|].
  exact (Hopp eq_refl ltac:(lia) ltac:(lia)).
Defined.

(** ** The drain block of the Hub's [loop] *)

(** An item a producer stored in the Hub's ring: its array holds [length]
    bytes, at most the 256 of a slot. *)
Definition ble_item_ok (it : Hub.IncomingBleItem) : Prop :=
  filled it /\ 0 <= RingQueue.length it <= 256.

Section HubDrainFacts.

Lemma ble_in_bits_ok : 0 <= Hub.BLE_IN_BITS <= 16.
Proof. unfold Hub.BLE_IN_BITS. lia. Qed.

(** With the stream running and a phone attached, the drain loop hands the
    payloads of the oldest items to the accumulator in order and loses
    none. *)
Lemma drain_loop_streaming (millis : nat -> (Z -> Z) * (Z -> Z)) :
  forall (n processed : nat) (q : Hub.BleInQueue) (item : Hub.IncomingBleItem)
         (st : Hub.State),
    RingQueue.wf Hub.BLE_IN_BITS q ->
    Forall ble_item_ok (RingQueue.contents Hub.BLE_IN_BITS q) ->
    buffer_ok st -> phone st = true -> Hub.isAudioStreaming st = true ->
    Hub.audioBufferIndex st < Hub.AUDIO_CHUNK_SIZE ->
    exists outs q' item' st',
      Hub.drain_loop n processed q item st millis = Some (outs, q', item', st')
      /\ RingQueue.wf Hub.BLE_IN_BITS q'
      /\ RingQueue.contents Hub.BLE_IN_BITS q'
         = drop n (RingQueue.contents Hub.BLE_IN_BITS q)
      /\ concat (ble_values outs) ++ Hub.pending st'
         = Hub.pending st
           ++ concat (map RingQueue.payload (take n (RingQueue.contents Hub.BLE_IN_BITS q)))
      /\ buffer_ok st'
      /\ Hub.audioBufferIndex st' < Hub.AUDIO_CHUNK_SIZE
      /\ mode st' = mode st.
Proof.
  induction n as [|n IH]; intros processed q item st Hwf Hitems Hok Hphone Hstream Hidx.
  - exists [], q, item, st. cbn. rewrite drop_0, app_nil_r. auto 10.
  - cbn [Hub.drain_loop]. unfold Hub.bleInPop.
    pose proof (contents_length Hub.BLE_IN_BITS ble_in_bits_ok q Hwf) as Hlen.
    pose proof (count_range Hub.BLE_IN_BITS ble_in_bits_ok q) as Hcr.
    destruct (Z.eq_dec (RingQueue.count Hub.BLE_IN_BITS q) 0) as [E0|Hne].
    + assert (Hnil : RingQueue.contents Hub.BLE_IN_BITS q = []).
      { apply length_zero_iff_nil. lia. }
      rewrite pop_empty by (eapply count_empty; eassumption).
      exists [], q, item, st. rewrite Hnil. cbn. rewrite app_nil_r. auto 10.
    + destruct (pop_contents Hub.BLE_IN_BITS ble_in_bits_ok q item Hwf ltac:(lia))
        as (q1 & it & rest & Hcont & Hpop & Hwf1 & Hc1 & Hrest).
      rewrite Hpop. cbn [RingQueue.data RingQueue.length].
      rewrite Hcont in Hitems. apply Forall_cons in Hitems as [[Hfill Hrange] Hitems].
      set (data1 := memcpy (RingQueue.data item) (RingQueue.data it)
                           (Z.to_nat (RingQueue.length it))).
      assert (Hpay : take (Z.to_nat (RingQueue.length it)) data1 = RingQueue.payload it).
      { subst data1. unfold memcpy, RingQueue.payload. unfold filled in Hfill.
        rewrite take_app_le by (rewrite length_take; lia).
        rewrite take_take. f_equal. lia. }
      assert (Hdata1 : RingQueue.length it <= Z.of_nat (length data1)).
      { subst data1. unfold memcpy. unfold filled in Hfill.
        rewrite length_app, length_take. lia. }
      set (item1 := RingQueue.mkItem (RingQueue.length it) data1 (RingQueue.tag it)).
      assert (Hadd : exists outs1 st1,
                 Hub.addAudioData st data1 (RingQueue.length it)
                                  (fst (millis processed)) (snd (millis processed))
                 = Some (outs1, st1)
                 /\ concat (ble_values outs1) ++ Hub.pending st1
                    = Hub.pending st ++ RingQueue.payload it
                 /\ Hub.audioBufferIndex st1 < Hub.AUDIO_CHUNK_SIZE).
      { destruct (Z.eq_dec (RingQueue.length it) 0) as [Ez|Hnz].
        - exists [], st. unfold Hub.addAudioData. rewrite Hstream, Ez. cbn.
          unfold RingQueue.payload. rewrite Ez. cbn. rewrite app_nil_r. auto.
        - destruct Hok as [Hbuf Hcur].
          destruct (addAudioData_stream st data1 (RingQueue.length it)
                      (fst (millis processed)) (snd (millis processed))
                      (conj Hbuf Hcur) Hphone Hstream ltac:(lia))
            as (outs1 & st1 & Hrun & Hcons & Hbelow).
          { rewrite Z.rem_small by (unfold Hub.AUDIO_CHUNK_SIZE in *; lia).
            unfold Hub.AUDIO_CHUNK_SIZE, Hub.AUDIO_BUFFER_SIZE in *. lia. }
          exists outs1, st1. split; [exact Hrun|]. split; [|exact (Hbelow Hidx)].
          rewrite Hcons, Hpay. reflexivity. }
      destruct Hadd as (outs1 & st1 & Hrun & Hcons & Hbelow).
      rewrite Hrun. cbn [mbind option_bind].
      pose proof (addAudioData_buffer_ok st data1 (RingQueue.length it) _ _ outs1 st1
                    Hok Hdata1 Hrun) as Hok1.
      pose proof (addAudioData_mode st data1 (RingQueue.length it) _ _ outs1 st1 Hrun)
        as Hmode1.
      assert (Hphone1 : phone st1 = true).
      { unfold mode in Hmode1. unfold phone in *. injection Hmode1 as -> -> _.
        exact Hphone. }
      assert (Hstream1 : Hub.isAudioStreaming st1 = true).
      { unfold mode in Hmode1. injection Hmode1 as _ _ ->. exact Hstream. }
      destruct (IH (S processed) q1 item1 st1 Hwf1 ltac:(rewrite Hrest; exact Hitems)
                   Hok1 Hphone1 Hstream1 Hbelow)
        as (outs2 & q' & item' & st' & Hd & Hwf' & Hcont' & Hcons' & Hok' & Hbelow' & Hmode').
      fold item1. rewrite Hd. cbn [mbind option_bind].
      exists (outs1 ++ outs2), q', item', st'. split; [reflexivity|].
      split; [exact Hwf'|]. rewrite Hcont. cbn [drop take map concat].
      split; [rewrite Hcont', Hrest; reflexivity|].
      split.
      * rewrite ble_values_app, concat_app, <- app_assoc, Hcons', Hrest.
        rewrite !app_assoc, Hcons. reflexivity.
      * split; [exact Hok'|]. split; [exact Hbelow'|]. congruence.
Qed.

(** With the stream stopped the loop still takes the items off the queue;
    [addAudioData] ignores them. *)
Lemma drain_loop_idle (millis : nat -> (Z -> Z) * (Z -> Z)) (st : Hub.State) :
  Hub.isAudioStreaming st = false ->
  forall (n processed : nat) (q : Hub.BleInQueue) (item : Hub.IncomingBleItem),
    RingQueue.wf Hub.BLE_IN_BITS q ->
    exists q' item',
      Hub.drain_loop n processed q item st millis = Some ([], q', item', st)
      /\ RingQueue.wf Hub.BLE_IN_BITS q'
      /\ RingQueue.contents Hub.BLE_IN_BITS q'
         = drop n (RingQueue.contents Hub.BLE_IN_BITS q).
Proof.
  intros Hidle. induction n as [|n IH]; intros processed q item Hwf.
  - exists q, item. cbn. rewrite drop_0. auto.
  - cbn [Hub.drain_loop]. unfold Hub.bleInPop.
    pose proof (contents_length Hub.BLE_IN_BITS ble_in_bits_ok q Hwf) as Hlen.
    pose proof (count_range Hub.BLE_IN_BITS ble_in_bits_ok q) as Hcr.
    destruct (Z.eq_dec (RingQueue.count Hub.BLE_IN_BITS q) 0) as [E0|Hne].
    + assert (Hnil : RingQueue.contents Hub.BLE_IN_BITS q = []).
      { apply length_zero_iff_nil. lia. }
      rewrite pop_empty by (eapply count_empty; eassumption).
      exists q, item. rewrite Hnil. cbn. auto.
    + destruct (pop_contents Hub.BLE_IN_BITS ble_in_bits_ok q item Hwf ltac:(lia))
        as (q1 & it & rest & Hcont & Hpop & Hwf1 & Hc1 & Hrest).
      rewrite Hpop.
      set (item1 := RingQueue.mkItem (RingQueue.length it)
                      (memcpy (RingQueue.data item) (RingQueue.data it)
                              (Z.to_nat (RingQueue.length it)))
                      (RingQueue.tag it)).
      unfold Hub.addAudioData at 1. rewrite Hidle. cbn [negb mbind option_bind].
      destruct (IH (S processed) q1 item1 Hwf1) as (q' & item' & Hd & Hwf' & Hcont').
      rewrite Hd. cbn [mbind option_bind app].
      exists q', item'. split; [reflexivity|]. split; [exact Hwf'|].
      rewrite Hcont, Hcont', Hrest. reflexivity.
Qed.

End HubDrainFacts.

(** X22.  One pass of the drain block of the Hub's [loop] takes the oldest
    items of the BLE-in ring, at most 8, in FIFO order, and always returns.
    While the stream runs with a phone attached and less than one chunk
    pending, nothing is lost or reordered: the bytes notified during the
    pass followed by the bytes pending after it are the bytes pending before
    it followed by the payloads of the items taken, and again less than one
    chunk stays pending.  While the stream is stopped the items are taken
    off the ring all the same and their bytes are dropped: nothing is sent
    and the Hub state is unchanged. *)
Theorem phone_audio_drained (q : Hub.BleInQueue) (item : Hub.IncomingBleItem)
    (st : Hub.State) (millis : nat -> (Z -> Z) * (Z -> Z)) :
  RingQueue.wf Hub.BLE_IN_BITS q ->
  Forall ble_item_ok (RingQueue.contents Hub.BLE_IN_BITS q) ->
  buffer_ok st ->
  phone st = true ->
  Hub.audioBufferIndex st < Hub.AUDIO_CHUNK_SIZE ->
  let taken := take 8 (RingQueue.contents Hub.BLE_IN_BITS q) in
  exists outs q' item' st',
    Hub.loop_drain q item st millis = Some (outs, q', item', st')
    /\ RingQueue.wf Hub.BLE_IN_BITS q'
    /\ RingQueue.contents Hub.BLE_IN_BITS q'
       = drop 8 (RingQueue.contents Hub.BLE_IN_BITS q)
    /\ (Hub.isAudioStreaming st = true ->
        concat (ble_values outs) ++ Hub.pending st'
        = Hub.pending st ++ concat (map RingQueue.payload taken)
        /\ Hub.audioBufferIndex st' < Hub.AUDIO_CHUNK_SIZE)
    /\ (Hub.isAudioStreaming st = false -> outs = [] /\ st' = st).
Proof.
  intros Hwf Hitems Hok Hphone Hidx taken. unfold Hub.loop_drain.
  destruct (Hub.isAudioStreaming st) eqn:Hstream.
  - destruct (drain_loop_streaming millis 8 0 q item st Hwf Hitems Hok Hphone Hstream Hidx)
      as (outs & q' & item' & st' & Hd & Hwf' & Hcont' & Hcons & _ & Hbelow & _).
    exists outs, q', item', st'. split; [exact Hd|]. split; [exact Hwf'|].
    split; [exact Hcont'|]. split; [auto | discriminate].
  - destruct (drain_loop_idle millis st Hstream 8 0 q item Hwf)
      as (q' & item' & Hd & Hwf' & Hcont').
    exists [], q', item', st. split; [exact Hd|]. split; [exact Hwf'|].
    split; [exact Hcont'|]. split; [discriminate | auto].
Qed.

(** Two writes waiting in the Hub's ring. *)
Definition two_writes : Hub.BleInQueue :=
  snd (Hub.bleInPushFromISR (snd (Hub.bleInPushFromISR Hub.bleInQueue_init [7; 9] 2)) [5] 1).

Lemma phone_audio_drained_witness :
  let item := RingQueue.mkItem 0 (replicate 256 0) tt in
  RingQueue.wf Hub.BLE_IN_BITS two_writes
  /\ Forall ble_item_ok (RingQueue.contents Hub.BLE_IN_BITS two_writes)
  /\ buffer_ok streaming_hub
  /\ phone streaming_hub = true
  /\ Hub.audioBufferIndex streaming_hub < Hub.AUDIO_CHUNK_SIZE
  /\ exists outs q' item' st',
       Hub.loop_drain two_writes item streaming_hub (fun _ => (fun _ => 0, fun _ => 0))
       = Some (outs, q', item', st')
       /\ RingQueue.contents Hub.BLE_IN_BITS q' = []
       /\ concat (ble_values outs) ++ Hub.pending st' = replicate 100 1 ++ [7; 9; 5].
Proof.
  cbv zeta.
  assert (Hwf : RingQueue.wf Hub.BLE_IN_BITS two_writes).
  { constructor;
      [split; [apply Z.leb_le | apply Z.ltb_lt]; vm_compute; reflexivity ..
      | vm_compute; reflexivity]. }
  assert (Hitems : Forall ble_item_ok (RingQueue.contents Hub.BLE_IN_BITS two_writes)).
  { apply Forall_forall. intros it Hit. vm_compute in Hit.
    repeat (apply elem_of_cons in Hit as [->|Hit];
            [split; [unfold filled; cbn; lia | cbn; lia]|]).
    apply elem_of_nil in Hit. contradiction. }
  assert (Hidx : Hub.audioBufferIndex streaming_hub < Hub.AUDIO_CHUNK_SIZE)
    by (vm_compute; reflexivity).
  destruct (phone_audio_drained two_writes (RingQueue.mkItem 0 (replicate 256 0) tt)
              streaming_hub (fun _ => (fun _ => 0, fun _ => 0))
              Hwf Hitems streaming_hub_ok eq_refl Hidx)
    as (outs & q' & item' & st' & Hrun & _ & Hcont & Hcons & _).
  split; [exact Hwf|]. split; [exact Hitems|]. split; [exact streaming_hub_ok|].
  split; [reflexivity|]. split; [exact Hidx|].
  exists outs, q', item', st'. split; [exact Hrun|].
  split; [rewrite Hcont; vm_compute; reflexivity|].
  destruct (Hcons eq_refl) as [-> _]. vm_compute. reflexivity.
Defined.

(** ** From a phone's write to the audio stream *)

Section PhoneWriteFacts.

(** What a push does to the Hub's ring when there is room. *)
Lemma ble_push_effect (q : Hub.BleInQueue) (buf : list byte) (len : Z) :
  RingQueue.wf Hub.BLE_IN_BITS q ->
  0 <= len <= Z.of_nat (length buf) ->
  RingQueue.count Hub.BLE_IN_BITS q < 15 ->
  let q' := snd (Hub.bleInPushFromISR q buf len) in
  RingQueue.wf Hub.BLE_IN_BITS q'
  /\ exists w,
       RingQueue.contents Hub.BLE_IN_BITS q' = RingQueue.contents Hub.BLE_IN_BITS q ++ [w]
       /\ ble_item_ok w
       /\ RingQueue.payload w = take (Z.to_nat (Z.min len 256)) buf.
Proof.
  intros Hwf Hlen Hroom q'. subst q'. unfold Hub.bleInPushFromISR.
  destruct (push_contents Hub.BLE_IN_BITS ble_in_bits_ok q buf len tt Hwf
              ltac:(change (RingQueue.RING_SIZE Hub.BLE_IN_BITS) with 16; lia))
    as (q1 & old & Hp & Hwf1 & _ & Hcont1).
  rewrite Hp. cbn [snd]. split; [exact Hwf1|].
  exists (RingQueue.write_slot (RingQueue.clip_len len) buf tt old).
  split; [exact Hcont1|]. split.
  - split; [apply filled_write_slot; exact Hlen|].
    cbn. unfold RingQueue.clip_len. destruct (Z.ltb_spec 256 len); lia.
  - pose proof (payload_write_slot old buf len tt Hlen) as Hseen.
    unfold RingQueue.seen, RingQueue.stored, RingQueue.clipped in Hseen.
    injection Hseen as Hpay. rewrite Hpay. f_equal. f_equal.
    unfold RingQueue.clip_len. destruct (Z.ltb_spec 256 len); lia.
Qed.

End PhoneWriteFacts.

(** X23.  From a write to the stream, through [MyCallbacks::onWrite], the
    ring and the next pass of [loop], with a phone attached and the ring
    empty.  A non-empty write that does not begin with [BEEP] leaves the
    beep flag alone, makes sure the stream is running and queues its first
    256 bytes; the next drain empties the ring and hands exactly these bytes
    to the accumulator, behind what was pending if the stream was already
    running, and after discarding it if the write had to start the stream.
    A write that begins with [BEEP] only sets the beep flag, and an empty
    write does nothing. *)
Theorem phone_write_reaches_stream (st : Hub.State) (q : Hub.BleInQueue)
    (pendingBeep : bool) (rxValue : list byte) (item : Hub.IncomingBleItem)
    (millis : nat -> (Z -> Z) * (Z -> Z)) :
  RingQueue.wf Hub.BLE_IN_BITS q ->
  RingQueue.contents Hub.BLE_IN_BITS q = [] ->
  buffer_ok st ->
  phone st = true ->
  (Hub.isAudioStreaming st = true -> Hub.audioBufferIndex st < Hub.AUDIO_CHUNK_SIZE) ->
  Z.of_nat (length rxValue) < 65536 ->
  (rxValue <> [] -> take 4 rxValue <> Hub.BEEP ->
   exists st1 q1 outs q' item' st',
     Hub.MyCallbacks_onWrite st q pendingBeep rxValue = (st1, q1, pendingBeep)
     /\ Hub.isAudioStreaming st1 = true
     /\ Hub.loop_drain q1 item st1 millis = Some (outs, q', item', st')
     /\ RingQueue.contents Hub.BLE_IN_BITS q' = []
     /\ concat (ble_values outs) ++ Hub.pending st'
        = (if Hub.isAudioStreaming st then Hub.pending st else []) ++ take 256 rxValue
     /\ Hub.audioBufferIndex st' < Hub.AUDIO_CHUNK_SIZE)
  /\ (take 4 rxValue = Hub.BEEP ->
      Hub.MyCallbacks_onWrite st q pendingBeep rxValue = (st, q, true))
  /\ (rxValue = [] ->
      Hub.MyCallbacks_onWrite st q pendingBeep rxValue = (st, q, pendingBeep)).
Proof.
  intros Hwf Hempty Hok Hphone Hidx Hshort.
  split; [|split].
  - intros Hne Hbeep. unfold Hub.MyCallbacks_onWrite.
    assert (Hpos : (0 <? Z.of_nat (length rxValue)) = true).
    { apply Z.ltb_lt. destruct rxValue; [contradiction | cbn [length]; lia]. }
    rewrite Hpos, bool_decide_eq_false_2 by exact Hbeep.
    assert (Hu16 : to_u16 (Z.of_nat (length rxValue)) = Z.of_nat (length rxValue)).
    { unfold to_u16. apply Z.mod_small. lia. }
    rewrite Hu16.
    set (st1 := if negb (Hub.isAudioStreaming st) then Hub.startAudioStream st else st).
    assert (Hst1 : buffer_ok st1 /\ phone st1 = true /\ Hub.isAudioStreaming st1 = true
                   /\ Hub.audioBufferIndex st1 < Hub.AUDIO_CHUNK_SIZE
                   /\ Hub.pending st1
                      = if Hub.isAudioStreaming st then Hub.pending st else []).
    { subst st1. unfold Hub.startAudioStream.
      destruct (Hub.isAudioStreaming st) eqn:Hs; cbn [negb].
      - auto 10.
      - destruct Hok as [Hl Hr]. unfold buffer_ok, phone, Hub.pending. cbn.
        unfold Hub.AUDIO_BUFFER_SIZE, Hub.AUDIO_CHUNK_SIZE in *.
        repeat split; try lia; try assumption. }
    destruct Hst1 as (Hok1 & Hphone1 & Hstream1 & Hidx1 & Hpend1).
    pose proof (contents_length Hub.BLE_IN_BITS ble_in_bits_ok q Hwf) as Hcount.
    rewrite Hempty in Hcount. cbn in Hcount.
    destruct (ble_push_effect q rxValue (Z.of_nat (length rxValue)) Hwf
                ltac:(lia) ltac:(lia)) as (Hwf1 & w & Hcont1 & Hw & Hpay).
    set (q1 := snd (Hub.bleInPushFromISR q rxValue (Z.of_nat (length rxValue)))) in *.
    rewrite Hempty in Hcont1. cbn [app] in Hcont1.
    destruct (drain_loop_streaming millis 8 0 q1 item st1 Hwf1
                ltac:(rewrite Hcont1; repeat constructor; apply Hw)
                Hok1 Hphone1 Hstream1 Hidx1)
      as (outs & q' & item' & st' & Hd & _ & Hcont' & Hcons & _ & Hbelow & _).
    exists st1, q1, outs, q', item', st'.
    split; [reflexivity|]. split; [exact Hstream1|]. split; [exact Hd|].
    split; [rewrite Hcont', Hcont1; reflexivity|]. split; [|exact Hbelow].
    rewrite Hcons, Hcont1, Hpend1. cbn [take map concat]. rewrite app_nil_r, Hpay.
    f_equal. destruct (Z.le_gt_cases (Z.of_nat (length rxValue)) 256).
    + rewrite !take_ge by lia. reflexivity.
    + f_equal. lia.
  - intros Hbeep. unfold Hub.MyCallbacks_onWrite.
    assert (Hpos : (0 <? Z.of_nat (length rxValue)) = true).
    { apply Z.ltb_lt. destruct rxValue; [discriminate | cbn [length]; lia]. }
    rewrite Hpos, bool_decide_eq_true_2 by exact Hbeep. reflexivity.
  - intros ->. reflexivity.
Qed.

Lemma phone_write_reaches_stream_witness :
  let item := RingQueue.mkItem 0 (replicate 256 0) tt in
  let clocks := fun _ : nat => (fun _ : Z => 0, fun _ : Z => 0) in
  RingQueue.wf Hub.BLE_IN_BITS Hub.bleInQueue_init
  /\ RingQueue.contents Hub.BLE_IN_BITS Hub.bleInQueue_init = []
  /\ buffer_ok streaming_hub
  /\ phone streaming_hub = true
  /\ Z.of_nat (length (replicate 300 3)) < 65536
  /\ exists st1 q1 outs q' item' st',
       Hub.MyCallbacks_onWrite streaming_hub Hub.bleInQueue_init false (replicate 300 3)
       = (st1, q1, false)
       /\ Hub.loop_drain q1 item st1 clocks = Some (outs, q', item', st')
       /\ concat (ble_values outs) = replicate 100 1 ++ replicate 100 3
       /\ Hub.pending st' = replicate 156 3.
Proof.
  cbv zeta.
  assert (Hshort : Z.of_nat (length (replicate 300 3)) < 65536) by (rewrite length_replicate; lia).
  destruct (phone_write_reaches_stream streaming_hub Hub.bleInQueue_init false
              (replicate 300 3) (RingQueue.mkItem 0 (replicate 256 0) tt)
              (fun _ => (fun _ => 0, fun _ => 0))
              bleInQueue_init_wf eq_refl streaming_hub_ok eq_refl
              ltac:(intros _; vm_compute; reflexivity) Hshort)
    as (Hwrite & _ & _).
  destruct (Hwrite ltac:(discriminate) ltac:(discriminate))
    as (st1 & q1 & outs & q' & item' & st' & Hw & _ & Hd & _ & _ & _).
  split; [exact bleInQueue_init_wf|]. split; [reflexivity|].
  split; [exact streaming_hub_ok|]. split; [reflexivity|]. split; [exact Hshort|].
  exists st1, q1, outs, q', item', st'. split; [exact Hw|]. split; [exact Hd|].
  vm_compute in Hw. injection Hw as <- <-.
  vm_compute in Hd. injection Hd as <- _ _ <-.
  split; vm_compute; reflexivity.
Defined.

(** ** A console ping at the Relay *)

Section PingFacts.

(** The first colon ends the first digit run. *)
Lemma digit_run_unique (d1 : list byte) : forall d2 r1 r2,
  Forall is_digit d1 -> Forall is_digit d2 ->
  d1 ++ COLON :: r1 = d2 ++ COLON :: r2 -> d1 = d2 /\ r1 = r2.
Proof.
  induction d1 as [|c d1 IH]; intros d2 r1 r2 H1 H2 E.
  - destruct d2 as [|c2 d2]; [cbn in E; injection E as <-; auto|].
    cbn in E. injection E as <- _. apply Forall_cons in H2 as [Hc _].
    unfold is_digit, COLON in Hc. lia.
  - apply Forall_cons in H1 as [Hc H1]. destruct d2 as [|c2 d2].
    + cbn in E. injection E as -> _. unfold is_digit, COLON in Hc. lia.
    + apply Forall_cons in H2 as [_ H2]. cbn in E. injection E as <- E.
      destruct (IH d2 r1 r2 H1 H2 E) as [-> ->]. auto.
Qed.

(** What the receive callback does with any frame of the compact shape. *)
Lemma shaped_frame_effect (st : Relay.State) (fields : list (list byte))
    (payload : list byte) (values : list Z) (processed : list byte) (now : Z) :
  length fields = 8%nat -> Forall (Forall is_digit) fields -> payload <> [] ->
  length values = 8%nat -> length processed = 256%nat ->
  RingQueue.wf Relay.NOTIFY_RING_BITS (Relay.notifyQueue st) ->
  let frame := [CHAR_P; COLON] ++ header_fields fields ++ payload in
  let vals := map (field_value 0) fields in
  let q := Relay.notifyQueue st in
  exists st',
    Relay.OnDataRecv_frames st frame values processed now
    = Relay.Handled [Relay.AudioChunkAck (Relay.esp32_a_mac st) (nth 0 vals 0) (nth 1 vals 0)
                                         "received" now] st'
    /\ Relay.packetsReceived st' = to_u32 (Relay.packetsReceived st + 1)
    /\ Relay.bytesReceived st'
       = to_u32 (Relay.bytesReceived st + Z.of_nat (length payload))
    /\ (Relay.bleDeviceConnected st = true ->
        RingQueue.count Relay.NOTIFY_RING_BITS q < 63 ->
        map RingQueue.seen (RingQueue.contents Relay.NOTIFY_RING_BITS (Relay.notifyQueue st'))
        = map RingQueue.seen (RingQueue.contents Relay.NOTIFY_RING_BITS q)
          ++ [(Z.min (Z.of_nat (length payload)) 256, take 256 payload, 0)])
    /\ (Relay.bleDeviceConnected st = false
        \/ RingQueue.count Relay.NOTIFY_RING_BITS q = 63 ->
        Relay.notifyQueue st' = q).
Proof.
  intros Hn Hd Hne Hvals Hproc Hwf frame vals q.
  pose proof (parse_shape_accepted values 0 fields payload Hvals Hn Hd Hne) as Hparse.
  cbv zeta in Hparse. fold frame in Hparse.
  set (hl := length (header_fields fields)).
  assert (Hpl : (1 <= length payload)%nat) by (destruct payload; [contradiction | cbn; lia]).
  assert (Hfl : length frame = (2 + hl + length payload)%nat).
  { subst frame hl. cbn [app length]. rewrite length_app. lia. }
  assert (H0 : nth 0 frame 0 = CHAR_P) by reflexivity.
  assert (H1 : nth 1 frame 0 = COLON) by reflexivity.
  set (start := Z.of_nat (length frame) - Z.of_nat (length payload)) in *.
  assert (Hstart : start = Z.of_nat (2 + hl)) by (subst start; lia).
  assert (Hdrop : drop (Z.to_nat start) frame = payload).
  { rewrite Hstart, Nat2Z.id. subst frame hl. cbn [app Nat.add drop].
    rewrite drop_app_length. reflexivity. }
  set (n := Z.of_nat (length payload)) in *.
  set (copyLen := if n <? 256 then n else 256).
  assert (Hcopy : copyLen = Z.min n 256).
  { subst copyLen. destruct (Z.ltb_spec n 256); lia. }
  unfold Relay.OnDataRecv_frames. cbv beta zeta.
  rewrite H0, H1, Hparse, !Z.eqb_refl.
  replace (2 <? Z.of_nat (length frame)) with true by (symmetry; apply Z.ltb_lt; lia).
  replace (0 <? start) with true by (symmetry; apply Z.ltb_lt; lia).
  replace (start <? Z.of_nat (length frame)) with true
    by (symmetry; apply Z.ltb_lt; lia).
  cbn [andb].
  replace (Z.of_nat (length frame) - start) with n by lia.
  rewrite Hdrop. unfold Relay.decompressOptimizedAudio.
  replace (n <=? 0) with false by (symmetry; apply Z.leb_gt; lia).
  cbn [orb Z.leb Z.compare]. fold copyLen.
  replace (copyLen <=? 0) with false by (symmetry; apply Z.leb_gt; lia).
  replace (256 <? copyLen) with false by (symmetry; apply Z.ltb_ge; lia).
  cbn [orb].
  assert (Hu16 : to_u16 copyLen = copyLen) by (unfold to_u16; apply Z.mod_small; lia).
  rewrite Hu16.
  set (buf := memcpy processed payload (Z.to_nat copyLen)).
  assert (Hbuf : 0 <= copyLen <= Z.of_nat (length buf)).
  { subst buf. unfold memcpy. rewrite length_app, length_take, length_drop. lia. }
  destruct (notify_push_effect q buf copyLen 0 Hwf Hbuf) as (Hwf' & _ & Hroom & Hfull).
  assert (Hstored : RingQueue.stored (buf, copyLen, 0)
                    = (Z.min n 256, take 256 payload, 0)).
  { unfold RingQueue.stored, RingQueue.clipped, RingQueue.clip_len.
    replace (256 <? copyLen) with false by (symmetry; apply Z.ltb_ge; lia).
    subst buf. unfold memcpy.
    rewrite take_app_le by (rewrite length_take; lia).
    rewrite take_take, Nat.min_id, Hcopy. f_equal. f_equal.
    destruct (Z.le_gt_cases n 256).
    - rewrite !take_ge by lia. reflexivity.
    - f_equal. lia. }
  eexists. split; [reflexivity|].
  cbn [Relay.packetsReceived Relay.bytesReceived Relay.notifyQueue
       Relay.count_packet Relay.set_queue].
  fold q.
  split; [reflexivity|]. split; [reflexivity|].
  destruct (Relay.bleDeviceConnected st).
  - split.
    + intros _ Hc. rewrite (Hroom Hc), Hstored. reflexivity.
    + intros [H|H]; [discriminate | exact (Hfull H)].
  - split; [intros H; discriminate | reflexivity].
Qed.

(** The frame [send_ping] builds. *)
Lemma send_ping_frame (st : Hub.State) (pingSeq : Z) (text : list byte) :
  text <> [] ->
  Z.of_nat (length (decimal pingSeq)) + 3 + Z.of_nat (length text) < 128 ->
  Hub.send_ping st pingSeq text
  = (sends_of ([CHAR_P; COLON] ++ decimal pingSeq ++ COLON :: text) (Hub.live st),
     to_u32 (pingSeq + 1)).
Proof.
  intros Hne Hfit. unfold Hub.send_ping.
  assert (Hpos : (Z.of_nat (length text) =? 0) = false).
  { apply Z.eqb_neq. destruct text; [contradiction | cbn [length]; lia]. }
  rewrite Hpos.
  pose proof (decimal_length pingSeq) as Hdl.
  set (printed := [CHAR_P; COLON] ++ decimal pingSeq ++ [COLON]).
  assert (Hpl : length printed = (length (decimal pingSeq) + 3)%nat).
  { subst printed. cbn [app length]. rewrite length_app. cbn [length]. lia. }
  replace (Z.of_nat (length printed) + Z.of_nat (length text) <? 128) with true
    by (symmetry; apply Z.ltb_lt; lia).
  rewrite (take_ge printed 31) by lia.
  rewrite Nat2Z.id, take_app_length.
  unfold sends_of. subst printed. f_equal.
  rewrite <- !app_assoc. reflexivity.
Qed.

End PingFacts.

(** Seven digit runs closed by colons and then at least one byte: the text
    that, behind the ping's own counter, reads as a compact audio frame. *)
Definition audio_shaped (text : list byte) (fs : list (list byte)) (payload : list byte)
  : Prop :=
  length fs = 7%nat /\ Forall (Forall is_digit) fs /\ payload <> []
  /\ text = header_fields fs ++ payload.

(** X24.  The [send_ping] console command hands every active registered
    peer the datagram [P:<counter>:<text>] (when it fits in 127 bytes) and
    advances its counter.  The Relay never takes such a datagram as a ping:
    the audio branch of its receive callback sees the [P:] first.  A text
    that does not consist of seven colon-closed digit runs followed by at
    least one byte is dropped without any effect (no acknowledgement,
    counters and queue unchanged).  A text that does is taken as an audio
    chunk: it is acknowledged with the counter as its sequence number, and
    with a phone connected and room in the ring the bytes after the seventh
    colon (at most 256) are queued as raw audio for the phone. *)
Theorem console_ping_at_relay (hub : Hub.State) (pingSeq : Z) (text : list byte)
    (st : Relay.State) (values : list Z) (processed : list byte) (now : Z) :
  0 <= pingSeq < 4294967296 ->
  text <> [] ->
  Z.of_nat (length (decimal pingSeq)) + 3 + Z.of_nat (length text) < 128 ->
  length values = 8%nat ->
  length processed = 256%nat ->
  RingQueue.wf Relay.NOTIFY_RING_BITS (Relay.notifyQueue st) ->
  let frame := [CHAR_P; COLON] ++ decimal pingSeq ++ COLON :: text in
  Hub.send_ping hub pingSeq text = (sends_of frame (Hub.live hub), to_u32 (pingSeq + 1))
  /\ ((forall fs payload, ~ audio_shaped text fs payload) ->
      Relay.OnDataRecv_frames st frame values processed now = Relay.Handled [] st)
  /\ (forall fs payload,
        audio_shaped text fs payload ->
        exists st',
          Relay.OnDataRecv_frames st frame values processed now
          = Relay.Handled
              [Relay.AudioChunkAck (Relay.esp32_a_mac st)
                                   (field_value 0 (decimal pingSeq))
                                   (field_value 0 (nth 0 fs [])) "received" now] st'
          /\ (Relay.bleDeviceConnected st = true ->
              RingQueue.count Relay.NOTIFY_RING_BITS (Relay.notifyQueue st) < 63 ->
              map RingQueue.seen
                  (RingQueue.contents Relay.NOTIFY_RING_BITS (Relay.notifyQueue st'))
              = map RingQueue.seen
                    (RingQueue.contents Relay.NOTIFY_RING_BITS (Relay.notifyQueue st))
                ++ [(Z.min (Z.of_nat (length payload)) 256, take 256 payload, 0)])).
Proof.
  intros Hseq Hne Hfit Hvals Hproc Hwf frame.
  assert (Hdig : Forall is_digit (decimal pingSeq)) by (apply decimal_digits; lia).
  split; [apply send_ping_frame; assumption|]. split.
  - intros Hplain. unfold Relay.OnDataRecv_frames. cbv beta zeta.
    assert (H0 : nth 0 frame 0 = CHAR_P) by reflexivity.
    assert (H1 : nth 1 frame 0 = COLON) by reflexivity.
    rewrite H0, H1, !Z.eqb_refl.
    replace (2 <? Z.of_nat (length frame)) with true
      by (symmetry; apply Z.ltb_lt; subst frame; cbn [app length];
          rewrite length_app; cbn [length]; lia).
    cbn [andb].
    destruct (Relay.parseCompactAudioHeader frame values 0) as [[ok values'] start] eqn:Hp.
    destruct ok; [|reflexivity]. exfalso.
    destruct (parse_accepts_shape frame values 0 values' start Hvals Hp)
      as (fields & payload & Hn & Hd & Hpne & Hshape & _).
    destruct fields as [|f fs]; [discriminate|].
    apply Forall_cons in Hd as [Hf Hfs].
    subst frame. unfold header_fields in Hshape. cbn [map concat app] in Hshape.
    injection Hshape as Hshape. rewrite <- !app_assoc in Hshape. cbn [app] in Hshape.
    destruct (digit_run_unique _ _ _ _ Hdig Hf Hshape) as [_ Htext].
    apply (Hplain fs payload). repeat split; [cbn [length] in Hn; lia | exact Hfs | exact Hpne |].
    exact Htext.
  - intros fs payload (Hn & Hfs & Hpne & ->).
    destruct (shaped_frame_effect st (decimal pingSeq :: fs) payload values processed now
                ltac:(cbn [length]; lia) ltac:(constructor; assumption)
                Hpne Hvals Hproc Hwf) as (st' & Hrun & _ & _ & Hroom & _).
    cbv zeta in Hrun.
    assert (Hframe : [CHAR_P; COLON] ++ header_fields (decimal pingSeq :: fs) ++ payload
                     = frame).
    { subst frame. unfold header_fields. cbn [map concat app].
      rewrite <- !app_assoc. reflexivity. }
    rewrite Hframe in Hrun. exists st'. split; [|exact Hroom].
    rewrite Hrun. destruct fs as [|f1 fs]; [discriminate|]. reflexivity.
Qed.

(** The console line [send_ping:1:2:3:4:5:6:7:hi] with the counter at 5. *)
Definition ping_text : list byte :=
  [49; 58; 50; 58; 51; 58; 52; 58; 53; 58; 54; 58; 55; 58; 104; 105].

Lemma console_ping_at_relay_witness :
  0 <= 5 < 4294967296
  /\ ping_text <> []
  /\ Z.of_nat (length (decimal 5)) + 3 + Z.of_nat (length ping_text) < 128
  /\ length (replicate 8 0) = 8%nat
  /\ length (replicate 256 0) = 256%nat
  /\ RingQueue.wf Relay.NOTIFY_RING_BITS (Relay.notifyQueue relay_with_phone)
  /\ audio_shaped ping_text [[49]; [50]; [51]; [52]; [53]; [54]; [55]] [104; 105]
  /\ exists st',
       Relay.OnDataRecv_frames relay_with_phone
         ([CHAR_P; COLON] ++ decimal 5 ++ COLON :: ping_text)
         (replicate 8 0) (replicate 256 0) 9000
       = Relay.Handled
           [Relay.AudioChunkAck (16, 0, 59, 72, 156, 60) 5 1 "received" 9000] st'
       /\ map RingQueue.seen
            (RingQueue.contents Relay.NOTIFY_RING_BITS (Relay.notifyQueue st'))
          = [(2, [104; 105], 0)].
Proof.
  assert (H1 : 0 <= 5 < 4294967296) by lia.
  assert (H2 : ping_text <> []) by discriminate.
  assert (H3 : Z.of_nat (length (decimal 5)) + 3 + Z.of_nat (length ping_text) < 128)
    by (vm_compute; reflexivity).
  assert (Hshape : audio_shaped ping_text [[49]; [50]; [51]; [52]; [53]; [54]; [55]]
                                [104; 105]).
  { split; [reflexivity|]. split.
    - repeat constructor; unfold is_digit; lia.
    - split; [discriminate | reflexivity]. }
  destruct (console_ping_at_relay full_hub 5 ping_text relay_with_phone
              (replicate 8 0) (replicate 256 0) 9000
              H1 H2 H3 eq_refl eq_refl notifyQueue_init_wf)
    as (_ & _ & Haudio).
  destruct (Haudio _ _ Hshape) as (st' & Hrun & Hroom).
  split; [exact H1|]. split; [exact H2|]. split; [exact H3|].
  split; [reflexivity|]. split; [reflexivity|]. split; [exact notifyQueue_init_wf|].
  split; [exact Hshape|].
  exists st'. split; [exact Hrun|].
  rewrite Hroom; [reflexivity | reflexivity | vm_compute; reflexivity].
Defined.

(** ** The flush block that ends the Relay's [setup] *)

(** X25.  The flush block at the end of the Relay's [setup], phone already
    connected, clock not within 25 ms of wrapping: the oldest items of the
    queue, at most 6, are taken in FIFO order into an empty buffer of 1536
    bytes, each under the tag the block's own item holds (not zero: the
    item's bytes upsampled as 8-bit samples; zero: 240 bytes of value 128).
    If fewer than 200 bytes came together nothing is notified, otherwise
    the first 1280 bytes are, in pieces of 1 to 160 bytes; the rest stays in
    the block's own buffer, which no other code reads.  Without a phone the
    block does nothing. *)
Theorem setup_pass_stream (nowMs : Z) (q : Relay.NotifyQueue) (item : Relay.NotifyItem) :
  0 <= nowMs < 4294967296 - 25 ->
  RingQueue.wf Relay.NOTIFY_RING_BITS q ->
  Forall sound_item (RingQueue.contents Relay.NOTIFY_RING_BITS q) ->
  let ingested := take 6 (RingQueue.contents Relay.NOTIFY_RING_BITS q) in
  let stream :=
    fold_left (absorb 1536)
              (map (fun it =>
                      if Relay.isPcm8 item =? 0 then replicate 240 128
                      else upsample_all (take 256 (RingQueue.payload it)))
                   ingested) [] in
  (exists sent q' c',
      Relay.Consumer.setup_flush true nowMs q item = (sent, q', c')
      /\ RingQueue.wf Relay.NOTIFY_RING_BITS q'
      /\ RingQueue.contents Relay.NOTIFY_RING_BITS q'
         = drop 6 (RingQueue.contents Relay.NOTIFY_RING_BITS q)
      /\ Forall notification_sized sent
      /\ ((length stream < 200)%nat -> sent = [] /\ buffered c' = stream)
      /\ ((200 <= length stream)%nat ->
          concat sent = take 1280 stream /\ buffered c' = drop 1280 stream))
  /\ exists c, Relay.Consumer.setup_flush false nowMs q item = ([], q, c).
Proof.
  intros Hnow Hwf Hs ingested stream. split; [|eexists; reflexivity].
  unfold Relay.Consumer.setup_flush.
  set (c := Relay.mkCoalescer (replicate 1536 0) 0).
  assert (Hok : coalescer_ok 1536 c) by (split; [reflexivity | cbn; lia]).
  destruct (drain_spec Relay.setup_ingest loop_contribution 1536
              (fun c it => loop_ingest_sized_spec 1536 c it) 6 q item c Hwf Hs Hok)
    as (q1 & item1 & c1 & Hd & Hwf1 & Hcont1 & Hok1 & Hbuf1).
  rewrite Hd. change (buffered c) with (@nil byte) in Hbuf1.
  fold ingested in Hbuf1.
  assert (Hstream : buffered c1 = stream).
  { rewrite Hbuf1. subst stream. f_equal. apply map_ext. intros it.
    unfold loop_contribution, treated. destruct (Relay.isPcm8 item =? 0); reflexivity. }
  clear Hbuf1. rename Hstream into Hbuf1.
  pose proof (buffered_length 1536 c1 Hok1) as Hbl. rewrite Hbuf1 in Hbl.
  destruct (flush_spec 1536 1280 c1 Hok1 ltac:(lia)) as (Hf1 & Hf2 & Hf3 & Hf4).
  assert (Hdue : (to_u32 (nowMs + 25) <=? nowMs) = false).
  { apply Z.leb_gt. unfold to_u32. rewrite Z.mod_small by lia. lia. }
  rewrite Hdue, orb_false_r.
  destruct (Z.leb_spec 200 (Relay.coalesceLen c1)) as [Hgo|Hgo].
  - destruct (Relay.flush 1280 c1) as [sent c2]. cbn [fst snd] in *.
    exists sent, q1, c2. split; [reflexivity|]. split; [exact Hwf1|].
    split; [exact Hcont1|]. split; [exact Hf4|]. split; [intros Hshort; lia|].
    intros _. destruct Hok1 as [_ Hr].
    rewrite Hf1, Hf2, Hbuf1.
    destruct (Z.le_gt_cases 1280 (Relay.coalesceLen c1)).
    + replace (Z.to_nat (Z.min (Relay.coalesceLen c1) 1280)) with 1280%nat by lia. auto.
    + rewrite !take_ge, !drop_ge by lia. auto.
  - exists [], q1, c1. split; [reflexivity|]. split; [exact Hwf1|].
    split; [exact Hcont1|]. split; [constructor|]. split; [auto|].
    intros Hlong. lia.
Qed.

Lemma setup_pass_stream_witness :
  let q := snd (Relay.notifyQueuePushFromISR Relay.notifyQueue_init [0; 128; 255] 3 1) in
  let item := RingQueue.mkItem 0 (replicate 512 0) 1 in
  0 <= 5000 < 4294967296 - 25
  /\ RingQueue.wf Relay.NOTIFY_RING_BITS q
  /\ Forall sound_item (RingQueue.contents Relay.NOTIFY_RING_BITS q)
  /\ exists q' c',
       Relay.Consumer.setup_flush true 5000 q item = ([], q', c')
       /\ RingQueue.contents Relay.NOTIFY_RING_BITS q' = []
       /\ buffered c' = [0; 128; 0; 0; 0; 127].
Proof.
  cbv zeta.
  set (q := snd (Relay.notifyQueuePushFromISR Relay.notifyQueue_init [0; 128; 255] 3 1)).
  assert (Hnow : 0 <= 5000 < 4294967296 - 25) by lia.
  assert (Hwf : RingQueue.wf Relay.NOTIFY_RING_BITS q).
  { constructor;
      [split; [apply Z.leb_le | apply Z.ltb_lt]; vm_compute; reflexivity ..
      | vm_compute; reflexivity]. }
  assert (Hs : Forall sound_item (RingQueue.contents Relay.NOTIFY_RING_BITS q)).
  { vm_compute. repeat constructor; intros H; discriminate H. }
  destruct (proj1 (setup_pass_stream 5000 q (RingQueue.mkItem 0 (replicate 512 0) 1)
                     Hnow Hwf Hs))
    as (sent & q' & c' & Hrun & _ & Hcont & _ & Hshort & _).
  destruct (Hshort ltac:(vm_compute; lia)) as [-> Hbuf].
  split; [exact Hnow|]. split; [exact Hwf|]. split; [exact Hs|].
  exists q', c'. split; [exact Hrun|]. split; [rewrite Hcont; vm_compute; reflexivity|].
  rewrite Hbuf. vm_compute. reflexivity.
Defined.

(** ** The [isPcm8] tag between the radio callback and the consumers *)

(** The queue of a Relay with a phone connected after the radio callback
    has received [frame]. *)
Definition queue_after (frame : list byte) : Relay.NotifyQueue :=
  match Relay.OnDataRecv_frames relay_with_phone frame (replicate 8 0)
                                (replicate 256 0) 9000 with
  | Relay.Handled _ st => Relay.notifyQueue st
  | Relay.Json => Relay.notifyQueue relay_with_phone
  end.

(** An [R:] frame of three 8-bit samples, and a compact frame of the Hub
    carrying four bytes of 16-bit audio. *)
Definition legacy8_frame : list byte := CHAR_R_frame [0; 128; 255].

Definition raw_frame : list byte :=
  Hub.compact_header 7 0 1 5000 16000 16 128 128 ++ COLON :: [1; 2; 3; 4].

(** A consumer's [NotifyItem item] as its stack holds it before the first
    pop; [t] is what its [isPcm8] reads. *)
Definition stack_item (t : Z) : Relay.NotifyItem :=
  RingQueue.mkItem 0 (replicate 512 0) t.

Definition empty_coalescer (size : nat) : Relay.Coalescer :=
  Relay.mkCoalescer (replicate size 0) 0.

(** C5: the conversion itself is the one claimed, [(s8 - 128) << 8] for
    every byte, with 0, 128 and 255 giving -32768, 0 and 32512; but whether
    a queued item goes through it does not depend on the tag it was queued
    with.  [notifyQueuePop] does not hand the tag over, so each consumer
    tests the [isPcm8] its own stack item happens to hold.  The three
    samples 0, 128, 255 of an [R:] frame, queued as 8-bit PCM, leave [loop]
    and [setup] as 240 bytes of value 128 and are buffered by
    [bleNotifyTask] as the three bytes they are when that field reads 0;
    they are converted only when it reads something else. *)
Theorem legacy8_tag_not_popped :
  Forall (fun s8 => Relay.upsample s8 = (s8 - 128) * 256
                    /\ Z.shiftl (s8 - 128) 8 = (s8 - 128) * 256
                    /\ Relay.sample_of (pcm_lo s8) (pcm_hi s8) = Relay.upsample s8)
         (seqZ 0 256)
  /\ Relay.upsample 0 = -32768
  /\ Relay.upsample 128 = 0
  /\ Relay.upsample 255 = 32512
  /\ map RingQueue.seen
         (RingQueue.contents Relay.NOTIFY_RING_BITS (queue_after legacy8_frame))
     = [(3, [0; 128; 255], 1)]
  /\ (forall (t : Z) (due : bool),
        let r := Relay.Consumer.loop_flush true due (queue_after legacy8_frame)
                   (stack_item t) (empty_coalescer 4096) in
        fst (fst r)
        = (if t =? 0 then [replicate 160 128; replicate 80 128]
           else if due then [[0; 128; 0; 0; 0; 127]] else [])
        /\ buffered (snd r)
           = (if (t =? 0) || due then [] else [0; 128; 0; 0; 0; 127]))
  /\ (forall t : Z,
        let r := Relay.Consumer.setup_flush true 9000 (queue_after legacy8_frame)
                   (stack_item t) in
        fst (fst r) = (if t =? 0 then [replicate 160 128; replicate 80 128] else [])
        /\ buffered (snd r) = (if t =? 0 then [] else [0; 128; 0; 0; 0; 127]))
  /\ (forall t : Z,
        let r := Relay.Consumer.bleNotifyTask_cycle true (queue_after legacy8_frame)
                   (fun _ => stack_item t) (empty_coalescer 1536) in
        fst (fst r) = []
        /\ buffered (snd r) = (if t =? 0 then [0; 128; 255] else [0; 128; 0; 0; 0; 127])).
Proof.
  split.
  { pose proof upsample_bytes_all as Hall. rewrite forallb_forall in Hall.
    apply Forall_forall. intros s8 Hin.
    specialize (Hall s8 (proj1 (list_elem_of_In _ _) Hin)).
    apply andb_true_iff in Hall as [Hall H3]. apply andb_true_iff in Hall as [H1 H2].
    apply Z.eqb_eq in H1, H2, H3. rewrite H2, H3, H1. auto. }
  split; [reflexivity|]. split; [reflexivity|]. split; [reflexivity|].
  split; [vm_compute; reflexivity|].
  split; [intros [|p|p] [|]; split; vm_compute; reflexivity|].
  split; intros [|p|p]; split; vm_compute; reflexivity.
Qed.

(** C8: a raw item is not appended unchanged on the flush paths that run.
    Four bytes of 16-bit audio in a compact frame are queued untagged; the
    flush code of [loop] and the copy of it in [setup] put 240 bytes of
    value 128 in their place when the [isPcm8] of the consumer's stack item
    reads 0, and the four bytes converted as if they were 8-bit samples when
    it reads anything else: in neither case the four bytes themselves.
    [bleNotifyTask] appends them unchanged only when its own stack item's
    [isPcm8] reads 0. *)
Theorem raw_item_replaced_by_silence :
  map RingQueue.seen
      (RingQueue.contents Relay.NOTIFY_RING_BITS (queue_after raw_frame))
  = [(4, [1; 2; 3; 4], 0)]
  /\ (forall (t : Z) (due : bool),
        let r := Relay.Consumer.loop_flush true due (queue_after raw_frame)
                   (stack_item t) (empty_coalescer 4096) in
        fst (fst r)
        = (if t =? 0 then [replicate 160 128; replicate 80 128]
           else if due then [[0; 129; 0; 130; 0; 131; 0; 132]] else [])
        /\ buffered (snd r)
           = (if (t =? 0) || due then [] else [0; 129; 0; 130; 0; 131; 0; 132]))
  /\ (forall t : Z,
        let r := Relay.Consumer.setup_flush true 9000 (queue_after raw_frame)
                   (stack_item t) in
        fst (fst r) = (if t =? 0 then [replicate 160 128; replicate 80 128] else [])
        /\ buffered (snd r)
           = (if t =? 0 then [] else [0; 129; 0; 130; 0; 131; 0; 132]))
  /\ (forall t : Z,
        let r := Relay.Consumer.bleNotifyTask_cycle true (queue_after raw_frame)
                   (fun _ => stack_item t) (empty_coalescer 1536) in
        fst (fst r) = []
        /\ buffered (snd r)
           = (if t =? 0 then [1; 2; 3; 4] else [0; 129; 0; 130; 0; 131; 0; 132])).
Proof.
  split; [vm_compute; reflexivity|].
  split; [intros [|p|p] [|]; split; vm_compute; reflexivity|].
  split; intros [|p|p]; split; vm_compute; reflexivity.
Qed.
